(** * sjtu::linked_hashmap — an insertion-ordered hash map

    Shallow embedding of [src/linked_hashmap.hpp] and the properties of its
    public operations.

    The C++ class keeps two structures over the same heap nodes: an array of
    bucket chains ([Bucket **table]) and a doubly-linked list threaded through
    the nodes between two sentinels ([head], [tail]).  Iterators are raw
    (node pointer, container pointer) pairs.  The embedding therefore keeps an
    explicit store: a heap of list nodes, a heap of container objects, and a
    bump allocator.  Every operation is a computation in a small monad whose
    outcome is a normal return, a thrown exception (together with the store at
    the point of the throw) or undefined behaviour (a dereference of a null or
    dangling pointer, a division by zero, a walk that never ends).

    The operations are embedded on the path on which every [new] succeeds.
    The path of [insert] on which the allocation of the bucket cell fails is
    embedded next to it ([insert_bad_alloc]). *)

From stdpp Require Import base numbers option list gmap fin_maps.

Set Default Proof Using "Type".

(** ** Machine integers and pointers *)

(** [size_t] is a 64-bit unsigned integer; arithmetic on it wraps. *)
Definition wrap64 (n : N) : N := (n mod 2 ^ 64)%N.

(** Pointers are addresses; the null pointer is address 0. *)
Abbreviation ptr := N (only parsing).
Definition null : ptr := 0%N.

(** The [Hash] template parameter: a functor from keys to [size_t]. *)
Class Hash (K : Type) := hasher : K → N.

(** The value-initialised [T()] of the mapped type. *)
Class Default (T : Type) := T_default : T.

(** The exceptions that leave the container: the two classes of
    [exceptions.hpp] that it throws itself, and the [std::bad_alloc] of a
    [new] that fails, which it never catches. *)
Inductive exn := invalid_iterator | index_out_of_bound | bad_alloc.

#[global] Instance exn_eq_dec : EqDecision exn.
Proof. solve_decision. Defined.

(** [static const size_t INITIAL_CAPACITY = 16]. *)
Definition INITIAL_CAPACITY : N := 16%N.

(** [element_count >= table_size * LOAD_FACTOR] with [LOAD_FACTOR = 0.75].
    The C++ comparison is carried out in [double]; both sides are exactly
    representable as long as [table_size < 2^51] and [element_count < 2^53],
    and in that range the test is the integer comparison below. *)
Definition load_reached (element_count table_size : N) : bool :=
  bool_decide (3 * table_size ≤ 4 * element_count)%N.

Section Model.
Context {Key T : Type} `{EqDecision Key} `{Hash Key} `{Default T}.

(** [typedef pair<const Key, T> value_type]. *)
#[local] Abbreviation value_type := (Key * T)%type (only parsing).

(** [Equal = std::equal_to<Key>]. *)
Definition equal (a b : Key) : bool := bool_decide (a = b).

(** [struct Node]: the owned pair ([None] is the [nullptr] of a sentinel)
    and the two links of the order list. *)
Record Node := mkNode {
  data : option value_type;
  prev : ptr;
  next : ptr
}.

(** The data members of a [linked_hashmap] object.  A bucket chain (a
    singly-linked list of [Bucket] cells that each hold a [Node*]) is the
    list of the node pointers it holds, front first; [table] is [None] when
    the C++ pointer is [nullptr]. *)
Record Map := mkMap {
  table : option (list (list ptr));
  table_size : N;
  element_count : N;
  head : ptr;
  tail : ptr
}.

(** The store: live list nodes, live container objects, and the next
    address the allocator hands out. *)
Record Store := mkStore {
  nodes : gmap N Node;
  maps : gmap N Map;
  brk : N
}.

(** ** The monad of operations *)

Inductive res (A : Type) : Type :=
| Ret (a : A) (st : Store)
| Throw (e : exn) (st : Store)
| Undef.
Arguments Ret {A} a st.
Arguments Throw {A} e st.
Arguments Undef {A}.

Definition M (A : Type) : Type := Store → res A.

#[global] Instance M_ret : MRet M := λ A a st, Ret a st.
#[global] Instance M_bind : MBind M := λ A B k c st,
  match c st with
  | Ret a st' => k a st'
  | Throw e st' => Throw e st'
  | Undef => Undef
  end.

(** An outcome with its result transformed. *)
Definition res_map {A B} (f : A → B) (r : res A) : res B :=
  match r with
  | Ret a st => Ret (f a) st
  | Throw e st => Throw e st
  | Undef => Undef
  end.

Definition throw {A} (e : exn) : M A := λ st, Throw e st.
Definition undef {A} : M A := λ _, Undef.

(** *** Field updates *)

Definition with_prev (v : ptr) (nd : Node) : Node := mkNode (data nd) v (next nd).
Definition with_next (v : ptr) (nd : Node) : Node := mkNode (data nd) (prev nd) v.

Definition with_table (tb : option (list (list ptr))) (m : Map) : Map :=
  mkMap tb (table_size m) (element_count m) (head m) (tail m).
Definition with_table_size (n : N) (m : Map) : Map :=
  mkMap (table m) n (element_count m) (head m) (tail m).
Definition with_element_count (n : N) (m : Map) : Map :=
  mkMap (table m) (table_size m) n (head m) (tail m).
Definition with_head (p : ptr) (m : Map) : Map :=
  mkMap (table m) (table_size m) (element_count m) p (tail m).
Definition with_tail (p : ptr) (m : Map) : Map :=
  mkMap (table m) (table_size m) (element_count m) (head m) p.

(** *** Memory accesses *)

Definition load_node (p : ptr) : M Node := λ st,
  match nodes st !! p with
  | Some nd => Ret nd st
  | None => Undef
  end.

Definition store_node (p : ptr) (nd : Node) : M unit := λ st,
  match nodes st !! p with
  | Some _ => Ret () (mkStore (<[p := nd]> (nodes st)) (maps st) (brk st))
  | None => Undef
  end.

Definition set_prev (p v : ptr) : M unit :=
  nd ← load_node p; store_node p (with_prev v nd).
Definition set_next (p v : ptr) : M unit :=
  nd ← load_node p; store_node p (with_next v nd).

(** [p->data->first] and friends: the node's pair, which must not be null. *)
Definition load_data (p : ptr) : M value_type :=
  nd ← load_node p;
  match data nd with
  | Some d => mret d
  | None => undef
  end.

(** [new Node(...)], when the allocation succeeds. *)
Definition new_node (nd : Node) : M ptr := λ st,
  Ret (brk st) (mkStore (<[brk st := nd]> (nodes st)) (maps st) (brk st + 1)).

(** [delete p]: a no-op on [nullptr], otherwise [p] must be live. *)
Definition delete_node (p : ptr) : M unit := λ st,
  if decide (p = null) then Ret () st
  else match nodes st !! p with
       | Some _ => Ret () (mkStore (delete p (nodes st)) (maps st) (brk st))
       | None => Undef
       end.

Definition load_map (this : ptr) : M Map := λ st,
  match maps st !! this with
  | Some m => Ret m st
  | None => Undef
  end.

Definition store_map (this : ptr) (m : Map) : M unit := λ st,
  match maps st !! this with
  | Some _ => Ret () (mkStore (nodes st) (<[this := m]> (maps st)) (brk st))
  | None => Undef
  end.

(** Storage for a container object whose constructor is about to run. *)
Definition new_map (m : Map) : M ptr := λ st,
  Ret (brk st) (mkStore (nodes st) (<[brk st := m]> (maps st)) (brk st + 1)).

(** The number of live nodes, used to bound the walks over the order list:
    a walk that visits more nodes than are live has entered a cycle. *)
Definition live_nodes : M nat := λ st, Ret (size (nodes st)) st.

(** ** Private helpers of the class *)

(** [hasher(key) % size]; the remainder by zero is undefined. *)
Definition bucket_of (key : Key) (size : N) : M N :=
  if decide (size = 0%N) then undef else mret (hasher key mod size)%N.

Definition get_bucket_index (this : ptr) (key : Key) : M N :=
  m ← load_map this; bucket_of key (table_size m).

(** [table[index]]. *)
Definition read_bucket (this : ptr) (index : N) : M (list ptr) :=
  m ← load_map this;
  match table m with
  | Some tb =>
      match tb !! N.to_nat index with
      | Some b => mret b
      | None => undef
      end
  | None => undef
  end.

(** [table[index] = b]. *)
Definition write_bucket (this : ptr) (index : N) (b : list ptr) : M unit :=
  m ← load_map this;
  match table m with
  | Some tb =>
      if decide (N.to_nat index < length tb)
      then store_map this (with_table (Some (<[N.to_nat index := b]> tb)) m)
      else undef
  | None => undef
  end.

Definition init_table (this : ptr) (size : N) : M unit :=
  m ← load_map this;
  store_map this
    (with_table (Some (replicate (N.to_nat size) [])) (with_table_size size m)).

Definition clear_table (this : ptr) : M unit :=
  m ← load_map this;
  match table m with
  | Some _ => store_map this (with_table None m)
  | None => mret ()
  end.

Fixpoint clear_list_loop (fuel : nat) (this current : ptr) : M unit :=
  m ← load_map this;
  if decide (current = tail m) then mret ()
  else match fuel with
       | O => undef
       | S fuel =>
           nd ← load_node current;
           delete_node current;;
           clear_list_loop fuel this (next nd)
       end.

Definition clear_list (this : ptr) : M unit :=
  m ← load_map this;
  h ← load_node (head m);
  fuel ← live_nodes;
  clear_list_loop fuel this (next h);;
  m ← load_map this;
  set_next (head m) (tail m);;
  set_prev (tail m) (head m).

(** [new_table[index]] gets a new cell in front. *)
Definition push_bucket (tb : list (list ptr)) (index : N) (n : ptr)
  : M (list (list ptr)) :=
  match tb !! N.to_nat index with
  | Some b => mret (<[N.to_nat index := n :: b]> tb)
  | None => undef
  end.

Fixpoint rehash_loop (fuel : nat) (this : ptr) (new_size : N)
    (current : ptr) (new_table : list (list ptr)) : M (list (list ptr)) :=
  m ← load_map this;
  if decide (current = tail m) then mret new_table
  else match fuel with
       | O => undef
       | S fuel =>
           d ← load_data current;
           index ← bucket_of d.1 new_size;
           new_table ← push_bucket new_table index current;
           nd ← load_node current;
           rehash_loop fuel this new_size (next nd) new_table
       end.

Definition rehash (this : ptr) : M unit :=
  m ← load_map this;
  let new_size := wrap64 (table_size m * 2) in
  let new_table := replicate (N.to_nat new_size) [] in
  h ← load_node (head m);
  fuel ← live_nodes;
  new_table ← rehash_loop fuel this new_size (next h) new_table;
  clear_table this;;
  m ← load_map this;
  store_map this (with_table_size new_size (with_table (Some new_table) m)).

(** The [while (bucket)] scan of a chain for a key. *)
Fixpoint scan_chain (key : Key) (bucket : list ptr) : M ptr :=
  match bucket with
  | [] => mret null
  | n :: rest =>
      d ← load_data n;
      if equal d.1 key then mret n else scan_chain key rest
  end.

Definition find_node (this : ptr) (key : Key) : M ptr :=
  index ← get_bucket_index this key;
  bucket ← read_bucket this index;
  scan_chain key bucket.

Definition insert_to_list (this node : ptr) : M unit :=
  m ← load_map this;
  t ← load_node (tail m);
  set_prev node (prev t);;
  set_next node (tail m);;
  t ← load_node (tail m);
  set_next (prev t) node;;
  set_prev (tail m) node.

Definition remove_from_list (node : ptr) : M unit :=
  nd ← load_node node;
  set_next (prev nd) (next nd);;
  nd ← load_node node;
  set_prev (next nd) (prev nd).

Definition insert_to_table (this node : ptr) : M unit :=
  d ← load_data node;
  index ← get_bucket_index this d.1;
  b ← read_bucket this index;
  write_bucket this index (node :: b).

(** The chain with its first cell for [key] spliced out. *)
Fixpoint unlink_chain (key : Key) (bucket : list ptr) : M (list ptr) :=
  match bucket with
  | [] => mret []
  | n :: rest =>
      d ← load_data n;
      if equal d.1 key then mret rest
      else rest' ← unlink_chain key rest; mret (n :: rest')
  end.

Definition remove_from_table (this : ptr) (key : Key) : M unit :=
  index ← get_bucket_index this key;
  bucket ← read_bucket this index;
  bucket' ← unlink_chain key bucket;
  write_bucket this index bucket'.

(** ** Iterators *)

Record iterator := mkIterator { it_node : ptr; it_map : ptr }.
Record const_iterator := mkConstIterator { cit_node : ptr; cit_map : ptr }.

#[global] Instance iterator_eq_dec : EqDecision iterator.
Proof. solve_decision. Defined.
#[global] Instance const_iterator_eq_dec : EqDecision const_iterator.
Proof. solve_decision. Defined.

(** [iterator()]. *)
Definition iterator_default : iterator := mkIterator null null.
Definition const_iterator_default : const_iterator := mkConstIterator null null.

(** [const_iterator(const iterator &)]. *)
Definition const_iterator_of (it : iterator) : const_iterator :=
  mkConstIterator (it_node it) (it_map it).

(** [iter++]: the result is (the returned copy, the iterator afterwards). *)
Definition iterator_postinc (it : iterator) : M (iterator * iterator) :=
  if decide (it_node it = null) then throw invalid_iterator
  else
    m ← load_map (it_map it);
    if decide (it_node it = tail m) then throw invalid_iterator
    else
      nd ← load_node (it_node it);
      mret (it, mkIterator (next nd) (it_map it)).

(** [++iter]: the result is the iterator afterwards. *)
Definition iterator_preinc (it : iterator) : M iterator :=
  if decide (it_node it = null) then throw invalid_iterator
  else
    m ← load_map (it_map it);
    if decide (it_node it = tail m) then throw invalid_iterator
    else
      nd ← load_node (it_node it);
      mret (mkIterator (next nd) (it_map it)).

(** [iter--]. *)
Definition iterator_postdec (it : iterator) : M (iterator * iterator) :=
  if decide (it_node it = null) then throw invalid_iterator
  else
    nd ← load_node (it_node it);
    m ← load_map (it_map it);
    if decide (prev nd = head m) then throw invalid_iterator
    else mret (it, mkIterator (prev nd) (it_map it)).

(** [--iter]. *)
Definition iterator_predec (it : iterator) : M iterator :=
  if decide (it_node it = null) then throw invalid_iterator
  else
    nd ← load_node (it_node it);
    m ← load_map (it_map it);
    if decide (prev nd = head m) then throw invalid_iterator
    else mret (mkIterator (prev nd) (it_map it)).

(** [*iter]. *)
Definition iterator_deref (it : iterator) : M value_type :=
  load_data (it_node it).

Definition iterator_eq (a b : iterator) : bool :=
  bool_decide (it_node a = it_node b) && bool_decide (it_map a = it_map b).

Definition const_iterator_postinc (it : const_iterator)
  : M (const_iterator * const_iterator) :=
  if decide (cit_node it = null) then throw invalid_iterator
  else
    m ← load_map (cit_map it);
    if decide (cit_node it = tail m) then throw invalid_iterator
    else
      nd ← load_node (cit_node it);
      mret (it, mkConstIterator (next nd) (cit_map it)).

Definition const_iterator_preinc (it : const_iterator) : M const_iterator :=
  if decide (cit_node it = null) then throw invalid_iterator
  else
    m ← load_map (cit_map it);
    if decide (cit_node it = tail m) then throw invalid_iterator
    else
      nd ← load_node (cit_node it);
      mret (mkConstIterator (next nd) (cit_map it)).

Definition const_iterator_postdec (it : const_iterator)
  : M (const_iterator * const_iterator) :=
  if decide (cit_node it = null) then throw invalid_iterator
  else
    nd ← load_node (cit_node it);
    m ← load_map (cit_map it);
    if decide (prev nd = head m) then throw invalid_iterator
    else mret (it, mkConstIterator (prev nd) (cit_map it)).

Definition const_iterator_predec (it : const_iterator) : M const_iterator :=
  if decide (cit_node it = null) then throw invalid_iterator
  else
    nd ← load_node (cit_node it);
    m ← load_map (cit_map it);
    if decide (prev nd = head m) then throw invalid_iterator
    else mret (mkConstIterator (prev nd) (cit_map it)).

Definition const_iterator_deref (it : const_iterator) : M value_type :=
  load_data (cit_node it).

Definition const_iterator_eq (a b : const_iterator) : bool :=
  bool_decide (cit_node a = cit_node b) && bool_decide (cit_map a = cit_map b).

(** ** Public operations of [linked_hashmap] *)

(** [begin()], [cbegin()], [end()], [cend()]. *)
Definition begin_ (this : ptr) : M iterator :=
  m ← load_map this; h ← load_node (head m); mret (mkIterator (next h) this).
Definition cbegin (this : ptr) : M const_iterator :=
  m ← load_map this; h ← load_node (head m); mret (mkConstIterator (next h) this).
Definition end_ (this : ptr) : M iterator :=
  m ← load_map this; mret (mkIterator (tail m) this).
Definition cend (this : ptr) : M const_iterator :=
  m ← load_map this; mret (mkConstIterator (tail m) this).

Definition empty_ (this : ptr) : M bool :=
  m ← load_map this; mret (bool_decide (element_count m = 0%N)).
Definition size_ (this : ptr) : M N :=
  m ← load_map this; mret (element_count m).

(** [insert(const value_type &)]. *)
Definition insert (this : ptr) (value : value_type) : M (iterator * bool) :=
  existing ← find_node this value.1;
  if decide (existing ≠ null) then mret (mkIterator existing this, false)
  else
    m ← load_map this;
    (if load_reached (element_count m) (table_size m)
     then rehash this else mret ());;
    new_node ← new_node (mkNode (Some value) null null);
    insert_to_list this new_node;;
    insert_to_table this new_node;;
    m ← load_map this;
    store_map this (with_element_count (wrap64 (element_count m + 1)) m);;
    mret (mkIterator new_node this, true).

(** [erase(iterator pos)]. *)
Definition erase (this : ptr) (pos : iterator) : M unit :=
  if decide (it_map pos ≠ this) then throw invalid_iterator
  else
    m ← load_map this;
    if decide (it_node pos = tail m) then throw invalid_iterator
    else if decide (it_node pos = head m) then throw invalid_iterator
    else if decide (it_node pos = null) then throw invalid_iterator
    else
      d ← load_data (it_node pos);
      remove_from_table this d.1;;
      remove_from_list (it_node pos);;
      delete_node (it_node pos);;
      m ← load_map this;
      store_map this
        (with_element_count (wrap64 (element_count m + (2 ^ 64 - 1))) m).

(** [count], and the two overloads of [find]. *)
Definition count (this : ptr) (key : Key) : M N :=
  node ← find_node this key;
  mret (if decide (node ≠ null) then 1%N else 0%N).

Definition find (this : ptr) (key : Key) : M iterator :=
  node ← find_node this key;
  if decide (node ≠ null) then mret (mkIterator node this) else end_ this.

Definition find_const (this : ptr) (key : Key) : M const_iterator :=
  node ← find_node this key;
  if decide (node ≠ null) then mret (mkConstIterator node this) else cend this.

(** A [T &] into the container is the address of the node whose pair holds
    the mapped value; [read_ref] reads through such a reference. *)
Definition read_ref (r : ptr) : M T := d ← load_data r; mret d.2.

(** [r = v] for a [T &r] into the container, as in [map[1] = 10]. *)
Definition write_ref (r : ptr) (v : T) : M unit :=
  nd ← load_node r;
  match data nd with
  | Some d => store_node r (mkNode (Some (d.1, v)) (prev nd) (next nd))
  | None => undef
  end.

(** [at(key)]; the [const] overload has the same body. *)
Definition at_ (this : ptr) (key : Key) : M ptr :=
  node ← find_node this key;
  if decide (node = null) then throw index_out_of_bound else mret node.

(** [T & operator[](const Key &)]. *)
Definition index_mut (this : ptr) (key : Key) : M ptr :=
  node ← find_node this key;
  if decide (node = null) then
    result ← insert this (key, T_default);
    mret (it_node result.1)
  else mret node.

(** [const T & operator[](const Key &) const]. *)
Definition index_const (this : ptr) (key : Key) : M ptr :=
  node ← find_node this key;
  if decide (node = null) then throw index_out_of_bound else mret node.

(** The [for (i = 0; i < table_size; ++i)] loop of [clear()]: slot [i] is
    read, its chain freed, and the slot reset; [n] slots remain. *)
Fixpoint clear_buckets (n : nat) (this : ptr) (i : N) : M unit :=
  match n with
  | O => mret ()
  | S n =>
      read_bucket this i;;
      write_bucket this i [];;
      clear_buckets n this (wrap64 (i + 1))
  end.

(** [clear()]. *)
Definition clear (this : ptr) : M unit :=
  clear_list this;;
  m ← load_map this;
  clear_buckets (N.to_nat (table_size m)) this 0;;
  m ← load_map this;
  store_map this (with_element_count 0 m).

(** The part shared by the three constructors' bodies: the two sentinels. *)
Definition init_sentinels (this : ptr) : M unit :=
  h ← new_node (mkNode None null null);
  m ← load_map this; store_map this (with_head h m);;
  t ← new_node (mkNode None null null);
  m ← load_map this; store_map this (with_tail t m);;
  m ← load_map this;
  set_next (head m) (tail m);;
  set_prev (tail m) (head m).

(** [linked_hashmap()]: the result is the address of the new object. *)
Definition construct : M ptr :=
  this ← new_map (mkMap None 0 0 null null);
  init_sentinels this;;
  init_table this INITIAL_CAPACITY;;
  mret this.

(** The [while (current != other.tail)] loop shared by the copy
    constructor and the assignment operator. *)
Fixpoint copy_loop (fuel : nat) (this other current : ptr) : M unit :=
  o ← load_map other;
  if decide (current = tail o) then mret ()
  else match fuel with
       | O => undef
       | S fuel =>
           d ← load_data current;
           insert this d;;
           nd ← load_node current;
           copy_loop fuel this other (next nd)
       end.

(** [linked_hashmap(const linked_hashmap &other)]. *)
Definition construct_copy (other : ptr) : M ptr :=
  this ← new_map (mkMap None 0 0 null null);
  init_sentinels this;;
  o ← load_map other;
  init_table this (table_size o);;
  o ← load_map other;
  h ← load_node (head o);
  fuel ← live_nodes;
  copy_loop fuel this other (next h);;
  mret this.

(** [operator=(const linked_hashmap &other)]. *)
Definition assign (this other : ptr) : M ptr :=
  if decide (this = other) then mret this
  else
    clear this;;
    clear_table this;;
    o ← load_map other;
    init_table this (table_size o);;
    o ← load_map other;
    h ← load_node (head o);
    fuel ← live_nodes;
    copy_loop fuel this other (next h);;
    mret this.

(** ** A client loop

    [for (auto it = map.begin(); it != map.end(); ++it)] collecting [*it],
    the forward traversal of [test_debug.cpp]. *)
Fixpoint iterate_loop (fuel : nat) (this : ptr) (it : iterator)
  : M (list value_type) :=
  e ← end_ this;
  if iterator_eq it e then mret []
  else match fuel with
       | O => undef
       | S fuel =>
           d ← iterator_deref it;
           it ← iterator_preinc it;
           rest ← iterate_loop fuel this it;
           mret (d :: rest)
       end.

Definition iterate (this : ptr) : M (list value_type) :=
  it ← begin_ this;
  fuel ← live_nodes;
  iterate_loop fuel this it.

(** A client loop that inserts the pairs one after the other. *)
Fixpoint insert_all (this : ptr) (kvs : list value_type) : M unit :=
  match kvs with
  | [] => mret ()
  | kv :: rest => insert this kv;; insert_all this rest
  end.

(** ** Programs over the container *)

(** The ways a client obtains an iterator: the default constructor, the
    container's own accessors, and the two movements. *)
Inductive cursor :=
| AtDefault
| AtBegin (this : ptr)
| AtEnd (this : ptr)
| AtFind (this : ptr) (key : Key)
| Succ (c : cursor)
| Pred (c : cursor).

(** [begin()] advanced [i] times. *)
Definition nth_position (this : ptr) (i : nat) : cursor :=
  Nat.iter i Succ (AtBegin this).

Fixpoint locate (c : cursor) : M iterator :=
  match c with
  | AtDefault => mret iterator_default
  | AtBegin this => begin_ this
  | AtEnd this => end_ this
  | AtFind this key => find this key
  | Succ c => it ← locate c; iterator_preinc it
  | Pred c => it ← locate c; iterator_predec it
  end.

(** The calls by which a client changes the store.  The source of a copy
    must be an object that exists when the call is made, and the position
    given to [erase] is an iterator obtained just before the call. *)
Inductive call :=
| Construct
| ConstructCopy (other : ptr)
| Assign (this other : ptr)
| Insert (this : ptr) (value : value_type)
| Erase (this : ptr) (pos : cursor)
| Clear (this : ptr)
| IndexMut (this : ptr) (key : Key)
| WriteRef (r : ptr) (v : T).

Definition exec (c : call) : M unit :=
  match c with
  | Construct => construct;; mret ()
  | ConstructCopy other => load_map other;; construct_copy other;; mret ()
  | Assign this other => load_map other;; assign this other;; mret ()
  | Insert this value => insert this value;; mret ()
  | Erase this pos => it ← locate pos; erase this it
  | Clear this => clear this
  | IndexMut this key => index_mut this key;; mret ()
  | WriteRef r v => write_ref r v
  end.

(** The container a call mutates, if any; a write through a reference
    mutates the container that the reference points into. *)
Definition target (c : call) : option ptr :=
  match c with
  | Assign this _ | Insert this _ | Erase this _ | Clear this
  | IndexMut this _ => Some this
  | Construct | ConstructCopy _ | WriteRef _ _ => None
  end.

(** A call that throws leaves the store of the throw behind (the client
    catches the exception); a call with undefined behaviour has no
    successor. *)
Definition step (c : call) (st : Store) : option Store :=
  match exec c st with
  | Ret _ st' => Some st'
  | Throw _ st' => Some st'
  | Undef => None
  end.

Fixpoint steps (cs : list call) (st : Store) : option Store :=
  match cs with
  | [] => Some st
  | c :: cs => st' ← step c st; steps cs st'
  end.

(** The store before any object exists. *)
Definition empty_store : Store := mkStore ∅ ∅ 1.

(** The stores that calls of the client lead to from the empty store,
    no allocation having failed on the way. *)
Definition reachable (st : Store) : Prop :=
  ∃ cs, steps cs empty_store = Some st.

(** ** The destructor and two more client loops *)

(** The end of an object's lifetime: its storage is released. *)
Definition delete_map (this : ptr) : M unit := λ st,
  match maps st !! this with
  | Some _ => Ret () (mkStore (nodes st) (delete this (maps st)) (brk st))
  | None => Undef
  end.

(** [~linked_hashmap()], followed by the release of the object. *)
Definition destructor (this : ptr) : M unit :=
  clear_list this;;
  clear_table this;;
  m ← load_map this;
  delete_node (head m);;
  m ← load_map this;
  delete_node (tail m);;
  delete_map this.

(** [for (it = --map.end(); it != map.begin(); --it)] collecting [*it],
    and [*it] once more after the loop: the backward traversal of
    [test_debug.cpp]. *)
Fixpoint iterate_backward_loop (fuel : nat) (this : ptr) (it : iterator)
  : M (list (Key * T)) :=
  b ← begin_ this;
  if iterator_eq it b then d ← iterator_deref it; mret [d]
  else match fuel with
       | O => undef
       | S fuel =>
           d ← iterator_deref it;
           it ← iterator_predec it;
           rest ← iterate_backward_loop fuel this it;
           mret (d :: rest)
       end.

Definition iterate_backward (this : ptr) : M (list (Key * T)) :=
  e ← end_ this;
  it ← iterator_predec e;
  fuel ← live_nodes;
  iterate_backward_loop fuel this it.

(** The guarded decrement in [main] of [test_debug2.cpp], for any
    container: [it = map.end()]; if [it != map.begin()] then [--it] and
    [it->first] is printed, otherwise the container is reported empty
    ([None]). *)
Definition decrement_if_not_begin (this : ptr) : M (option Key) :=
  it ← end_ this;
  first ← begin_ this;
  if negb (iterator_eq it first) then
    it ← iterator_predec it;
    d ← iterator_deref it;
    mret (Some d.1)
  else mret None.

(** ** A failed allocation

    [insert_to_table] on the path on which [new Bucket(node)] throws
    [std::bad_alloc]: the index has been computed, nothing after the
    [new] runs. *)
Definition insert_to_table_bad_alloc (this node : ptr) : M unit :=
  d ← load_data node;
  index ← get_bucket_index this d.1;
  throw bad_alloc.

(** [insert] on that path; nothing in it catches the exception. *)
Definition insert_bad_alloc (this : ptr) (value : Key * T)
  : M (iterator * bool) :=
  existing ← find_node this value.1;
  if decide (existing ≠ null) then mret (mkIterator existing this, false)
  else
    m ← load_map this;
    (if load_reached (element_count m) (table_size m)
     then rehash this else mret ());;
    new_node ← new_node (mkNode (Some value) null null);
    insert_to_list this new_node;;
    insert_to_table_bad_alloc this new_node;;
    m ← load_map this;
    store_map this (with_element_count (wrap64 (element_count m + 1)) m);;
    mret (mkIterator new_node this, true).

End Model.

Arguments Ret {Key T A} a st.
Arguments Throw {Key T A} e st.
Arguments Undef {Key T A}.

(** ** Representation invariants *)

Section Invariants.
Context {Key T : Type} `{EqDecision Key} `{Hash Key} `{Default T}.
Implicit Types (h : gmap N (@Node Key T)) (m : @Map) (st : @Store Key T).
Implicit Types (l s b : list N) (kvs : list (Key * T)).
Implicit Types (a p q this : N) (own : gmap N (list N * list (Key * T))).

(** The pair owned by the node at an address. *)
Definition entry_of h (a : ptr) : option (Key * T) := nd ← h !! a; data nd.

(** The nodes [s] are linked in this order: the first one's [prev] is [p],
    the last one's [next] is [q]. *)
Fixpoint chain h (p : ptr) s (q : ptr) : Prop :=
  match s with
  | [] => True
  | a :: s' =>
      ∃ nd, h !! a = Some nd ∧ prev nd = p ∧ next nd = hd q s' ∧ chain h a s' q
  end.

(** The nodes of a container whose sentinels are [hd] and [tl] and whose
    data nodes are [l]. *)
Definition nodes_of (hd tl : ptr) l : list N := hd :: l ++ [tl].
Definition footprint m l : list N := nodes_of (head m) (tail m) l.

(** The order list: the two sentinels enclose the nodes [l], which own the
    pairs [kvs]. *)
Definition dll h (hd tl : ptr) l kvs : Prop :=
  NoDup (nodes_of hd tl l) ∧
  chain h null (nodes_of hd tl l) null ∧
  Forall2 (λ a kv, entry_of h a = Some kv) l kvs.

(** Slot [i] of a table of [ts] slots holds, once each, the nodes of [l]
    whose key hashes to [i]. *)
Definition bucket_ok h (ts : N) l (i : nat) b : Prop :=
  NoDup b ∧
  ∀ a, a ∈ b ↔
       a ∈ l ∧ ∃ kv, entry_of h a = Some kv ∧ (hasher kv.1 mod ts)%N = N.of_nat i.

(** The bucket index [tb] of capacity [ts] over the nodes [l]. *)
Definition table_for h (ts : N) l (tb : list (list N)) : Prop :=
  length tb = N.to_nat ts ∧ ∀ i b, tb !! i = Some b → bucket_ok h ts l i b.

(** The object [m] represents the pairs [kvs], held in this order by the
    nodes [l]. *)
Record rep h m l kvs : Prop := {
  rep_dll : dll h (head m) (tail m) l kvs;
  rep_keys : NoDup kvs.*1;
  rep_count : element_count m = N.of_nat (length l);
  rep_size : (0 < table_size m < 2 ^ 64)%N;
  rep_table : ∃ tb, table m = Some tb ∧ table_for h (table_size m) l tb
}.

(** The load-factor bound, and the shape of capacities that makes the
    threshold [0.75 * table_size] an integer. *)
Definition load_ok m : Prop :=
  (4 * element_count m ≤ 3 * table_size m)%N ∧ (4 | table_size m)%N.

(** A table is never much larger than the number of objects ever
    allocated. *)
Definition tight st m : Prop := (3 * table_size m ≤ N.max 48 (8 * brk st))%N.

(** Live addresses are non-null and below the allocation pointer. *)
Definition alloc_ok st : Prop :=
  (0 < brk st)%N ∧
  (∀ a, is_Some (nodes st !! a) → (0 < a < brk st)%N) ∧
  (∀ a, is_Some (maps st !! a) → (0 < a < brk st)%N).

(** [own] records, for every live container, its data nodes and its
    contents; distinct containers share no node. *)
Record owns st (own : gmap N (list N * list (Key * T))) : Prop := {
  owns_dom : ∀ a, is_Some (maps st !! a) ↔ is_Some (own !! a);
  owns_rep : ∀ a m l kvs,
      maps st !! a = Some m → own !! a = Some (l, kvs) →
      rep (nodes st) m l kvs ∧ load_ok m ∧ tight st m;
  owns_sep : ∀ (a o : N) ma mo la lo (ka ko : list (Key * T)),
      a ≠ o →
      maps st !! a = Some ma → maps st !! o = Some mo →
      own !! a = Some (la, ka) → own !! o = Some (lo, ko) →
      ∀ x, x ∈ footprint ma la → x ∈ footprint mo lo → False
}.

Definition Inv st : Prop := alloc_ok st ∧ ∃ own, owns st own.

(** The container at [this] holds the pairs [kvs], in this order. *)
Definition holds st (this : ptr) kvs : Prop :=
  ∃ m l, maps st !! this = Some m ∧ rep (nodes st) m l kvs.

(** Stores small enough that no [size_t] computation of the container
    wraps and the [double] comparison of the load test is exact. *)
Definition modest st : Prop := (brk st < 2 ^ 47)%N.

(** ** Notions used by the proofs *)

Definition same_data h h' : Prop := ∀ a, data <$> h' !! a = data <$> h !! a.

(** The outcome of a lookup: the node of [k], or null when [k] is absent. *)
Definition located l kvs (k : Key) (r : ptr) : Prop :=
  (r = null ∧ k ∉ kvs.*1) ∨
  (r ≠ null ∧ ∃ i v, l !! i = Some r ∧ kvs !! i = Some (k, v)).

Definition rehashed m (tb : list (list N)) : Map :=
  with_table_size (table_size m * 2) (with_table (Some tb) m).

Record updated st st' this (F : list N) m' l' kvs' : Prop := {
  upd_maps : maps st' = <[this := m']> (maps st);
  upd_brk : (brk st ≤ brk st')%N;
  upd_alloc : alloc_ok st';
  upd_frame : ∀ a, (a < brk st)%N → a ∉ F → nodes st' !! a = nodes st !! a;
  upd_fp : ∀ a, a ∈ footprint m' l' → a ∈ F ∨ (brk st ≤ a)%N;
  upd_rep : rep (nodes st') m' l' kvs';
  upd_load : load_ok m';
  upd_tight : tight st' m'
}.

(** The store after an empty container of capacity [size] has been built
    at the allocation pointer. *)
Definition built st (size : N) : Store :=
  let this := brk st in
  let hd := (this + 1)%N in
  let tl := (this + 2)%N in
  mkStore (<[tl := mkNode None hd null]> (<[hd := mkNode None null tl]> (nodes st)))
          (<[this := mkMap (Some (replicate (N.to_nat size) [])) size 0 hd tl]>
             (maps st))
          (this + 3).

(** The prefix shared by the constructors, up to the sentinels. *)
Definition sentinels_built st : Store :=
  mkStore (<[(brk st + 2)%N := mkNode None (brk st + 1) null]>
             (<[(brk st + 1)%N := mkNode None null (brk st + 2)]> (nodes st)))
          (<[brk st := mkMap None 0 0 (brk st + 1) (brk st + 2)]> (maps st))
          (brk st + 3).

Definition delete_all l h : gmap N Node := foldl (λ h a, delete a h) h l.

Definition cleared m : Map :=
  with_element_count 0
    (with_table (Some (replicate (N.to_nat (table_size m)) [])) m).

Definition obtainable st own (it : iterator) : Prop :=
  it = iterator_default ∨
  ∃ mo lo ko, maps st !! it_map it = Some mo ∧
              own !! it_map it = Some (lo, ko) ∧
              it_node it ∈ lo ++ [tail mo].

(** The contents of a container after the value held by node [r] has been
    overwritten by [v]. *)
Definition rewritten (r : ptr) (v : T) l kvs : list (Key * T) :=
  zip_with (λ a kv, if decide (a = r) then (kv.1, v) else kv) l kvs.

Definition written (r : ptr) (v : T) (lk : list N * list (Key * T))
  : list N * list (Key * T) := (lk.1, rewritten r v lk.1 lk.2).

Definition mono {A} (c : M (Key:=Key) (T:=T) A) : Prop :=
  ∀ st, match c st with
        | Ret _ st' | Throw _ st' => (brk st ≤ brk st')%N
        | Undef => True
        end.

Definition nothrow {A} (c : M (Key:=Key) (T:=T) A) : Prop :=
  ∀ st, match c st with
        | Throw _ _ => False
        | _ => True
        end.

(** Containers other than the target [t] keep their nodes and contents. *)
Definition framed own own' (t : option N) : Prop :=
  ∀ o lk, own !! o = Some lk → t ≠ Some o → own' !! o = Some lk.

(** The outcome of a call on the container [this]: the invariant holds
    again and the other containers are as before. *)
Definition kept st' own (t : option N) : Prop :=
  alloc_ok st' ∧ ∃ own', owns st' own' ∧ framed own own' t.

(** The containers' contents after a call, given those before it. *)
Definition after (c : @call Key T) (lk : list N * list (Key * T))
  : list N * list (Key * T) :=
  match c with
  | WriteRef r v => written r v lk
  | _ => lk
  end.

Definition all_found st this kvs : Prop :=
  ∀ k v, (k, v) ∈ kvs →
         ∃ it, find this k st = Ret it st ∧ end_ this st ≠ Ret it st ∧
               iterator_deref it st = Ret (k, v) st.

(** The call [c] mutates the container [this]: it is one of its mutators,
    or a write through a reference into it. *)
Definition mutates (c : @call Key T) (this : ptr) st : Prop :=
  target c = Some this ∨ ∃ r v k, c = WriteRef r v ∧ at_ this k st = Ret r st.

(** In [st'] the container [this] is a copy of [other], which holds
    [kvs]: both iterate alike and find alike, and whatever is then done to
    the copy leaves the source as it is. *)
Definition copied st' (other this : ptr) kvs : Prop :=
  this ≠ other ∧
  iterate this st' = Ret kvs st' ∧ iterate other st' = Ret kvs st' ∧
  all_found st' this kvs ∧ all_found st' other kvs ∧
  ∀ c st'', mutates c this st' → modest st' → step c st' = Some st'' →
            iterate other st'' = Ret kvs st'' ∧ all_found st'' other kvs.

(** From [st] to [st']: the allocation pointer has not moved back, a
    node that existed and still exists is a sentinel or a data node as
    before, a node that was dead is not back, and a container that
    existed still exists with the same two sentinels. *)
Definition settled st st' : Prop :=
  (brk st ≤ brk st')%N ∧
  (∀ a nd', (a < brk st)%N → nodes st' !! a = Some nd' →
            ∃ nd, nodes st !! a = Some nd ∧ (data nd' = None ↔ data nd = None)) ∧
  (∀ o, (o < brk st)%N →
        match maps st !! o with
        | Some m => ∃ m', maps st' !! o = Some m' ∧
                          head m' = head m ∧ tail m' = tail m
        | None => maps st' !! o = None
        end).

Definition stable {A} (c : M (Key:=Key) (T:=T) A) : Prop :=
  ∀ st, match c st with
        | Ret _ st' | Throw _ st' => settled st st'
        | Undef => True
        end.

(** Every live node belongs to a live container. *)
Definition tidy st own : Prop :=
  ∀ a, is_Some (nodes st !! a) →
       ∃ o m l kvs, maps st !! o = Some m ∧ own !! o = Some (l, kvs) ∧
                    a ∈ footprint m l.

(** The sentinels hold no pair. *)
Definition plain st : Prop :=
  ∀ o m nd, maps st !! o = Some m →
            nodes st !! head m = Some nd ∨ nodes st !! tail m = Some nd →
            data nd = None.

Definition neat st own : Prop :=
  alloc_ok st ∧ owns st own ∧ tidy st own ∧ plain st.

Definition shaped st : Prop :=
  ∀ o m, maps st !! o = Some m → ∃ k : nat, table_size m = (16 * 2 ^ N.of_nat k)%N.

(** The computation [c] never changes the store, and throws only
    exceptions that satisfy [P]. *)
Definition observes {A} (P : exn → Prop) (c : M (Key:=Key) (T:=T) A) : Prop :=
  ∀ st, match c st with
        | Ret _ st' => st' = st
        | Throw e st' => st' = st ∧ P e
        | Undef => True
        end.

(** The contents after one more [insert]: a pair whose key is present
    is dropped, any other goes last. *)
Definition absorb (kvs : list (Key * T)) (kv : Key * T) : list (Key * T) :=
  if decide (kv.1 ∈ kvs.*1) then kvs else kvs ++ [kv].

(** A cursor whose containers are all alive. *)
Fixpoint cursor_live (st : @Store Key T) (c : @cursor Key) : Prop :=
  match c with
  | AtDefault => True
  | AtBegin this | AtEnd this | AtFind this _ => is_Some (maps st !! this)
  | Succ c | Pred c => cursor_live st c
  end.

(** A call whose operands are alive: the containers exist, the position
    given to [erase] comes from live containers, and the reference
    written through is one that [at] returns. *)
Definition call_ok (st : @Store Key T) (c : @call Key T) : Prop :=
  match c with
  | Construct => True
  | ConstructCopy other => is_Some (maps st !! other)
  | Assign this other => is_Some (maps st !! this) ∧ is_Some (maps st !! other)
  | Insert this _ | Clear this | IndexMut this _ => is_Some (maps st !! this)
  | Erase this pos => is_Some (maps st !! this) ∧ cursor_live st pos
  | WriteRef r _ => ∃ this k, at_ this k st = Ret r st
  end.

End Invariants.

(** ** A concrete instance: [linked_hashmap<unsigned, unsigned>] with the
    identity hash, as used by the test drivers. *)
Module Example.
#[global] Instance N_hash : Hash N := λ k, k.
#[global] Instance N_default : Default N := 0%N.

Definition run {A} (c : M (Key:=N) (T:=N) A) (st : Store) : option (A * Store) :=
  match c st with
  | Ret a st' => Some (a, st')
  | _ => None
  end.

(** The result of a computation started in the empty store. *)
Definition result {A} (c : M (Key:=N) (T:=N) A) : option A :=
  fst <$> run c empty_store.

Definition thrown {A} (c : M (Key:=N) (T:=N) A) : option exn :=
  match c empty_store with
  | Throw e _ => Some e
  | _ => None
  end.

Definition scenario_1 : M (list (N * N)) :=
  this ← construct;
  insert_all this [(1, 10); (2, 20); (3, 30)]%N;;
  pos ← find this 2%N;
  erase this pos;;
  insert this (1, 99)%N;;
  iterate this.

(** *** Stores reached by small client programs

    Addresses are handed out from 1: the first container sits at 1, its
    sentinels at 2 and 3, its first entries at 4, 5, 6. *)
Definition store_after (cs : list (@call N N)) : Store :=
  default empty_store (steps cs empty_store).

Definition map_of (st : @Store N N) (this : ptr) : Map :=
  default (mkMap None 0 0 null null) (maps st !! this).

Definition entries (from count : nat) : list (N * N) :=
  (λ i, (N.of_nat i, 10 * N.of_nat i)%N) <$> seq from count.

Definition program_0 : list (@call N N) := [Construct].
Definition store_0 : Store := store_after program_0.

Definition program_3 : list call := Construct :: (Insert 1 <$> entries 1 3).
Definition store_3 : Store := store_after program_3.

(** Twelve entries in sixteen slots: the table is at its threshold. *)
Definition program_12 : list call := Construct :: (Insert 1 <$> entries 1 12).
Definition store_12 : Store := store_after program_12.

(** Two containers: the one at 1 has grown to 32 slots and holds thirteen
    entries, the one at 17 holds one. *)
Definition program_two : list call :=
  Construct :: (Insert 1 <$> entries 1 13) ++ [Construct; Insert 17 (9, 90)%N].
Definition store_two : Store := store_after program_two.

(** The same stores one call later. *)
Definition store_two_more : Store :=
  store_after (program_two ++ [Insert 1 (99, 990)%N]).
Definition store_3_cleared : Store := store_after (program_3 ++ [Clear 1]).
End Example.

(** ** Proofs *)

Create HintDb mono discriminated.
Create HintDb stable discriminated.
Create HintDb observes discriminated.

Section Proofs.
Context {Key T : Type} `{EqDecision Key} `{Hash Key} `{Default T}.
Implicit Types (h : gmap N (@Node Key T)) (m : @Map) (st : @Store Key T).
Implicit Types (l s b : list N) (kvs : list (Key * T)).
Implicit Types (a p q this : N) (own : gmap N (list N * list (Key * T))).
#[local] Abbreviation mono := (@mono Key T _) (only parsing).
#[local] Abbreviation nothrow := (@nothrow Key T _) (only parsing).
#[local] Abbreviation stable := (@stable Key T _) (only parsing).
#[local] Abbreviation observes := (@observes Key T _) (only parsing).

(** *** Running monadic code *)

Lemma bind_run {A B} (c : M A) (k : A → M B) st :
  (c ≫= k) st =
  match c st with
  | Ret a st' => k a st'
  | Throw e st' => Throw e st'
  | Undef => Undef
  end.
Proof. reflexivity. Qed.

Lemma ret_run {A} (a : A) st : (mret a : M A) st = Ret a st.
Proof. reflexivity. Qed.

Lemma load_node_run st a nd :
  nodes st !! a = Some nd → load_node a st = Ret nd st.
Proof. intros E. unfold load_node. by rewrite E. Qed.

Lemma load_map_run st a m :
  maps st !! a = Some m → load_map a st = Ret m st.
Proof. intros E. unfold load_map. by rewrite E. Qed.

Lemma store_map_run st a m m' :
  maps st !! a = Some m →
  store_map a m' st = Ret () (mkStore (nodes st) (<[a := m']> (maps st)) (brk st)).
Proof. intros E. unfold store_map. by rewrite E. Qed.

Lemma store_node_run st a nd nd' :
  nodes st !! a = Some nd →
  store_node a nd' st = Ret () (mkStore (<[a := nd']> (nodes st)) (maps st) (brk st)).
Proof. intros E. unfold store_node. by rewrite E. Qed.

Lemma set_prev_run st a nd v :
  nodes st !! a = Some nd →
  set_prev a v st =
  Ret () (mkStore (<[a := with_prev v nd]> (nodes st)) (maps st) (brk st)).
Proof.
  intros E. unfold set_prev. rewrite bind_run, (load_node_run _ _ _ E).
  by apply store_node_run with nd.
Qed.

Lemma set_next_run st a nd v :
  nodes st !! a = Some nd →
  set_next a v st =
  Ret () (mkStore (<[a := with_next v nd]> (nodes st)) (maps st) (brk st)).
Proof.
  intros E. unfold set_next. rewrite bind_run, (load_node_run _ _ _ E).
  by apply store_node_run with nd.
Qed.

Lemma load_data_run st a kv :
  entry_of (nodes st) a = Some kv → load_data a st = Ret kv st.
Proof.
  unfold entry_of, load_data. intros E.
  destruct (nodes st !! a) as [nd|] eqn:En; [|done]. simpl in E.
  rewrite bind_run, (load_node_run _ _ _ En). by rewrite E.
Qed.

(** *** Linked chains *)

Lemma last_cons_default (a : N) s p : List.last (a :: s) p = List.last s a.
Proof.
  revert a p. induction s as [|x s IH]; intros a p; [done|].
  change (List.last (a :: x :: s) p) with (List.last (x :: s) p).
  rewrite IH. symmetry. apply IH.
Qed.

Lemma hd_app_default (q : N) s1 s2 : hd q (s1 ++ s2) = hd (hd q s2) s1.
Proof. by destruct s1. Qed.

Lemma chain_app h p s1 s2 q :
  chain h p (s1 ++ s2) q ↔ chain h p s1 (hd q s2) ∧ chain h (List.last s1 p) s2 q.
Proof.
  revert p. induction s1 as [|a s1 IH]; intros p.
  - simpl. tauto.
  - change ((a :: s1) ++ s2) with (a :: (s1 ++ s2)).
    cbn [chain]. setoid_rewrite IH.
    rewrite hd_app_default, last_cons_default.
    split.
    + intros (nd & ? & ? & ? & ? & ?). split; [exists nd|]; done.
    + intros [(nd & ? & ? & ? & ?) ?]. exists nd. done.
Qed.

Lemma chain_frame h h' p s q :
  (∀ a, a ∈ s → h' !! a = h !! a) → chain h p s q → chain h' p s q.
Proof.
  revert p. induction s as [|a s IH]; intros p Hag; [done|].
  intros (nd & E & ? & ? & Hc). exists nd. split_and!; try done.
  - rewrite Hag; [done|]. apply list_elem_of_here.
  - apply IH; [|done]. intros x Hx. apply Hag. by apply list_elem_of_further.
Qed.

Lemma chain_lookup h p s q a :
  chain h p s q → a ∈ s → is_Some (h !! a).
Proof.
  revert p. induction s as [|x s IH]; intros p Hc Ha.
  - by apply elem_of_nil in Ha.
  - destruct Hc as (nd & E & _ & _ & Hc).
    apply elem_of_cons in Ha as [->|Ha]; [by eexists|]. by eapply IH.
Qed.

(** The node in the middle of a chain and its two links. *)
Lemma chain_mid h p s1 a s2 q :
  chain h p (s1 ++ a :: s2) q →
  ∃ nd, h !! a = Some nd ∧ prev nd = List.last s1 p ∧ next nd = hd q s2.
Proof.
  rewrite chain_app. intros [_ (nd & ? & ? & ? & _)]. by exists nd.
Qed.

(** *** Heaps that differ in links only *)

Lemma same_data_entry h h' a : same_data h h' → entry_of h' a = entry_of h a.
Proof.
  intros Hs. unfold entry_of. specialize (Hs a).
  destruct (h' !! a), (h !! a); simpl in *; congruence.
Qed.

Lemma same_data_refl h : same_data h h.
Proof. done. Qed.

Lemma same_data_trans h1 h2 h3 :
  same_data h1 h2 → same_data h2 h3 → same_data h1 h3.
Proof. intros H12 H23 a. by rewrite H23. Qed.

Lemma same_data_insert h a nd nd' :
  h !! a = Some nd → data nd' = data nd → same_data h (<[a := nd']> h).
Proof.
  intros E Hd x. destruct (decide (a = x)) as [->|Hne].
  - rewrite lookup_insert_eq, E. simpl. by rewrite Hd.
  - by rewrite lookup_insert_ne.
Qed.

Lemma entry_of_agree h h' a : h' !! a = h !! a → entry_of h' a = entry_of h a.
Proof. unfold entry_of. by intros ->. Qed.

(** *** The bucket index *)

Lemma bucket_ok_frame h h' ts l i b :
  (∀ a, a ∈ l → entry_of h' a = entry_of h a) →
  bucket_ok h ts l i b → bucket_ok h' ts l i b.
Proof.
  intros Hag [Hnd Hb]. split; [done|]. intros a. rewrite Hb.
  split; intros [Hl Hkv]; (split; [done|]).
  - by rewrite Hag.
  - by rewrite <- Hag.
Qed.

Lemma table_for_frame h h' ts l tb :
  (∀ a, a ∈ l → entry_of h' a = entry_of h a) →
  table_for h ts l tb → table_for h' ts l tb.
Proof.
  intros Hag [Hlen Hb]. split; [done|].
  intros i b Hi. eapply bucket_ok_frame; eauto.
Qed.

Lemma table_for_empty h ts : table_for h ts [] (replicate (N.to_nat ts) []).
Proof.
  split; [by rewrite length_replicate|].
  intros i b [-> _]%lookup_replicate. split; [constructor|].
  intros a. split; [by intros ?%elem_of_nil|by intros [?%elem_of_nil _]].
Qed.

Lemma bucket_index_lt (k : Key) ts :
  (0 < ts)%N → N.to_nat (hasher k mod ts) < N.to_nat ts.
Proof. intros. pose proof (N.mod_lt (hasher k) ts). lia. Qed.

(** Adding the node [a] in front of its bucket. *)
Lemma table_for_push h ts l tb a kv :
  table_for h ts l tb → (0 < ts)%N →
  a ∉ l → entry_of h a = Some kv →
  ∃ b, tb !! N.to_nat (hasher kv.1 mod ts) = Some b ∧
       table_for h ts (l ++ [a]) (<[N.to_nat (hasher kv.1 mod ts) := a :: b]> tb).
Proof.
  intros [Hlen Hb] Hts Hal Ha.
  set (i := N.to_nat (hasher kv.1 mod ts)).
  assert (i < length tb) as Hi by (rewrite Hlen; by apply bucket_index_lt).
  destruct (lookup_lt_is_Some_2 tb i Hi) as [b Eb]. exists b. split; [done|].
  split; [by rewrite length_insert|].
  intros j b' Ej. destruct (decide (i = j)) as [<-|Hne].
  - rewrite list_lookup_insert_eq in Ej by done. injection Ej as <-.
    destruct (Hb _ _ Eb) as [Hnd Hmem]. split.
    + constructor; [|done]. rewrite Hmem. tauto.
    + intros x. rewrite elem_of_cons, Hmem, elem_of_app, list_elem_of_singleton.
      split.
      * intros [->|[? ?]]; [|tauto]. split; [tauto|]. exists kv. split; [done|].
        subst i. lia.
      * intros [[?| ->] ?]; tauto.
  - rewrite list_lookup_insert_ne in Ej by done.
    destruct (Hb _ _ Ej) as [Hnd Hmem]. split; [done|].
    intros x. rewrite Hmem, elem_of_app, list_elem_of_singleton.
    split; [tauto|]. intros [[?| ->] Hx]; [tauto|].
    destruct Hx as (kv' & E' & Hidx). rewrite Ha in E'. injection E' as <-.
    subst i. lia.
Qed.

(** *** [find_node] *)

Lemma scan_chain_run st k b :
  (∀ a, a ∈ b → is_Some (entry_of (nodes st) a)) →
  ∃ r, scan_chain k b st = Ret r st ∧
       ((r = null ∧ ∀ a kv, a ∈ b → entry_of (nodes st) a = Some kv → kv.1 ≠ k)
        ∨ (r ∈ b ∧ ∃ kv, entry_of (nodes st) r = Some kv ∧ kv.1 = k)).
Proof.
  induction b as [|a b IH]; intros Hb.
  - exists null. split; [done|]. left. split; [done|]. by intros ?? ?%elem_of_nil.
  - destruct (Hb a) as [kv Ekv]; [apply list_elem_of_here|].
    cbn [scan_chain]. rewrite bind_run, (load_data_run _ _ _ Ekv).
    unfold equal. case_bool_decide as Hk.
    + exists a. split; [done|]. right. split; [apply list_elem_of_here|]. eauto.
    + destruct IH as (r & -> & Hr).
      { intros x Hx. apply Hb. by apply list_elem_of_further. }
      exists r. split; [done|]. destruct Hr as [[-> Hno]|[Hin Hr]].
      * left. split; [done|]. intros x kv' [->|Hx]%elem_of_cons E'.
        -- rewrite Ekv in E'. by injection E' as <-.
        -- eauto.
      * right. split; [by apply list_elem_of_further|done].
Qed.

Lemma get_bucket_index_run st this m k :
  maps st !! this = Some m → (0 < table_size m)%N →
  get_bucket_index this k st = Ret (hasher k mod table_size m)%N st.
Proof.
  intros Em Hts. unfold get_bucket_index.
  rewrite bind_run, (load_map_run _ _ _ Em). unfold bucket_of.
  destruct (decide (table_size m = 0%N)); [lia|done].
Qed.

Lemma read_bucket_run st this m tb i b :
  maps st !! this = Some m → table m = Some tb → tb !! N.to_nat i = Some b →
  read_bucket this i st = Ret b st.
Proof.
  intros Em Et Eb. unfold read_bucket.
  rewrite bind_run, (load_map_run _ _ _ Em). by rewrite Et, Eb.
Qed.

Lemma write_bucket_run st this m tb i b :
  maps st !! this = Some m → table m = Some tb → N.to_nat i < length tb →
  write_bucket this i b st =
  Ret () (mkStore (nodes st)
            (<[this := with_table (Some (<[N.to_nat i := b]> tb)) m]> (maps st))
            (brk st)).
Proof.
  intros Em Et Hi. unfold write_bucket.
  rewrite bind_run, (load_map_run _ _ _ Em). rewrite Et.
  destruct (decide _); [|done]. by apply store_map_run with m.
Qed.

Lemma dll_entry h hd tl l kvs i a :
  dll h hd tl l kvs → l !! i = Some a →
  ∃ kv, kvs !! i = Some kv ∧ entry_of h a = Some kv.
Proof.
  intros (_ & _ & Hf) Hi.
  destruct (Forall2_lookup_l _ _ _ _ _ Hf Hi) as (kv & ? & ?). eauto.
Qed.

Lemma dll_entry_r h hd tl l kvs i kv :
  dll h hd tl l kvs → kvs !! i = Some kv →
  ∃ a, l !! i = Some a ∧ entry_of h a = Some kv.
Proof.
  intros (_ & _ & Hf) Hi.
  destruct (Forall2_lookup_r _ _ _ _ _ Hf Hi) as (a & ? & ?). eauto.
Qed.

Lemma keys_unique kvs i j (kv kv' : Key * T) :
  NoDup kvs.*1 → kvs !! i = Some kv → kvs !! j = Some kv' → kv.1 = kv'.1 → i = j.
Proof.
  intros Hnd Hi Hj Hk. apply (NoDup_lookup _ i j kv.1 Hnd).
  - by rewrite list_lookup_fmap, Hi.
  - by rewrite list_lookup_fmap, Hj, Hk.
Qed.

Lemma find_node_run st this m l kvs k :
  nodes st !! null = None →
  maps st !! this = Some m → rep (nodes st) m l kvs →
  ∃ r, find_node this k st = Ret r st ∧ located l kvs k r.
Proof.
  intros Hnull Em Hrep. destruct Hrep as [Hdll Hkeys Hcnt Hsz (tb & Et & Hlen & Htb)].
  unfold find_node.
  rewrite bind_run, (get_bucket_index_run _ _ _ _ Em) by lia.
  set (i := (hasher k mod table_size m)%N).
  assert (N.to_nat i < length tb) as Hi by (rewrite Hlen; apply bucket_index_lt; lia).
  destruct (lookup_lt_is_Some_2 tb _ Hi) as [b Eb].
  rewrite bind_run, (read_bucket_run _ _ _ _ _ _ Em Et Eb).
  destruct (Htb _ _ Eb) as [Hnd Hmem].
  destruct (scan_chain_run st k b) as (r & -> & Hr).
  { intros a [_ (kv & -> & _)]%Hmem. by eexists. }
  exists r. split; [done|]. destruct Hr as [[-> Hno]|[Hin (kv & Ekv & Hk)]].
  - left. split; [done|]. intros (kv & Hkv1 & Hin)%list_elem_of_fmap.
    apply list_elem_of_lookup in Hin as [j Hj].
    destruct (dll_entry_r _ _ _ _ _ _ _ Hdll Hj) as (a & Ha & Ea).
    apply (Hno a kv); [|done|done].
    apply Hmem. split; [by eapply list_elem_of_lookup_2|].
    exists kv. split; [done|]. subst i k. lia.
  - right. split.
    + intros ->. unfold entry_of in Ekv. by rewrite Hnull in Ekv.
    + apply Hmem in Hin as [Hin _]. apply list_elem_of_lookup in Hin as [j Hj].
      destruct (dll_entry _ _ _ _ _ _ _ Hdll Hj) as (kv' & Hkv' & E').
      rewrite Ekv in E'. injection E' as <-.
      exists j, kv.2. split; [done|]. rewrite Hkv'. by destruct kv; simplify_eq/=.
Qed.

(** *** Facts about the order list *)

Lemma live_bound h s :
  NoDup s → (∀ a, a ∈ s → is_Some (h !! a)) → length s ≤ size h.
Proof.
  intros Hnd Hs.
  rewrite <- (size_list_to_set (C:=gset N) s Hnd), <- size_dom.
  apply subseteq_size. intros a Ha. apply elem_of_dom, Hs.
  by apply elem_of_list_to_set in Ha.
Qed.

Lemma dll_live h hd tl l kvs a :
  dll h hd tl l kvs → a ∈ nodes_of hd tl l → is_Some (h !! a).
Proof. intros (_ & Hc & _) Ha. by eapply chain_lookup. Qed.

Lemma dll_fuel h hd tl l kvs : dll h hd tl l kvs → length l < size h.
Proof.
  intros Hd. pose proof Hd as (Hnd & _ & _).
  pose proof (live_bound h _ Hnd (λ a, dll_live _ _ _ _ _ a Hd)) as Hle.
  unfold nodes_of in Hle. simpl in Hle. rewrite length_app in Hle. simpl in Hle. lia.
Qed.

Lemma dll_head h hd tl l kvs :
  dll h hd tl l kvs →
  ∃ nd, h !! hd = Some nd ∧ prev nd = null ∧ next nd = List.hd tl l.
Proof.
  intros (_ & (nd & E & Hp & Hn & _) & _). exists nd. split_and!; try done.
  rewrite Hn. apply hd_app_default.
Qed.

Lemma dll_tail h hd tl l kvs :
  dll h hd tl l kvs →
  ∃ nd, h !! tl = Some nd ∧ prev nd = List.last l hd ∧ next nd = null.
Proof.
  intros (_ & Hc & _). unfold nodes_of in Hc.
  change (hd :: l ++ [tl]) with ((hd :: l) ++ [tl]) in Hc.
  apply chain_mid in Hc as (nd & E & Hp & Hn). exists nd. split_and!; try done.
  by rewrite Hp, last_cons_default.
Qed.

(** The data node at position [i] of the order list. *)
Lemma dll_node h hd tl l1 a l2 kvs :
  dll h hd tl (l1 ++ a :: l2) kvs →
  ∃ nd, h !! a = Some nd ∧ prev nd = List.last l1 hd ∧ next nd = List.hd tl l2.
Proof.
  intros (_ & Hc & _). unfold nodes_of in Hc.
  rewrite <- app_assoc in Hc.
  change (hd :: l1 ++ (a :: l2) ++ [tl]) with ((hd :: l1) ++ a :: (l2 ++ [tl])) in Hc.
  apply chain_mid in Hc as (nd & E & Hp & Hn). exists nd. split_and!; try done.
  - by rewrite Hp, last_cons_default.
  - by rewrite Hn, hd_app_default.
Qed.

Lemma dll_nodup h hd tl l kvs :
  dll h hd tl l kvs → NoDup l ∧ (hd ∉ l) ∧ (tl ∉ l) ∧ hd ≠ tl.
Proof.
  intros (Hnd & _ & _). unfold nodes_of in Hnd.
  apply NoDup_cons in Hnd as [Hhd Hnd]. apply NoDup_app in Hnd as (Hl & Hdis & _).
  rewrite elem_of_app, list_elem_of_singleton in Hhd.
  split_and!; [done|tauto| |].
  - intros Htl. apply (Hdis _ Htl). by apply list_elem_of_singleton.
  - intros ->. tauto.
Qed.

Lemma dll_frame h h' hd tl l kvs :
  (∀ a, a ∈ nodes_of hd tl l → h' !! a = h !! a) →
  dll h hd tl l kvs → dll h' hd tl l kvs.
Proof.
  intros Hag (Hnd & Hc & Hf). split_and!; [done|by eapply chain_frame|].
  apply Forall2_same_length_lookup. split; [by eapply Forall2_length|].
  intros i a kv Hi Hkv. rewrite (entry_of_agree h h').
  - exact (Forall2_lookup_lr _ _ _ _ _ _ Hf Hi Hkv).
  - apply Hag. unfold nodes_of. rewrite elem_of_cons, elem_of_app.
    right. left. by eapply list_elem_of_lookup_2.
Qed.

Lemma rep_frame h h' m l kvs :
  (∀ a, a ∈ footprint m l → h' !! a = h !! a) →
  rep h m l kvs → rep h' m l kvs.
Proof.
  intros Hag [Hd Hk Hc Hs (tb & Et & Htb)].
  split; try done.
  - by eapply dll_frame.
  - exists tb. split; [done|]. eapply table_for_frame; [|done].
    intros a Ha. apply entry_of_agree, Hag. unfold footprint, nodes_of.
    rewrite elem_of_cons, elem_of_app. tauto.
Qed.

(** *** [rehash] *)

Lemma rehash_loop_run st this m l2 : ∀ l1 kvs ts' tb fuel,
  maps st !! this = Some m →
  dll (nodes st) (head m) (tail m) (l1 ++ l2) kvs →
  (0 < ts')%N → table_for (nodes st) ts' l1 tb → length l2 ≤ fuel →
  ∃ tb', rehash_loop fuel this ts' (List.hd (tail m) l2) tb st = Ret tb' st ∧
         table_for (nodes st) ts' (l1 ++ l2) tb'.
Proof.
  induction l2 as [|a l2 IH]; intros l1 kvs ts' tb fuel Em Hd Hts Htb Hfuel.
  - exists tb. rewrite app_nil_r. split; [|done].
    destruct fuel; simpl; rewrite bind_run, (load_map_run _ _ _ Em);
      by destruct (decide _).
  - destruct fuel as [|fuel]; [simpl in Hfuel; lia|].
    pose proof (dll_nodup _ _ _ _ _ Hd) as (Hnd & _ & Htl & _).
    assert (a ≠ tail m) as Hne.
    { intros ->. apply Htl. rewrite elem_of_app. right. apply list_elem_of_here. }
    assert (a ∉ l1) as Hal1.
    { apply NoDup_app in Hnd as (_ & Hdis & _). intros Ha. apply (Hdis _ Ha).
      apply list_elem_of_here. }
    destruct (dll_entry _ _ _ _ _ (length l1) a Hd) as (kv & Hkv & Ekv).
    { by rewrite list_lookup_middle. }
    destruct (dll_node _ _ _ _ _ _ _ Hd) as (nd & End & _ & Hnext).
    destruct (table_for_push _ _ _ _ _ _ Htb Hts Hal1 Ekv) as (b & Eb & Htb').
    destruct (IH (l1 ++ [a]) kvs ts' _ fuel Em
                ltac:(by rewrite <- app_assoc) Hts Htb')
      as (tb' & Hrun & Hfin); [simpl in Hfuel; lia|].
    exists tb'. rewrite <- app_assoc in Hfin. split; [|done].
    cbn [rehash_loop List.hd]. rewrite bind_run, (load_map_run _ _ _ Em).
    destruct (decide (a = tail m)); [done|].
    rewrite bind_run, (load_data_run _ _ _ Ekv).
    rewrite bind_run. unfold bucket_of. destruct (decide (ts' = 0%N)); [lia|].
    rewrite ret_run, bind_run. unfold push_bucket. rewrite Eb, ret_run.
    rewrite bind_run, (load_node_run _ _ _ End). by rewrite Hnext.
Qed.

Lemma rehash_run st this m l kvs :
  maps st !! this = Some m → rep (nodes st) m l kvs →
  (table_size m * 2 < 2 ^ 64)%N →
  ∃ tb, rehash this st =
        Ret () (mkStore (nodes st) (<[this := rehashed m tb]> (maps st)) (brk st)) ∧
        table_for (nodes st) (table_size m * 2) l tb.
Proof.
  intros Em [Hd Hk Hc Hs _] Hsz.
  destruct (dll_head _ _ _ _ _ Hd) as (hn & Eh & _ & Hnext).
  assert (wrap64 (table_size m * 2) = (table_size m * 2)%N) as Hw.
  { unfold wrap64. by apply N.mod_small. }
  destruct (rehash_loop_run st this m l [] kvs (table_size m * 2)%N
              (replicate (N.to_nat (table_size m * 2)) []) (size (nodes st)) Em)
    as (tb & Hrun & Htb); [done|lia|apply table_for_empty| |].
  { pose proof (dll_fuel _ _ _ _ _ Hd). lia. }
  exists tb. split; [|done]. unfold rehash.
  rewrite bind_run, (load_map_run _ _ _ Em), Hw.
  rewrite bind_run, (load_node_run _ _ _ Eh).
  rewrite bind_run. unfold live_nodes at 1. rewrite Hnext.
  rewrite bind_run, Hrun.
  rewrite bind_run. unfold clear_table.
  rewrite bind_run, (load_map_run _ _ _ Em).
  destruct (table m) as [tb0|] eqn:Et.
  - rewrite (store_map_run _ _ _ _ Em).
    rewrite bind_run. unfold load_map, store_map. simpl.
    rewrite lookup_insert_eq. cbn [maps nodes brk].
    rewrite lookup_insert_eq, insert_insert_eq. done.
  - rewrite ret_run, bind_run, (load_map_run _ _ _ Em).
    rewrite (store_map_run _ _ _ _ Em). unfold rehashed, with_table, with_table_size.
    simpl. done.
Qed.

(** *** Splicing a node in front of the last node of a chain *)

Lemma chain_splice h p s c t q n cn tn d :
  NoDup (s ++ [c; t]) → n ∉ s ++ [c; t] →
  chain h p (s ++ [c; t]) q →
  h !! c = Some cn → h !! t = Some tn →
  chain (<[t := with_prev n tn]>
           (<[c := with_next n cn]> (<[n := mkNode d c t]> h)))
        p (s ++ [c; n; t]) q.
Proof.
  intros Hnd Hn Hc Ec Et.
  apply NoDup_app in Hnd as (_ & Hdis & Hct).
  apply NoDup_cons in Hct as [Hct _]. rewrite list_elem_of_singleton in Hct.
  rewrite elem_of_app, !elem_of_cons, elem_of_nil in Hn.
  apply chain_app in Hc as [Hpre Hc]. apply chain_app. cbn [List.hd] in *. split.
  - eapply chain_frame; [|exact Hpre]. intros a Ha.
    specialize (Hdis a Ha). rewrite !elem_of_cons, elem_of_nil in Hdis.
    rewrite !lookup_insert_ne; [done|intros ->; tauto..].
  - destruct Hc as (cn' & Ec' & Hcp & _ & tn' & Et' & _ & Htn & _).
    rewrite Ec in Ec'. injection Ec' as <-. rewrite Et in Et'. injection Et' as <-.
    cbn [chain List.hd]. exists (with_next n cn). split_and!; try done.
    { rewrite lookup_insert_ne by done. by rewrite lookup_insert_eq. }
    exists (mkNode d c t). split_and!; try done.
    { rewrite !lookup_insert_ne by (intros ->; tauto). by rewrite lookup_insert_eq. }
    exists (with_prev n tn). split_and!; try done.
    by rewrite lookup_insert_eq.
Qed.

Lemma snoc_decompose (x : N) l : ∃ s c, x :: l = s ++ [c] ∧ c = List.last l x.
Proof.
  destruct l as [|y l _] using rev_ind.
  - by exists [], x.
  - exists (x :: l), y. split; [done|]. by rewrite last_last.
Qed.

(** *** [insert_to_list] *)

Lemma insert_to_list_run st this m l kvs n nd kv :
  maps st !! this = Some m →
  dll (nodes st) (head m) (tail m) l kvs →
  nodes st !! n = Some nd → data nd = Some kv → n ∉ footprint m l →
  ∃ h', insert_to_list this n st = Ret () (mkStore h' (maps st) (brk st)) ∧
        dll h' (head m) (tail m) (l ++ [n]) (kvs ++ [kv]) ∧
        same_data (nodes st) h' ∧
        (∀ a, a ≠ n → a ∉ footprint m l → h' !! a = nodes st !! a).
Proof.
  intros Em Hd En Hdata Hn.
  destruct (dll_tail _ _ _ _ _ Hd) as (tn & Et & Htp & _).
  destruct (snoc_decompose (head m) l) as (s & c & Hs & Hc).
  assert (footprint m l = s ++ [c; tail m]) as Hfp.
  { unfold footprint, nodes_of. rewrite app_comm_cons, Hs, <- app_assoc. done. }
  pose proof Hd as (Hnd & Hch & Hf). fold (footprint m l) in Hnd, Hch.
  rewrite Hfp in Hnd, Hch, Hn.
  destruct (chain_mid _ _ _ _ _ _ Hch) as (cn & Ec & _).
  assert (n ≠ c ∧ n ≠ tail m ∧ c ≠ tail m) as (Hnc & Hnt & Hct).
  { rewrite elem_of_app, !elem_of_cons in Hn.
    apply NoDup_app in Hnd as (_ & _ & Hnd). apply NoDup_cons in Hnd as [Hnd _].
    rewrite list_elem_of_singleton in Hnd. split_and!; [| |done]; intros ->; tauto. }
  set (h' := <[tail m := with_prev n tn]>
               (<[c := with_next n cn]>
                  (<[n := mkNode (Some kv) c (tail m)]> (nodes st)))).
  assert (same_data (nodes st) h') as Hsd.
  { unfold h'. eapply same_data_trans; [|eapply same_data_trans].
    - by apply (same_data_insert _ n nd (mkNode (Some kv) c (tail m))).
    - apply (same_data_insert _ c cn (with_next n cn)); [|done].
      by rewrite lookup_insert_ne.
    - apply (same_data_insert _ (tail m) tn (with_prev n tn)); [|done].
      by rewrite !lookup_insert_ne. }
  exists h'. split_and!.
  - unfold insert_to_list. rewrite bind_run, (load_map_run _ _ _ Em).
    rewrite bind_run, (load_node_run _ _ _ Et).
    rewrite bind_run, (set_prev_run _ _ _ _ En).
    rewrite bind_run. erewrite set_next_run by (cbn; apply lookup_insert_eq).
    cbn [nodes maps brk]. rewrite insert_insert_eq.
    rewrite bind_run. erewrite load_node_run
      by (cbn; rewrite lookup_insert_ne by done; exact Et).
    rewrite bind_run. rewrite Htp, <- Hc.
    erewrite set_next_run by (cbn; rewrite lookup_insert_ne by done; exact Ec).
    cbn [nodes maps brk].
    erewrite set_prev_run by (cbn; rewrite !lookup_insert_ne by done; exact Et).
    cbn [nodes maps brk]. unfold h', with_next at 2, with_prev at 2. simpl.
    by rewrite Hdata.
  - assert (nodes_of (head m) (tail m) (l ++ [n]) = s ++ [c; n; tail m]) as Hfp'.
    { unfold nodes_of. rewrite <- app_assoc.
      change (head m :: l ++ [n] ++ [tail m]) with ((head m :: l) ++ [n; tail m]).
      by rewrite Hs, <- app_assoc. }
    unfold dll. rewrite Hfp'. split_and!.
    + apply NoDup_app in Hnd as (Hs1 & Hdis & Hct').
      rewrite elem_of_app, !elem_of_cons, elem_of_nil in Hn.
      apply NoDup_app. split_and!; [done| |].
      * intros x Hx. specialize (Hdis x Hx).
        rewrite !elem_of_cons, elem_of_nil in *. intros [->|[->|[->|[]]]]; tauto.
      * repeat constructor; set_solver.
    + by apply chain_splice.
    + apply Forall2_app.
      * eapply Forall2_impl; [exact Hf|]. intros a kv' E. cbn in E.
        rewrite <- E. by apply same_data_entry.
      * constructor; [|constructor]. unfold h', entry_of.
        rewrite !lookup_insert_ne by done. by rewrite lookup_insert_eq.
  - done.
  - intros a Ha1 Ha2. rewrite Hfp, elem_of_app, !elem_of_cons in Ha2.
    unfold h'. rewrite !lookup_insert_ne; [done|intros <-; tauto..].
Qed.

(** *** [insert_to_table] *)

Lemma insert_to_table_run st this m tb l n kv :
  maps st !! this = Some m → table m = Some tb → (0 < table_size m)%N →
  table_for (nodes st) (table_size m) l tb →
  n ∉ l → entry_of (nodes st) n = Some kv →
  ∃ tb', insert_to_table this n st =
         Ret () (mkStore (nodes st)
                   (<[this := with_table (Some tb') m]> (maps st)) (brk st)) ∧
         table_for (nodes st) (table_size m) (l ++ [n]) tb'.
Proof.
  intros Em Et Hts Htb Hn Ekv.
  destruct (table_for_push _ _ _ _ _ _ Htb Hts Hn Ekv) as (b & Eb & Htb').
  eexists. split; [|exact Htb'].
  unfold insert_to_table. rewrite bind_run, (load_data_run _ _ _ Ekv).
  rewrite bind_run, (get_bucket_index_run _ _ _ _ Em Hts).
  rewrite bind_run, (read_bucket_run _ _ _ _ _ _ Em Et Eb).
  apply write_bucket_run; [done..|].
  destruct Htb as [-> _]. by apply bucket_index_lt.
Qed.

(** *** Counting live nodes *)

Lemma nodup_below s (n : N) :
  NoDup s → (∀ a, a ∈ s → (a < n)%N) → length s ≤ N.to_nat n.
Proof.
  intros Hnd Hlt.
  assert ((N.to_nat <$> s) ⊆+ seq 0 (N.to_nat n)) as Hsub.
  { apply NoDup_submseteq.
    - apply NoDup_fmap_2; [|done]. intros x y. apply N2Nat.inj.
    - intros i (a & -> & Ha)%list_elem_of_fmap. apply elem_of_seq.
      specialize (Hlt a Ha). lia. }
  apply submseteq_length in Hsub.
  by rewrite length_fmap, length_seq in Hsub.
Qed.

Lemma rep_live st m l kvs a :
  alloc_ok st → rep (nodes st) m l kvs → a ∈ footprint m l →
  (0 < a < brk st)%N.
Proof.
  intros (_ & Hn & _) Hrep Ha. apply Hn.
  eapply dll_live; [apply Hrep|done].
Qed.

Lemma rep_count_bound st m l kvs :
  alloc_ok st → rep (nodes st) m l kvs → (element_count m + 2 ≤ brk st)%N.
Proof.
  intros Hal Hrep.
  pose proof (nodup_below (footprint m l) (brk st)) as Hb.
  destruct Hrep as [Hd ? Hc ? ?]. pose proof Hd as (Hnd & _ & _).
  specialize (Hb Hnd). rewrite Hc.
  unfold footprint, nodes_of in Hb. cbn [length] in Hb.
  rewrite length_app in Hb. cbn [length] in Hb.
  assert (∀ a, a ∈ head m :: l ++ [tail m] → (a < brk st)%N) as Hlt.
  { intros a Ha. destruct Hal as (_ & Hn & _).
    apply Hn. eapply dll_live; [exact Hd|done]. }
  specialize (Hb Hlt). lia.
Qed.

(** *** The effect of a mutator on its own container *)

Lemma null_dead st : alloc_ok st → nodes st !! null = None.
Proof.
  intros (_ & Hn & _). destruct (nodes st !! null) eqn:E; [|done].
  destruct (Hn null); [by eexists|]. unfold null in *. lia.
Qed.

Lemma brk_dead st : alloc_ok st → nodes st !! brk st = None.
Proof.
  intros (_ & Hn & _). destruct (nodes st !! brk st) eqn:E; [|done].
  destruct (Hn (brk st)); [by eexists|]. lia.
Qed.

Lemma located_absent l kvs k r : k ∉ kvs.*1 → located l kvs k r → r = null.
Proof.
  intros Hk [[-> _]|(_ & i & v & _ & Hi)]; [done|]. destruct Hk.
  apply list_elem_of_fmap. exists (k, v). split; [done|].
  by eapply list_elem_of_lookup_2.
Qed.

Lemma located_present l kvs k r :
  k ∈ kvs.*1 → located l kvs k r →
  r ≠ null ∧ ∃ i v, l !! i = Some r ∧ kvs !! i = Some (k, v).
Proof. intros Hk [[_ ?]|?]; done. Qed.

(** The growth step of [insert]. *)
Lemma grow_run st this m l kvs :
  maps st !! this = Some m → rep (nodes st) m l kvs →
  (table_size m * 2 < 2 ^ 64)%N →
  ∃ m1 tb1,
    (if load_reached (element_count m) (table_size m)
     then rehash this else mret ()) st
    = Ret () (mkStore (nodes st) (<[this := m1]> (maps st)) (brk st)) ∧
    table m1 = Some tb1 ∧
    table_for (nodes st) (table_size m1) l tb1 ∧
    head m1 = head m ∧ tail m1 = tail m ∧
    element_count m1 = element_count m ∧
    table_size m1 = (if load_reached (element_count m) (table_size m)
                     then table_size m * 2 else table_size m)%N.
Proof.
  intros Em Hrep Hsz. destruct (load_reached _ _).
  - destruct (rehash_run _ _ _ _ _ Em Hrep Hsz) as (tb & -> & Htb).
    exists (rehashed m tb), tb. by split_and!.
  - destruct Hrep as [_ _ _ _ (tb & Et & Htb)]. exists m, tb.
    split_and!; try done. rewrite ret_run. f_equal.
    destruct st as [hn hm hb]. cbn in *. f_equal. by rewrite insert_id.
Qed.

Lemma tight_bound st m :
  tight st m → (brk st < 2 ^ 48)%N → (table_size m * 2 < 2 ^ 64)%N.
Proof.
  unfold tight. intros Ht Hm.
  assert (2 ^ 48 = 281474976710656)%N as E48 by done.
  assert (2 ^ 64 = 18446744073709551616)%N as E64 by done.
  lia.
Qed.

Lemma insert_new st this m l kvs kv :
  alloc_ok st → maps st !! this = Some m → rep (nodes st) m l kvs →
  load_ok m → tight st m → (brk st < 2 ^ 48)%N →
  kv.1 ∉ kvs.*1 →
  ∃ st' m',
    insert this kv st = Ret (mkIterator (brk st) this, true) st' ∧
    updated st st' this (footprint m l) m' (l ++ [brk st]) (kvs ++ [kv]) ∧
    brk st' = (brk st + 1)%N ∧
    head m' = head m ∧ tail m' = tail m ∧
    table_size m' = (if load_reached (element_count m) (table_size m)
                     then table_size m * 2 else table_size m)%N.
Proof.
  intros Hal Em Hrep [Hload Hdiv] Htight Hmod Hfresh.
  pose proof (null_dead _ Hal) as Hnull.
  pose proof (brk_dead _ Hal) as Hbrk.
  pose proof (tight_bound _ _ Htight Hmod) as Hsz.
  pose proof (rep_count_bound _ _ _ _ Hal Hrep) as Hcb.
  destruct (find_node_run _ _ _ _ _ kv.1 Hnull Em Hrep) as (r & Hfind & Hloc).
  apply located_absent in Hloc as ->; [|done].
  destruct (grow_run _ _ _ _ _ Em Hrep Hsz)
    as (m1 & tb1 & Hgrow & Et1 & Htb1 & Hh1 & Ht1 & Hc1 & Hs1).
  set (n := brk st).
  set (nd0 := mkNode (Some kv) null null).
  set (st2 := mkStore (<[n := nd0]> (nodes st)) (<[this := m1]> (maps st)) (n + 1)).
  assert (n ∉ footprint m l) as Hnfp.
  { intros Hn. pose proof (rep_live _ _ _ _ _ Hal Hrep Hn). lia. }
  assert (dll (nodes st2) (head m1) (tail m1) l kvs) as Hd2.
  { rewrite Hh1, Ht1. eapply dll_frame; [|apply Hrep].
    intros a Ha. cbn. rewrite lookup_insert_ne; [done|]. by intros <-. }
  destruct (insert_to_list_run st2 this m1 l kvs n nd0 kv)
    as (h3 & Hitl & Hd3 & Hsd3 & Hfr3);
    [apply lookup_insert_eq|done|apply lookup_insert_eq|done
    |by unfold footprint; rewrite Hh1, Ht1|].
  set (st3 := mkStore h3 (<[this := m1]> (maps st)) (n + 1)).
  assert (∀ a, a ∈ l → entry_of h3 a = entry_of (nodes st) a) as Hent.
  { intros a Ha. rewrite (same_data_entry _ _ a Hsd3). apply entry_of_agree.
    cbn. rewrite lookup_insert_ne; [done|]. intros <-. apply Hnfp.
    unfold footprint, nodes_of. rewrite elem_of_cons, elem_of_app. tauto. }
  assert (entry_of h3 n = Some kv) as Hent_n.
  { rewrite (same_data_entry _ _ n Hsd3). unfold entry_of. cbn.
    by rewrite lookup_insert_eq. }
  assert (0 < table_size m1)%N as Hpos1.
  { rewrite Hs1. destruct Hrep as [_ _ _ Hs _]. destruct (load_reached _ _); lia. }
  destruct (insert_to_table_run st3 this m1 tb1 l n kv)
    as (tb' & Hitt & Htb'); [apply lookup_insert_eq|done|done| | |done|].
  { eapply table_for_frame; [|exact Htb1]. done. }
  { intros Hn. apply Hnfp. unfold footprint, nodes_of.
    rewrite elem_of_cons, elem_of_app. tauto. }
  set (m4 := with_table (Some tb') m1).
  set (m' := with_element_count (wrap64 (element_count m4 + 1)) m4).
  exists (mkStore h3 (<[this := m']> (maps st)) (n + 1)), m'.
  split_and!; try done.
  - unfold insert. rewrite bind_run, Hfind.
    destruct (decide (null ≠ null)); [done|].
    rewrite bind_run, (load_map_run _ _ _ Em).
    rewrite bind_run, Hgrow.
    rewrite bind_run. unfold new_node at 1. cbn [nodes maps brk].
    fold n nd0 st2. rewrite bind_run, Hitl. unfold st2. cbn [nodes maps brk].
    fold st3. rewrite bind_run, Hitt. unfold st3. cbn [nodes maps brk].
    rewrite insert_insert_eq.
    rewrite bind_run. erewrite load_map_run by (cbn; apply lookup_insert_eq).
    fold m4. rewrite bind_run.
    erewrite store_map_run by (cbn; apply lookup_insert_eq).
    cbn [nodes maps brk]. by rewrite insert_insert_eq.
  - assert (element_count m' = N.of_nat (length (l ++ [n]))) as Hcnt.
    { cbn. rewrite Hc1. destruct Hrep as [_ _ Hc Hs _]. rewrite Hc.
      rewrite length_app. cbn [length]. unfold wrap64.
      rewrite N.mod_small; [lia|]. rewrite Hc in Hload. lia. }
    split; cbn [nodes maps brk].
    + done.
    + lia.
    + destruct Hal as (Hb & Hn & Hm). split_and!; cbn [nodes maps brk].
      * lia.
      * intros a [nd Hnd]. destruct (decide (a = n)) as [->|Hne]; [subst n; lia|].
        pose proof (Hsd3 a) as Hsa. rewrite Hnd in Hsa. cbn in Hsa.
        rewrite lookup_insert_ne in Hsa by done.
        destruct (nodes st !! a) eqn:E; [|done].
        destruct (Hn a); [by eexists|]. lia.
      * intros a [x Hx]. destruct (decide (this = a)) as [<-|Hne].
        -- destruct (Hm this); [by eexists|]. lia.
        -- rewrite lookup_insert_ne in Hx by done.
           destruct (Hm a); [by eexists|]. lia.
    + intros a Halt Hafp. rewrite Hfr3.
      * cbn. rewrite lookup_insert_ne; [done|]. subst n. lia.
      * subst n. lia.
      * by unfold footprint; rewrite Hh1, Ht1.
    + intros a. unfold footprint, nodes_of. cbn [head tail m' m4 with_table with_element_count].
      rewrite Hh1, Ht1. rewrite !elem_of_cons, !elem_of_app, !list_elem_of_singleton.
      intros [?|[[?| ->]|?]]; try tauto. right. subst n. lia.
    + split.
      * cbn [head tail m' m4 with_table with_element_count]. done.
      * rewrite fmap_app. apply NoDup_app. destruct Hrep as [_ Hk _ _ _].
        split_and!; [done| |apply NoDup_singleton].
        intros k Hk' ->%list_elem_of_singleton. done.
      * done.
      * cbn [table_size m' m4 with_table with_element_count]. rewrite Hs1.
        destruct Hrep as [_ _ _ Hs _]. destruct (load_reached _ _); lia.
      * exists tb'. split; [done|]. done.
    + unfold load_ok. rewrite Hcnt.
      cbn [table_size m' m4 with_table with_element_count].
      rewrite Hs1, length_app. cbn [length].
      destruct Hrep as [_ _ Hc Hs _]. rewrite Hc in Hload.
      destruct Hdiv as [c Hc4]. unfold load_reached. rewrite Hc.
      case_bool_decide as Hlr.
      * split; [lia|]. exists (c * 2)%N. lia.
      * split; [lia|]. by exists c.
    + unfold tight in *. cbn [brk table_size m' m4 with_table with_element_count].
      rewrite Hs1. unfold load_reached. case_bool_decide as Hlr; lia.
Qed.

(** *** Removing a node from its bucket *)

Lemma unlink_chain_run st k b a :
  NoDup b → a ∈ b →
  (∀ x, x ∈ b → ∃ kv, entry_of (nodes st) x = Some kv ∧ (kv.1 = k ↔ x = a)) →
  ∃ b', unlink_chain k b st = Ret b' st ∧ NoDup b' ∧
        ∀ x, x ∈ b' ↔ x ∈ b ∧ x ≠ a.
Proof.
  induction b as [|y b IH]; intros Hnd Ha Hb; [by apply elem_of_nil in Ha|].
  apply NoDup_cons in Hnd as [Hy Hnd].
  destruct (Hb y) as (kv & Ekv & Hk); [apply list_elem_of_here|].
  cbn [unlink_chain]. rewrite bind_run, (load_data_run _ _ _ Ekv).
  unfold equal. case_bool_decide as Hkey.
  - apply Hk in Hkey as ->. exists b. split_and!; [done..|].
    intros x. rewrite elem_of_cons. split; [|intros [[?|?] ?]; [done|tauto]].
    intros Hx. split; [tauto|]. by intros ->.
  - assert (y ≠ a) as Hne by (intros ->; tauto).
    apply elem_of_cons in Ha as [->|Ha]; [done|].
    destruct IH as (b' & Hrun & Hnd' & Hmem); [done..| |].
    { intros x Hx. apply Hb. by apply list_elem_of_further. }
    exists (y :: b'). rewrite bind_run, Hrun. split_and!; [done| |].
    + constructor; [|done]. rewrite Hmem. tauto.
    + intros x. rewrite !elem_of_cons, Hmem. split; [|tauto].
      intros [->|?]; tauto.
Qed.

Lemma table_for_remove h ts l1 a l2 tb kv b b' :
  table_for h ts (l1 ++ a :: l2) tb → NoDup (l1 ++ a :: l2) →
  entry_of h a = Some kv →
  tb !! N.to_nat (hasher kv.1 mod ts) = Some b →
  NoDup b' → (∀ x, x ∈ b' ↔ x ∈ b ∧ x ≠ a) →
  table_for h ts (l1 ++ l2) (<[N.to_nat (hasher kv.1 mod ts) := b']> tb).
Proof.
  intros [Hlen Hb] Hnd Ekv Eb Hnd' Hb'.
  assert (a ∉ l1 ++ l2) as Hal.
  { apply NoDup_app in Hnd as (_ & Hdis & Hnd). apply NoDup_cons in Hnd as [? _].
    rewrite elem_of_app. intros [Ha|Ha]; [|done].
    apply (Hdis _ Ha), list_elem_of_here. }
  assert (∀ x, x ∈ l1 ++ a :: l2 ↔ x = a ∨ x ∈ l1 ++ l2) as Hmem.
  { intros x. rewrite !elem_of_app, elem_of_cons. tauto. }
  split; [by rewrite length_insert|].
  set (i := N.to_nat (hasher kv.1 mod ts)) in *.
  intros j bj Ej. destruct (decide (i = j)) as [<-|Hne].
  - rewrite list_lookup_insert_eq in Ej by (by eapply lookup_lt_Some).
    injection Ej as <-. split; [done|]. destruct (Hb _ _ Eb) as [_ Hbm].
    intros x. rewrite Hb', Hbm, Hmem. split.
    + intros [[[->|?] ?] ?]; [done|tauto].
    + intros [? ?]. split; [tauto|]. by intros ->.
  - rewrite list_lookup_insert_ne in Ej by done.
    destruct (Hb _ _ Ej) as [Hndj Hbm]. split; [done|].
    intros x. rewrite Hbm, Hmem. split; [|tauto].
    intros [[->|?] Hx]; [|tauto]. destruct Hx as (kv' & E' & Hidx).
    rewrite Ekv in E'. injection E' as <-. subst i. lia.
Qed.

(** *** Unlinking a node from a chain *)

Lemma chain_unsplice h p s1 c a d s2 q cn dn :
  NoDup (s1 ++ c :: a :: d :: s2) →
  chain h p (s1 ++ c :: a :: d :: s2) q →
  h !! c = Some cn → h !! d = Some dn →
  chain (delete a (<[d := with_prev c dn]> (<[c := with_next d cn]> h)))
        p (s1 ++ c :: d :: s2) q.
Proof.
  intros Hnd Hc Ec Ed.
  apply NoDup_app in Hnd as (_ & Hdis & Hnd).
  apply NoDup_cons in Hnd as [Hc1 Hnd]. apply NoDup_cons in Hnd as [Ha1 Hnd].
  apply NoDup_cons in Hnd as [Hd1 Hnd].
  rewrite !elem_of_cons in Hc1. rewrite !elem_of_cons in Ha1.
  apply chain_app in Hc as [Hpre Hc]. apply chain_app. cbn [List.hd] in *. split.
  - eapply chain_frame; [|exact Hpre]. intros x Hx.
    specialize (Hdis x Hx). rewrite !elem_of_cons in Hdis.
    rewrite lookup_delete_ne by (intros ->; intuition congruence).
    rewrite !lookup_insert_ne; [done|intros ->; intuition congruence..].
  - destruct Hc as (cn' & Ec' & Hcp & _ & an & _ & _ & _ & dn' & Ed' & _ & Hdn & Hrest).
    rewrite Ec in Ec'. injection Ec' as <-. rewrite Ed in Ed'. injection Ed' as <-.
    cbn [chain List.hd]. exists (with_next d cn). split_and!; try done.
    { rewrite lookup_delete_ne by (intros ->; intuition congruence).
      rewrite lookup_insert_ne by (intros ->; intuition congruence). by rewrite lookup_insert_eq. }
    exists (with_prev c dn). split_and!; try done.
    { rewrite lookup_delete_ne by (intros ->; intuition congruence). by rewrite lookup_insert_eq. }
    eapply chain_frame; [|exact Hrest]. intros x Hx.
    rewrite lookup_delete_ne by (intros ->; intuition congruence).
    rewrite !lookup_insert_ne; [done|intros ->; intuition congruence..].
Qed.

Lemma cons_decompose (x : N) l : ∃ d s, l ++ [x] = d :: s ∧ d = List.hd x l.
Proof. destruct l as [|y l]; [by exists x, []|by exists y, (l ++ [x])]. Qed.

Lemma same_data_delete_entry h h' a x :
  same_data h h' → x ≠ a → entry_of (delete a h') x = entry_of h x.
Proof.
  intros Hsd Hne. rewrite <- (same_data_entry h h' x Hsd).
  apply entry_of_agree. by rewrite lookup_delete_ne.
Qed.

(** *** [erase] at a data node *)

Lemma erase_valid st this m l1 a l2 kvs :
  alloc_ok st → maps st !! this = Some m →
  rep (nodes st) m (l1 ++ a :: l2) kvs → load_ok m → tight st m →
  ∃ st' m' k1 kv k2,
    kvs = k1 ++ kv :: k2 ∧ length k1 = length l1 ∧
    erase this (mkIterator a this) st = Ret () st' ∧
    updated st st' this (footprint m (l1 ++ a :: l2)) m' (l1 ++ l2) (k1 ++ k2) ∧
    nodes st' !! a = None ∧
    (element_count m' + 1)%N = element_count m ∧
    table_size m' = table_size m ∧
    brk st' = brk st.
Proof.
  intros Hal Em Hrep [Hload Hdiv] Htight.
  pose proof (null_dead _ Hal) as Hnull.
  pose proof Hrep as [Hd Hkeys Hcnt Hsz (tb & Et & Htb)].
  pose proof Hd as (Hnd & Hch & Hf).
  pose proof (dll_nodup _ _ _ _ _ Hd) as (Hndl & Hhl & Htl & Hht).
  apply Forall2_app_inv_l in Hf as (k1 & k2' & Hf1 & Hf2 & ->).
  apply Forall2_cons_inv_l in Hf2 as (kv & k2 & Ekv & Hf2 & ->).
  pose proof (Forall2_length _ _ _ Hf1) as Hlen1.
  destruct (snoc_decompose (head m) l1) as (s1 & c & Hs1 & Hc).
  destruct (cons_decompose (tail m) l2) as (d & s2 & Hs2 & Hdd).
  assert (nodes_of (head m) (tail m) (l1 ++ a :: l2) = s1 ++ c :: a :: d :: s2) as Hfp.
  { unfold nodes_of. rewrite <- app_assoc.
    change (head m :: l1 ++ (a :: l2) ++ [tail m])
      with ((head m :: l1) ++ a :: (l2 ++ [tail m])).
    by rewrite Hs1, Hs2, <- app_assoc. }
  assert (nodes_of (head m) (tail m) (l1 ++ l2) = s1 ++ c :: d :: s2) as Hfp'.
  { unfold nodes_of. rewrite <- app_assoc.
    change (head m :: l1 ++ l2 ++ [tail m]) with ((head m :: l1) ++ (l2 ++ [tail m])).
    by rewrite Hs1, Hs2, <- app_assoc. }
  destruct (dll_node _ _ _ _ _ _ _ Hd) as (an & Ea & Hap & Han).
  rewrite <- Hc in Hap. rewrite <- Hdd in Han.
  rewrite Hfp in Hnd, Hch.
  assert (is_Some (nodes st !! c)) as [cn Ec].
  { eapply chain_lookup; [exact Hch|]. rewrite elem_of_app, elem_of_cons. tauto. }
  assert (is_Some (nodes st !! d)) as [dn Ed].
  { eapply chain_lookup; [exact Hch|]. rewrite elem_of_app, !elem_of_cons. tauto. }
  assert (a ≠ c ∧ a ≠ d ∧ c ≠ d) as (Hac & Had & Hcd).
  { pose proof Hnd as Hnd'. apply NoDup_app in Hnd' as (_ & _ & Hnd').
    apply NoDup_cons in Hnd' as [Hc1 Hnd']. apply NoDup_cons in Hnd' as [Ha1 _].
    rewrite !elem_of_cons in Hc1. rewrite !elem_of_cons in Ha1.
    split_and!; intros ->; tauto. }
  assert (a ≠ tail m ∧ a ≠ head m ∧ a ≠ null) as (Hat & Hah & Han0).
  { split_and!; intros ->.
    - apply Htl. rewrite elem_of_app, elem_of_cons. tauto.
    - apply Hhl. rewrite elem_of_app, elem_of_cons. tauto.
    - by rewrite Hnull in Ea. }
  (* the bucket of [a] *)
  set (i := (hasher kv.1 mod table_size m)%N).
  pose proof Htb as [Htlen Hbuckets].
  assert (N.to_nat i < length tb) as Hi.
  { rewrite Htlen. apply bucket_index_lt. lia. }
  destruct (lookup_lt_is_Some_2 tb _ Hi) as [b Eb].
  destruct (Hbuckets _ _ Eb) as [Hndb Hbmem].
  destruct (unlink_chain_run st kv.1 b a) as (b' & Hunl & Hndb' & Hb'mem); [done| | |].
  { apply Hbmem. split; [rewrite elem_of_app, elem_of_cons; tauto|].
    exists kv. split; [done|]. subst i. lia. }
  { intros x [Hxl (kv' & Ex & _)]%Hbmem. exists kv'. split; [done|].
    split; [|intros ->; rewrite Ekv in Ex; by injection Ex as <-].
    intros Hk. apply list_elem_of_lookup in Hxl as [j Hj].
    destruct (dll_entry _ _ _ _ _ _ _ Hd Hj) as (kv'' & Hkj & Ex').
    rewrite Ex in Ex'. injection Ex' as <-.
    assert (j = length k1) as ->.
    { eapply (keys_unique _ _ _ kv' kv Hkeys); [done| |done].
      by rewrite list_lookup_middle. }
    rewrite <- Hlen1, list_lookup_middle in Hj by done. by injection Hj. }
  set (m1 := with_table (Some (<[N.to_nat i := b']> tb)) m).
  set (h3 := delete a (<[d := with_prev c dn]> (<[c := with_next d cn]> (nodes st)))).
  set (m' := with_element_count (wrap64 (element_count m1 + (2 ^ 64 - 1))) m1).
  assert (same_data (nodes st) (<[d := with_prev c dn]> (<[c := with_next d cn]> (nodes st))))
    as Hsd.
  { eapply same_data_trans.
    - by apply (same_data_insert _ c cn (with_next d cn)).
    - apply (same_data_insert _ d dn (with_prev c dn)); [|done].
      by rewrite lookup_insert_ne. }
  assert (∀ x, x ∈ l1 ++ l2 → x ≠ a) as Hxa.
  { intros x Hx ->. apply NoDup_app in Hndl as (_ & Hdis & Hnda).
    apply NoDup_cons in Hnda as [? _]. apply elem_of_app in Hx as [Hx|Hx]; [|done].
    apply (Hdis _ Hx), list_elem_of_here. }
  exists (mkStore h3 (<[this := m']> (maps st)) (brk st)), m', k1, kv, k2.
  split_and!; try done.
  - unfold erase. cbn [it_map it_node].
    destruct (decide (this ≠ this)); [done|].
    rewrite bind_run, (load_map_run _ _ _ Em).
    destruct (decide (a = tail m)); [done|]. destruct (decide (a = head m)); [done|].
    destruct (decide (a = null)); [done|].
    rewrite bind_run, (load_data_run _ _ _ Ekv).
    rewrite bind_run. unfold remove_from_table.
    rewrite bind_run, (get_bucket_index_run _ _ _ _ Em) by lia. fold i.
    rewrite bind_run, (read_bucket_run _ _ _ _ _ _ Em Et Eb).
    rewrite bind_run, Hunl.
    rewrite (write_bucket_run _ _ _ _ _ _ Em Et Hi). fold m1.
    rewrite bind_run. unfold remove_from_list.
    rewrite bind_run. erewrite load_node_run by exact Ea.
    rewrite Hap, Han.
    rewrite bind_run. erewrite set_next_run by exact Ec. cbn [nodes maps brk].
    rewrite bind_run. erewrite load_node_run
      by (cbn; rewrite lookup_insert_ne by done; exact Ea).
    rewrite Hap, Han.
    erewrite set_prev_run by (cbn; rewrite lookup_insert_ne by done; exact Ed).
    cbn [nodes maps brk].
    rewrite bind_run. unfold delete_node. destruct (decide (a = null)); [done|].
    cbn [nodes maps brk]. rewrite !lookup_insert_ne by done. rewrite Ea.
    rewrite bind_run. erewrite load_map_run by (cbn; apply lookup_insert_eq).
    erewrite store_map_run by (cbn; apply lookup_insert_eq).
    cbn [nodes maps brk]. by rewrite insert_insert_eq.
  - assert (element_count m' + 1 = element_count m)%N as Hcnt'.
    { cbn. rewrite Hcnt, length_app. cbn [length]. unfold wrap64.
      assert (2 ^ 64 = 18446744073709551616)%N as E64 by done.
      replace (N.of_nat (length l1 + S (length l2)) + (2 ^ 64 - 1))%N
        with (N.of_nat (length l1 + length l2) + 1 * 2 ^ 64)%N by lia.
      rewrite N.Div0.mod_add, N.mod_small; [lia|].
      rewrite Hcnt, length_app in Hload. cbn [length] in Hload. lia. }
    split; cbn [nodes maps brk].
    + done.
    + lia.
    + destruct Hal as (Hb & Hn & Hm). split_and!; cbn [nodes maps brk].
      * done.
      * intros x [nd Hx]. apply Hn. unfold h3 in Hx.
        apply lookup_delete_Some in Hx as [_ Hx].
        pose proof (Hsd x) as Hsx. rewrite Hx in Hsx.
        destruct (nodes st !! x); [by eexists|done].
      * intros x [y Hx]. destruct (decide (this = x)) as [<-|Hne].
        -- apply Hm. by eexists.
        -- rewrite lookup_insert_ne in Hx by done. apply Hm. by eexists.
    + intros x _ Hx. unfold footprint in Hx. rewrite Hfp in Hx.
      rewrite elem_of_app, !elem_of_cons in Hx. unfold h3.
      rewrite lookup_delete_ne by (intros ->; tauto).
      rewrite !lookup_insert_ne; [done|intros ->; tauto..].
    + intros x. unfold footprint. cbn [head tail m' m1 with_table with_element_count].
      rewrite Hfp, Hfp'. rewrite !elem_of_app, !elem_of_cons. tauto.
    + split.
      * cbn [head tail m' m1 with_table with_element_count].
        unfold dll. rewrite Hfp'. split_and!.
        -- apply NoDup_app in Hnd as (Hn1 & Hdis & Hn2).
           apply NoDup_cons in Hn2 as [Hc1 Hn2]. apply NoDup_cons in Hn2 as [Ha1 Hn2].
           rewrite !elem_of_cons in Hc1.
           apply NoDup_app. split_and!; [done| |].
           ++ intros x Hx. specialize (Hdis x Hx). rewrite !elem_of_cons in *. tauto.
           ++ constructor; [|done]. rewrite elem_of_cons. tauto.
        -- by apply chain_unsplice.
        -- apply Forall2_app.
           ++ apply Forall2_same_length_lookup. split; [done|].
              intros j x kv' Hj Hkj. unfold h3.
              rewrite (same_data_delete_entry _ _ _ _ Hsd).
              ** exact (Forall2_lookup_lr _ _ _ _ _ _ Hf1 Hj Hkj).
              ** apply Hxa. rewrite elem_of_app. left. by eapply list_elem_of_lookup_2.
           ++ apply Forall2_same_length_lookup. split; [by eapply Forall2_length|].
              intros j x kv' Hj Hkj. unfold h3.
              rewrite (same_data_delete_entry _ _ _ _ Hsd).
              ** exact (Forall2_lookup_lr _ _ _ _ _ _ Hf2 Hj Hkj).
              ** apply Hxa. rewrite elem_of_app. right. by eapply list_elem_of_lookup_2.
      * rewrite fmap_app in *. rewrite fmap_cons in Hkeys.
        apply NoDup_app in Hkeys as (Hn1 & Hdis & Hn2).
        apply NoDup_cons in Hn2 as [_ Hn2]. apply NoDup_app. split_and!; [done| |done].
        intros x Hx. specialize (Hdis x Hx). rewrite elem_of_cons in Hdis. tauto.
      * rewrite length_app. rewrite Hcnt, length_app in Hcnt'. cbn [length] in Hcnt'. lia.
      * done.
      * exists (<[N.to_nat i := b']> tb). split; [done|].
        cbn [table_size m' m1 with_table with_element_count].
        eapply table_for_frame; [|by eapply table_for_remove].
        intros x Hx. unfold h3. apply same_data_delete_entry; [done|by apply Hxa].
    + unfold load_ok. cbn [table_size m' m1 with_table with_element_count].
      split; [lia|done].
    + done.
  - unfold h3. apply lookup_delete_eq.
  - cbn. rewrite Hcnt, length_app. cbn [length]. unfold wrap64.
    assert (2 ^ 64 = 18446744073709551616)%N as E64 by done.
    replace (N.of_nat (length l1 + S (length l2)) + (2 ^ 64 - 1))%N
      with (N.of_nat (length l1 + length l2) + 1 * 2 ^ 64)%N by lia.
    rewrite N.Div0.mod_add, N.mod_small; [lia|].
    rewrite Hcnt, length_app in Hload. cbn [length] in Hload. lia.
Qed.

(** *** From one container to the whole store *)

Lemma tight_mono st st' m : (brk st ≤ brk st')%N → tight st m → tight st' m.
Proof. unfold tight. lia. Qed.

Lemma owns_update st st' own this F m' l' kvs' :
  alloc_ok st → owns st own →
  (∀ o mo lo ko, o ≠ this → maps st !! o = Some mo → own !! o = Some (lo, ko) →
                 ∀ x, x ∈ footprint mo lo → x ∉ F) →
  updated st st' this F m' l' kvs' →
  owns st' (<[this := (l', kvs')]> own).
Proof.
  intros Hal [Hdom Hrep Hsep] HF [Hmaps Hbrk Hal' Hframe Hfp Hrep' Hload' Htight'].
  assert (∀ o mo lo ko, o ≠ this → maps st !! o = Some mo →
                        own !! o = Some (lo, ko) →
                        rep (nodes st') mo lo ko ∧ load_ok mo ∧ tight st' mo) as Hother.
  { intros o mo lo ko Hne Emo Eo.
    destruct (Hrep _ _ _ _ Emo Eo) as (Hr & Hl & Ht). split_and!; [|done|].
    - eapply rep_frame; [|exact Hr]. intros x Hx. apply Hframe.
      + by destruct (rep_live _ _ _ _ _ Hal Hr Hx).
      + by eapply HF.
    - by eapply tight_mono. }
  assert (∀ o mo lo ko, o ≠ this → maps st !! o = Some mo →
                        own !! o = Some (lo, ko) →
                        ∀ x, x ∈ footprint m' l' → x ∈ footprint mo lo → False) as Hnew.
  { intros o mo lo ko Hne Emo Eo x Hx Hxo.
    destruct (Hfp x Hx) as [HxF|Hge].
    - by eapply HF.
    - destruct (Hrep _ _ _ _ Emo Eo) as (Hr & _ & _).
      pose proof (rep_live _ _ _ _ _ Hal Hr Hxo). lia. }
  split.
  - intros a. rewrite Hmaps. destruct (decide (this = a)) as [<-|Hne].
    + rewrite !lookup_insert_eq. split; by eexists.
    + rewrite !lookup_insert_ne by done. apply Hdom.
  - intros a ma la ka. rewrite Hmaps. destruct (decide (this = a)) as [<-|Hne].
    + rewrite !lookup_insert_eq. intros [= <-] [= <- <-]. done.
    + rewrite !lookup_insert_ne by done. intros. by eapply Hother.
  - intros a o ma mo la lo ka ko Hao. rewrite Hmaps.
    destruct (decide (this = a)) as [<-|Hna]; destruct (decide (this = o)) as [<-|Hno];
      try done.
    + intros Ema Emo Ea Eo x Hx Hxo.
      rewrite lookup_insert_eq in Ema. rewrite lookup_insert_eq in Ea.
      rewrite lookup_insert_ne in Emo by done. rewrite lookup_insert_ne in Eo by done.
      injection Ema as <-. injection Ea as <- <-. by eapply Hnew.
    + intros Ema Emo Ea Eo x Hx Hxo.
      rewrite lookup_insert_eq in Emo. rewrite lookup_insert_eq in Eo.
      rewrite lookup_insert_ne in Ema by done. rewrite lookup_insert_ne in Ea by done.
      injection Emo as <-. injection Eo as <- <-. by eapply (Hnew a).
    + rewrite !lookup_insert_ne by done. by apply Hsep.
Qed.

Lemma owns_update_live st st' own this m l kvs m' l' kvs' :
  alloc_ok st → owns st own →
  maps st !! this = Some m → own !! this = Some (l, kvs) →
  updated st st' this (footprint m l) m' l' kvs' →
  owns st' (<[this := (l', kvs')]> own).
Proof.
  intros Hal Hown Em Eo Hupd. eapply owns_update; [done..| |done].
  intros o mo lo ko Hne Emo Eoo x Hx HxF.
  by eapply (owns_sep _ _ Hown o this).
Qed.

Lemma owns_lookup st own this m :
  owns st own → maps st !! this = Some m →
  ∃ l kvs, own !! this = Some (l, kvs) ∧ rep (nodes st) m l kvs ∧
           load_ok m ∧ tight st m.
Proof.
  intros Hown Em. destruct (proj1 (owns_dom _ _ Hown this)) as [[l kvs] Eo]; [by eexists|].
  exists l, kvs. split; [done|]. by eapply owns_rep.
Qed.

(** *** Construction *)

Lemma init_sentinels_run st this m0 :
  maps st !! this = Some m0 →
  init_sentinels this st =
  Ret () (mkStore (<[(brk st + 1)%N := mkNode None (brk st) null]>
                     (<[brk st := mkNode None null (brk st + 1)%N]> (nodes st)))
                  (<[this := with_tail (brk st + 1) (with_head (brk st) m0)]> (maps st))
                  (brk st + 2)).
Proof.
  intros Em. unfold init_sentinels.
  rewrite bind_run. unfold new_node at 1. cbn [nodes maps brk].
  rewrite bind_run. erewrite load_map_run by exact Em.
  rewrite bind_run. erewrite store_map_run by exact Em. cbn [nodes maps brk].
  rewrite bind_run. unfold new_node at 1. cbn [nodes maps brk].
  rewrite bind_run. erewrite load_map_run by (cbn; apply lookup_insert_eq).
  rewrite bind_run. erewrite store_map_run by (cbn; apply lookup_insert_eq).
  cbn [nodes maps brk]. rewrite insert_insert_eq.
  rewrite bind_run. erewrite load_map_run by (cbn; apply lookup_insert_eq).
  cbn [head tail with_head with_tail].
  assert (brk st ≠ brk st + 1)%N as Hne by lia.
  rewrite bind_run. erewrite set_next_run
    by (cbn; rewrite lookup_insert_ne by done; apply lookup_insert_eq).
  cbn [nodes maps brk].
  erewrite set_prev_run
    by (cbn; rewrite lookup_insert_ne by done; apply lookup_insert_eq).
  cbn [nodes maps brk]. unfold with_next, with_prev. cbn [data prev next].
  f_equal. f_equal; [|by replace (brk st + 1 + 1)%N with (brk st + 2)%N by lia].
  apply map_eq. intros i. rewrite !lookup_insert.
  repeat case_decide; try done; lia.
Qed.

Lemma init_table_run st this m size :
  maps st !! this = Some m →
  init_table this size st =
  Ret () (mkStore (nodes st)
            (<[this := with_table (Some (replicate (N.to_nat size) []))
                         (with_table_size size m)]> (maps st))
            (brk st)).
Proof.
  intros Em. unfold init_table. rewrite bind_run, (load_map_run _ _ _ Em).
  by apply store_map_run with m.
Qed.

Lemma sentinels_run {A} st (k : N → M A) :
  (this ← new_map (mkMap None 0 0 null null); init_sentinels this;; k this) st
  = k (brk st) (sentinels_built st).
Proof.
  rewrite bind_run. unfold new_map at 1.
  rewrite bind_run. erewrite init_sentinels_run by (cbn; apply lookup_insert_eq).
  cbn [nodes maps brk]. rewrite insert_insert_eq. unfold sentinels_built.
  cbn [with_head with_tail head tail table table_size element_count].
  by replace (brk st + 1 + 1)%N with (brk st + 2)%N by lia;
     replace (brk st + 1 + 2)%N with (brk st + 3)%N by lia.
Qed.

Lemma built_run st size :
  init_table (brk st) size (sentinels_built st) = Ret () (built st size).
Proof.
  erewrite init_table_run by (cbn; apply lookup_insert_eq).
  unfold built, sentinels_built. cbn [nodes maps brk]. by rewrite insert_insert_eq.
Qed.

Lemma built_updated st size :
  alloc_ok st → (0 < size < 2 ^ 64)%N → (4 | size)%N →
  (3 * size ≤ N.max 48 (8 * (brk st + 3)))%N →
  updated st (built st size) (brk st) []
          (mkMap (Some (replicate (N.to_nat size) [])) size 0
                 (brk st + 1) (brk st + 2))
          [] [].
Proof.
  intros (Hb & Hn & Hm) Hsize Hdiv Ht.
  assert (brk st + 1 ≠ brk st + 2)%N as Hne by lia.
  split; unfold built; cbn [nodes maps brk].
  - done.
  - lia.
  - split_and!; cbn [nodes maps brk]; [lia| |].
    + intros a [nd Ha]. rewrite !lookup_insert in Ha.
      repeat case_decide; try lia. destruct (Hn a); [by eexists|]. lia.
    + intros a [x Ha]. rewrite lookup_insert in Ha.
      case_decide; [lia|]. destruct (Hm a); [by eexists|]. lia.
  - intros a Ha _. rewrite !lookup_insert_ne; [done|lia..].
  - intros a. unfold footprint, nodes_of. cbn [head tail app].
    rewrite !elem_of_cons, elem_of_nil. lia.
  - split; cbn [head tail element_count table_size table].
    + split_and!.
      * unfold nodes_of. cbn [app]. repeat constructor.
        -- rewrite list_elem_of_singleton. lia.
        -- apply not_elem_of_nil.
      * unfold nodes_of. cbn [app chain List.hd].
        eexists. split; [by rewrite lookup_insert_ne, lookup_insert_eq|].
        split_and!; try done.
        eexists. split; [by rewrite lookup_insert_eq|]. done.
      * constructor.
    + constructor.
    + done.
    + done.
    + eexists. split; [done|]. apply table_for_empty.
  - split; cbn; [lia|done].
  - done.
Qed.

Lemma construct_run st : construct st = Ret (brk st) (built st INITIAL_CAPACITY).
Proof.
  unfold construct. rewrite sentinels_run.
  rewrite bind_run, built_run. done.
Qed.

(** *** [clear] *)

Lemma lookup_delete_all l h a :
  delete_all l h !! a = if decide (a ∈ l) then None else h !! a.
Proof.
  revert h. induction l as [|x l IH]; intros h; cbn [delete_all foldl].
  - destruct (decide _) as [?%elem_of_nil|]; done.
  - fold (delete_all l (delete x h)). rewrite IH.
    destruct (decide (a ∈ l)) as [Hl|Hl].
    + rewrite decide_True; [done|]. by apply list_elem_of_further.
    + destruct (decide (x = a)) as [->|Hne].
      * rewrite decide_True by apply list_elem_of_here. apply lookup_delete_eq.
      * rewrite decide_False by (rewrite elem_of_cons; intros [?|?]; done).
        by rewrite lookup_delete_ne.
Qed.

Lemma clear_list_loop_run this m l2 : ∀ st p fuel,
  maps st !! this = Some m → nodes st !! null = None →
  chain (nodes st) p l2 (tail m) → NoDup l2 → tail m ∉ l2 →
  length l2 ≤ fuel →
  clear_list_loop fuel this (List.hd (tail m) l2) st =
  Ret () (mkStore (delete_all l2 (nodes st)) (maps st) (brk st)).
Proof.
  induction l2 as [|a l2 IH]; intros st p fuel Em Hnull Hch Hnd Htl Hfuel.
  - destruct st. destruct fuel; cbn [clear_list_loop List.hd];
      rewrite bind_run, (load_map_run _ _ _ Em); by destruct (decide _).
  - destruct fuel as [|fuel]; [simpl in Hfuel; lia|].
    destruct Hch as (nd & Ea & _ & Hnext & Hch).
    apply NoDup_cons in Hnd as [Ha Hnd]. rewrite elem_of_cons in Htl.
    cbn [clear_list_loop List.hd]. rewrite bind_run, (load_map_run _ _ _ Em).
    destruct (decide (a = tail m)) as [->|_]; [tauto|].
    rewrite bind_run, (load_node_run _ _ _ Ea).
    rewrite bind_run. unfold delete_node.
    destruct (decide (a = null)) as [->|_]; [by rewrite Hnull in Ea|].
    rewrite Ea, Hnext.
    rewrite (IH _ a); cbn [nodes maps brk]; try done.
    + rewrite lookup_delete_ne; [done|]. intros ->. by rewrite Hnull in Ea.
    + eapply chain_frame; [|exact Hch]. intros x Hx.
      rewrite lookup_delete_ne; [done|]. by intros ->.
    + tauto.
    + simpl in Hfuel. lia.
Qed.

Lemma clear_list_run st this m l kvs :
  maps st !! this = Some m → nodes st !! null = None →
  dll (nodes st) (head m) (tail m) l kvs →
  ∃ hn tn,
    nodes st !! head m = Some hn ∧ nodes st !! tail m = Some tn ∧
    prev hn = null ∧ next tn = null ∧
    clear_list this st =
    Ret () (mkStore (<[tail m := with_prev (head m) tn]>
                       (<[head m := with_next (tail m) hn]>
                          (delete_all l (nodes st))))
                    (maps st) (brk st)).
Proof.
  intros Em Hnull Hd.
  destruct (dll_head _ _ _ _ _ Hd) as (hn & Eh & Hhp & Hhn).
  destruct (dll_tail _ _ _ _ _ Hd) as (tn & Et & _ & Htn).
  pose proof (dll_nodup _ _ _ _ _ Hd) as (Hnd & Hhl & Htl & Hht).
  pose proof (dll_fuel _ _ _ _ _ Hd) as Hfuel.
  assert (chain (nodes st) (head m) l (tail m)) as Hch.
  { destruct Hd as (_ & Hch & _). unfold nodes_of in Hch.
    change (head m :: l ++ [tail m]) with ([head m] ++ l ++ [tail m]) in Hch.
    apply chain_app in Hch as [_ Hch]. by apply chain_app in Hch as [Hch _]. }
  assert (length l ≤ size (nodes st)) as Hfuel' by lia.
  pose proof (clear_list_loop_run this m l st (head m) (size (nodes st))
                Em Hnull Hch Hnd Htl Hfuel') as Hloop.
  exists hn, tn. split_and!; try done.
  unfold clear_list. rewrite bind_run, (load_map_run _ _ _ Em).
  rewrite bind_run, (load_node_run _ _ _ Eh).
  rewrite bind_run. unfold live_nodes at 1. rewrite Hhn.
  rewrite bind_run, Hloop.
  rewrite bind_run. erewrite load_map_run by exact Em.
  rewrite bind_run. erewrite set_next_run
    by (cbn; rewrite lookup_delete_all, decide_False by done; exact Eh).
  cbn [nodes maps brk].
  erewrite set_prev_run
    by (cbn; rewrite lookup_insert_ne by done;
        rewrite lookup_delete_all, decide_False by done; exact Et).
  done.
Qed.

Lemma with_table_same m tb : table m = Some tb → with_table (Some tb) m = m.
Proof. destruct m. cbn. by intros ->. Qed.

Lemma clear_buckets_run this n : ∀ st m tb (i : N),
  maps st !! this = Some m → table m = Some tb →
  N.to_nat i + n = length tb → (N.of_nat (length tb) < 2 ^ 64)%N →
  clear_buckets n this i st =
  Ret () (mkStore (nodes st)
            (<[this := with_table (Some (take (N.to_nat i) tb ++ replicate n [])) m]>
               (maps st))
            (brk st)).
Proof.
  induction n as [|n IH]; intros st m tb i Em Et Hlen Hbound.
  - cbn [clear_buckets replicate]. rewrite ret_run, app_nil_r.
    rewrite take_ge by lia. rewrite (with_table_same _ _ Et).
    rewrite insert_id by done. by destruct st.
  - cbn [clear_buckets].
    assert (N.to_nat i < length tb) as Hi by lia.
    destruct (lookup_lt_is_Some_2 tb _ Hi) as [b Eb].
    rewrite bind_run, (read_bucket_run _ _ _ _ _ _ Em Et Eb).
    rewrite bind_run, (write_bucket_run _ _ _ _ _ _ Em Et Hi).
    assert (wrap64 (i + 1) = (i + 1)%N) as ->.
    { unfold wrap64. apply N.mod_small. lia. }
    rewrite (IH _ (with_table (Some (<[N.to_nat i := []]> tb)) m)
               (<[N.to_nat i := []]> tb) (i + 1)%N);
      cbn [nodes maps brk table with_table].
    + rewrite insert_insert_eq.
      assert (take (N.to_nat (i + 1)) (<[N.to_nat i := []]> tb) ++ replicate n []
              = take (N.to_nat i) tb ++ replicate (S n) []) as ->; [|done].
      replace (N.to_nat (i + 1)) with (S (N.to_nat i)) by lia.
      rewrite (take_S_r _ _ []) by (by rewrite list_lookup_insert_eq).
      rewrite take_insert_ge by lia. by rewrite <- app_assoc.
    + apply lookup_insert_eq.
    + done.
    + rewrite length_insert. lia.
    + by rewrite length_insert.
Qed.

Lemma clear_run st this m l kvs :
  alloc_ok st → maps st !! this = Some m → rep (nodes st) m l kvs →
  load_ok m → tight st m →
  ∃ st', clear this st = Ret () st' ∧
         updated st st' this (footprint m l) (cleared m) [] [] ∧
         brk st' = brk st.
Proof.
  intros Hal Em Hrep [Hload Hdiv] Htight.
  pose proof (null_dead _ Hal) as Hnull.
  pose proof Hrep as [Hd Hkeys Hcnt Hsz (tb & Et & Htlen & Htb)].
  pose proof (dll_nodup _ _ _ _ _ Hd) as (Hnd & Hhl & Htl & Hht).
  destruct (clear_list_run _ _ _ _ _ Em Hnull Hd)
    as (hn & tn & Eh & Etl & Hhp & Htn & Hcl).
  set (h3 := <[tail m := with_prev (head m) tn]>
               (<[head m := with_next (tail m) hn]> (delete_all l (nodes st)))).
  exists (mkStore h3 (<[this := cleared m]> (maps st)) (brk st)).
  split_and!; [|split; cbn [nodes maps brk]|done].
  - unfold clear. rewrite bind_run, Hcl. fold h3.
    rewrite bind_run. erewrite load_map_run by exact Em.
    rewrite bind_run.
    erewrite (clear_buckets_run this _ _ m tb 0%N); cbn [nodes maps brk];
      [|done|done|lia|lia].
    rewrite bind_run. erewrite load_map_run by (cbn; apply lookup_insert_eq).
    erewrite store_map_run by (cbn; apply lookup_insert_eq).
    cbn [nodes maps brk]. by rewrite insert_insert_eq.
  - done.
  - lia.
  - destruct Hal as (Hb & Hn & Hm). split_and!; cbn [nodes maps brk]; [done| |].
    + intros a [nd Ha]. apply Hn. unfold h3 in Ha.
      destruct (decide (a = tail m)) as [Hat|]; [rewrite Hat; by exists tn|].
      destruct (decide (a = head m)) as [Hah|]; [rewrite Hah; by exists hn|].
      rewrite !lookup_insert_ne in Ha by done.
      rewrite lookup_delete_all in Ha. case_decide; [done|by eexists].
    + intros a [x Ha]. apply Hm. destruct (decide (a = this)) as [->|]; [by eexists|].
      rewrite lookup_insert_ne in Ha by done. by eexists.
  - intros a _ Ha. unfold footprint, nodes_of in Ha.
    rewrite elem_of_cons, elem_of_app, list_elem_of_singleton in Ha.
    unfold h3. rewrite !lookup_insert_ne by (intros <-; tauto).
    rewrite lookup_delete_all, decide_False; [done|tauto].
  - intros a. unfold footprint, nodes_of. cbn [cleared head tail with_table with_element_count app].
    rewrite !elem_of_cons, elem_of_app, list_elem_of_singleton, elem_of_nil. tauto.
  - split; cbn [cleared head tail table table_size element_count with_table with_element_count].
    + split_and!.
      * unfold nodes_of. cbn [app]. repeat constructor.
        -- by rewrite list_elem_of_singleton.
        -- apply not_elem_of_nil.
      * unfold nodes_of. cbn [app chain List.hd].
        exists (with_next (tail m) hn). split_and!; try done.
        { unfold h3. rewrite lookup_insert_ne by done. apply lookup_insert_eq. }
        exists (with_prev (head m) tn). split_and!; try done.
        apply lookup_insert_eq.
      * constructor.
    + constructor.
    + done.
    + done.
    + eexists. split; [done|]. apply table_for_empty.
  - split; cbn; [lia|done].
  - done.
Qed.

(** *** Replaying the entries of another container *)

Lemma rep_length h m l kvs : rep h m l kvs → length kvs = length l.
Proof. intros [(_ & _ & Hf) _ _ _ _]. symmetry. by eapply Forall2_length. Qed.

Lemma copy_loop_run this other mo lo2 : ∀ lo1 ko1 ko2 st own m l fuel,
  alloc_ok st → owns st own → this ≠ other →
  maps st !! other = Some mo →
  own !! other = Some (lo1 ++ lo2, ko1 ++ ko2) → length lo1 = length ko1 →
  maps st !! this = Some m → own !! this = Some (l, ko1) →
  table_size m = table_size mo →
  (brk st + N.of_nat (length lo2) < 2 ^ 48)%N → length lo2 ≤ fuel →
  ∃ st' m' l',
    copy_loop fuel this other (List.hd (tail mo) lo2) st = Ret () st' ∧
    insert_all this ko2 st = Ret () st' ∧
    alloc_ok st' ∧ owns st' (<[this := (l', ko1 ++ ko2)]> own) ∧
    maps st' = <[this := m']> (maps st) ∧
    table_size m' = table_size m ∧
    brk st' = (brk st + N.of_nat (length lo2))%N.
Proof.
  induction lo2 as [|a lo2 IH];
    intros lo1 ko1 ko2 st own m l fuel Hal Hown Hne Emo Eoo Hlen Em Eo Hts Hbound Hfuel.
  - destruct (owns_rep _ _ Hown _ _ _ _ Emo Eoo) as (Hrepo & _ & _).
    apply rep_length in Hrepo. rewrite app_nil_r in Hrepo.
    rewrite length_app in Hrepo. destruct ko2; [|simpl in Hrepo; lia].
    exists st, m, l. rewrite app_nil_r. split_and!; try done.
    + destruct fuel; cbn [copy_loop List.hd];
        rewrite bind_run, (load_map_run _ _ _ Emo); by destruct (decide _).
    + by rewrite insert_id.
    + by rewrite insert_id.
    + cbn [length]. lia.
  - destruct fuel as [|fuel]; [simpl in Hfuel; lia|].
    destruct (owns_rep _ _ Hown _ _ _ _ Emo Eoo) as (Hrepo & [Hloado _] & _).
    destruct (owns_rep _ _ Hown _ _ _ _ Em Eo) as (Hrep & Hload & Htight).
    pose proof Hrepo as [Hdo Hkeyso Hcnto _ _].
    pose proof (dll_nodup _ _ _ _ _ Hdo) as (_ & _ & Htlo & _).
    assert (a ≠ tail mo) as Hat.
    { intros ->. apply Htlo. rewrite elem_of_app, elem_of_cons. tauto. }
    destruct (dll_entry _ _ _ _ _ (length lo1) a Hdo) as (kv & Hkv & Ekv).
    { by rewrite list_lookup_middle. }
    assert (∃ ko2', ko2 = kv :: ko2') as [ko2' ->].
    { rewrite lookup_app_r in Hkv by lia.
      replace (length lo1 - length ko1) with 0 in Hkv by lia.
      destruct ko2; [done|]. injection Hkv as ->. by eexists. }
    assert (kv.1 ∉ ko1.*1) as Hfresh.
    { rewrite fmap_app, fmap_cons in Hkeyso.
      apply NoDup_app in Hkeyso as (_ & Hdis & _). intros Hin.
      apply (Hdis _ Hin), list_elem_of_here. }
    assert (load_reached (element_count m) (table_size m) = false) as Hnr.
    { unfold load_reached. apply bool_decide_eq_false.
      destruct Hrep as [_ _ Hc _ _]. rewrite Hc, Hts.
      pose proof (rep_length _ _ _ _ (proj1 (owns_rep _ _ Hown _ _ _ _ Em Eo))) as Hl.
      rewrite Hcnto, length_app in Hloado. cbn [length] in Hloado. lia. }
    destruct (insert_new st this m l ko1 kv Hal Em Hrep Hload Htight)
      as (st1 & m1 & Hins & Hupd & Hbrk1 & _ & _ & Hts1); [lia|done|].
    rewrite Hnr in Hts1.
    pose proof (owns_update_live _ _ _ _ _ _ _ _ _ _ Hal Hown Em Eo Hupd) as Hown1.
    pose proof (upd_maps _ _ _ _ _ _ _ Hupd) as Hmaps1.
    pose proof (upd_alloc _ _ _ _ _ _ _ Hupd) as Hal1.
    assert (maps st1 !! other = Some mo) as Emo1.
    { by rewrite Hmaps1, lookup_insert_ne. }
    assert ((<[this := (l ++ [brk st], ko1 ++ [kv])]> own) !! other
            = Some ((lo1 ++ [a]) ++ lo2, (ko1 ++ [kv]) ++ ko2')) as Eoo1.
    { rewrite lookup_insert_ne by done. by rewrite <- !app_assoc. }
    destruct (owns_rep _ _ Hown1 _ _ _ _ Emo1 Eoo1) as (Hrepo1 & _ & _).
    destruct Hrepo1 as [Hdo1 _ _ _ _]. rewrite <- app_assoc in Hdo1.
    destruct (dll_node _ _ _ _ _ _ _ Hdo1) as (nd & End & _ & Hnext).
    destruct (IH (lo1 ++ [a]) (ko1 ++ [kv]) ko2' st1 _ m1 (l ++ [brk st]) fuel
                Hal1 Hown1 Hne Emo1 Eoo1)
      as (st' & m' & l' & Hrun & Hall & Hal' & Hown' & Hmaps' & Hts' & Hbrk').
    { rewrite !length_app. cbn [length]. lia. }
    { rewrite Hmaps1. apply lookup_insert_eq. }
    { apply lookup_insert_eq. }
    { congruence. }
    { rewrite Hbrk1. cbn [length] in Hbound. lia. }
    { simpl in Hfuel. lia. }
    exists st', m', l'. split_and!; try done.
    + cbn [copy_loop List.hd]. rewrite bind_run, (load_map_run _ _ _ Emo).
      destruct (decide (a = tail mo)); [done|].
      rewrite bind_run, (load_data_run _ _ _ Ekv).
      rewrite bind_run, Hins.
      rewrite bind_run, (load_node_run _ _ _ End). by rewrite Hnext.
    + cbn [insert_all]. by rewrite bind_run, Hins.
    + rewrite insert_insert_eq in Hown'. by rewrite <- app_assoc in Hown'.
    + by rewrite Hmaps', Hmaps1, insert_insert_eq.
    + congruence.
    + rewrite Hbrk', Hbrk1. cbn [length]. lia.
Qed.

Lemma live_map_below st a m : alloc_ok st → maps st !! a = Some m → (0 < a < brk st)%N.
Proof. intros (_ & _ & Hm) E. apply Hm. by eexists. Qed.

Lemma modest_copy_bound st m l kvs :
  alloc_ok st → rep (nodes st) m l kvs → modest st →
  (brk st + 3 + N.of_nat (length l) < 2 ^ 48)%N.
Proof.
  intros Hal Hrep Hmod. pose proof (rep_count_bound _ _ _ _ Hal Hrep) as Hb.
  destruct Hrep as [_ _ Hc _ _]. rewrite Hc in Hb. unfold modest in Hmod.
  assert (2 ^ 48 = 281474976710656)%N as E48 by done.
  assert (2 ^ 47 = 140737488355328)%N as E47 by done.
  lia.
Qed.

Lemma construct_copy_run st own other mo lo ko :
  alloc_ok st → owns st own →
  maps st !! other = Some mo → own !! other = Some (lo, ko) → modest st →
  ∃ st' m' l',
    construct_copy other st = Ret (brk st) st' ∧
    insert_all (brk st) ko (built st (table_size mo)) = Ret () st' ∧
    alloc_ok st' ∧ owns st' (<[brk st := (l', ko)]> own) ∧
    maps st' = <[brk st := m']> (maps st) ∧
    table_size m' = table_size mo.
Proof.
  intros Hal Hown Emo Eoo Hmod.
  destruct (owns_rep _ _ Hown _ _ _ _ Emo Eoo) as (Hrepo & [Hloado Hdivo] & Htighto).
  pose proof (live_map_below _ _ _ Hal Emo) as Hob.
  pose proof (modest_copy_bound _ _ _ _ Hal Hrepo Hmod) as Hbound.
  assert (brk st ≠ other) as Hne by lia.
  set (m0 := mkMap (Some (replicate (N.to_nat (table_size mo)) [])) (table_size mo) 0
                   (brk st + 1) (brk st + 2)).
  assert (updated st (built st (table_size mo)) (brk st) [] m0 [] []) as Hupd.
  { apply built_updated; [done|by destruct Hrepo|done|].
    unfold tight in Htighto. lia. }
  pose proof (upd_alloc _ _ _ _ _ _ _ Hupd) as Hal1.
  assert (owns (built st (table_size mo)) (<[brk st := ([], [])]> own)) as Hown1.
  { apply (owns_update st _ own (brk st) [] m0 [] [] Hal Hown); [|exact Hupd].
    intros ???? _ _ _ x _. apply not_elem_of_nil. }
  assert (maps (built st (table_size mo)) !! other = Some mo) as Emo1.
  { cbn. by rewrite lookup_insert_ne. }
  assert ((<[brk st := ([], [])]> own) !! other = Some ([] ++ lo, [] ++ ko)) as Eoo1.
  { by rewrite lookup_insert_ne. }
  destruct (owns_rep _ _ Hown1 _ _ _ _ Emo1 Eoo1) as (Hrepo1 & _ & _).
  destruct Hrepo1 as [Hdo1 _ _ _ _].
  destruct (dll_head _ _ _ _ _ Hdo1) as (hn & Eh & _ & Hnext). cbn [app] in Hnext.
  pose proof (dll_fuel _ _ _ _ _ Hdo1) as Hfuel.
  assert (maps (built st (table_size mo)) !! brk st = Some m0) as Em1.
  { cbn. apply lookup_insert_eq. }
  assert ((<[brk st := ([], [])]> own) !! brk st = Some ([], [])) as Eo1.
  { apply lookup_insert_eq. }
  assert (brk (built st (table_size mo)) + N.of_nat (length lo) < 2 ^ 48)%N as Hb1.
  { unfold built. cbn [brk]. lia. }
  assert (length lo ≤ size (nodes (built st (table_size mo)))) as Hf1.
  { cbn [app length] in Hfuel. lia. }
  destruct (copy_loop_run (brk st) other mo lo [] [] ko (built st (table_size mo))
              _ m0 [] (size (nodes (built st (table_size mo))))
              Hal1 Hown1 Hne Emo1 Eoo1 eq_refl Em1 Eo1 eq_refl Hb1 Hf1)
    as (st' & m' & l' & Hrun & Hall & Hal' & Hown' & Hmaps' & Hts' & Hbrk').
  exists st', m', l'. split_and!; try done.
  - unfold construct_copy. rewrite sentinels_run.
    rewrite bind_run. erewrite load_map_run
      by (cbn; rewrite lookup_insert_ne by done; exact Emo).
    rewrite bind_run, built_run.
    rewrite bind_run, (load_map_run _ _ _ Emo1).
    rewrite bind_run, (load_node_run _ _ _ Eh).
    rewrite bind_run. unfold live_nodes at 1.
    rewrite bind_run, Hnext, Hrun. done.
  - by rewrite insert_insert_eq in Hown'.
  - rewrite Hmaps'. cbn. by rewrite insert_insert_eq.
Qed.

Lemma assign_run st own this other m mo lo ko :
  alloc_ok st → owns st own → this ≠ other →
  maps st !! this = Some m →
  maps st !! other = Some mo → own !! other = Some (lo, ko) → modest st →
  ∃ st' m' l',
    assign this other st = Ret this st' ∧
    (∃ st2, (clear this;; clear_table this;; init_table this (table_size mo)) st
            = Ret () st2 ∧
            insert_all this ko st2 = Ret () st') ∧
    alloc_ok st' ∧ owns st' (<[this := (l', ko)]> own) ∧
    maps st' = <[this := m']> (maps st) ∧
    table_size m' = table_size mo.
Proof.
  intros Hal Hown Hne Em Emo Eoo Hmod.
  destruct (owns_lookup _ _ _ _ Hown Em) as (l & kvs & Eo & Hrep & Hload & Htight).
  destruct (owns_rep _ _ Hown _ _ _ _ Emo Eoo) as (Hrepo & [Hloado Hdivo] & Htighto).
  pose proof (modest_copy_bound _ _ _ _ Hal Hrepo Hmod) as Hbound.
  destruct (clear_run _ _ _ _ _ Hal Em Hrep Hload Htight) as (st1 & Hclear & Hupd1 & Hbrk1).
  pose proof (upd_maps _ _ _ _ _ _ _ Hupd1) as Hmaps1.
  set (m2 := with_table (Some (replicate (N.to_nat (table_size mo)) []))
               (with_table_size (table_size mo) (with_table None (cleared m)))).
  set (st2 := mkStore (nodes st1) (<[this := m2]> (maps st)) (brk st1)).
  assert (updated st st2 this (footprint m l) m2 [] []) as Hupd2.
  { destruct Hupd1 as [_ Hb1 Hal1 Hfr1 Hfp1 Hrep1 Hl1 Ht1]. unfold st2.
    split; cbn [nodes maps brk]; try done.
    - destruct Hal1 as (? & ? & Hm1). split_and!; cbn [nodes maps brk]; [done..|].
      intros a Ha. apply Hm1. rewrite Hmaps1.
      destruct (decide (this = a)) as [<-|]; [by rewrite lookup_insert_eq|].
      by rewrite lookup_insert_ne in Ha |- * by done.
    - destruct Hrep1 as [Hd1 Hk1 Hc1 Hs1 _]. split; try done.
      + cbn. by destruct Hrepo.
      + eexists. split; [done|]. apply table_for_empty.
    - split; cbn; [lia|done].
    - unfold tight in *. cbn. lia. }
  pose proof (upd_alloc _ _ _ _ _ _ _ Hupd2) as Hal2.
  pose proof (owns_update_live _ _ _ _ _ _ _ _ _ _ Hal Hown Em Eo Hupd2) as Hown2.
  assert (maps st2 !! other = Some mo) as Emo2.
  { cbn. by rewrite lookup_insert_ne. }
  assert ((<[this := ([], [])]> own) !! other = Some ([] ++ lo, [] ++ ko)) as Eoo2.
  { by rewrite lookup_insert_ne. }
  destruct (owns_rep _ _ Hown2 _ _ _ _ Emo2 Eoo2) as (Hrepo2 & _ & _).
  destruct Hrepo2 as [Hdo2 _ _ _ _].
  destruct (dll_head _ _ _ _ _ Hdo2) as (hn & Eh & _ & Hnext). cbn [app] in Hnext.
  pose proof (dll_fuel _ _ _ _ _ Hdo2) as Hfuel.
  assert (maps st2 !! this = Some m2) as Em2.
  { cbn. apply lookup_insert_eq. }
  assert ((<[this := ([], [])]> own) !! this = Some ([], [])) as Eo2.
  { apply lookup_insert_eq. }
  assert (brk st2 + N.of_nat (length lo) < 2 ^ 48)%N as Hb2.
  { unfold st2. cbn [brk]. rewrite Hbrk1. lia. }
  assert (length lo ≤ size (nodes st2)) as Hf2.
  { cbn [app length] in Hfuel. lia. }
  destruct (copy_loop_run this other mo lo [] [] ko st2 _ m2 []
              (size (nodes st2)) Hal2 Hown2 Hne Emo2 Eoo2 eq_refl Em2 Eo2 eq_refl
              Hb2 Hf2)
    as (st' & m' & l' & Hrun & Hall & Hal' & Hown' & Hmaps' & Hts' & Hbrk').
  assert ((clear this;; clear_table this;; init_table this (table_size mo)) st
          = Ret () st2) as Hprefix.
  { rewrite bind_run, Hclear.
    rewrite bind_run. unfold clear_table.
    rewrite bind_run. erewrite load_map_run by (rewrite Hmaps1; apply lookup_insert_eq).
    cbn [cleared table with_table with_element_count].
    erewrite store_map_run by (rewrite Hmaps1; apply lookup_insert_eq).
    rewrite Hmaps1, insert_insert_eq.
    erewrite init_table_run by (cbn; apply lookup_insert_eq).
    cbn [nodes maps brk]. by rewrite insert_insert_eq. }
  exists st', m', l'. split_and!; try done.
  - unfold assign. destruct (decide (this = other)); [done|].
    rewrite bind_run, Hclear.
    rewrite bind_run. unfold clear_table.
    rewrite bind_run. erewrite load_map_run by (rewrite Hmaps1; apply lookup_insert_eq).
    cbn [cleared table with_table with_element_count].
    erewrite store_map_run by (rewrite Hmaps1; apply lookup_insert_eq).
    rewrite Hmaps1, insert_insert_eq.
    rewrite bind_run. erewrite load_map_run
      by (cbn; rewrite lookup_insert_ne by done; exact Emo).
    rewrite bind_run. erewrite init_table_run by (cbn; apply lookup_insert_eq).
    cbn [nodes maps brk]. rewrite insert_insert_eq. fold (cleared m). fold m2. fold st2.
    rewrite bind_run, (load_map_run _ _ _ Emo2).
    rewrite bind_run, (load_node_run _ _ _ Eh).
    rewrite bind_run. unfold live_nodes at 1.
    rewrite bind_run, Hnext, Hrun. done.
  - by exists st2.
  - by rewrite insert_insert_eq in Hown'.
  - rewrite Hmaps'. cbn. by rewrite insert_insert_eq.
Qed.

(** *** Positions in a chain *)

Lemma last_take_S (p : N) s j a :
  s !! j = Some a → List.last (take (S j) s) p = a.
Proof.
  intros Hj. rewrite (take_S_r _ _ _ Hj). apply last_last.
Qed.

Lemma hd_drop (q : N) s i : List.hd q (drop i s) = default q (s !! i).
Proof.
  revert i. induction s as [|x s IH]; intros [|i]; cbn; done.
Qed.

Lemma chain_index h p s q i a :
  chain h p s q → s !! i = Some a →
  ∃ nd, h !! a = Some nd ∧
        prev nd = match i with O => p | S j => default p (s !! j) end ∧
        next nd = default q (s !! S i).
Proof.
  intros Hc Hi. rewrite <- (take_drop_middle _ _ _ Hi) in Hc.
  apply chain_mid in Hc as (nd & E & Hp & Hn). exists nd. split_and!; [done| |].
  - rewrite Hp. destruct i as [|j]; [done|].
    destruct (lookup_lt_is_Some_2 s j) as [x Hx].
    { apply lookup_lt_Some in Hi. lia. }
    rewrite Hx. cbn [default]. by apply last_take_S.
  - rewrite Hn. apply hd_drop.
Qed.

Lemma footprint_lookup_tail m l : footprint m l !! S (length l) = Some (tail m).
Proof.
  exact (list_lookup_middle l [] (tail m) (length l) eq_refl).
Qed.

Lemma footprint_lookup_data m l i a :
  l !! i = Some a → footprint m l !! S i = Some a.
Proof.
  intros Hi. exact (lookup_app_l_Some l [tail m] i a Hi).
Qed.

Lemma footprint_index_tail h m l kvs i :
  dll h (head m) (tail m) l kvs →
  footprint m l !! i = Some (tail m) → i = S (length l).
Proof.
  intros (Hnd & _ & _) Hi.
  eapply NoDup_lookup; [exact Hnd|exact Hi|apply footprint_lookup_tail].
Qed.

Lemma footprint_index_head h m l kvs i :
  dll h (head m) (tail m) l kvs →
  footprint m l !! i = Some (head m) → i = 0.
Proof.
  intros (Hnd & _ & _) Hi. by eapply NoDup_lookup; [exact Hnd|exact Hi|].
Qed.

(** *** Iterator movements *)

Lemma preinc_run st this m l kvs i a :
  maps st !! this = Some m → dll (nodes st) (head m) (tail m) l kvs →
  nodes st !! null = None →
  footprint m l !! i = Some a →
  iterator_preinc (mkIterator a this) st =
  if decide (a = tail m) then Throw invalid_iterator st
  else Ret (mkIterator (default null (footprint m l !! S i)) this) st.
Proof.
  intros Em Hd Hnull Hi. pose proof Hd as (_ & Hch & _).
  destruct (chain_index _ _ _ _ _ _ Hch Hi) as (nd & End & _ & Hnext).
  unfold iterator_preinc. cbn [it_node it_map].
  destruct (decide (a = null)) as [->|_]; [by rewrite Hnull in End|].
  rewrite bind_run, (load_map_run _ _ _ Em).
  destruct (decide (a = tail m)); [done|].
  rewrite bind_run, (load_node_run _ _ _ End). by rewrite Hnext.
Qed.

Lemma predec_run st this m l kvs i a :
  maps st !! this = Some m → dll (nodes st) (head m) (tail m) l kvs →
  nodes st !! null = None →
  footprint m l !! i = Some a →
  iterator_predec (mkIterator a this) st =
  match i with
  | 0 => Ret (mkIterator null this) st
  | 1 => Throw invalid_iterator st
  | S (S j) => Ret (mkIterator (default null (footprint m l !! S j)) this) st
  end.
Proof.
  intros Em Hd Hnull Hi. pose proof Hd as (Hnd & Hch & _).
  destruct (chain_index _ _ _ _ _ _ Hch Hi) as (nd & End & Hprev & _).
  assert (is_Some (nodes st !! head m)) as [hn Eh].
  { eapply chain_lookup; [exact Hch|]. apply list_elem_of_here. }
  unfold iterator_predec. cbn [it_node it_map].
  destruct (decide (a = null)) as [->|_]; [by rewrite Hnull in End|].
  rewrite bind_run, (load_node_run _ _ _ End).
  rewrite bind_run, (load_map_run _ _ _ Em).
  destruct i as [|[|j]].
  - rewrite Hprev. destruct (decide (null = head m)) as [E|_]; [|reflexivity].
    rewrite <- E in Eh. by rewrite Hnull in Eh.
  - rewrite Hprev. cbn. by destruct (decide (head m = head m)).
  - rewrite Hprev. destruct (lookup_lt_is_Some_2 (footprint m l) (S j)) as [x Hx].
    { apply lookup_lt_Some in Hi. lia. }
    pose proof Hx as Hx'. unfold footprint in Hx'. unfold footprint.
    rewrite Hx'. cbn. destruct (decide (x = head m)) as [->|_]; [|reflexivity].
    by apply (footprint_index_head _ _ _ _ _ Hd) in Hx.
Qed.

Lemma begin_run st this m l kvs :
  maps st !! this = Some m → dll (nodes st) (head m) (tail m) l kvs →
  begin_ this st = Ret (mkIterator (List.hd (tail m) l) this) st.
Proof.
  intros Em Hd. destruct (dll_head _ _ _ _ _ Hd) as (hn & Eh & _ & Hn).
  unfold begin_. rewrite bind_run, (load_map_run _ _ _ Em).
  rewrite bind_run, (load_node_run _ _ _ Eh). by rewrite Hn.
Qed.

Lemma end_run st this m :
  maps st !! this = Some m → end_ this st = Ret (mkIterator (tail m) this) st.
Proof. intros Em. unfold end_. by rewrite bind_run, (load_map_run _ _ _ Em). Qed.

Lemma find_run st this m l kvs k :
  nodes st !! null = None → maps st !! this = Some m → rep (nodes st) m l kvs →
  ∃ r, located l kvs k r ∧
       find this k st =
       Ret (mkIterator (if decide (r = null) then tail m else r) this) st.
Proof.
  intros Hnull Em Hrep.
  destruct (find_node_run _ _ _ _ _ k Hnull Em Hrep) as (r & Hrun & Hloc).
  exists r. split; [done|]. unfold find. rewrite bind_run, Hrun.
  destruct (decide (r = null)) as [->|Hr].
  - destruct (decide (null ≠ null)); [done|]. by apply end_run.
  - by destruct (decide (r ≠ null)).
Qed.

(** *** Iterators a client can hold *)

Lemma obtainable_index st own it mo lo ko :
  maps st !! it_map it = Some mo → own !! it_map it = Some (lo, ko) →
  it_node it ∈ lo ++ [tail mo] →
  ∃ j, footprint mo lo !! S j = Some (it_node it) ∧ j ≤ length lo.
Proof.
  intros _ _ (j & Hj)%list_elem_of_lookup. exists j. split; [done|].
  apply lookup_lt_Some in Hj. rewrite length_app in Hj. cbn in Hj. lia.
Qed.

Lemma footprint_data_elem m l j a :
  footprint m l !! S j = Some a → a ∈ l ++ [tail m].
Proof.
  intros Hj. change ((l ++ [tail m]) !! j = Some a) in Hj.
  by eapply list_elem_of_lookup_2.
Qed.

Lemma locate_run st own c :
  alloc_ok st → owns st own →
  match locate c st with
  | Ret it st' => st' = st ∧ obtainable st own it
  | Throw _ st' => st' = st
  | Undef => True
  end.
Proof.
  intros Hal Hown. pose proof (null_dead _ Hal) as Hnull.
  induction c as [|this|this|this k|c IH|c IH]; cbn [locate].
  - split; [done|by left].
  - destruct (maps st !! this) as [m|] eqn:Em.
    + destruct (owns_lookup _ _ _ _ Hown Em) as (l & kvs & Eo & Hrep & _).
      rewrite (begin_run _ _ _ _ _ Em (rep_dll _ _ _ _ Hrep)).
      split; [done|]. right. exists m, l, kvs. split_and!; [done..|].
      cbn. destruct l; cbn; [apply list_elem_of_here|apply list_elem_of_here].
    + unfold begin_. rewrite bind_run. unfold load_map. by rewrite Em.
  - destruct (maps st !! this) as [m|] eqn:Em.
    + destruct (owns_lookup _ _ _ _ Hown Em) as (l & kvs & Eo & Hrep & _).
      rewrite (end_run _ _ _ Em).
      split; [done|]. right. exists m, l, kvs. split_and!; [done..|].
      cbn. rewrite elem_of_app, list_elem_of_singleton. tauto.
    + unfold end_. rewrite bind_run. unfold load_map. by rewrite Em.
  - destruct (maps st !! this) as [m|] eqn:Em.
    + destruct (owns_lookup _ _ _ _ Hown Em) as (l & kvs & Eo & Hrep & _).
      destruct (find_run _ _ _ _ _ k Hnull Em Hrep) as (r & Hloc & ->).
      split; [done|]. right. exists m, l, kvs. split_and!; [done..|].
      cbn. rewrite elem_of_app, list_elem_of_singleton.
      destruct (decide (r = null)) as [->|Hr]; [tauto|].
      destruct Hloc as [[? _]|(_ & i & v & Hi & _)]; [done|].
      left. by eapply list_elem_of_lookup_2.
    + unfold find, find_node, get_bucket_index. rewrite !bind_run.
      unfold load_map. by rewrite Em.
  - rewrite bind_run. destruct (locate c st) as [it st'| |]; [|done..].
    destruct IH as [-> [->|(mo & lo & ko & Emo & Eo & Hin)]].
    + done.
    + destruct (obtainable_index _ _ _ _ _ _ Emo Eo Hin) as (j & Hj & Hle).
      destruct (owns_rep _ _ Hown _ _ _ _ Emo Eo) as (Hrep & _).
      destruct it as [a o]. cbn [it_node it_map] in *.
      rewrite (preinc_run _ _ _ _ _ _ _ Emo (rep_dll _ _ _ _ Hrep) Hnull Hj).
      destruct (decide (a = tail mo)) as [->|Hne]; [done|].
      split; [done|]. right. exists mo, lo, ko. cbn [it_node it_map].
      split_and!; [done..|].
      destruct (lookup_lt_is_Some_2 (footprint mo lo) (S (S j))) as [x Hx].
      { unfold footprint, nodes_of. cbn [length]. rewrite length_app. cbn [length].
        assert (j ≠ length lo); [|lia]. intros ->.
        rewrite footprint_lookup_tail in Hj. by injection Hj as <-. }
      rewrite Hx. cbn. by eapply footprint_data_elem.
  - rewrite bind_run. destruct (locate c st) as [it st'| |]; [|done..].
    destruct IH as [-> [->|(mo & lo & ko & Emo & Eo & Hin)]].
    + done.
    + destruct (obtainable_index _ _ _ _ _ _ Emo Eo Hin) as (j & Hj & Hle).
      destruct (owns_rep _ _ Hown _ _ _ _ Emo Eo) as (Hrep & _).
      destruct it as [a o]. cbn [it_node it_map] in *.
      rewrite (predec_run _ _ _ _ _ _ _ Emo (rep_dll _ _ _ _ Hrep) Hnull Hj).
      destruct j as [|j]; [done|].
      split; [done|]. right. exists mo, lo, ko. cbn [it_node it_map].
      split_and!; [done..|].
      destruct (lookup_lt_is_Some_2 (footprint mo lo) (S j)) as [x Hx].
      { apply lookup_lt_Some in Hj. lia. }
      rewrite Hx. cbn. by eapply footprint_data_elem.
Qed.

(** *** Writing through a reference *)

Lemma rewritten_keys r v l kvs :
  length l = length kvs → (rewritten r v l kvs).*1 = kvs.*1.
Proof.
  revert kvs. induction l as [|a l IH]; intros [|kv kvs] Hlen; try done.
  cbn in *. f_equal; [by destruct (decide _)|]. apply IH. lia.
Qed.

Lemma chain_same_links h h' p s q :
  (∀ a nd, h !! a = Some nd →
           ∃ nd', h' !! a = Some nd' ∧ prev nd' = prev nd ∧ next nd' = next nd) →
  chain h p s q → chain h' p s q.
Proof.
  intros Hl. revert p. induction s as [|a s IH]; intros p; [done|].
  intros (nd & E & Hp & Hn & Hc). destruct (Hl _ _ E) as (nd' & E' & Hp' & Hn').
  exists nd'. split_and!; [done|congruence|congruence|by apply IH].
Qed.

Lemma write_ref_rep h m l kvs r v nd d :
  h !! r = Some nd → data nd = Some d →
  rep h m l kvs →
  rep (<[r := mkNode (Some (d.1, v)) (prev nd) (next nd)]> h) m l
      (rewritten r v l kvs).
Proof.
  intros Er Hd [(Hnd & Hch & Hf) Hk Hc Hs (tb & Et & Htlen & Htb)].
  set (h' := <[r := mkNode (Some (d.1, v)) (prev nd) (next nd)]> h).
  pose proof (Forall2_length _ _ _ Hf) as Hlen.
  assert (∀ a kv, entry_of h a = Some kv →
                  entry_of h' a = Some (if decide (a = r) then (kv.1, v) else kv))
    as Hent.
  { intros a kv E. unfold entry_of, h'. destruct (decide (a = r)) as [->|Hne].
    - rewrite lookup_insert_eq. cbn. unfold entry_of in E. rewrite Er in E. cbn in E.
      congruence.
    - by rewrite lookup_insert_ne. }
  assert (∀ a kv', entry_of h' a = Some kv' →
                   ∃ kv, entry_of h a = Some kv ∧ kv.1 = kv'.1) as Hent'.
  { intros a kv' E. unfold entry_of, h' in *. destruct (decide (a = r)) as [->|Hne].
    - rewrite lookup_insert_eq in E. cbn in E. injection E as <-.
      exists d. rewrite Er. by cbn.
    - rewrite lookup_insert_ne in E by done. by exists kv'. }
  split; [split_and!|..]; try done.
  - eapply chain_same_links; [|exact Hch]. intros a nd0 E. unfold h'.
    destruct (decide (a = r)) as [->|Hne].
    + rewrite lookup_insert_eq. rewrite Er in E. injection E as <-. by eexists.
    + rewrite lookup_insert_ne by done. by eexists.
  - apply Forall2_same_length_lookup. split.
    + unfold rewritten. rewrite length_zip_with. lia.
    + intros i a kv' Hi Hkv'. unfold rewritten in Hkv'.
      apply lookup_zip_with_Some in Hkv' as (a' & kv & -> & Hi' & Hkv).
      rewrite Hi in Hi'. injection Hi' as <-. apply Hent.
      exact (Forall2_lookup_lr _ _ _ _ _ _ Hf Hi Hkv).
  - by rewrite rewritten_keys.
  - exists tb. split; [done|]. split; [done|]. intros i b Eb.
    destruct (Htb _ _ Eb) as [Hndb Hmem]. split; [done|].
    intros a. rewrite Hmem. split; intros [Hl (kv & E & Hidx)]; (split; [done|]).
    + eexists. split; [by apply Hent|]. by destruct (decide _).
    + destruct (Hent' _ _ E) as (kv0 & E0 & Hk0). exists kv0. by rewrite Hk0.
Qed.

Lemma write_ref_run st own r v :
  alloc_ok st → owns st own →
  match write_ref r v st with
  | Ret _ st' => alloc_ok st' ∧ owns st' (written r v <$> own) ∧ brk st' = brk st
  | Throw _ _ => False
  | Undef => True
  end.
Proof.
  intros Hal Hown. unfold write_ref. rewrite bind_run. unfold load_node.
  destruct (nodes st !! r) as [nd|] eqn:Er; [|done].
  destruct (data nd) as [d|] eqn:Hd; [|done].
  rewrite (store_node_run _ _ _ _ Er). split_and!; [| |done].
  - destruct Hal as (Hb & Hn & Hm). split_and!; cbn [nodes maps brk]; [done| |done].
    intros a [x Ha]. apply Hn. destruct (decide (a = r)) as [->|Hne]; [by eexists|].
    rewrite lookup_insert_ne in Ha by done. by eexists.
  - destruct Hown as [Hdom Hrep Hsep]. split; cbn [nodes maps brk].
    + intros a. rewrite lookup_fmap, fmap_is_Some. apply Hdom.
    + intros a m l' kvs' Em Eo. rewrite lookup_fmap in Eo.
      destruct (own !! a) as [[l kvs]|] eqn:Eo'; [|done]. cbn in Eo.
      injection Eo as <- <-. destruct (Hrep _ _ _ _ Em Eo') as (Hr & Hl & Ht).
      split_and!; [|done|done]. by eapply write_ref_rep.
    + intros a o ma mo la' lo' ka' ko' Hne Ema Emo Ea Eo.
      rewrite lookup_fmap in Ea, Eo.
      destruct (own !! a) as [[la ka]|] eqn:Ea'; [|done].
      destruct (own !! o) as [[lo ko]|] eqn:Eo'; [|done].
      cbn in Ea, Eo. injection Ea as <- <-. injection Eo as <- <-.
      by eapply Hsep.
Qed.

(** *** [operator[]] on the mutable container *)

Lemma index_mut_present st this m l kvs k i v :
  nodes st !! null = None → maps st !! this = Some m → rep (nodes st) m l kvs →
  kvs !! i = Some (k, v) →
  ∃ r, l !! i = Some r ∧ index_mut this k st = Ret r st.
Proof.
  intros Hnull Em Hrep Hi.
  destruct (find_node_run _ _ _ _ _ k Hnull Em Hrep) as (r & Hrun & Hloc).
  apply located_present in Hloc as (Hr & j & v' & Hj & Hkj).
  - assert (j = i) as ->.
    { eapply (keys_unique kvs); [apply Hrep|done..]. }
    exists r. split; [done|]. unfold index_mut. rewrite bind_run, Hrun.
    by destruct (decide (r = null)).
  - apply list_elem_of_fmap. exists (k, v). split; [done|].
    by eapply list_elem_of_lookup_2.
Qed.

Lemma index_mut_absent st this m l kvs k it st' :
  nodes st !! null = None → maps st !! this = Some m → rep (nodes st) m l kvs →
  k ∉ kvs.*1 →
  insert this (k, T_default) st = Ret (it, true) st' →
  index_mut this k st = Ret (it_node it) st'.
Proof.
  intros Hnull Em Hrep Hk Hins.
  destruct (find_node_run _ _ _ _ _ k Hnull Em Hrep) as (r & Hrun & Hloc).
  apply located_absent in Hloc as ->; [|done].
  unfold index_mut. rewrite bind_run, Hrun.
  destruct (decide (null = null)); [|done]. by rewrite bind_run, Hins.
Qed.

(** *** The allocation pointer never moves back *)

Lemma mono_ret {A} (a : A) : mono (mret a).
Proof. intros st. cbn. lia. Qed.

Lemma mono_throw {A} e : mono (throw e : M A).
Proof. intros st. cbn. lia. Qed.

Lemma mono_undef {A} : mono (undef : M A).
Proof. by intros st. Qed.

Lemma mono_bind {A B} (c : M A) (k : A → M B) :
  mono c → (∀ x, mono (k x)) → mono (c ≫= k).
Proof.
  intros Hc Hk st. rewrite bind_run. specialize (Hc st).
  destruct (c st) as [x st1|e st1|]; [|done..].
  specialize (Hk x st1). destruct (k x st1); [lia|lia|done].
Qed.

Ltac mono_prim :=
  intros st;
  unfold load_node, store_node, new_node, delete_node, load_map, store_map,
    new_map, live_nodes;
  repeat case_match; simplify_eq/=; first [done|lia].

Lemma mono_load_node a : mono (load_node a).
Proof. mono_prim. Qed.
Lemma mono_store_node a nd : mono (store_node a nd).
Proof. mono_prim. Qed.
Lemma mono_new_node nd : mono (new_node nd).
Proof. mono_prim. Qed.
Lemma mono_delete_node a : mono (delete_node a).
Proof. mono_prim. Qed.
Lemma mono_load_map a : mono (load_map a).
Proof. mono_prim. Qed.
Lemma mono_store_map a m : mono (store_map a m).
Proof. mono_prim. Qed.
Lemma mono_new_map m : mono (new_map m).
Proof. mono_prim. Qed.
Lemma mono_live_nodes : mono live_nodes.
Proof. mono_prim. Qed.

#[local] Hint Resolve mono_load_node mono_store_node mono_new_node mono_delete_node
  mono_load_map mono_store_map mono_new_map mono_live_nodes : mono.

Ltac mono_go :=
  repeat first
    [ apply mono_ret | apply mono_throw | apply mono_undef
    | solve [auto with mono]
    | apply mono_bind; [|intros ?]
    | match goal with |- mono (match ?x with _ => _ end) => destruct x end ].

Lemma mono_set_prev a v : mono (set_prev a v).
Proof. unfold set_prev. mono_go. Qed.
Lemma mono_set_next a v : mono (set_next a v).
Proof. unfold set_next. mono_go. Qed.
Lemma mono_load_data a : mono (load_data a).
Proof. unfold load_data. mono_go. Qed.
Lemma mono_bucket_of (k : Key) n : mono (bucket_of k n).
Proof. unfold bucket_of. mono_go. Qed.
#[local] Hint Resolve mono_set_prev mono_set_next mono_load_data mono_bucket_of : mono.

Lemma mono_get_bucket_index this (k : Key) : mono (get_bucket_index this k).
Proof. unfold get_bucket_index. mono_go. Qed.
Lemma mono_read_bucket this i : mono (read_bucket this i).
Proof. unfold read_bucket. mono_go. Qed.
Lemma mono_write_bucket this i b : mono (write_bucket this i b).
Proof. unfold write_bucket. mono_go. Qed.
Lemma mono_init_table this n : mono (init_table this n).
Proof. unfold init_table. mono_go. Qed.
Lemma mono_clear_table this : mono (clear_table this).
Proof. unfold clear_table. mono_go. Qed.
Lemma mono_push_bucket tb i a : mono (push_bucket tb i a).
Proof. unfold push_bucket. mono_go. Qed.
#[local] Hint Resolve mono_get_bucket_index mono_read_bucket mono_write_bucket
  mono_init_table mono_clear_table mono_push_bucket : mono.

Lemma mono_clear_list_loop fuel this a : mono (clear_list_loop fuel this a).
Proof. revert a. induction fuel; intros a; cbn [clear_list_loop]; mono_go. Qed.
#[local] Hint Resolve mono_clear_list_loop : mono.
Lemma mono_clear_list this : mono (clear_list this).
Proof. unfold clear_list. mono_go. Qed.
Lemma mono_rehash_loop fuel this n a tb : mono (rehash_loop fuel this n a tb).
Proof. revert a tb. induction fuel; intros a tb; cbn [rehash_loop]; mono_go. Qed.
#[local] Hint Resolve mono_clear_list mono_rehash_loop : mono.
Lemma mono_rehash this : mono (rehash this).
Proof. unfold rehash. mono_go. Qed.
Lemma mono_scan_chain (k : Key) b : mono (scan_chain k b).
Proof. induction b; cbn [scan_chain]; mono_go. Qed.
#[local] Hint Resolve mono_rehash mono_scan_chain : mono.
Lemma mono_find_node this (k : Key) : mono (find_node this k).
Proof. unfold find_node. mono_go. Qed.
Lemma mono_insert_to_list this a : mono (insert_to_list this a).
Proof. unfold insert_to_list. mono_go. Qed.
Lemma mono_remove_from_list a : mono (remove_from_list a).
Proof. unfold remove_from_list. mono_go. Qed.
Lemma mono_insert_to_table this a : mono (insert_to_table this a).
Proof. unfold insert_to_table. mono_go. Qed.
Lemma mono_unlink_chain (k : Key) b : mono (unlink_chain k b).
Proof. induction b; cbn [unlink_chain]; mono_go. Qed.
#[local] Hint Resolve mono_find_node mono_insert_to_list mono_remove_from_list
  mono_insert_to_table mono_unlink_chain : mono.
Lemma mono_remove_from_table this (k : Key) : mono (remove_from_table this k).
Proof. unfold remove_from_table. mono_go. Qed.
#[local] Hint Resolve mono_remove_from_table : mono.

Lemma mono_iterator_preinc it : mono (iterator_preinc it).
Proof. unfold iterator_preinc. mono_go. Qed.
Lemma mono_iterator_predec it : mono (iterator_predec it).
Proof. unfold iterator_predec. mono_go. Qed.
Lemma mono_begin this : mono (begin_ this).
Proof. unfold begin_. mono_go. Qed.
Lemma mono_end this : mono (end_ this).
Proof. unfold end_. mono_go. Qed.
#[local] Hint Resolve mono_iterator_preinc mono_iterator_predec mono_begin mono_end : mono.
Lemma mono_find this (k : Key) : mono (find this k).
Proof. unfold find. mono_go. Qed.
Lemma mono_insert this kv : mono (insert this kv).
Proof. unfold insert. mono_go. Qed.
Lemma mono_erase this it : mono (erase this it).
Proof. unfold erase. mono_go. Qed.
Lemma mono_clear_buckets n this i : mono (clear_buckets n this i).
Proof. revert i. induction n; intros i; cbn [clear_buckets]; mono_go. Qed.
#[local] Hint Resolve mono_find mono_insert mono_erase mono_clear_buckets : mono.
Lemma mono_clear this : mono (clear this).
Proof. unfold clear. mono_go. Qed.
Lemma mono_init_sentinels this : mono (init_sentinels this).
Proof. unfold init_sentinels. mono_go. Qed.
#[local] Hint Resolve mono_clear mono_init_sentinels : mono.
Lemma mono_construct : mono construct.
Proof. unfold construct. mono_go. Qed.
Lemma mono_copy_loop fuel this other a : mono (copy_loop fuel this other a).
Proof. revert a. induction fuel; intros a; cbn [copy_loop]; mono_go. Qed.
#[local] Hint Resolve mono_construct mono_copy_loop : mono.
Lemma mono_construct_copy other : mono (construct_copy other).
Proof. unfold construct_copy. mono_go. Qed.
Lemma mono_assign this other : mono (assign this other).
Proof. unfold assign. mono_go. Qed.
Lemma mono_index_mut this (k : Key) : mono (index_mut this k).
Proof. unfold index_mut. mono_go. Qed.
Lemma mono_write_ref r (v : T) : mono (write_ref r v).
Proof. unfold write_ref. mono_go. Qed.
Lemma mono_locate c : mono (locate c).
Proof. induction c; cbn [locate]; mono_go. Qed.
#[local] Hint Resolve mono_construct_copy mono_assign mono_index_mut mono_write_ref
  mono_locate : mono.

Lemma mono_exec c : mono (exec c).
Proof. destruct c; cbn [exec]; mono_go. Qed.

Lemma step_mono c st st' : step c st = Some st' → (brk st ≤ brk st')%N.
Proof.
  unfold step. pose proof (mono_exec c st) as Hm.
  destruct (exec c st); intros [= <-]; done.
Qed.

Lemma steps_mono cs : ∀ st st', steps cs st = Some st' → (brk st ≤ brk st')%N.
Proof.
  induction cs as [|c cs IH]; intros st st'; cbn [steps].
  - intros [= <-]. lia.
  - destruct (step c st) as [st1|] eqn:E; [|done]. cbn. intros Hs.
    apply step_mono in E. apply IH in Hs. lia.
Qed.

(** *** Every call preserves the invariant *)

Lemma insert_existing st this m l kvs kv i v :
  nodes st !! null = None → maps st !! this = Some m → rep (nodes st) m l kvs →
  kvs !! i = Some (kv.1, v) →
  ∃ r, l !! i = Some r ∧ insert this kv st = Ret (mkIterator r this, false) st.
Proof.
  intros Hnull Em Hrep Hi.
  destruct (find_node_run _ _ _ _ _ kv.1 Hnull Em Hrep) as (r & Hrun & Hloc).
  apply located_present in Hloc as (Hr & j & v' & Hj & Hkj).
  - assert (j = i) as ->.
    { eapply (keys_unique kvs); [apply Hrep|done..]. }
    exists r. split; [done|]. unfold insert. rewrite bind_run, Hrun.
    by destruct (decide (r ≠ null)).
  - apply list_elem_of_fmap. exists (kv.1, v). split; [done|].
    by eapply list_elem_of_lookup_2.
Qed.

Lemma find_node_dead st this (k : Key) :
  maps st !! this = None → find_node this k st = Undef.
Proof.
  intros Em. unfold find_node, get_bucket_index. rewrite !bind_run.
  unfold load_map. by rewrite Em.
Qed.

Lemma framed_refl own t : framed own own t.
Proof. by intros o lk E _. Qed.

Lemma framed_insert own this x : framed own (<[this := x]> own) (Some this).
Proof. intros o lk E Hne. rewrite lookup_insert_ne; [done|]. congruence. Qed.

Lemma framed_fresh own n x t : own !! n = None → framed own (<[n := x]> own) t.
Proof. intros En o lk E _. rewrite lookup_insert_ne; [done|]. congruence. Qed.

Lemma kept_same st own t : alloc_ok st → owns st own → kept st own t.
Proof. intros Hal Hown. split; [done|]. exists own. split; [done|apply framed_refl]. Qed.

Lemma kept_updated st st' own this m l kvs m' l' kvs' :
  alloc_ok st → owns st own →
  maps st !! this = Some m → own !! this = Some (l, kvs) →
  updated st st' this (footprint m l) m' l' kvs' → kept st' own (Some this).
Proof.
  intros Hal Hown Em Eo Hupd. split; [by eapply upd_alloc|].
  eexists. split; [by eapply owns_update_live|apply framed_insert].
Qed.

Lemma kept_Inv st' own t : kept st' own t → Inv st'.
Proof. intros [Hal (own' & Hown & _)]. split; [done|by exists own']. Qed.

Lemma modest_48 st : modest st → (brk st < 2 ^ 48)%N.
Proof.
  unfold modest. assert (2 ^ 48 = 281474976710656)%N as E48 by done.
  assert (2 ^ 47 = 140737488355328)%N as E47 by done. lia.
Qed.

Lemma insert_kept st own this kv :
  alloc_ok st → owns st own → modest st →
  match insert this kv st with
  | Ret _ st' => kept st' own (Some this)
  | Throw _ _ => False
  | Undef => True
  end.
Proof.
  intros Hal Hown Hmod. pose proof (null_dead _ Hal) as Hnull.
  destruct (maps st !! this) as [m|] eqn:Em.
  - destruct (owns_lookup _ _ _ _ Hown Em) as (l & kvs & Eo & Hrep & Hload & Htight).
    destruct (decide (kv.1 ∈ kvs.*1)) as [Hin|Hout].
    + apply list_elem_of_fmap in Hin as ([k v] & Hk & Hin). cbn in Hk. subst k.
      apply list_elem_of_lookup in Hin as [i Hi].
      destruct (insert_existing _ _ _ _ _ kv i v Hnull Em Hrep Hi) as (r & _ & ->).
      by apply kept_same.
    + destruct (insert_new _ _ _ _ _ kv Hal Em Hrep Hload Htight (modest_48 _ Hmod) Hout)
        as (st' & m' & -> & Hupd & _).
      by eapply kept_updated.
  - unfold insert. by rewrite bind_run, find_node_dead.
Qed.

Lemma erase_invalid st this m pos :
  maps st !! this = Some m →
  it_map pos ≠ this ∨ it_node pos = tail m ∨ it_node pos = head m ∨
    it_node pos = null →
  erase this pos st = Throw invalid_iterator st.
Proof.
  intros Em Hbad. unfold erase.
  destruct (decide (it_map pos ≠ this)); [done|].
  rewrite bind_run, (load_map_run _ _ _ Em).
  repeat (destruct (decide _); [done|]). tauto.
Qed.

Lemma erase_kept st own this it :
  alloc_ok st → owns st own → obtainable st own it →
  match erase this it st with
  | Ret _ st' => kept st' own (Some this)
  | Throw _ st' => st' = st
  | Undef => True
  end.
Proof.
  intros Hal Hown Hit.
  destruct (decide (it_map it = this)) as [Hthis|Hne].
  2:{ unfold erase. by destruct (decide (it_map it ≠ this)). }
  destruct (maps st !! this) as [m|] eqn:Em.
  2:{ unfold erase. destruct (decide (it_map it ≠ this)); [done|].
      rewrite bind_run. unfold load_map. by rewrite Em. }
  destruct Hit as [->|(mo & lo & ko & Emo & Eo & Hin)].
  { cbn in Hthis. subst this. destruct (live_map_below _ _ _ Hal Em). unfold null in *. lia. }
  rewrite Hthis in Emo, Eo. rewrite Em in Emo. injection Emo as <-.
  rewrite elem_of_app, list_elem_of_singleton in Hin. destruct Hin as [Hin|Htl].
  - apply list_elem_of_split in Hin as (l1 & l2 & ->).
    destruct (owns_rep _ _ Hown _ _ _ _ Em Eo) as (Hrep & Hload & Htight).
    destruct (erase_valid _ _ _ _ _ _ _ Hal Em Hrep Hload Htight)
      as (st' & m' & k1 & kv & k2 & -> & _ & Hrun & Hupd & _).
    destruct it as [a o]. cbn [it_node it_map] in *. subst o.
    rewrite Hrun. by eapply kept_updated.
  - rewrite (erase_invalid _ _ m); [done|done|tauto].
Qed.

Lemma owns_dead st own a : alloc_ok st → owns st own → (brk st ≤ a)%N → own !! a = None.
Proof.
  intros (_ & _ & Hm) Hown Hge. destruct (own !! a) eqn:E; [|done].
  destruct (proj2 (owns_dom _ _ Hown a)) as [m Em]; [by eexists|].
  destruct (Hm a); [by eexists|]. lia.
Qed.

Lemma construct_kept st own t :
  alloc_ok st → owns st own → kept (built st INITIAL_CAPACITY) own t.
Proof.
  intros Hal Hown.
  assert (updated st (built st INITIAL_CAPACITY) (brk st) []
            (mkMap (Some (replicate (N.to_nat INITIAL_CAPACITY) [])) INITIAL_CAPACITY 0
                   (brk st + 1) (brk st + 2)) [] []) as Hupd.
  { apply built_updated; [done|done|by exists 4%N|]. unfold INITIAL_CAPACITY. lia. }
  split; [by eapply upd_alloc|]. eexists. split.
  - eapply (owns_update st _ own (brk st) []); [done|done| |exact Hupd].
    intros ???? _ _ _ x _. apply not_elem_of_nil.
  - apply framed_fresh. apply (owns_dead st own); [done|done|lia].
Qed.

Lemma clear_dead st this : maps st !! this = None → clear this st = Undef.
Proof.
  intros Em. unfold clear, clear_list. rewrite !bind_run.
  unfold load_map. by rewrite Em.
Qed.

Lemma step_owns c st st' own :
  alloc_ok st → owns st own → modest st → step c st = Some st' →
  alloc_ok st' ∧
  ∃ own', owns st' own' ∧
          ∀ o lk, own !! o = Some lk → target c ≠ Some o →
                  own' !! o = Some (after c lk).
Proof.
  intros Hal Hown Hmod. pose proof (null_dead _ Hal) as Hnull.
  assert (∀ t, kept st' own t →
               (∀ lk, after c lk = lk) → t = target c ∨ t = None →
               alloc_ok st' ∧
               ∃ own', owns st' own' ∧
                       ∀ o lk, own !! o = Some lk → target c ≠ Some o →
                               own' !! o = Some (after c lk)) as Hkept.
  { intros t [Hal' (own' & Hown' & Hfr)] Haft Ht. split; [done|].
    exists own'. split; [done|]. intros o lk E Hne. rewrite Haft.
    apply Hfr; [done|]. destruct Ht as [->| ->]; done. }
  unfold step. destruct c as [|other|this other|this kv|this pos|this|this k|r v];
    cbn [exec].
  - rewrite bind_run, construct_run. intros [= <-].
    apply (Hkept None); [by apply construct_kept|done|by right].
  - rewrite bind_run. unfold load_map at 1.
    destruct (maps st !! other) as [mo|] eqn:Emo; [|done].
    destruct (owns_lookup _ _ _ _ Hown Emo) as (lo & ko & Eoo & _).
    destruct (construct_copy_run _ _ _ _ _ _ Hal Hown Emo Eoo Hmod)
      as (st1 & m1 & l1 & Hrun & _ & Hal1 & Hown1 & _).
    rewrite bind_run, Hrun. intros [= <-]. apply (Hkept None); [|done|by right].
    split; [done|]. eexists. split; [done|]. apply framed_fresh.
    apply (owns_dead st own); [done|done|lia].
  - rewrite bind_run. unfold load_map at 1.
    destruct (maps st !! other) as [mo|] eqn:Emo; [|done].
    destruct (decide (this = other)) as [->|Hne].
    { unfold assign. destruct (decide (other = other)); [|done].
      rewrite bind_run. intros [= <-].
      apply (Hkept None); [by apply kept_same|done|by right]. }
    destruct (maps st !! this) as [m|] eqn:Em.
    + destruct (owns_lookup _ _ _ _ Hown Emo) as (lo & ko & Eoo & _).
      destruct (assign_run _ _ _ _ _ _ _ _ Hal Hown Hne Em Emo Eoo Hmod)
        as (st1 & m1 & l1 & Hrun & _ & Hal1 & Hown1 & _).
      rewrite bind_run, Hrun. intros [= <-]. apply (Hkept (Some this)); [|done|by left].
      split; [done|]. eexists. split; [done|apply framed_insert].
    + unfold assign. destruct (decide (this = other)); [done|].
      by rewrite !bind_run, clear_dead.
  - rewrite bind_run. pose proof (insert_kept st own this kv Hal Hown Hmod) as Hi.
    destruct (insert this kv st); [|done..]. intros [= <-].
    apply (Hkept (Some this)); [done|done|by left].
  - rewrite bind_run. pose proof (locate_run st own pos Hal Hown) as Hl.
    destruct (locate pos st) as [it st1|e st1|]; [| |done].
    + destruct Hl as [-> Hob]. pose proof (erase_kept st own this it Hal Hown Hob) as He.
      destruct (erase this it st); [| |done]; intros [= <-].
      * apply (Hkept (Some this)); [done|done|by left].
      * subst. apply (Hkept None); [by apply kept_same|done|by right].
    + subst st1. intros [= <-]. apply (Hkept None); [by apply kept_same|done|by right].
  - destruct (maps st !! this) as [m|] eqn:Em; [|by rewrite clear_dead].
    destruct (owns_lookup _ _ _ _ Hown Em) as (l & kvs & Eo & Hrep & Hload & Htight).
    destruct (clear_run _ _ _ _ _ Hal Em Hrep Hload Htight) as (st1 & -> & Hupd & _).
    intros [= <-]. apply (Hkept (Some this)); [by eapply kept_updated|done|by left].
  - rewrite bind_run. destruct (maps st !! this) as [m|] eqn:Em.
    2:{ unfold index_mut. by rewrite bind_run, find_node_dead. }
    destruct (owns_lookup _ _ _ _ Hown Em) as (l & kvs & Eo & Hrep & Hload & Htight).
    destruct (decide (k ∈ kvs.*1)) as [Hin|Hout].
    + apply list_elem_of_fmap in Hin as ([k' v] & Hk & Hin). cbn in Hk. subst k'.
      apply list_elem_of_lookup in Hin as [i Hi].
      destruct (index_mut_present _ _ _ _ _ _ _ _ Hnull Em Hrep Hi) as (r & _ & ->).
      intros [= <-]. apply (Hkept None); [by apply kept_same|done|by right].
    + destruct (insert_new _ _ _ _ _ (k, T_default) Hal Em Hrep Hload Htight
                  (modest_48 _ Hmod) Hout) as (st1 & m1 & Hins & Hupd & _).
      rewrite (index_mut_absent _ _ _ _ _ _ _ _ Hnull Em Hrep Hout Hins).
      intros [= <-]. apply (Hkept (Some this)); [by eapply kept_updated|done|by left].
  - pose proof (write_ref_run st own r v Hal Hown) as Hw.
    destruct (write_ref r v st); [|done..]. intros [= <-].
    destruct Hw as (? & ? & _). split; [done|]. eexists. split; [done|].
    intros o lk E _. cbn [after]. by rewrite lookup_fmap, E.
Qed.

Lemma step_Inv c st st' : Inv st → modest st → step c st = Some st' → Inv st'.
Proof.
  intros [Hal [own Hown]] Hmod Hs.
  destruct (step_owns _ _ _ _ Hal Hown Hmod Hs) as (Hal' & own' & Hown' & _).
  split; [done|by exists own'].
Qed.

Lemma empty_Inv : Inv (empty_store (Key:=Key) (T:=T)).
Proof.
  split.
  - split_and!; cbn; [lia|intros a [x Hx]; by rewrite lookup_empty in Hx..].
  - exists ∅. split; cbn.
    + intros a. rewrite !lookup_empty. split; intros [? ?]; done.
    + intros ????. by rewrite lookup_empty.
    + intros ????????? E. by rewrite lookup_empty in E.
Qed.

Lemma steps_Inv cs : ∀ st st',
  Inv st → steps cs st = Some st' → modest st' → Inv st'.
Proof.
  induction cs as [|c cs IH]; intros st st' HInv; cbn [steps].
  - by intros [= <-].
  - destruct (step c st) as [st1|] eqn:E; [|done]. cbn. intros Hs Hmod.
    pose proof (step_mono _ _ _ E) as H1. pose proof (steps_mono _ _ _ Hs) as H2.
    eapply IH; [|exact Hs|done]. eapply step_Inv; [done| |exact E].
    unfold modest in *. lia.
Qed.

Lemma reachable_Inv st : reachable st → modest st → Inv st.
Proof. intros [cs Hcs] Hmod. eapply steps_Inv; [apply empty_Inv|done..]. Qed.

(** *** The traversal observes the represented list *)

Lemma iterate_loop_run st this m l2 : ∀ l1 k1 k2 fuel,
  maps st !! this = Some m → nodes st !! null = None →
  dll (nodes st) (head m) (tail m) (l1 ++ l2) (k1 ++ k2) →
  length l1 = length k1 → length l2 ≤ fuel →
  iterate_loop fuel this (mkIterator (List.hd (tail m) l2) this) st = Ret k2 st.
Proof.
  induction l2 as [|a l2 IH]; intros l1 k1 k2 fuel Em Hnull Hd Hlen Hfuel.
  - pose proof Hd as (_ & _ & Hf). apply Forall2_length in Hf.
    rewrite !length_app in Hf. destruct k2; [|cbn in Hf; lia].
    destruct fuel; cbn [iterate_loop List.hd]; rewrite bind_run, (end_run _ _ _ Em);
      unfold iterator_eq; cbn [it_node it_map]; by rewrite !bool_decide_eq_true_2.
  - destruct fuel as [|fuel]; [cbn in Hfuel; lia|].
    pose proof (dll_nodup _ _ _ _ _ Hd) as (_ & _ & Htl & _).
    assert (a ≠ tail m) as Hat.
    { intros ->. apply Htl. rewrite elem_of_app, elem_of_cons. tauto. }
    destruct (dll_entry _ _ _ _ _ (length l1) a Hd) as (kv & Hkv & Ekv).
    { by rewrite list_lookup_middle. }
    assert (∃ k2', k2 = kv :: k2') as [k2' ->].
    { rewrite lookup_app_r in Hkv by lia.
      replace (length l1 - length k1) with 0 in Hkv by lia.
      destruct k2; [done|]. injection Hkv as ->. by eexists. }
    assert (footprint m (l1 ++ a :: l2) !! S (length l1) = Some a) as Hi.
    { apply footprint_lookup_data. by rewrite list_lookup_middle. }
    assert (default null (footprint m (l1 ++ a :: l2) !! S (S (length l1)))
            = List.hd (tail m) l2) as Hnext.
    { unfold footprint, nodes_of. rewrite <- app_assoc.
      change ((head m :: l1 ++ (a :: l2) ++ [tail m]) !! S (S (length l1)))
        with ((l1 ++ a :: l2 ++ [tail m]) !! (S (length l1))).
      rewrite lookup_app_r by lia.
      replace (S (length l1) - length l1) with 1 by lia. by destruct l2. }
    cbn [iterate_loop List.hd]. rewrite bind_run, (end_run _ _ _ Em).
    unfold iterator_eq. cbn [it_node it_map].
    rewrite (bool_decide_eq_false_2 (a = tail m)) by done. cbn [andb].
    rewrite bind_run. unfold iterator_deref. cbn [it_node].
    rewrite (load_data_run _ _ _ Ekv).
    rewrite bind_run, (preinc_run _ _ _ _ _ _ _ Em Hd Hnull Hi).
    destruct (decide (a = tail m)); [done|]. rewrite Hnext.
    rewrite bind_run.
    rewrite (IH (l1 ++ [a]) (k1 ++ [kv]) k2' fuel Em Hnull); [done| | |].
    + by rewrite <- !app_assoc.
    + rewrite !length_app. cbn. lia.
    + cbn in Hfuel. lia.
Qed.

Lemma iterate_run st this m l kvs :
  maps st !! this = Some m → nodes st !! null = None →
  dll (nodes st) (head m) (tail m) l kvs →
  iterate this st = Ret kvs st.
Proof.
  intros Em Hnull Hd. unfold iterate.
  rewrite bind_run, (begin_run _ _ _ _ _ Em Hd).
  rewrite bind_run. unfold live_nodes at 1.
  apply (iterate_loop_run st this m l [] [] kvs); try done.
  pose proof (dll_fuel _ _ _ _ _ Hd). lia.
Qed.

Lemma iterate_dead st this : maps st !! this = None → iterate this st = Undef.
Proof.
  intros Em. unfold iterate, begin_. rewrite !bind_run.
  unfold load_map. by rewrite Em.
Qed.

(** What the invariant says about one live container. *)
Lemma Inv_holds st this kvs :
  Inv st → iterate this st = Ret kvs st →
  ∃ own m l,
    alloc_ok st ∧ owns st own ∧
    maps st !! this = Some m ∧ own !! this = Some (l, kvs) ∧
    rep (nodes st) m l kvs ∧ load_ok m ∧ tight st m.
Proof.
  intros [Hal [own Hown]] Hit.
  destruct (maps st !! this) as [m|] eqn:Em.
  - destruct (owns_lookup _ _ _ _ Hown Em) as (l & kvs' & Eo & Hrep & Hload & Htight).
    rewrite (iterate_run _ _ _ _ _ Em (null_dead _ Hal) (rep_dll _ _ _ _ Hrep)) in Hit.
    injection Hit as <-. by exists own, m, l.
  - by rewrite (iterate_dead _ _ Em) in Hit.
Qed.

(** *** Lookups on a represented container *)

Lemma find_node_present st this m l kvs i k v :
  nodes st !! null = None → maps st !! this = Some m → rep (nodes st) m l kvs →
  kvs !! i = Some (k, v) →
  ∃ r, l !! i = Some r ∧ r ≠ null ∧ r ≠ tail m ∧
       find_node this k st = Ret r st ∧
       load_data r st = Ret (k, v) st.
Proof.
  intros Hnull Em Hrep Hi.
  destruct (find_node_run _ _ _ _ _ k Hnull Em Hrep) as (r & Hrun & Hloc).
  apply located_present in Hloc as (Hr & j & v' & Hj & Hkj).
  2:{ apply list_elem_of_fmap. exists (k, v). split; [done|].
      by eapply list_elem_of_lookup_2. }
  assert (j = i) as ->.
  { eapply (keys_unique kvs); [apply Hrep|done..]. }
  exists r. split_and!; try done.
  - intros ->. destruct (dll_nodup _ _ _ _ _ (rep_dll _ _ _ _ Hrep)) as (_ & _ & Ht & _).
    apply Ht. by eapply list_elem_of_lookup_2.
  - destruct (dll_entry _ _ _ _ _ _ _ (rep_dll _ _ _ _ Hrep) Hj) as (kv & Hkv & E).
    rewrite Hi in Hkv. injection Hkv as <-. by apply load_data_run.
Qed.

Lemma find_node_absent st this m l kvs k :
  nodes st !! null = None → maps st !! this = Some m → rep (nodes st) m l kvs →
  k ∉ kvs.*1 → find_node this k st = Ret null st.
Proof.
  intros Hnull Em Hrep Hk.
  destruct (find_node_run _ _ _ _ _ k Hnull Em Hrep) as (r & Hrun & Hloc).
  by apply located_absent in Hloc as ->.
Qed.

Lemma elem_lookup_pair kvs k : k ∈ kvs.*1 → ∃ i v, kvs !! i = Some (k, v).
Proof.
  intros ([k' v] & -> & Hin)%list_elem_of_fmap.
  apply list_elem_of_lookup in Hin as [i Hi]. by exists i, v.
Qed.

(** C8: [at], [count] and the two overloads of [find] agree on whether
    a key is present. *)
Theorem lookups_consistent st this kvs k :
  reachable st → modest st → iterate this st = Ret kvs st →
  (k ∉ kvs.*1 →
     at_ this k st = Throw index_out_of_bound st ∧
     count this k st = Ret 0%N st ∧
     find this k st = end_ this st ∧
     (∃ e, end_ this st = Ret e st) ∧
     find_const this k st = cend this st ∧
     (∃ e, cend this st = Ret e st)) ∧
  (k ∈ kvs.*1 →
     ∃ v r, (k, v) ∈ kvs ∧
       at_ this k st = Ret r st ∧ read_ref r st = Ret v st ∧
       count this k st = Ret 1%N st ∧
       find this k st = Ret (mkIterator r this) st ∧
       end_ this st ≠ Ret (mkIterator r this) st ∧
       iterator_deref (mkIterator r this) st = Ret (k, v) st ∧
       find_const this k st = Ret (mkConstIterator r this) st ∧
       cend this st ≠ Ret (mkConstIterator r this) st ∧
       const_iterator_deref (mkConstIterator r this) st = Ret (k, v) st).
Proof.
  intros Hreach Hmod Hit.
  destruct (Inv_holds _ _ _ (reachable_Inv _ Hreach Hmod) Hit)
    as (own & m & l & Hal & Hown & Em & Eo & Hrep & _).
  pose proof (null_dead _ Hal) as Hnull.
  assert (cend this st = Ret (mkConstIterator (tail m) this) st) as Hcend.
  { unfold cend. by rewrite bind_run, (load_map_run _ _ _ Em). }
  split.
  - intros Hk. pose proof (find_node_absent _ _ _ _ _ _ Hnull Em Hrep Hk) as Hf.
    unfold at_, count, find, find_const. rewrite !bind_run, Hf.
    destruct (decide (null = null)); [|done].
    destruct (decide (null ≠ null)); [done|].
    split_and!; try done; [rewrite (end_run _ _ _ Em)|rewrite Hcend]; by eexists.
  - intros (i & v & Hi)%elem_lookup_pair.
    destruct (find_node_present _ _ _ _ _ _ _ _ Hnull Em Hrep Hi)
      as (r & Hr & Hr0 & Hrt & Hf & Hd).
    exists v, r.
    unfold at_, count, find, find_const, read_ref, iterator_deref,
      const_iterator_deref.
    rewrite !bind_run, Hf, Hd. cbn [it_node cit_node].
    destruct (decide (r = null)); [done|]. destruct (decide (r ≠ null)); [|done].
    split_and!; try done.
    + by eapply list_elem_of_lookup_2.
    + rewrite (end_run _ _ _ Em). intros [= E]. done.
    + rewrite Hcend. intros [= E]. done.
Qed.

(** *** Positions reached from [begin()] *)

Lemma locate_nth st this m l kvs i :
  maps st !! this = Some m → dll (nodes st) (head m) (tail m) l kvs →
  nodes st !! null = None → i ≤ length l →
  ∃ a, footprint m l !! S i = Some a ∧
       locate (nth_position this i) st = Ret (mkIterator a this) st.
Proof.
  intros Em Hd Hnull. induction i as [|i IH]; intros Hi.
  - exists (List.hd (tail m) l). split.
    + unfold footprint, nodes_of. by destruct l.
    + cbn. by apply begin_run with kvs.
  - destruct IH as (a & Ha & Hrun); [lia|].
    destruct (lookup_lt_is_Some_2 (footprint m l) (S (S i))) as [x Hx].
    { unfold footprint, nodes_of. cbn [length]. rewrite length_app. cbn. lia. }
    exists x. split; [done|].
    change (nth_position (Key:=Key) this (S i)) with (Succ (nth_position (Key:=Key) this i)).
    cbn [locate].
    rewrite bind_run, Hrun, (preinc_run _ _ _ _ _ _ _ Em Hd Hnull Ha).
    destruct (decide (a = tail m)) as [->|_].
    + apply (footprint_index_tail _ _ _ _ _ Hd) in Ha. lia.
    + by rewrite Hx.
Qed.

Lemma locate_nth_data st this m l kvs i a :
  maps st !! this = Some m → dll (nodes st) (head m) (tail m) l kvs →
  nodes st !! null = None → l !! i = Some a →
  locate (nth_position this i) st = Ret (mkIterator a this) st.
Proof.
  intros Em Hd Hnull Hi.
  destruct (locate_nth st this m l kvs i Em Hd Hnull) as (x & Hx & Hrun).
  { apply lookup_lt_Some in Hi. lia. }
  rewrite (footprint_lookup_data _ _ _ _ Hi) in Hx. by injection Hx as <-.
Qed.

(** C2: [insert] of a present key returns the existing entry and leaves
    the store as it is; [insert] of an absent key appends a new entry. *)
Theorem insert_semantics st this kvs k v' :
  reachable st → modest st → iterate this st = Ret kvs st →
  (∀ i v, kvs !! i = Some (k, v) →
     ∃ it, insert this (k, v') st = Ret (it, false) st ∧
           locate (nth_position this i) st = Ret it st ∧
           iterator_deref it st = Ret (k, v) st) ∧
  (k ∉ kvs.*1 →
     ∃ it st', insert this (k, v') st = Ret (it, true) st' ∧
           iterator_deref it st' = Ret (k, v') st' ∧
           iterate this st' = Ret (kvs ++ [(k, v')]) st' ∧
           locate (nth_position this (length kvs)) st' = Ret it st').
Proof.
  intros Hreach Hmod Hit.
  destruct (Inv_holds _ _ _ (reachable_Inv _ Hreach Hmod) Hit)
    as (own & m & l & Hal & Hown & Em & Eo & Hrep & Hload & Htight).
  pose proof (null_dead _ Hal) as Hnull. split.
  - intros i v Hi.
    destruct (insert_existing _ _ _ _ _ (k, v') i v Hnull Em Hrep Hi) as (r & Hr & Hins).
    exists (mkIterator r this). split_and!; [done| |].
    + by eapply locate_nth_data; [|apply Hrep|..].
    + destruct (dll_entry _ _ _ _ _ _ _ (rep_dll _ _ _ _ Hrep) Hr) as (kv & Hkv & E).
      rewrite Hi in Hkv. injection Hkv as <-. by apply load_data_run.
  - intros Hk.
    destruct (insert_new _ _ _ _ _ (k, v') Hal Em Hrep Hload Htight (modest_48 _ Hmod) Hk)
      as (st' & m' & Hins & Hupd & _).
    pose proof (upd_rep _ _ _ _ _ _ _ Hupd) as Hrep'.
    pose proof (null_dead _ (upd_alloc _ _ _ _ _ _ _ Hupd)) as Hnull'.
    assert (maps st' !! this = Some m') as Em'.
    { rewrite (upd_maps _ _ _ _ _ _ _ Hupd). apply lookup_insert_eq. }
    assert ((l ++ [brk st]) !! length kvs = Some (brk st)) as Hlast.
    { rewrite (rep_length _ _ _ _ Hrep). by rewrite list_lookup_middle. }
    exists (mkIterator (brk st) this), st'. split_and!; [done| | |].
    + destruct (dll_entry _ _ _ _ _ _ _ (rep_dll _ _ _ _ Hrep') Hlast) as (kv & Hkv & E).
      rewrite list_lookup_middle in Hkv by done.
      injection Hkv as <-. by apply load_data_run.
    + by eapply iterate_run; [|done|apply Hrep'].
    + by eapply locate_nth_data; [|apply Hrep'|..].
Qed.

(** C9: an [insert] whose key is present changes nothing, whatever the
    load of the table. *)
Theorem duplicate_insert_noop st this kvs k v v' :
  reachable st → modest st → iterate this st = Ret kvs st →
  (k, v) ∈ kvs →
  ∃ it, insert this (k, v') st = Ret (it, false) st ∧
        step (Insert this (k, v')) st = Some st.
Proof.
  intros Hreach Hmod Hit Hin.
  destruct (Inv_holds _ _ _ (reachable_Inv _ Hreach Hmod) Hit)
    as (own & m & l & Hal & Hown & Em & Eo & Hrep & _).
  apply list_elem_of_lookup in Hin as [i Hi].
  destruct (insert_existing _ _ _ _ _ (k, v') i v (null_dead _ Hal) Em Hrep Hi)
    as (r & _ & Hins).
  exists (mkIterator r this). split; [done|].
  unfold step. cbn [exec]. by rewrite bind_run, Hins.
Qed.

(** C6: [operator[]] inserts a default value through the mutable
    container and throws through the read-only one. *)
Theorem index_access st this kvs k :
  reachable st → modest st → iterate this st = Ret kvs st →
  (k ∉ kvs.*1 →
     (∃ r st', index_mut this k st = Ret r st' ∧
               insert this (k, T_default) st = Ret (mkIterator r this, true) st' ∧
               read_ref r st' = Ret T_default st' ∧
               iterate this st' = Ret (kvs ++ [(k, T_default)]) st') ∧
     index_const this k st = Throw index_out_of_bound st) ∧
  (∀ v, (k, v) ∈ kvs →
     ∃ r, index_mut this k st = Ret r st ∧
          index_const this k st = Ret r st ∧
          read_ref r st = Ret v st).
Proof.
  intros Hreach Hmod Hit.
  destruct (Inv_holds _ _ _ (reachable_Inv _ Hreach Hmod) Hit)
    as (own & m & l & Hal & Hown & Em & Eo & Hrep & Hload & Htight).
  pose proof (null_dead _ Hal) as Hnull. split.
  - intros Hk. split.
    + destruct (insert_new _ _ _ _ _ (k, T_default) Hal Em Hrep Hload Htight
                  (modest_48 _ Hmod) Hk) as (st' & m' & Hins & Hupd & _).
      pose proof (upd_rep _ _ _ _ _ _ _ Hupd) as Hrep'.
      assert (maps st' !! this = Some m') as Em'.
      { rewrite (upd_maps _ _ _ _ _ _ _ Hupd). apply lookup_insert_eq. }
      exists (brk st), st'. split_and!; [|done| |].
      * by rewrite (index_mut_absent _ _ _ _ _ _ _ _ Hnull Em Hrep Hk Hins).
      * assert ((l ++ [brk st]) !! length l = Some (brk st)) as Hlast
            by (by rewrite list_lookup_middle).
        destruct (dll_entry _ _ _ _ _ _ _ (rep_dll _ _ _ _ Hrep') Hlast) as (kv & Hkv & E).
        rewrite <- (rep_length _ _ _ _ Hrep), list_lookup_middle in Hkv by done.
        injection Hkv as <-. unfold read_ref. by rewrite bind_run, (load_data_run _ _ _ E).
      * eapply iterate_run; [done| |apply Hrep'].
        apply null_dead, (upd_alloc _ _ _ _ _ _ _ Hupd).
    + unfold index_const.
      rewrite bind_run, (find_node_absent _ _ _ _ _ _ Hnull Em Hrep Hk).
      by destruct (decide (null = null)).
  - intros v (i & Hi)%list_elem_of_lookup.
    destruct (find_node_present _ _ _ _ _ _ _ _ Hnull Em Hrep Hi)
      as (r & Hr & Hr0 & Hrt & Hf & Hd).
    exists r. unfold index_mut, index_const, read_ref. rewrite !bind_run, Hf, Hd.
    by destruct (decide (r = null)).
Qed.

(** *** Code that never throws *)

Lemma nothrow_ret {A} (x : A) : nothrow (mret x).
Proof. by intros st. Qed.

Lemma nothrow_undef {A} : nothrow (undef : M A).
Proof. by intros st. Qed.

Lemma nothrow_bind {A B} (c : M A) (k : A → M B) :
  nothrow c → (∀ x, nothrow (k x)) → nothrow (c ≫= k).
Proof.
  intros Hc Hk st. rewrite bind_run. specialize (Hc st).
  destruct (c st) as [x st1|e st1|]; [|done..]. apply Hk.
Qed.

Ltac nothrow_prim :=
  intros st;
  unfold load_node, store_node, delete_node, load_map, store_map;
  repeat case_match; simplify_eq/=; done.

Lemma nothrow_load_node a : nothrow (load_node a).
Proof. nothrow_prim. Qed.
Lemma nothrow_store_node a nd : nothrow (store_node a nd).
Proof. nothrow_prim. Qed.
Lemma nothrow_delete_node a : nothrow (delete_node a).
Proof. nothrow_prim. Qed.
Lemma nothrow_load_map a : nothrow (load_map a).
Proof. nothrow_prim. Qed.
Lemma nothrow_store_map a m : nothrow (store_map a m).
Proof. nothrow_prim. Qed.

Ltac nothrow_go :=
  repeat first
    [ apply nothrow_ret | apply nothrow_undef
    | apply nothrow_load_node | apply nothrow_store_node
    | apply nothrow_delete_node | apply nothrow_load_map
    | apply nothrow_store_map
    | assumption
    | match goal with H : ∀ _, nothrow _ |- _ => apply H end
    | apply nothrow_bind; [|intros ?]
    | progress case_match ].

Lemma nothrow_load_data a : nothrow (load_data a).
Proof. unfold load_data. nothrow_go. Qed.

Lemma nothrow_unlink_chain (k : Key) b : nothrow (unlink_chain k b).
Proof.
  induction b; cbn [unlink_chain]; [nothrow_go|].
  apply nothrow_bind; [apply nothrow_load_data|intros ?]. nothrow_go.
Qed.

Lemma nothrow_remove_from_table this (k : Key) : nothrow (remove_from_table this k).
Proof.
  unfold remove_from_table, get_bucket_index, bucket_of, read_bucket, write_bucket.
  pose proof (nothrow_unlink_chain k). nothrow_go.
Qed.

Lemma nothrow_remove_from_list a : nothrow (remove_from_list a).
Proof. unfold remove_from_list, set_next, set_prev. nothrow_go. Qed.

(** The only throw of [erase] is the one of its guard. *)
Lemma erase_throws st this pos e st' :
  erase this pos st = Throw e st' →
  e = invalid_iterator ∧ st' = st ∧
  (it_map pos ≠ this ∨
   ∃ m, maps st !! this = Some m ∧
        (it_node pos = tail m ∨ it_node pos = head m ∨ it_node pos = null)).
Proof.
  unfold erase. destruct (decide (it_map pos ≠ this)) as [Hne|_].
  { intros [= <- <-]. tauto. }
  rewrite bind_run. unfold load_map at 1.
  destruct (maps st !! this) as [m|] eqn:Em; [|done].
  destruct (decide (it_node pos = tail m)) as [Ht|_].
  { intros [= <- <-]. split_and!; [done..|]. right. exists m. tauto. }
  destruct (decide (it_node pos = head m)) as [Hh|_].
  { intros [= <- <-]. split_and!; [done..|]. right. exists m. tauto. }
  destruct (decide (it_node pos = null)) as [Hn|_].
  { intros [= <- <-]. split_and!; [done..|]. right. exists m. tauto. }
  intros Hthrow. exfalso.
  assert (nothrow (d ← load_data (it_node pos);
                   remove_from_table this d.1;;
                   remove_from_list (it_node pos);;
                   delete_node (it_node pos);;
                   m ← load_map this;
                   store_map this
                     (with_element_count
                        (wrap64 (element_count m + (2 ^ 64 - 1))) m))) as Hnt.
  { pose proof nothrow_load_data. pose proof nothrow_remove_from_table.
    pose proof nothrow_remove_from_list.
    apply nothrow_bind; [done|intros ?]. apply nothrow_bind; [done|intros ?].
    apply nothrow_bind; [done|intros ?]. nothrow_go. }
  specialize (Hnt st). by rewrite Hthrow in Hnt.
Qed.

(** C4: [erase] throws on the four kinds of bad position and leaves the
    store as it is; on the position of an entry it removes that entry. *)
Theorem erase_semantics st this m kvs :
  reachable st → modest st →
  maps st !! this = Some m → iterate this st = Ret kvs st →
  (∀ pos, it_map pos ≠ this ∨ it_node pos = tail m ∨ it_node pos = head m ∨
          it_node pos = null →
          erase this pos st = Throw invalid_iterator st) ∧
  (∀ pos e st', erase this pos st = Throw e st' →
                e = invalid_iterator ∧ st' = st ∧
                (it_map pos ≠ this ∨ it_node pos = tail m ∨
                 it_node pos = head m ∨ it_node pos = null)) ∧
  end_ this st = Ret (mkIterator (tail m) this) st ∧
  (∀ i kv pos,
     kvs !! i = Some kv → locate (nth_position this i) st = Ret pos st →
     it_map pos = this ∧ it_node pos ≠ tail m ∧ it_node pos ≠ head m ∧
     it_node pos ≠ null ∧
     ∃ st' m', erase this pos st = Ret () st' ∧
               maps st' !! this = Some m' ∧
               (element_count m' + 1)%N = element_count m ∧
               nodes st' !! it_node pos = None ∧
               find_node this kv.1 st' = Ret null st' ∧
               iterate this st' = Ret (delete i kvs) st').
Proof.
  intros Hreach Hmod Em Hit.
  destruct (Inv_holds _ _ _ (reachable_Inv _ Hreach Hmod) Hit)
    as (own & m0 & l & Hal & Hown & Em0 & Eo & Hrep & Hload & Htight).
  rewrite Em in Em0. injection Em0 as <-.
  pose proof (null_dead _ Hal) as Hnull.
  split_and!.
  - intros pos Hbad. by apply (erase_invalid _ _ m).
  - intros pos e st' Hthrow.
    destruct (erase_throws _ _ _ _ _ Hthrow) as (-> & -> & [?|(m1 & Em1 & Hbad)]);
      [tauto|].
    rewrite Em in Em1. injection Em1 as <-. tauto.
  - by apply end_run.
  - intros i kv pos Hi Hpos.
    destruct (dll_entry_r _ _ _ _ _ _ _ (rep_dll _ _ _ _ Hrep) Hi) as (a & Ha & Ea).
    rewrite (locate_nth_data _ _ _ _ _ _ _ Em (rep_dll _ _ _ _ Hrep) Hnull Ha) in Hpos.
    injection Hpos as <-. cbn [it_node it_map].
    pose proof (dll_nodup _ _ _ _ _ (rep_dll _ _ _ _ Hrep)) as (Hnd & Hhl & Htl & _).
    assert (a ∈ l) as Hal' by (by eapply list_elem_of_lookup_2).
    split_and!; [done|by intros ->|by intros ->| |].
    { intros ->. unfold entry_of in Ea. by rewrite Hnull in Ea. }
    pose proof (take_drop_middle _ _ _ Ha) as Hsplit.
    rewrite <- Hsplit in Hrep.
    destruct (erase_valid _ _ _ _ _ _ _ Hal Em Hrep Hload Htight)
      as (st' & m' & k1 & kv' & k2 & Hkvs & Hlen & Hrun & Hupd & Hdead & Hcnt & _).
    assert (length k1 = i) as Hi'.
    { rewrite Hlen, length_take. apply lookup_lt_Some in Ha. lia. }
    assert (kv' = kv) as ->.
    { rewrite Hkvs in Hi. rewrite list_lookup_middle in Hi by done. by injection Hi. }
    pose proof (upd_rep _ _ _ _ _ _ _ Hupd) as Hrep'.
    pose proof (null_dead _ (upd_alloc _ _ _ _ _ _ _ Hupd)) as Hnull'.
    assert (maps st' !! this = Some m') as Em'.
    { rewrite (upd_maps _ _ _ _ _ _ _ Hupd). apply lookup_insert_eq. }
    exists st', m'. split_and!; try done.
    + eapply find_node_absent; [done..|].
      destruct Hrep as [_ Hk _ _ _]. rewrite Hkvs, fmap_app, fmap_cons in Hk.
      apply NoDup_app in Hk as (_ & Hdis & Hk2). apply NoDup_cons in Hk2 as [Hk2 _].
      rewrite fmap_app, elem_of_app. intros [Hin|Hin]; [|done].
      apply (Hdis _ Hin), list_elem_of_here.
    + rewrite (iterate_run _ _ _ _ _ Em' Hnull' (rep_dll _ _ _ _ Hrep')).
      rewrite Hkvs, <- Hi'. by rewrite delete_middle.
Qed.

(** *** The other forms of the iterator movements *)

Lemma postinc_preinc st (it : iterator) :
  iterator_postinc it st = res_map (λ it', (it, it')) (iterator_preinc it st).
Proof.
  unfold iterator_postinc, iterator_preinc.
  destruct (decide _); [done|]. rewrite !bind_run.
  destruct (load_map _ st); [|done..]. destruct (decide _); [done|].
  rewrite !bind_run. by destruct (load_node _ _).
Qed.

Lemma postdec_predec st (it : iterator) :
  iterator_postdec it st = res_map (λ it', (it, it')) (iterator_predec it st).
Proof.
  unfold iterator_postdec, iterator_predec.
  destruct (decide _); [done|]. rewrite !bind_run.
  destruct (load_node _ st); [|done..]. rewrite !bind_run.
  destruct (load_map _ _); [|done..]. by destruct (decide _).
Qed.

Lemma const_preinc st (it : iterator) :
  const_iterator_preinc (const_iterator_of it) st
  = res_map const_iterator_of (iterator_preinc it st).
Proof.
  unfold const_iterator_preinc, iterator_preinc. cbn [const_iterator_of cit_node cit_map].
  destruct (decide _); [done|]. rewrite !bind_run.
  destruct (load_map _ st); [|done..]. destruct (decide _); [done|].
  rewrite !bind_run. by destruct (load_node _ _).
Qed.

Lemma const_predec st (it : iterator) :
  const_iterator_predec (const_iterator_of it) st
  = res_map const_iterator_of (iterator_predec it st).
Proof.
  unfold const_iterator_predec, iterator_predec. cbn [const_iterator_of cit_node cit_map].
  destruct (decide _); [done|]. rewrite !bind_run.
  destruct (load_node _ st); [|done..]. rewrite !bind_run.
  destruct (load_map _ _); [|done..]. by destruct (decide _).
Qed.

Lemma const_postinc st (it : iterator) :
  const_iterator_postinc (const_iterator_of it) st
  = res_map (λ it', (const_iterator_of it, const_iterator_of it'))
            (iterator_preinc it st).
Proof.
  unfold const_iterator_postinc, iterator_preinc. cbn [const_iterator_of cit_node cit_map].
  destruct (decide _); [done|]. rewrite !bind_run.
  destruct (load_map _ st); [|done..]. destruct (decide _); [done|].
  rewrite !bind_run. by destruct (load_node _ _).
Qed.

Lemma const_postdec st (it : iterator) :
  const_iterator_postdec (const_iterator_of it) st
  = res_map (λ it', (const_iterator_of it, const_iterator_of it'))
            (iterator_predec it st).
Proof.
  unfold const_iterator_postdec, iterator_predec. cbn [const_iterator_of cit_node cit_map].
  destruct (decide _); [done|]. rewrite !bind_run.
  destruct (load_node _ st); [|done..]. rewrite !bind_run.
  destruct (load_map _ _); [|done..]. by destruct (decide _).
Qed.

(** C5: [++] throws exactly on a null cursor and on [end()], [--] exactly
    on a null cursor and on a cursor whose predecessor is the head
    sentinel; otherwise they follow the links of the order list. *)
Theorem iterator_moves st this m kvs :
  reachable st → modest st →
  maps st !! this = Some m → iterate this st = Ret kvs st →
  (∀ o, iterator_preinc (mkIterator null o) st = Throw invalid_iterator st ∧
        iterator_predec (mkIterator null o) st = Throw invalid_iterator st) ∧
  (∀ a nd, nodes st !! a = Some nd →
     iterator_preinc (mkIterator a this) st =
       (if decide (a = tail m) then Throw invalid_iterator st
        else Ret (mkIterator (next nd) this) st) ∧
     iterator_predec (mkIterator a this) st =
       (if decide (prev nd = head m) then Throw invalid_iterator st
        else Ret (mkIterator (prev nd) this) st)) ∧
  (∀ i it, i ≤ length kvs → locate (nth_position this i) st = Ret it st →
     iterator_preinc it st =
       (if decide (i = length kvs) then Throw invalid_iterator st
        else locate (nth_position this (S i)) st) ∧
     iterator_predec it st =
       match i with
       | 0 => Throw invalid_iterator st
       | S j => locate (nth_position this j) st
       end) ∧
  locate (nth_position this (length kvs)) st = end_ this st ∧
  (kvs = [] → ∀ e, end_ this st = Ret e st →
                   iterator_predec e st = Throw invalid_iterator st) ∧
  (∀ it, iterator_postinc it st = res_map (λ it', (it, it')) (iterator_preinc it st) ∧
         iterator_postdec it st = res_map (λ it', (it, it')) (iterator_predec it st) ∧
         const_iterator_preinc (const_iterator_of it) st
           = res_map const_iterator_of (iterator_preinc it st) ∧
         const_iterator_predec (const_iterator_of it) st
           = res_map const_iterator_of (iterator_predec it st) ∧
         const_iterator_postinc (const_iterator_of it) st
           = res_map (λ it', (const_iterator_of it, const_iterator_of it'))
                     (iterator_preinc it st) ∧
         const_iterator_postdec (const_iterator_of it) st
           = res_map (λ it', (const_iterator_of it, const_iterator_of it'))
                     (iterator_predec it st)).
Proof.
  intros Hreach Hmod Em Hit.
  destruct (Inv_holds _ _ _ (reachable_Inv _ Hreach Hmod) Hit)
    as (own & m0 & l & Hal & Hown & Em0 & Eo & Hrep & Hload & Htight).
  rewrite Em in Em0. injection Em0 as <-.
  pose proof (null_dead _ Hal) as Hnull.
  pose proof (rep_dll _ _ _ _ Hrep) as Hd.
  pose proof (rep_length _ _ _ _ Hrep) as Hlen.
  assert (∀ i it, i ≤ length kvs → locate (nth_position this i) st = Ret it st →
            iterator_preinc it st =
              (if decide (i = length kvs) then Throw invalid_iterator st
               else locate (nth_position this (S i)) st) ∧
            iterator_predec it st =
              match i with
              | 0 => Throw invalid_iterator st
              | S j => locate (nth_position this j) st
              end) as Hpos.
  { intros i it Hi Hloc.
    destruct (locate_nth st this m l kvs i Em Hd Hnull) as (a & Ha & Hrun); [lia|].
    rewrite Hrun in Hloc. injection Hloc as <-. split.
    - rewrite (preinc_run _ _ _ _ _ _ _ Em Hd Hnull Ha).
      destruct (decide (a = tail m)) as [->|Hne].
      + apply (footprint_index_tail _ _ _ _ _ Hd) in Ha.
        destruct (decide (i = length kvs)); [done|lia].
      + destruct (decide (i = length kvs)) as [->|Hne'].
        { rewrite Hlen, footprint_lookup_tail in Ha. by injection Ha as <-. }
        destruct (locate_nth st this m l kvs (S i) Em Hd Hnull) as (x & Hx & ->); [lia|].
        by rewrite Hx.
    - rewrite (predec_run _ _ _ _ _ _ _ Em Hd Hnull Ha). destruct i as [|j]; [done|].
      destruct (locate_nth st this m l kvs j Em Hd Hnull) as (x & Hx & ->); [lia|].
      by rewrite Hx. }
  assert (locate (nth_position this (length kvs)) st = end_ this st) as Hend.
  { destruct (locate_nth st this m l kvs (length kvs) Em Hd Hnull) as (a & Ha & ->); [lia|].
    rewrite Hlen, footprint_lookup_tail in Ha. injection Ha as <-.
    by rewrite (end_run _ _ _ Em). }
  split_and!; [| |done|done| |].
  - intros o. unfold iterator_preinc, iterator_predec. cbn [it_node].
    by destruct (decide (null = null)).
  - intros a nd Ea.
    assert (a ≠ null) as Hne by (intros ->; by rewrite Hnull in Ea).
    unfold iterator_preinc, iterator_predec. cbn [it_node it_map].
    destruct (decide (a = null)); [done|]. split.
    + rewrite bind_run, (load_map_run _ _ _ Em).
      destruct (decide (a = tail m)); [done|].
      by rewrite bind_run, (load_node_run _ _ _ Ea).
    + rewrite bind_run, (load_node_run _ _ _ Ea).
      rewrite bind_run, (load_map_run _ _ _ Em). by destruct (decide _).
  - intros -> e He. rewrite <- Hend in He.
    by destruct (Hpos 0 e (le_n _) He) as [_ ->].
  - intros it. split_and!; [apply postinc_preinc|apply postdec_predec|apply const_preinc
                           |apply const_predec|apply const_postinc|apply const_postdec].
Qed.

(** *** Finding every entry *)

Lemma rep_all_found st this m l kvs :
  nodes st !! null = None → maps st !! this = Some m → rep (nodes st) m l kvs →
  all_found st this kvs.
Proof.
  intros Hnull Em Hrep k v (i & Hi)%list_elem_of_lookup.
  destruct (find_node_present _ _ _ _ _ _ _ _ Hnull Em Hrep Hi)
    as (r & Hr & Hr0 & Hrt & Hf & Hd).
  exists (mkIterator r this). unfold find, iterator_deref. cbn [it_node].
  rewrite bind_run, Hf. destruct (decide (r ≠ null)); [|done]. split_and!; [done| |done].
  rewrite (end_run _ _ _ Em). by intros [= E].
Qed.

(** *** [rehash] keeps the representation *)

Lemma rehash_rep h m l kvs tb :
  rep h m l kvs → (table_size m * 2 < 2 ^ 64)%N →
  table_for h (table_size m * 2) l tb →
  rep h (rehashed m tb) l kvs.
Proof.
  intros [Hd Hk Hc Hs _] Hsz Htb. split; try done.
  - cbn. lia.
  - by exists tb.
Qed.

Lemma insert_all_run this new : ∀ st own m l kvs,
  alloc_ok st → owns st own →
  maps st !! this = Some m → own !! this = Some (l, kvs) →
  NoDup (kvs ++ new).*1 → (brk st + N.of_nat (length new) < 2 ^ 48)%N →
  ∃ st' own' m' l',
    insert_all this new st = Ret () st' ∧ alloc_ok st' ∧ owns st' own' ∧
    maps st' !! this = Some m' ∧ own' !! this = Some (l', kvs ++ new).
Proof.
  induction new as [|kv new IH]; intros st own m l kvs Hal Hown Em Eo Hnd Hb.
  - exists st, own, m, l. rewrite app_nil_r. by split_and!.
  - destruct (owns_rep _ _ Hown _ _ _ _ Em Eo) as (Hrep & Hload & Htight).
    assert (kv.1 ∉ kvs.*1) as Hfresh.
    { rewrite fmap_app, fmap_cons in Hnd. apply NoDup_app in Hnd as (_ & Hdis & _).
      intros Hin. apply (Hdis _ Hin), list_elem_of_here. }
    destruct (insert_new _ _ _ _ _ kv Hal Em Hrep Hload Htight) as
      (st1 & m1 & Hins & Hupd & Hbrk1 & _); [cbn [length] in Hb; lia|done|].
    pose proof (owns_update_live _ _ _ _ _ _ _ _ _ _ Hal Hown Em Eo Hupd) as Hown1.
    destruct (IH st1 _ m1 (l ++ [brk st]) (kvs ++ [kv])
                (upd_alloc _ _ _ _ _ _ _ Hupd) Hown1)
      as (st' & own' & m' & l' & Hrun & Hal' & Hown' & Em' & Eo').
    { rewrite (upd_maps _ _ _ _ _ _ _ Hupd). apply lookup_insert_eq. }
    { apply lookup_insert_eq. }
    { by rewrite <- app_assoc. }
    { rewrite Hbrk1. cbn [length] in Hb. lia. }
    exists st', own', m', l'. split_and!; try done.
    + cbn [insert_all]. by rewrite bind_run, Hins.
    + by rewrite <- app_assoc in Eo'.
Qed.

(** C1: insertion order is iteration order, also across growth, and a
    rehash keeps every entry where it was and findable. *)
Theorem insertion_order st this kvs new :
  reachable st → iterate this st = Ret kvs st →
  NoDup (kvs ++ new).*1 → (brk st + N.of_nat (length new) < 2 ^ 47)%N →
  (∃ st', insert_all this new st = Ret () st' ∧
          iterate this st' = Ret (kvs ++ new) st' ∧
          all_found st' this (kvs ++ new)) ∧
  (∃ st1, rehash this st = Ret () st1 ∧ nodes st1 = nodes st ∧
          iterate this st1 = Ret kvs st1 ∧ all_found st1 this kvs).
Proof.
  intros Hreach Hit Hnd Hb.
  assert (2 ^ 48 = 281474976710656)%N as E48 by done.
  assert (2 ^ 47 = 140737488355328)%N as E47 by done.
  assert (modest st) as Hmod by (unfold modest; lia).
  destruct (Inv_holds _ _ _ (reachable_Inv _ Hreach Hmod) Hit)
    as (own & m & l & Hal & Hown & Em & Eo & Hrep & Hload & Htight).
  pose proof (null_dead _ Hal) as Hnull. split.
  - destruct (insert_all_run this new st own m l kvs Hal Hown Em Eo Hnd)
      as (st' & own' & m' & l' & Hrun & Hal' & Hown' & Em' & Eo'); [lia|].
    destruct (owns_rep _ _ Hown' _ _ _ _ Em' Eo') as (Hrep' & _).
    exists st'. split_and!; [done| |].
    + by eapply iterate_run; [|apply null_dead|apply Hrep'].
    + by eapply rep_all_found; [apply null_dead|..].
  - pose proof (tight_bound _ _ Htight (modest_48 _ Hmod)) as Hsz.
    destruct (rehash_run _ _ _ _ _ Em Hrep Hsz) as (tb & Hrun & Htb).
    pose proof (rehash_rep _ _ _ _ _ Hrep Hsz Htb) as Hrep1.
    eexists. split_and!; [exact Hrun|done| |].
    + eapply iterate_run; [cbn; apply lookup_insert_eq|done|apply Hrep1].
    + eapply rep_all_found; [done|cbn; apply lookup_insert_eq|exact Hrep1].
Qed.

Lemma rehash_updated st this m l kvs tb :
  alloc_ok st → maps st !! this = Some m → rep (nodes st) m l kvs →
  load_ok m → (table_size m * 2 < 2 ^ 64)%N →
  load_reached (element_count m) (table_size m) = true →
  table_for (nodes st) (table_size m * 2) l tb →
  updated st (mkStore (nodes st) (<[this := rehashed m tb]> (maps st)) (brk st))
          this (footprint m l) (rehashed m tb) l kvs.
Proof.
  intros Hal Em Hrep [Hload Hdiv] Hsz Hlr Htb.
  pose proof (rep_count_bound _ _ _ _ Hal Hrep) as Hcb.
  split; cbn [nodes maps brk]; try done.
  - destruct Hal as (Hb & Hn & Hm). split_and!; cbn [nodes maps brk]; [done..|].
    intros a [x Ha]. apply Hm. destruct (decide (a = this)) as [->|]; [by eexists|].
    rewrite lookup_insert_ne in Ha by done. by eexists.
  - intros a Ha. by left.
  - by apply rehash_rep.
  - destruct Hdiv as [c Hc]. split; cbn; [lia|]. exists (c * 2)%N. lia.
  - unfold tight, load_reached in *. cbn. apply bool_decide_eq_true in Hlr. lia.
Qed.

(** C3: the load-factor bound holds in every state; a new container has
    capacity 16; an insertion that finds the table at its threshold
    rehashes first, into a table of twice the size, without touching the
    order list, and then inserts. *)
Theorem load_factor_invariant st this m kvs :
  reachable st → modest st →
  maps st !! this = Some m → iterate this st = Ret kvs st →
  (4 * element_count m ≤ 3 * table_size m)%N ∧
  element_count m = N.of_nat (length kvs) ∧
  (∀ st0,
      construct st0 =
      Ret (brk st0) (built st0 INITIAL_CAPACITY) ∧
      maps (built st0 INITIAL_CAPACITY) !! brk st0 =
      Some (mkMap (Some (replicate 16 [])) 16 0 (brk st0 + 1) (brk st0 + 2))) ∧
  (∀ kv, kv.1 ∉ kvs.*1 →
     ∃ it st' m',
       insert this kv st = Ret (it, true) st' ∧
       maps st' !! this = Some m' ∧
       (4 * element_count m' ≤ 3 * table_size m')%N ∧
       if load_reached (element_count m) (table_size m)
       then ∃ st1 m1,
              rehash this st = Ret () st1 ∧
              nodes st1 = nodes st ∧
              maps st1 !! this = Some m1 ∧
              table_size m1 = (2 * table_size m)%N ∧
              element_count m1 = element_count m ∧
              iterate this st1 = Ret kvs st1 ∧ all_found st1 this kvs ∧
              insert this kv st1 = Ret (it, true) st' ∧
              table_size m' = table_size m1
       else table_size m' = table_size m).
Proof.
  intros Hreach Hmod Em Hit.
  destruct (Inv_holds _ _ _ (reachable_Inv _ Hreach Hmod) Hit)
    as (own & m0 & l & Hal & Hown & Em0 & Eo & Hrep & Hload & Htight).
  rewrite Em in Em0. injection Em0 as <-.
  pose proof (null_dead _ Hal) as Hnull.
  split_and!.
  - apply Hload.
  - rewrite (rep_count _ _ _ _ Hrep). by rewrite (rep_length _ _ _ _ Hrep).
  - intros st0. split; [apply construct_run|]. cbn. apply lookup_insert_eq.
  - intros kv Hk.
    destruct (insert_new _ _ _ _ _ kv Hal Em Hrep Hload Htight (modest_48 _ Hmod) Hk)
      as (st' & m' & Hins & Hupd & Hbrk' & _ & _ & Hts').
    exists (mkIterator (brk st) this), st', m'. split_and!; [done| | |].
    + rewrite (upd_maps _ _ _ _ _ _ _ Hupd). apply lookup_insert_eq.
    + apply (upd_load _ _ _ _ _ _ _ Hupd).
    + destruct (load_reached (element_count m) (table_size m)) eqn:Hlr; [|done].
      pose proof (tight_bound _ _ Htight (modest_48 _ Hmod)) as Hsz.
      destruct (rehash_run _ _ _ _ _ Em Hrep Hsz) as (tb & Hrun & Htb).
      pose proof (rehash_updated _ _ _ _ _ _ Hal Em Hrep Hload Hsz Hlr Htb) as Hupd1.
      set (st1 := mkStore (nodes st) (<[this := rehashed m tb]> (maps st)) (brk st)).
      assert (maps st1 !! this = Some (rehashed m tb)) as Em1.
      { cbn. apply lookup_insert_eq. }
      pose proof (upd_rep _ _ _ _ _ _ _ Hupd1) as Hrep1.
      exists st1, (rehashed m tb). split_and!; try done.
      * cbn. lia.
      * by eapply iterate_run; [|done|apply Hrep1].
      * by eapply rep_all_found.
      * rewrite <- Hins. unfold insert.
        rewrite !bind_run.
        rewrite (find_node_absent _ _ _ _ _ _ Hnull Em Hrep Hk).
        rewrite (find_node_absent st1 _ _ _ _ _ Hnull Em1 Hrep1 Hk).
        destruct (decide (null ≠ null)); [done|].
        rewrite !bind_run, (load_map_run _ _ _ Em), (load_map_run _ _ _ Em1).
        rewrite Hlr, !bind_run, Hrun. fold st1.
        assert (load_reached (element_count (rehashed m tb))
                             (table_size (rehashed m tb)) = false) as ->; [|done].
        unfold load_reached in *. apply bool_decide_eq_false. cbn.
        destruct Hload as [Hl _]. destruct Hrep as [_ _ _ Hs _]. lia.
Qed.

(** *** Independence of two containers *)

Lemma rewritten_notin r (v : T) l kvs :
  length l = length kvs → r ∉ l → rewritten r v l kvs = kvs.
Proof.
  revert kvs. induction l as [|a l IH]; intros [|kv kvs] Hlen Hr; try done.
  rewrite not_elem_of_cons in Hr. destruct Hr as [Hne Hr].
  cbn. rewrite decide_False by done. f_equal. apply IH; [|done].
  cbn in Hlen. lia.
Qed.

Lemma owns_observe st own o lo ko :
  alloc_ok st → owns st own → own !! o = Some (lo, ko) →
  iterate o st = Ret ko st ∧ all_found st o ko.
Proof.
  intros Hal Hown Eo.
  destruct (proj2 (owns_dom _ _ Hown o)) as [mo Emo]; [by eexists|].
  destruct (owns_rep _ _ Hown _ _ _ _ Emo Eo) as (Hrep & _).
  pose proof (null_dead _ Hal) as Hnull. split.
  - by eapply iterate_run; [|done|apply Hrep].
  - by eapply rep_all_found.
Qed.

Lemma at_inside st this m l kvs k r :
  nodes st !! null = None → maps st !! this = Some m → rep (nodes st) m l kvs →
  at_ this k st = Ret r st → r ∈ l.
Proof.
  intros Hnull Em Hrep Hat.
  destruct (find_node_run _ _ _ _ _ k Hnull Em Hrep) as (r' & Hrun & Hloc).
  unfold at_ in Hat. rewrite bind_run, Hrun in Hat.
  destruct (decide (r' = null)); [done|]. injection Hat as ->.
  destruct Hloc as [[? _]|(_ & i & v & Hi & _)]; [done|].
  by eapply list_elem_of_lookup_2.
Qed.

Lemma copied_intro st' own this other l lo kvs :
  alloc_ok st' → owns st' own → this ≠ other →
  own !! this = Some (l, kvs) → own !! other = Some (lo, kvs) →
  copied st' other this kvs.
Proof.
  intros Hal Hown Hne Et Eo.
  destruct (owns_observe _ _ _ _ _ Hal Hown Et) as [Hit Hft].
  destruct (owns_observe _ _ _ _ _ Hal Hown Eo) as [Hio Hfo].
  split_and!; try done.
  intros c st'' Hmut Hmod Hstep.
  destruct (step_owns _ _ _ _ Hal Hown Hmod Hstep) as (Hal'' & own'' & Hown'' & Hfr).
  assert (target c ≠ Some other) as Htg.
  { destruct Hmut as [->|(r & v & k & -> & _)]; [congruence|done]. }
  specialize (Hfr _ _ Eo Htg).
  assert (after c (lo, kvs) = (lo, kvs)) as Haft.
  { destruct Hmut as [Ht|(r & v & k & -> & Hat)]; [by destruct c|].
    destruct (proj2 (owns_dom _ _ Hown this)) as [mt Emt]; [by eexists|].
    destruct (proj2 (owns_dom _ _ Hown other)) as [mo Emo]; [by eexists|].
    destruct (owns_rep _ _ Hown _ _ _ _ Emt Et) as (Hrept & _).
    destruct (owns_rep _ _ Hown _ _ _ _ Emo Eo) as (Hrepo & _).
    cbn [after]. unfold written. cbn [fst snd]. f_equal.
    apply rewritten_notin; [by rewrite (rep_length _ _ _ _ Hrepo)|]. intros Hin.
    pose proof (at_inside _ _ _ _ _ _ _ (null_dead _ Hal) Emt Hrept Hat) as Hrl.
    apply (owns_sep _ _ Hown this other mt mo l lo kvs kvs Hne Emt Emo Et Eo r);
      unfold footprint, nodes_of; rewrite elem_of_cons, elem_of_app; tauto. }
  rewrite Haft in Hfr. by eapply owns_observe.
Qed.

(** C7: copy construction and copy assignment give an independent
    container with the contents and the order of the source, by
    replaying [insert]; self-assignment does nothing. *)
Theorem copy_semantics st other mo kvs :
  reachable st → modest st →
  maps st !! other = Some mo → iterate other st = Ret kvs st →
  (∃ this st',
      construct_copy other st = Ret this st' ∧
      maps st !! this = None ∧
      insert_all this kvs (built st (table_size mo)) = Ret () st' ∧
      copied st' other this kvs) ∧
  (∀ this, this ≠ other → is_Some (maps st !! this) →
     ∃ st' st2,
       assign this other st = Ret this st' ∧
       (clear this;; clear_table this;; init_table this (table_size mo)) st
         = Ret () st2 ∧
       iterate this st2 = Ret [] st2 ∧
       insert_all this kvs st2 = Ret () st' ∧
       copied st' other this kvs) ∧
  assign other other st = Ret other st.
Proof.
  intros Hreach Hmod Emo Hit.
  destruct (Inv_holds _ _ _ (reachable_Inv _ Hreach Hmod) Hit)
    as (own & m0 & lo & Hal & Hown & Em0 & Eo & Hrep & Hload & Htight).
  rewrite Emo in Em0. injection Em0 as <-.
  split_and!.
  - destruct (construct_copy_run _ _ _ _ _ _ Hal Hown Emo Eo Hmod)
      as (st' & m' & l' & Hrun & Hall & Hal' & Hown' & Hmaps' & _).
    pose proof (live_map_below _ _ _ Hal Emo) as Hob.
    exists (brk st), st'. split_and!; try done.
    + destruct (maps st !! brk st) eqn:E; [|done].
      destruct (live_map_below _ _ _ Hal E). lia.
    + eapply (copied_intro st' _ (brk st) other l' lo); [done|done|lia| |].
      * apply lookup_insert_eq.
      * rewrite lookup_insert_ne; [done|lia].
  - intros this Hne [m Em].
    destruct (assign_run _ _ _ _ _ _ _ _ Hal Hown Hne Em Emo Eo Hmod)
      as (st' & m' & l' & Hrun & (st2 & Hprefix & Hall) & Hal' & Hown' & Hmaps' & _).
    exists st', st2. split_and!; try done.
    + destruct (owns_lookup _ _ _ _ Hown Em) as (l & kvs0 & Eo0 & Hrep0 & Hload0 & Htight0).
      destruct (clear_run _ _ _ _ _ Hal Em Hrep0 Hload0 Htight0)
        as (st1 & Hclear & Hupd1 & Hbrk1).
      pose proof (upd_maps _ _ _ _ _ _ _ Hupd1) as Hmaps1.
      rewrite bind_run, Hclear in Hprefix.
      rewrite bind_run in Hprefix. unfold clear_table in Hprefix.
      rewrite bind_run in Hprefix.
      erewrite load_map_run in Hprefix by (rewrite Hmaps1; apply lookup_insert_eq).
      cbn [cleared table with_table with_element_count] in Hprefix.
      erewrite store_map_run in Hprefix by (rewrite Hmaps1; apply lookup_insert_eq).
      erewrite init_table_run in Hprefix by (cbn; apply lookup_insert_eq).
      injection Hprefix as <-.
      eapply iterate_run; [cbn; apply lookup_insert_eq| |].
      * cbn. apply null_dead, (upd_alloc _ _ _ _ _ _ _ Hupd1).
      * cbn. apply (upd_rep _ _ _ _ _ _ _ Hupd1).
    + eapply (copied_intro st' _ this other l' lo); [done|done|done| |].
      * apply lookup_insert_eq.
      * by rewrite lookup_insert_ne.
  - unfold assign. by destruct (decide (other = other)).
Qed.

(** C10: a copy has the capacity of its source: the table starts at the
    source's size and no replayed insertion reaches the threshold. *)
Theorem copy_capacity st other mo :
  reachable st → modest st → maps st !! other = Some mo →
  (4 * element_count mo ≤ 3 * table_size mo)%N ∧
  (∀ n, (n < element_count mo)%N → load_reached n (table_size mo) = false) ∧
  (∃ this st' m0 m',
      construct_copy other st = Ret this st' ∧
      maps (built st (table_size mo)) !! this = Some m0 ∧
      table_size m0 = table_size mo ∧
      maps st' !! this = Some m' ∧
      table_size m' = table_size mo) ∧
  (∀ this, this ≠ other → is_Some (maps st !! this) →
     ∃ st' m', assign this other st = Ret this st' ∧
               maps st' !! this = Some m' ∧
               table_size m' = table_size mo).
Proof.
  intros Hreach Hmod Emo.
  destruct (reachable_Inv _ Hreach Hmod) as [Hal [own Hown]].
  destruct (owns_lookup _ _ _ _ Hown Emo) as (lo & ko & Eo & Hrep & Hload & Htight).
  split_and!.
  - apply Hload.
  - intros n Hn. unfold load_reached. apply bool_decide_eq_false.
    destruct Hload as [Hl _]. lia.
  - destruct (construct_copy_run _ _ _ _ _ _ Hal Hown Emo Eo Hmod)
      as (st' & m' & l' & Hrun & Hall & Hal' & Hown' & Hmaps' & Hts').
    exists (brk st), st'. eexists _, m'.
    split; [done|]. split; [cbn; apply lookup_insert_eq|].
    split; [done|]. split; [|done].
    rewrite Hmaps'. apply lookup_insert_eq.
  - intros this Hne [m Em].
    destruct (assign_run _ _ _ _ _ _ _ _ Hal Hown Hne Em Emo Eo Hmod)
      as (st' & m' & l' & Hrun & _ & Hal' & Hown' & Hmaps' & Hts').
    exists st', m'. split_and!; [done| |done].
    rewrite Hmaps'. apply lookup_insert_eq.
Qed.

(** *** The size of a container *)

Lemma hd_is_tail h m l kvs :
  dll h (head m) (tail m) l kvs → List.hd (tail m) l = tail m ↔ l = [].
Proof.
  intros Hd. pose proof (dll_nodup _ _ _ _ _ Hd) as (_ & _ & Htl & _).
  destruct l as [|a l]; [done|]. cbn. split; [|done].
  intros ->. destruct Htl. apply list_elem_of_here.
Qed.

(** X1: [size()] is the number of entries the traversal yields,
    [empty()] tells whether there is none, and [begin() == end()] holds
    exactly on an empty container. *)
Theorem size_and_empty st this kvs :
  reachable st → modest st → iterate this st = Ret kvs st →
  size_ this st = Ret (N.of_nat (length kvs)) st ∧
  empty_ this st = Ret (bool_decide (kvs = [])) st ∧
  ∃ first last, begin_ this st = Ret first st ∧ end_ this st = Ret last st ∧
                iterator_eq first last = bool_decide (kvs = []).
Proof.
  intros Hreach Hmod Hit.
  destruct (Inv_holds _ _ _ (reachable_Inv _ Hreach Hmod) Hit)
    as (own & m & l & Hal & Hown & Em & Eo & Hrep & _).
  pose proof (rep_count _ _ _ _ Hrep) as Hc.
  pose proof (rep_length _ _ _ _ Hrep) as Hlen.
  pose proof (rep_dll _ _ _ _ Hrep) as Hd.
  unfold size_, empty_. rewrite !bind_run, (load_map_run _ _ _ Em), !ret_run.
  split_and!.
  - by rewrite Hc, Hlen.
  - f_equal. rewrite Hc. apply bool_decide_ext.
    destruct kvs, l; cbn in *; split; intros; try done; lia.
  - eexists _, _. split; [by eapply begin_run|]. split; [by apply end_run|].
    unfold iterator_eq. cbn [it_node it_map].
    rewrite (bool_decide_eq_true_2 (this = this)) by done.
    rewrite andb_true_r. apply bool_decide_ext.
    rewrite (hd_is_tail _ _ _ _ Hd).
    destruct kvs, l; cbn in *; split; intros; try done; lia.
Qed.

(** *** Dereferencing *)

(** X2: [*it] at the position of an entry yields that entry, through
    either kind of iterator, and at a default-constructed iterator it
    is a null dereference. *)
Theorem deref_positions st this kvs :
  reachable st → modest st → iterate this st = Ret kvs st →
  (∀ i kv it,
     kvs !! i = Some kv → locate (nth_position this i) st = Ret it st →
     iterator_deref it st = Ret kv st ∧
     const_iterator_deref (const_iterator_of it) st = Ret kv st) ∧
  iterator_deref iterator_default st = Undef ∧
  const_iterator_deref const_iterator_default st = Undef.
Proof.
  intros Hreach Hmod Hit.
  destruct (Inv_holds _ _ _ (reachable_Inv _ Hreach Hmod) Hit)
    as (own & m & l & Hal & Hown & Em & Eo & Hrep & _).
  pose proof (null_dead _ Hal) as Hnull.
  pose proof (rep_dll _ _ _ _ Hrep) as Hd.
  split_and!.
  - intros i kv it Hi Hloc.
    destruct (dll_entry_r _ _ _ _ _ _ _ Hd Hi) as (a & Ha & Ea).
    rewrite (locate_nth_data _ _ _ _ _ _ _ Em Hd Hnull Ha) in Hloc.
    injection Hloc as <-.
    unfold iterator_deref, const_iterator_deref. cbn.
    by rewrite (load_data_run _ _ _ Ea).
  - unfold iterator_deref, load_data. cbn [it_node iterator_default].
    rewrite bind_run. unfold load_node. by rewrite Hnull.
  - unfold const_iterator_deref, load_data. cbn [cit_node const_iterator_default].
    rewrite bind_run. unfold load_node. by rewrite Hnull.
Qed.

(** *** The backward traversal *)

Lemma footprint_lookup_S m l i : footprint m l !! S i = (l ++ [tail m]) !! i.
Proof. done. Qed.

Lemma iterate_backward_loop_run st this m l kvs :
  maps st !! this = Some m → nodes st !! null = None →
  dll (nodes st) (head m) (tail m) l kvs →
  ∀ i a fuel, l !! i = Some a → i ≤ fuel →
    iterate_backward_loop fuel this (mkIterator a this) st
    = Ret (reverse (take (S i) kvs)) st.
Proof.
  intros Em Hnull Hd. pose proof (dll_nodup _ _ _ _ _ Hd) as (Hnd & _ & _ & _).
  induction i as [|j IH]; intros a fuel Ha Hfuel.
  - destruct (dll_entry _ _ _ _ _ _ _ Hd Ha) as (kv & Hkv & Ekv).
    assert (List.hd (tail m) l = a) as Hhd by (by destruct l; simplify_eq/=).
    assert (iterate_backward_loop fuel this (mkIterator a this) st = Ret [kv] st) as ->.
    { destruct fuel; cbn [iterate_backward_loop];
        rewrite bind_run, (begin_run _ _ _ _ _ Em Hd), Hhd;
        unfold iterator_eq; cbn [it_node it_map];
        rewrite !bool_decide_eq_true_2 by done; cbn [andb];
        unfold iterator_deref; cbn [it_node];
        by rewrite bind_run, (load_data_run _ _ _ Ekv). }
    destruct kvs; simplify_eq/=. by rewrite take_0.
  - destruct fuel as [|fuel]; [lia|].
    destruct (dll_entry _ _ _ _ _ _ _ Hd Ha) as (kv & Hkv & Ekv).
    destruct (lookup_lt_is_Some_2 l j) as [a' Ha'].
    { apply lookup_lt_Some in Ha. lia. }
    assert (a ≠ List.hd (tail m) l) as Hne.
    { intros ->. destruct l as [|x l]; [done|]. cbn in *.
      apply NoDup_cons in Hnd as [Hx _]. apply Hx.
      by eapply list_elem_of_lookup_2. }
    cbn [iterate_backward_loop].
    rewrite bind_run, (begin_run _ _ _ _ _ Em Hd).
    unfold iterator_eq. cbn [it_node it_map].
    rewrite (bool_decide_eq_false_2 (a = _)) by done. cbn [andb].
    unfold iterator_deref. cbn [it_node].
    rewrite bind_run, (load_data_run _ _ _ Ekv).
    rewrite bind_run.
    rewrite (predec_run _ _ _ _ _ (S (S j)) _ Em Hd Hnull)
      by (by apply footprint_lookup_data).
    rewrite (footprint_lookup_data _ _ _ _ Ha'). cbn [default].
    rewrite bind_run, (IH _ _ Ha') by lia. rewrite ret_run.
    by rewrite (take_S_r _ _ _ Hkv), reverse_app.
Qed.

(** X3: walking back from [end()] with [--] until [begin()] yields the
    entries in the reverse of the insertion order; on an empty
    container the first [--] throws. *)
Theorem backward_traversal st this kvs :
  reachable st → modest st → iterate this st = Ret kvs st →
  iterate_backward this st =
    if decide (kvs = []) then Throw invalid_iterator st
    else Ret (reverse kvs) st.
Proof.
  intros Hreach Hmod Hit.
  destruct (Inv_holds _ _ _ (reachable_Inv _ Hreach Hmod) Hit)
    as (own & m & l & Hal & Hown & Em & Eo & Hrep & _).
  pose proof (null_dead _ Hal) as Hnull.
  pose proof (rep_dll _ _ _ _ Hrep) as Hd.
  pose proof (rep_length _ _ _ _ Hrep) as Hlen.
  unfold iterate_backward. rewrite bind_run, (end_run _ _ _ Em).
  rewrite bind_run,
    (predec_run _ _ _ _ _ (S (length l)) _ Em Hd Hnull (footprint_lookup_tail _ _)).
  destruct (decide (kvs = [])) as [->|Hne].
  - by destruct l.
  - destruct (length l) as [|j] eqn:El.
    { destruct kvs; [done|]. cbn in Hlen. lia. }
    destruct (lookup_lt_is_Some_2 l j) as [a Ha]; [lia|].
    rewrite (footprint_lookup_data _ _ _ _ Ha). cbn [default].
    rewrite bind_run. unfold live_nodes at 1.
    rewrite (iterate_backward_loop_run _ _ _ _ _ Em Hnull Hd j a _ Ha).
    + by rewrite take_ge by lia.
    + pose proof (dll_fuel _ _ _ _ _ Hd). lia.
Qed.

(** *** Stepping forth and back *)

(** X4: from the position of an entry, [++] followed by [--] returns to
    it; from any position but the first, [--] followed by [++] does. *)
Theorem step_round_trip st this kvs :
  reachable st → modest st → iterate this st = Ret kvs st →
  ∀ i it, locate (nth_position this i) st = Ret it st →
    (i < length kvs →
       ∃ it', iterator_preinc it st = Ret it' st ∧
              iterator_predec it' st = Ret it st) ∧
    (0 < i ≤ length kvs →
       ∃ it', iterator_predec it st = Ret it' st ∧
              iterator_preinc it' st = Ret it st).
Proof.
  intros Hreach Hmod Hit i it Hloc.
  destruct (Inv_holds _ _ _ (reachable_Inv _ Hreach Hmod) Hit)
    as (own & m & l & Hal & Hown & Em & Eo & Hrep & _).
  pose proof (null_dead _ Hal) as Hnull.
  pose proof (rep_dll _ _ _ _ Hrep) as Hd.
  pose proof (rep_length _ _ _ _ Hrep) as Hlen.
  pose proof (dll_nodup _ _ _ _ _ Hd) as (Hnd & _ & Htl & _).
  assert (∀ j a, l !! j = Some a → a ≠ tail m) as Hdata.
  { intros j a Ha ->. apply Htl. by eapply list_elem_of_lookup_2. }
  split.
  - intros Hi. destruct (lookup_lt_is_Some_2 l i) as [a Ha]; [lia|].
    rewrite (locate_nth_data _ _ _ _ _ _ _ Em Hd Hnull Ha) in Hloc.
    injection Hloc as <-.
    destruct (lookup_lt_is_Some_2 (footprint m l) (S (S i))) as [a' Ha'].
    { unfold footprint, nodes_of. cbn. rewrite length_app. cbn. lia. }
    exists (mkIterator a' this). split.
    + rewrite (preinc_run _ _ _ _ _ (S i) _ Em Hd Hnull)
        by (by apply footprint_lookup_data).
      destruct (decide (a = tail m)) as [E|_]; [by destruct (Hdata _ _ Ha)|].
      by rewrite Ha'.
    + rewrite (predec_run _ _ _ _ _ (S (S i)) _ Em Hd Hnull Ha').
      by rewrite (footprint_lookup_data _ _ _ _ Ha).
  - intros [Hi0 Hi]. destruct i as [|j]; [lia|].
    destruct (locate_nth _ _ _ _ _ (S j) Em Hd Hnull) as (a & Ha & Hloc'); [lia|].
    rewrite Hloc' in Hloc. injection Hloc as <-.
    destruct (lookup_lt_is_Some_2 l j) as [a' Ha']; [lia|].
    exists (mkIterator a' this). split.
    + rewrite (predec_run _ _ _ _ _ (S (S j)) _ Em Hd Hnull Ha).
      by rewrite (footprint_lookup_data _ _ _ _ Ha').
    + rewrite (preinc_run _ _ _ _ _ (S j) _ Em Hd Hnull)
        by (by apply footprint_lookup_data).
      destruct (decide (a' = tail m)) as [E|_]; [by destruct (Hdata _ _ Ha')|].
      by rewrite Ha.
Qed.

(** *** One container among the owned ones *)

Lemma owns_holds st own this kvs :
  alloc_ok st → owns st own → iterate this st = Ret kvs st →
  ∃ m l, maps st !! this = Some m ∧ own !! this = Some (l, kvs) ∧
         rep (nodes st) m l kvs ∧ load_ok m ∧ tight st m.
Proof.
  intros Hal Hown Hit.
  destruct (maps st !! this) as [m|] eqn:Em.
  - destruct (owns_lookup _ _ _ _ Hown Em) as (l & kvs' & Eo & Hrep & Hload & Htight).
    rewrite (iterate_run _ _ _ _ _ Em (null_dead _ Hal) (rep_dll _ _ _ _ Hrep)) in Hit.
    injection Hit as <-. by exists m, l.
  - by rewrite (iterate_dead _ _ Em) in Hit.
Qed.

Lemma updated_lookup st st' this F m' l' kvs' :
  updated st st' this F m' l' kvs' → maps st' !! this = Some m'.
Proof. intros Hupd. rewrite (upd_maps _ _ _ _ _ _ _ Hupd). apply lookup_insert_eq. Qed.

Lemma updated_iterate st st' this F m' l' kvs' :
  updated st st' this F m' l' kvs' → iterate this st' = Ret kvs' st'.
Proof.
  intros Hupd. eapply iterate_run.
  - by eapply updated_lookup.
  - apply null_dead, (upd_alloc _ _ _ _ _ _ _ Hupd).
  - apply rep_dll, (upd_rep _ _ _ _ _ _ _ Hupd).
Qed.

(** *** [clear] *)

Lemma clear_frees st this m l kvs st' :
  alloc_ok st → maps st !! this = Some m → rep (nodes st) m l kvs →
  clear this st = Ret () st' →
  ∀ a, a ∈ l → nodes st' !! a = None.
Proof.
  intros Hal Em Hrep Hrun a Ha.
  pose proof (null_dead _ Hal) as Hnull.
  pose proof Hrep as [Hd Hkeys Hcnt Hsz (tb & Et & Htlen & Htb)].
  pose proof (dll_nodup _ _ _ _ _ Hd) as (Hnd & Hhl & Htl & Hht).
  destruct (clear_list_run _ _ _ _ _ Em Hnull Hd)
    as (hn & tn & Eh & Etl & Hhp & Htn & Hcl).
  unfold clear in Hrun. rewrite bind_run, Hcl in Hrun.
  rewrite bind_run in Hrun. erewrite load_map_run in Hrun by exact Em.
  rewrite bind_run in Hrun.
  erewrite (clear_buckets_run this _ _ m tb 0%N) in Hrun; cbn [nodes maps brk];
    [|done|done|lia|lia].
  rewrite bind_run in Hrun.
  erewrite load_map_run in Hrun by (cbn; apply lookup_insert_eq).
  erewrite store_map_run in Hrun by (cbn; apply lookup_insert_eq).
  injection Hrun as <-. cbn [nodes].
  rewrite !lookup_insert_ne by (by intros <-).
  rewrite lookup_delete_all. by rewrite decide_True.
Qed.

(** X5: [clear()] empties the container and frees the nodes of its
    entries; the capacity and the past-the-end position stay, and no
    key is found any more. *)
Theorem clear_empties st this m kvs :
  reachable st → modest st →
  maps st !! this = Some m → iterate this st = Ret kvs st →
  ∃ st' m',
    clear this st = Ret () st' ∧ maps st' !! this = Some m' ∧
    iterate this st' = Ret [] st' ∧
    size_ this st' = Ret 0%N st' ∧ empty_ this st' = Ret true st' ∧
    table_size m' = table_size m ∧
    end_ this st = Ret (mkIterator (tail m) this) st ∧
    end_ this st' = Ret (mkIterator (tail m) this) st' ∧
    (∀ k, find this k st' = end_ this st' ∧ count this k st' = Ret 0%N st' ∧
          at_ this k st' = Throw index_out_of_bound st') ∧
    (∀ i it, i < length kvs → locate (nth_position this i) st = Ret it st →
             nodes st' !! it_node it = None).
Proof.
  intros Hreach Hmod Em Hit.
  destruct (Inv_holds _ _ _ (reachable_Inv _ Hreach Hmod) Hit)
    as (own & m0 & l & Hal & Hown & Em0 & Eo & Hrep & Hload & Htight).
  rewrite Em in Em0. injection Em0 as <-.
  pose proof (null_dead _ Hal) as Hnull.
  destruct (clear_run _ _ _ _ _ Hal Em Hrep Hload Htight) as (st' & Hrun & Hupd & Hbrk).
  pose proof (updated_lookup _ _ _ _ _ _ _ Hupd) as Em'.
  pose proof (upd_rep _ _ _ _ _ _ _ Hupd) as Hrep'.
  pose proof (null_dead _ (upd_alloc _ _ _ _ _ _ _ Hupd)) as Hnull'.
  exists st', (cleared m). split_and!; try done.
  - by eapply updated_iterate.
  - unfold size_. by rewrite bind_run, (load_map_run _ _ _ Em').
  - unfold empty_. by rewrite bind_run, (load_map_run _ _ _ Em').
  - by apply end_run.
  - by rewrite (end_run _ _ _ Em').
  - intros k.
    pose proof (find_node_absent _ _ _ _ _ k Hnull' Em' Hrep') as Hf.
    unfold find, count, at_. rewrite !bind_run, Hf by apply not_elem_of_nil.
    destruct (decide (null ≠ null)); [done|].
    by destruct (decide (null = null)).
  - intros i it Hi Hloc.
    destruct (lookup_lt_is_Some_2 l i) as [a Ha].
    { by rewrite <- (rep_length _ _ _ _ Hrep). }
    rewrite (locate_nth_data _ _ _ _ _ _ _ Em (rep_dll _ _ _ _ Hrep) Hnull Ha) in Hloc.
    injection Hloc as <-. cbn [it_node].
    eapply clear_frees; [done..|]. by eapply list_elem_of_lookup_2.
Qed.

(** *** Assigning through [operator[]] *)

Lemma rewritten_at r (v : T) l kvs i k v0 :
  NoDup l → length l = length kvs →
  l !! i = Some r → kvs !! i = Some (k, v0) →
  rewritten r v l kvs = <[i := (k, v)]> kvs.
Proof.
  intros Hnd Hlen Hr Hk. apply list_eq. intros j.
  unfold rewritten. rewrite lookup_zip_with.
  destruct (decide (i = j)) as [<-|Hne].
  - rewrite Hr, Hk. cbn. rewrite decide_True by done.
    rewrite list_lookup_insert_eq; [done|]. by eapply lookup_lt_Some.
  - rewrite list_lookup_insert_ne by done.
    destruct (l !! j) as [a|] eqn:Ea; cbn.
    + destruct (kvs !! j) as [kv|] eqn:Ekv; cbn; [|done].
      rewrite decide_False; [done|]. intros ->.
      by pose proof (NoDup_lookup _ _ _ _ Hnd Hr Ea).
    + apply lookup_ge_None in Ea. symmetry. apply lookup_ge_None. lia.
Qed.

Lemma write_ref_at st own this m l kvs i r k v0 v :
  alloc_ok st → owns st own →
  maps st !! this = Some m → own !! this = Some (l, kvs) →
  l !! i = Some r → kvs !! i = Some (k, v0) →
  ∃ st', write_ref r v st = Ret () st' ∧
         alloc_ok st' ∧ maps st' = maps st ∧
         owns st' (<[this := (l, <[i := (k, v)]> kvs)]> (written r v <$> own)).
Proof.
  intros Hal Hown Em Eo Hr Hk.
  destruct (owns_rep _ _ Hown _ _ _ _ Em Eo) as (Hrep & _).
  pose proof (rep_dll _ _ _ _ Hrep) as Hd.
  destruct (dll_entry _ _ _ _ _ _ _ Hd Hr) as (kv & Hkv & Ekv).
  rewrite Hk in Hkv. injection Hkv as <-.
  unfold entry_of in Ekv. destruct (nodes st !! r) as [nd|] eqn:End; [|done].
  cbn in Ekv.
  pose proof (write_ref_run st own r v Hal Hown) as Hw.
  assert (write_ref r v st =
          Ret () (mkStore (<[r := mkNode (Some (k, v)) (prev nd) (next nd)]> (nodes st))
                          (maps st) (brk st))) as Hrun.
  { unfold write_ref. rewrite bind_run, (load_node_run _ _ _ End), Ekv.
    by rewrite (store_node_run _ _ _ _ End). }
  rewrite Hrun in Hw. destruct Hw as (Hal' & Hown' & _).
  eexists. split_and!; [exact Hrun|done|done|].
  assert (<[this := (l, <[i := (k, v)]> kvs)]> (written r v <$> own)
          = written r v <$> own) as ->; [|done].
  apply insert_id. rewrite lookup_fmap, Eo. cbn. unfold written. cbn. f_equal. f_equal.
  pose proof (dll_nodup _ _ _ _ _ Hd) as (Hnd & _).
  fold (rewritten r v l kvs). eapply rewritten_at; [done| |done..].
  by rewrite (rep_length _ _ _ _ Hrep).
Qed.

(** X6: [map[k] = v] makes [v] the value of [k]: an absent key is
    appended with [v], a present key keeps its place and only its value
    changes; afterwards [at(k)] is the reference written through. *)
Theorem subscript_assign st this kvs k v :
  reachable st → modest st → iterate this st = Ret kvs st →
  ∃ r st1 st2,
    index_mut this k st = Ret r st1 ∧ write_ref r v st1 = Ret () st2 ∧
    at_ this k st2 = Ret r st2 ∧ read_ref r st2 = Ret v st2 ∧
    (k ∉ kvs.*1 → iterate this st2 = Ret (kvs ++ [(k, v)]) st2) ∧
    (∀ i v0, kvs !! i = Some (k, v0) →
             st1 = st ∧ iterate this st2 = Ret (<[i := (k, v)]> kvs) st2).
Proof.
  intros Hreach Hmod Hit.
  destruct (Inv_holds _ _ _ (reachable_Inv _ Hreach Hmod) Hit)
    as (own & m & l & Hal & Hown & Em & Eo & Hrep & Hload & Htight).
  pose proof (null_dead _ Hal) as Hnull.
  assert (∃ r st1 own1 m1 l1 kvs1 i v0,
            index_mut this k st = Ret r st1 ∧ alloc_ok st1 ∧ owns st1 own1 ∧
            maps st1 !! this = Some m1 ∧ own1 !! this = Some (l1, kvs1) ∧
            l1 !! i = Some r ∧ kvs1 !! i = Some (k, v0) ∧
            (k ∉ kvs.*1 → kvs1 = kvs ++ [(k, v0)] ∧ i = length kvs) ∧
            (∀ j v1, kvs !! j = Some (k, v1) → st1 = st ∧ kvs1 = kvs ∧ i = j))
    as (r & st1 & own1 & m1 & l1 & kvs1 & i & v0 & Hidx & Hal1 & Hown1 & Em1 & Eo1 &
        Hr & Hk & Habs & Hpres).
  { destruct (decide (k ∈ kvs.*1)) as [Hin|Hout].
    - apply elem_lookup_pair in Hin as (i & v0 & Hi).
      destruct (index_mut_present _ _ _ _ _ _ _ _ Hnull Em Hrep Hi) as (r & Hr & Hrun).
      exists r, st, own, m, l, kvs, i, v0. split_and!; try done.
      + intros Hout. destruct Hout. apply list_elem_of_fmap. exists (k, v0).
        split; [done|]. by eapply list_elem_of_lookup_2.
      + intros j v1 Hj. split_and!; try done.
        by eapply (keys_unique kvs i j (k, v0) (k, v1)); [apply Hrep|..].
    - destruct (insert_new _ _ _ _ _ (k, T_default) Hal Em Hrep Hload Htight
                  (modest_48 _ Hmod) Hout) as (st1 & m1 & Hins & Hupd & _).
      exists (brk st), st1, (<[this := (l ++ [brk st], kvs ++ [(k, T_default)])]> own),
        m1, (l ++ [brk st]), (kvs ++ [(k, T_default)]), (length kvs), T_default.
      split_and!.
      + by rewrite (index_mut_absent _ _ _ _ _ _ _ _ Hnull Em Hrep Hout Hins).
      + apply (upd_alloc _ _ _ _ _ _ _ Hupd).
      + by eapply owns_update_live.
      + by eapply updated_lookup.
      + apply lookup_insert_eq.
      + rewrite (rep_length _ _ _ _ Hrep). by rewrite list_lookup_middle.
      + by rewrite list_lookup_middle.
      + done.
      + intros j v1 Hj. destruct Hout. apply list_elem_of_fmap. exists (k, v1).
        split; [done|]. by eapply list_elem_of_lookup_2. }
  destruct (write_ref_at _ _ _ _ _ _ _ _ _ _ v Hal1 Hown1 Em1 Eo1 Hr Hk)
    as (st2 & Hw & Hal2 & Hmaps2 & Hown2).
  assert (maps st2 !! this = Some m1) as Em2 by (by rewrite Hmaps2).
  destruct (owns_rep _ _ Hown2 _ _ _ _ Em2 (lookup_insert_eq _ _ _)) as (Hrep2 & _).
  pose proof (null_dead _ Hal2) as Hnull2.
  assert (<[i := (k, v)]> kvs1 !! i = Some (k, v)) as Hi2.
  { apply list_lookup_insert_eq. by eapply lookup_lt_Some. }
  destruct (find_node_present _ _ _ _ _ _ _ _ Hnull2 Em2 Hrep2 Hi2)
    as (r' & Hr' & Hr0 & _ & Hf & Hd).
  rewrite Hr in Hr'. injection Hr' as <-.
  pose proof (iterate_run _ _ _ _ _ Em2 Hnull2 (rep_dll _ _ _ _ Hrep2)) as Hit2.
  exists r, st1, st2. split_and!; try done.
  - unfold at_. rewrite bind_run, Hf. by destruct (decide (r = null)).
  - unfold read_ref. by rewrite bind_run, Hd.
  - intros Hout. destruct (Habs Hout) as [-> ->].
    rewrite Hit2. f_equal.
    rewrite insert_app_r_alt by done. by rewrite Nat.sub_diag.
  - intros j v1 Hj. destruct (Hpres _ _ Hj) as (-> & -> & ->). done.
Qed.

(** *** [insert] and [erase] together *)

(** [erase] at the [i]-th data node, in terms of the position. *)
Lemma erase_at st this m l kvs i a :
  alloc_ok st → maps st !! this = Some m → rep (nodes st) m l kvs →
  load_ok m → tight st m → l !! i = Some a →
  ∃ st' m',
    erase this (mkIterator a this) st = Ret () st' ∧
    updated st st' this (footprint m l) m' (delete i l) (delete i kvs) ∧
    nodes st' !! a = None ∧
    table_size m' = table_size m ∧ brk st' = brk st.
Proof.
  intros Hal Em Hrep Hload Htight Ha.
  pose proof (take_drop_middle _ _ _ Ha) as Hsplit.
  assert (length (take i l) = i) as Hli.
  { rewrite length_take. apply lookup_lt_Some in Ha. lia. }
  pose proof Hrep as Hrep0. rewrite <- Hsplit in Hrep.
  destruct (erase_valid _ _ _ _ _ _ _ Hal Em Hrep Hload Htight)
    as (st' & m' & k1 & kv' & k2 & Hkvs & Hlen & Hrun & Hupd & Hdead & Hcnt & Hts & Hbrk).
  rewrite Hsplit in Hupd.
  assert (delete i l = take i l ++ drop (S i) l) as El by apply delete_take_drop.
  assert (delete i kvs = k1 ++ k2) as Ek.
  { rewrite Hkvs. rewrite <- Hli, <- Hlen. apply delete_middle. }
  exists st', m'. rewrite El, Ek. by split_and!.
Qed.

(** X7: inserting a new key and erasing at the returned iterator gives
    back the contents from before, whether or not the table grew in
    between. *)
Theorem insert_erase_round_trip st this kvs kv :
  reachable st → modest st → iterate this st = Ret kvs st →
  kv.1 ∉ kvs.*1 →
  ∃ it st1 st2,
    insert this kv st = Ret (it, true) st1 ∧
    erase this it st1 = Ret () st2 ∧
    iterate this st2 = Ret kvs st2 ∧
    size_ this st2 = Ret (N.of_nat (length kvs)) st2 ∧
    find this kv.1 st2 = end_ this st2.
Proof.
  intros Hreach Hmod Hit Hout.
  destruct (Inv_holds _ _ _ (reachable_Inv _ Hreach Hmod) Hit)
    as (own & m & l & Hal & Hown & Em & Eo & Hrep & Hload & Htight).
  destruct (insert_new _ _ _ _ _ kv Hal Em Hrep Hload Htight (modest_48 _ Hmod) Hout)
    as (st1 & m1 & Hins & Hupd & Hbrk & _).
  pose proof (updated_lookup _ _ _ _ _ _ _ Hupd) as Em1.
  assert ((l ++ [brk st]) !! length l = Some (brk st)) as Hlast
      by (by rewrite list_lookup_middle).
  destruct (erase_at _ _ _ _ _ _ _ (upd_alloc _ _ _ _ _ _ _ Hupd) Em1
              (upd_rep _ _ _ _ _ _ _ Hupd) (upd_load _ _ _ _ _ _ _ Hupd)
              (upd_tight _ _ _ _ _ _ _ Hupd) Hlast)
    as (st2 & m2 & Her & Hupd2 & _).
  rewrite (delete_middle l []), app_nil_r in Hupd2.
  rewrite <- (rep_length _ _ _ _ Hrep) in Hupd2.
  rewrite (delete_middle kvs []), app_nil_r in Hupd2.
  pose proof (updated_lookup _ _ _ _ _ _ _ Hupd2) as Em2.
  pose proof (upd_rep _ _ _ _ _ _ _ Hupd2) as Hrep2.
  pose proof (null_dead _ (upd_alloc _ _ _ _ _ _ _ Hupd2)) as Hnull2.
  exists (mkIterator (brk st) this), st1, st2. split_and!; try done.
  - by eapply updated_iterate.
  - unfold size_. rewrite bind_run, (load_map_run _ _ _ Em2), ret_run.
    by rewrite (rep_count _ _ _ _ Hrep2), (rep_length _ _ _ _ Hrep2).
  - unfold find.
    rewrite bind_run, (find_node_absent _ _ _ _ _ _ Hnull2 Em2 Hrep2 Hout).
    by destruct (decide (null ≠ null)).
Qed.

Lemma keys_delete kvs i k v :
  NoDup kvs.*1 → kvs !! i = Some (k, v) → k ∉ (delete i kvs).*1.
Proof.
  intros Hnd Hi (kv & Hk & Hin)%list_elem_of_fmap.
  apply list_elem_of_lookup in Hin as [j Hj].
  destruct (decide (j < i)) as [Hlt|Hge].
  - rewrite list_lookup_delete_lt in Hj by done.
    pose proof (keys_unique kvs i j (k, v) kv Hnd Hi Hj Hk). lia.
  - rewrite list_lookup_delete_ge in Hj by lia.
    pose proof (keys_unique kvs i (S j) (k, v) kv Hnd Hi Hj Hk). lia.
Qed.

(** X8: a key that is erased and inserted again goes to the end of
    the order. *)
Theorem erase_insert_moves_last st this kvs i k v v' :
  reachable st → modest st → iterate this st = Ret kvs st →
  kvs !! i = Some (k, v) →
  ∃ pos st1 it st2,
    locate (nth_position this i) st = Ret pos st ∧
    erase this pos st = Ret () st1 ∧
    insert this (k, v') st1 = Ret (it, true) st2 ∧
    iterate this st2 = Ret (delete i kvs ++ [(k, v')]) st2.
Proof.
  intros Hreach Hmod Hit Hi.
  destruct (Inv_holds _ _ _ (reachable_Inv _ Hreach Hmod) Hit)
    as (own & m & l & Hal & Hown & Em & Eo & Hrep & Hload & Htight).
  pose proof (null_dead _ Hal) as Hnull.
  destruct (dll_entry_r _ _ _ _ _ _ _ (rep_dll _ _ _ _ Hrep) Hi) as (a & Ha & Ea).
  destruct (erase_at _ _ _ _ _ _ _ Hal Em Hrep Hload Htight Ha)
    as (st1 & m1 & Her & Hupd & _ & _ & Hbrk).
  destruct (insert_new _ _ _ _ _ (k, v') (upd_alloc _ _ _ _ _ _ _ Hupd)
              (updated_lookup _ _ _ _ _ _ _ Hupd)
              (upd_rep _ _ _ _ _ _ _ Hupd) (upd_load _ _ _ _ _ _ _ Hupd)
              (upd_tight _ _ _ _ _ _ _ Hupd))
    as (st2 & m2 & Hins & Hupd2 & _).
  { rewrite Hbrk. by apply modest_48. }
  { eapply keys_delete; [apply Hrep|done]. }
  exists (mkIterator a this), st1, (mkIterator (brk st1) this), st2.
  split_and!; try done.
  - by eapply locate_nth_data; [|apply Hrep|..].
  - by eapply updated_iterate.
Qed.

(** *** What a mutation leaves valid *)

(** X9: an [insert] of a new key, with or without a rehash, leaves
    every iterator into the container where it was: the positions of
    the old entries, their pairs, and [end()], before which the new
    entry now sits. *)
Theorem insert_keeps_iterators st this m kvs new :
  reachable st → modest st →
  maps st !! this = Some m → iterate this st = Ret kvs st →
  new.1 ∉ kvs.*1 →
  ∃ it st',
    insert this new st = Ret (it, true) st' ∧
    (∀ i kv pos,
       kvs !! i = Some kv → locate (nth_position this i) st = Ret pos st →
       locate (nth_position this i) st' = Ret pos st' ∧
       iterator_deref pos st' = Ret kv st') ∧
    end_ this st = Ret (mkIterator (tail m) this) st ∧
    end_ this st' = Ret (mkIterator (tail m) this) st' ∧
    iterator_predec (mkIterator (tail m) this) st' = Ret it st'.
Proof.
  intros Hreach Hmod Em Hit Hout.
  destruct (Inv_holds _ _ _ (reachable_Inv _ Hreach Hmod) Hit)
    as (own & m0 & l & Hal & Hown & Em0 & Eo & Hrep & Hload & Htight).
  rewrite Em in Em0. injection Em0 as <-.
  pose proof (null_dead _ Hal) as Hnull.
  destruct (insert_new _ _ _ _ _ new Hal Em Hrep Hload Htight (modest_48 _ Hmod) Hout)
    as (st' & m' & Hins & Hupd & Hbrk & Hhd & Htl & _).
  pose proof (updated_lookup _ _ _ _ _ _ _ Hupd) as Em'.
  pose proof (upd_rep _ _ _ _ _ _ _ Hupd) as Hrep'.
  pose proof (rep_dll _ _ _ _ Hrep') as Hd'.
  pose proof (null_dead _ (upd_alloc _ _ _ _ _ _ _ Hupd)) as Hnull'.
  exists (mkIterator (brk st) this), st'. split_and!; try done.
  - intros i kv pos Hi Hloc.
    destruct (dll_entry_r _ _ _ _ _ _ _ (rep_dll _ _ _ _ Hrep) Hi) as (a & Ha & Ea).
    rewrite (locate_nth_data _ _ _ _ _ _ _ Em (rep_dll _ _ _ _ Hrep) Hnull Ha) in Hloc.
    injection Hloc as <-.
    assert ((l ++ [brk st]) !! i = Some a) as Ha' by (by apply lookup_app_l_Some).
    split.
    + by eapply locate_nth_data.
    + destruct (dll_entry _ _ _ _ _ _ _ Hd' Ha') as (kv' & Hkv' & Ekv').
      rewrite (lookup_app_l_Some _ _ _ _ Hi) in Hkv'. injection Hkv' as <-.
      unfold iterator_deref. cbn [it_node]. by apply load_data_run.
  - by apply end_run.
  - rewrite <- Htl. by apply end_run.
  - rewrite <- Htl.
    rewrite (predec_run _ _ _ _ _ (S (length (l ++ [brk st]))) _ Em' Hd' Hnull'
               (footprint_lookup_tail _ _)).
    rewrite length_app. cbn [length]. rewrite Nat.add_1_r.
    rewrite (footprint_lookup_data _ (l ++ [brk st]) (length l) (brk st)); [done|].
    by rewrite list_lookup_middle.
Qed.

(** X10: an [erase] frees one node and touches nothing else of the
    container: the capacity stays, no memory is allocated, and every
    iterator to another entry still points to that entry, which is one
    place earlier if it came after the erased one. *)
Theorem erase_keeps_iterators st this m kvs j pos :
  reachable st → modest st →
  maps st !! this = Some m → iterate this st = Ret kvs st →
  j < length kvs → locate (nth_position this j) st = Ret pos st →
  ∃ st' m',
    erase this pos st = Ret () st' ∧ maps st' !! this = Some m' ∧
    table_size m' = table_size m ∧ brk st' = brk st ∧
    iterate this st' = Ret (delete j kvs) st' ∧
    ∀ i kv it,
      i ≠ j → kvs !! i = Some kv → locate (nth_position this i) st = Ret it st →
      locate (nth_position this (if decide (i < j) then i else pred i)) st'
        = Ret it st' ∧
      iterator_deref it st' = Ret kv st'.
Proof.
  intros Hreach Hmod Em Hit Hj Hloc.
  destruct (Inv_holds _ _ _ (reachable_Inv _ Hreach Hmod) Hit)
    as (own & m0 & l & Hal & Hown & Em0 & Eo & Hrep & Hload & Htight).
  rewrite Em in Em0. injection Em0 as <-.
  pose proof (null_dead _ Hal) as Hnull.
  pose proof (rep_dll _ _ _ _ Hrep) as Hd.
  destruct (lookup_lt_is_Some_2 l j) as [a Ha].
  { by rewrite <- (rep_length _ _ _ _ Hrep). }
  rewrite (locate_nth_data _ _ _ _ _ _ _ Em Hd Hnull Ha) in Hloc.
  injection Hloc as <-.
  destruct (erase_at _ _ _ _ _ _ _ Hal Em Hrep Hload Htight Ha)
    as (st' & m' & Her & Hupd & _ & Hts & Hbrk).
  pose proof (updated_lookup _ _ _ _ _ _ _ Hupd) as Em'.
  pose proof (upd_rep _ _ _ _ _ _ _ Hupd) as Hrep'.
  pose proof (rep_dll _ _ _ _ Hrep') as Hd'.
  pose proof (null_dead _ (upd_alloc _ _ _ _ _ _ _ Hupd)) as Hnull'.
  exists st', m'. split_and!; try done.
  - by eapply updated_iterate.
  - intros i kv it Hne Hi Hloc.
    destruct (dll_entry_r _ _ _ _ _ _ _ Hd Hi) as (x & Hx & Ex).
    rewrite (locate_nth_data _ _ _ _ _ _ _ Em Hd Hnull Hx) in Hloc.
    injection Hloc as <-.
    set (i' := if decide (i < j) then i else pred i).
    assert (delete j l !! i' = Some x ∧ delete j kvs !! i' = Some kv) as [Hx' Hkv'].
    { unfold i'. destruct (decide (i < j)).
      - by rewrite !list_lookup_delete_lt by done.
      - rewrite !list_lookup_delete_ge by lia.
        by replace (S (pred i)) with i by lia. }
    split.
    + by eapply locate_nth_data.
    + destruct (dll_entry _ _ _ _ _ _ _ Hd' Hx') as (kv' & Hkv'' & Ekv').
      rewrite Hkv' in Hkv''. injection Hkv'' as <-.
      unfold iterator_deref. cbn [it_node]. by apply load_data_run.
Qed.

(** *** Containers do not interfere *)

(** X11: whatever is done to one container (a call of one of its
    mutators or a write through a reference into it) and whatever is
    constructed, every other container keeps its contents. *)
Theorem containers_independent st other kvs c st' :
  reachable st → modest st → iterate other st = Ret kvs st →
  c = Construct ∨ (∃ o, c = ConstructCopy o) ∨
    (∃ this, this ≠ other ∧ mutates c this st) →
  step c st = Some st' →
  iterate other st' = Ret kvs st' ∧ all_found st' other kvs.
Proof.
  intros Hreach Hmod Hit Hc Hstep.
  destruct (reachable_Inv _ Hreach Hmod) as [Hal [own Hown]].
  destruct (owns_holds _ _ _ _ Hal Hown Hit) as (mo & lo & Emo & Eo & Hrepo & _).
  destruct (step_owns _ _ _ _ Hal Hown Hmod Hstep) as (Hal' & own' & Hown' & Hfr).
  assert (target c ≠ Some other) as Htg.
  { destruct Hc as [->|[[o ->]|(this & Hne & [Ht|(r & v & k & -> & _)])]];
      cbn; congruence. }
  specialize (Hfr _ _ Eo Htg).
  assert (after c (lo, kvs) = (lo, kvs)) as Haft.
  { destruct Hc as [->|[[o ->]|(this & Hne & [Ht|(r & v & k & -> & Hat)])]];
      [done|done|by destruct c|].
    destruct (maps st !! this) as [mt|] eqn:Emt.
    2:{ unfold at_ in Hat. by rewrite bind_run, find_node_dead in Hat. }
    destruct (owns_lookup _ _ _ _ Hown Emt) as (lt & kt & Et & Hrept & _).
    cbn [after]. unfold written. cbn [fst snd]. f_equal.
    apply rewritten_notin; [by rewrite (rep_length _ _ _ _ Hrepo)|]. intros Hin.
    pose proof (at_inside _ _ _ _ _ _ _ (null_dead _ Hal) Emt Hrept Hat) as Hrl.
    apply (owns_sep _ _ Hown this other mt mo lt lo kt kvs Hne Emt Emo Et Eo r);
      unfold footprint, nodes_of; rewrite elem_of_cons, elem_of_app; tauto. }
  rewrite Haft in Hfr. by eapply owns_observe.
Qed.

(** *** Inserting a sequence with repeated keys *)

Lemma insert_all_absorbs this new : ∀ st own m l kvs,
  alloc_ok st → owns st own →
  maps st !! this = Some m → own !! this = Some (l, kvs) →
  (brk st + N.of_nat (length new) < 2 ^ 48)%N →
  ∃ st' own' m' l',
    insert_all this new st = Ret () st' ∧ alloc_ok st' ∧ owns st' own' ∧
    maps st' !! this = Some m' ∧ own' !! this = Some (l', foldl absorb kvs new) ∧
    take (length l) l' = l.
Proof.
  induction new as [|kv new IH]; intros st own m l kvs Hal Hown Em Eo Hb.
  - exists st, own, m, l. split_and!; try done. by rewrite take_ge.
  - destruct (owns_rep _ _ Hown _ _ _ _ Em Eo) as (Hrep & Hload & Htight).
    cbn [foldl insert_all]. unfold absorb at 2.
    destruct (decide (kv.1 ∈ kvs.*1)) as [Hin|Hout].
    + apply list_elem_of_fmap in Hin as ([k v] & Hk & Hin). cbn in Hk. subst k.
      apply list_elem_of_lookup in Hin as [i Hi].
      destruct (insert_existing _ _ _ _ _ kv i v (null_dead _ Hal) Em Hrep Hi)
        as (r & _ & Hins).
      destruct (IH st own m l kvs Hal Hown Em Eo)
        as (st' & own' & m' & l' & Hrun & Hrest); [cbn [length] in Hb; lia|].
      exists st', own', m', l'. split; [|done].
      by rewrite bind_run, Hins.
    + destruct (insert_new _ _ _ _ _ kv Hal Em Hrep Hload Htight) as
        (st1 & m1 & Hins & Hupd & Hbrk1 & _); [cbn [length] in Hb; lia|done|].
      pose proof (owns_update_live _ _ _ _ _ _ _ _ _ _ Hal Hown Em Eo Hupd) as Hown1.
      destruct (IH st1 _ m1 (l ++ [brk st]) (kvs ++ [kv])
                  (upd_alloc _ _ _ _ _ _ _ Hupd) Hown1)
        as (st' & own' & m' & l' & Hrun & Hal' & Hown' & Em' & Eo' & Htk).
      { by eapply updated_lookup. }
      { apply lookup_insert_eq. }
      { rewrite Hbrk1. cbn [length] in Hb. lia. }
      exists st', own', m', l'. split_and!; try done.
      * by rewrite bind_run, Hins.
      * assert (take (length l) (take (length (l ++ [brk st])) l')
                = take (length l) l') as <-.
        { rewrite take_take. f_equal. rewrite length_app. cbn. lia. }
        rewrite Htk. apply take_app_length.
Qed.

(** X12: inserting any sequence of pairs, keys repeated or already
    present included, keeps for every key its first pair and its first
    place: the old entries stay in front, unchanged. *)
Theorem first_insertion_wins st this kvs new :
  reachable st → iterate this st = Ret kvs st →
  (brk st + N.of_nat (length new) < 2 ^ 47)%N →
  ∃ st', insert_all this new st = Ret () st' ∧
         iterate this st' = Ret (foldl absorb kvs new) st' ∧
         take (length kvs) (foldl absorb kvs new) = kvs ∧
         NoDup (foldl absorb kvs new).*1 ∧
         ∀ k, k ∈ (foldl absorb kvs new).*1 ↔ k ∈ kvs.*1 ∨ k ∈ new.*1.
Proof.
  intros Hreach Hit Hb.
  assert (2 ^ 48 = 281474976710656)%N as E48 by done.
  assert (2 ^ 47 = 140737488355328)%N as E47 by done.
  assert (modest st) as Hmod by (unfold modest; lia).
  destruct (Inv_holds _ _ _ (reachable_Inv _ Hreach Hmod) Hit)
    as (own & m & l & Hal & Hown & Em & Eo & Hrep & Hload & Htight).
  destruct (insert_all_absorbs this new st own m l kvs Hal Hown Em Eo)
    as (st' & own' & m' & l' & Hrun & Hal' & Hown' & Em' & Eo' & _); [lia|].
  destruct (owns_rep _ _ Hown' _ _ _ _ Em' Eo') as (Hrep' & _).
  exists st'. split_and!; [done| | | |].
  - by eapply iterate_run; [|apply null_dead|apply Hrep'].
  - clear. revert kvs. induction new as [|kv new IH]; intros kvs; cbn [foldl].
    + by rewrite take_ge.
    + unfold absorb at 2. destruct (decide (kv.1 ∈ kvs.*1)); [apply IH|].
      specialize (IH (kvs ++ [kv])).
      assert (take (length kvs) (take (length (kvs ++ [kv]))
                                      (foldl absorb (kvs ++ [kv]) new))
              = take (length kvs) (foldl absorb (kvs ++ [kv]) new)) as <-.
      { rewrite take_take. f_equal. rewrite length_app. cbn. lia. }
      rewrite IH. apply take_app_length.
  - apply Hrep'.
  - clear. revert kvs. induction new as [|kv new IH]; intros kvs k; cbn [foldl].
    + rewrite fmap_nil, elem_of_nil. tauto.
    + rewrite IH. unfold absorb. rewrite fmap_cons, elem_of_cons.
      destruct (decide (kv.1 ∈ kvs.*1)) as [Hin|Hout].
      * split; [tauto|]. intros [?|[->|?]]; tauto.
      * rewrite fmap_app, elem_of_app, fmap_cons, fmap_nil, list_elem_of_singleton.
        tauto.
Qed.

(** *** What every reachable container satisfies *)

(** X13: a container never holds two entries with the same key, and
    each of its buckets holds, once each, exactly the nodes of the
    entries whose key hashes to it. *)
Theorem bucket_placement st this m kvs :
  reachable st → modest st →
  maps st !! this = Some m → iterate this st = Ret kvs st →
  NoDup kvs.*1 ∧
  (0 < table_size m)%N ∧
  ∃ tb, table m = Some tb ∧ length tb = N.to_nat (table_size m) ∧
        ∀ i b, tb !! i = Some b →
          NoDup b ∧
          (∀ a, a ∈ b → ∃ kv, load_data a st = Ret kv st ∧ kv ∈ kvs ∧
                             (hasher kv.1 mod table_size m)%N = N.of_nat i) ∧
          (∀ kv, kv ∈ kvs → (hasher kv.1 mod table_size m)%N = N.of_nat i →
                 ∃ a, a ∈ b ∧ load_data a st = Ret kv st ∧
                      find_node this kv.1 st = Ret a st).
Proof.
  intros Hreach Hmod Em Hit.
  destruct (Inv_holds _ _ _ (reachable_Inv _ Hreach Hmod) Hit)
    as (own & m0 & l & Hal & Hown & Em0 & Eo & Hrep & Hload & Htight).
  rewrite Em in Em0. injection Em0 as <-.
  pose proof (null_dead _ Hal) as Hnull.
  pose proof Hrep as [Hd Hkeys Hcnt Hsz (tb & Et & Htlen & Htb)].
  split_and!; [done|lia|].
  exists tb. split_and!; [done..|].
  intros i b Hb. destruct (Htb _ _ Hb) as [Hnd Hiff]. split_and!; [done| |].
  - intros a (Hal' & kv & Ekv & Hh)%Hiff. exists kv. split_and!; [|  |done].
    + by apply load_data_run.
    + apply list_elem_of_lookup in Hal' as [j Hj].
      destruct (dll_entry _ _ _ _ _ _ _ Hd Hj) as (kv' & Hkv' & Ekv').
      rewrite Ekv in Ekv'. injection Ekv' as <-. by eapply list_elem_of_lookup_2.
  - intros [k v] (j & Hj)%list_elem_of_lookup Hh.
    destruct (find_node_present _ _ _ _ _ _ _ _ Hnull Em Hrep Hj)
      as (a & Ha & _ & _ & Hf & Hld).
    exists a. split_and!; [|done..]. apply Hiff. split.
    + by eapply list_elem_of_lookup_2.
    + destruct (dll_entry _ _ _ _ _ _ _ Hd Ha) as (kv' & Hkv' & Ekv').
      rewrite Hj in Hkv'. injection Hkv' as <-. by exists (k, v).
Qed.

(** *** The destructor *)

Lemma size_delete_all l : ∀ h,
  NoDup l → (∀ a, a ∈ l → is_Some (h !! a)) →
  size (delete_all l h) + length l = size h.
Proof.
  induction l as [|x l IH]; intros h Hnd Hlive; cbn [delete_all foldl length]; [lia|].
  fold (delete_all l (delete x h)).
  apply NoDup_cons in Hnd as [Hx Hnd].
  rewrite Nat.add_succ_r, IH; [|done|].
  - rewrite map_size_delete_Some by (apply Hlive, list_elem_of_here).
    destruct (Hlive x) as [nd Hnd']; [apply list_elem_of_here|].
    assert (size h ≠ 0); [|lia].
    intros ?%map_size_empty_inv. subst h. by rewrite lookup_empty in Hnd'.
  - intros a Ha. rewrite lookup_delete_ne by (by intros ->).
    by apply Hlive, list_elem_of_further.
Qed.

Lemma destructor_run st this m l kvs :
  alloc_ok st → maps st !! this = Some m → rep (nodes st) m l kvs →
  destructor this st =
  Ret () (mkStore (delete_all (footprint m l) (nodes st))
                  (delete this (maps st)) (brk st)).
Proof.
  intros Hal Em Hrep.
  pose proof (null_dead _ Hal) as Hnull.
  pose proof Hrep as [Hd Hkeys Hcnt Hsz (tb & Et & Htlen & Htb)].
  pose proof (dll_nodup _ _ _ _ _ Hd) as (Hnd & Hhl & Htl & Hht).
  destruct (clear_list_run _ _ _ _ _ Em Hnull Hd)
    as (hn & tn & Eh & Etl & Hhp & Htn & Hcl).
  assert (head m ≠ null) as Hh0 by (intros E; by rewrite E, Hnull in Eh).
  assert (tail m ≠ null) as Ht0 by (intros E; by rewrite E, Hnull in Etl).
  unfold destructor. rewrite bind_run, Hcl.
  rewrite bind_run. unfold clear_table.
  rewrite bind_run. erewrite load_map_run by exact Em. rewrite Et.
  erewrite store_map_run by exact Em. cbn [nodes maps brk].
  rewrite bind_run. erewrite load_map_run by (cbn; apply lookup_insert_eq).
  rewrite bind_run. cbn [head tail with_table].
  unfold delete_node at 1. rewrite decide_False by done. cbn [nodes maps brk].
  rewrite lookup_insert_ne, lookup_insert_eq by done.
  rewrite bind_run. erewrite load_map_run by (cbn; apply lookup_insert_eq).
  rewrite bind_run. cbn [head tail with_table].
  unfold delete_node at 1. rewrite decide_False by done. cbn [nodes maps brk].
  rewrite lookup_delete_ne, lookup_insert_eq by done.
  unfold delete_map. cbn [nodes maps brk]. rewrite lookup_insert_eq.
  f_equal. f_equal.
  - apply map_eq. intros a. rewrite lookup_delete_all.
    unfold footprint, nodes_of.
    destruct (decide (a = tail m)) as [->|Hat].
    { rewrite lookup_delete_eq. rewrite decide_True; [done|].
      rewrite elem_of_cons, elem_of_app, list_elem_of_singleton. tauto. }
    rewrite lookup_delete_ne by done.
    destruct (decide (a = head m)) as [->|Hah].
    { rewrite lookup_delete_eq. rewrite decide_True; [done|]. apply list_elem_of_here. }
    rewrite lookup_delete_ne, !lookup_insert_ne by done.
    rewrite lookup_delete_all.
    destruct (decide (a ∈ l)) as [Hl|Hl].
    + rewrite decide_True; [done|].
      rewrite elem_of_cons, elem_of_app. tauto.
    + rewrite decide_False; [done|].
      rewrite elem_of_cons, elem_of_app, list_elem_of_singleton. tauto.
  - apply delete_insert_eq.
Qed.

(** X14: the destructor frees the two sentinels and the node of every
    entry, and nothing else: every position of the container,
    [end()] included, is dead afterwards, no other node is touched, and
    the other containers keep their contents. *)
Theorem destructor_releases st this m kvs :
  reachable st → modest st →
  maps st !! this = Some m → iterate this st = Ret kvs st →
  ∃ st',
    destructor this st = Ret () st' ∧
    maps st' = delete this (maps st) ∧ brk st' = brk st ∧
    size (nodes st') + length kvs + 2 = size (nodes st) ∧
    (∀ a nd, nodes st' !! a = Some nd → nodes st !! a = Some nd) ∧
    (∀ i it, i ≤ length kvs → locate (nth_position this i) st = Ret it st →
             nodes st' !! it_node it = None) ∧
    nodes st' !! head m = None ∧
    (∀ other kvo, other ≠ this → iterate other st = Ret kvo st →
                  iterate other st' = Ret kvo st' ∧ all_found st' other kvo).
Proof.
  intros Hreach Hmod Em Hit.
  destruct (reachable_Inv _ Hreach Hmod) as [Hal [own Hown]].
  destruct (owns_holds _ _ _ _ Hal Hown Hit) as (m0 & l & Em0 & Eo & Hrep & _).
  rewrite Em in Em0. injection Em0 as <-.
  pose proof (null_dead _ Hal) as Hnull.
  pose proof (rep_dll _ _ _ _ Hrep) as Hd.
  pose proof Hd as (Hnd & _).
  eexists. split; [by eapply destructor_run|]. cbn [nodes maps brk].
  split_and!; try done.
  - pose proof (size_delete_all (footprint m l) (nodes st) Hnd) as Hsz.
    rewrite <- Hsz by (intros a Ha; by eapply dll_live).
    unfold footprint, nodes_of. cbn [length]. rewrite length_app. cbn [length].
    rewrite (rep_length _ _ _ _ Hrep). lia.
  - intros a nd. rewrite lookup_delete_all. by case_decide.
  - intros i it Hi Hloc.
    destruct (locate_nth _ _ _ _ _ i Em Hd Hnull) as (a & Ha & Hloc').
    { by rewrite <- (rep_length _ _ _ _ Hrep). }
    rewrite Hloc' in Hloc. injection Hloc as <-. cbn [it_node].
    rewrite lookup_delete_all, decide_True; [done|].
    by eapply list_elem_of_lookup_2.
  - rewrite lookup_delete_all, decide_True; [done|]. apply list_elem_of_here.
  - intros other kvo Hne Hio.
    destruct (owns_holds _ _ _ _ Hal Hown Hio) as (mo & lo & Emo & Eoo & Hrepo & _).
    assert (rep (delete_all (footprint m l) (nodes st)) mo lo kvo) as Hrepo'.
    { eapply rep_frame; [|exact Hrepo]. intros a Ha.
      rewrite lookup_delete_all, decide_False; [done|]. intros Hin.
      by apply (owns_sep _ _ Hown this other m mo l lo kvs kvo (not_eq_sym Hne)
                  Em Emo Eo Eoo a). }
    set (st' := mkStore (delete_all (footprint m l) (nodes st))
                        (delete this (maps st)) (brk st)).
    assert (maps st' !! other = Some mo) as Emo'.
    { unfold st'. cbn [maps]. by rewrite lookup_delete_ne. }
    assert (nodes st' !! null = None) as Hnull'.
    { unfold st'. cbn [nodes]. rewrite lookup_delete_all. by case_decide. }
    split.
    + by eapply iterate_run; [..|apply Hrepo'].
    + by eapply rep_all_found.
Qed.

(** *** Calls on live objects are defined *)

Lemma locate_defined st own c :
  alloc_ok st → owns st own → cursor_live st c → locate c st ≠ Undef.
Proof.
  intros Hal Hown. pose proof (null_dead _ Hal) as Hnull.
  induction c as [|this|this|this k|c IH|c IH]; cbn [locate cursor_live].
  - done.
  - intros [m Em].
    destruct (owns_lookup _ _ _ _ Hown Em) as (l & kvs & Eo & Hrep & _).
    by rewrite (begin_run _ _ _ _ _ Em (rep_dll _ _ _ _ Hrep)).
  - intros [m Em]. by rewrite (end_run _ _ _ Em).
  - intros [m Em].
    destruct (owns_lookup _ _ _ _ Hown Em) as (l & kvs & Eo & Hrep & _).
    by destruct (find_run _ _ _ _ _ k Hnull Em Hrep) as (r & Hloc & ->).
  - intros Hc. specialize (IH Hc). rewrite bind_run.
    pose proof (locate_run st own c Hal Hown) as Hl.
    destruct (locate c st) as [it st'| |]; [|done..].
    destruct Hl as [-> [->|(mo & lo & ko & Emo & Eo & Hin)]]; [done|].
    destruct (obtainable_index _ _ _ _ _ _ Emo Eo Hin) as (j & Hj & Hle).
    destruct (owns_rep _ _ Hown _ _ _ _ Emo Eo) as (Hrep & _).
    destruct it as [a o]. cbn [it_node it_map] in *.
    rewrite (preinc_run _ _ _ _ _ _ _ Emo (rep_dll _ _ _ _ Hrep) Hnull Hj).
    by destruct (decide (a = tail mo)).
  - intros Hc. specialize (IH Hc). rewrite bind_run.
    pose proof (locate_run st own c Hal Hown) as Hl.
    destruct (locate c st) as [it st'| |]; [|done..].
    destruct Hl as [-> [->|(mo & lo & ko & Emo & Eo & Hin)]]; [done|].
    destruct (obtainable_index _ _ _ _ _ _ Emo Eo Hin) as (j & Hj & Hle).
    destruct (owns_rep _ _ Hown _ _ _ _ Emo Eo) as (Hrep & _).
    destruct it as [a o]. cbn [it_node it_map] in *.
    rewrite (predec_run _ _ _ _ _ _ _ Emo (rep_dll _ _ _ _ Hrep) Hnull Hj).
    by destruct j.
Qed.

Lemma erase_defined st own this m it :
  alloc_ok st → owns st own → maps st !! this = Some m → obtainable st own it →
  erase this it st ≠ Undef.
Proof.
  intros Hal Hown Em Hit.
  destruct (decide (it_map it = this)) as [Hthis|Hne].
  2:{ unfold erase. by destruct (decide (it_map it ≠ this)). }
  destruct Hit as [->|(mo & lo & ko & Emo & Eo & Hin)].
  { rewrite (erase_invalid _ _ m); [done..|]. cbn. tauto. }
  rewrite Hthis in Emo, Eo. rewrite Em in Emo. injection Emo as <-.
  rewrite elem_of_app, list_elem_of_singleton in Hin. destruct Hin as [Hin|Htl].
  - apply list_elem_of_split in Hin as (l1 & l2 & ->).
    destruct (owns_rep _ _ Hown _ _ _ _ Em Eo) as (Hrep & Hload & Htight).
    destruct (erase_valid _ _ _ _ _ _ _ Hal Em Hrep Hload Htight)
      as (st' & m' & k1 & kv & k2 & -> & _ & Hrun & _).
    destruct it as [a o]. cbn [it_node it_map] in *. subst o. by rewrite Hrun.
  - rewrite (erase_invalid _ _ m); [done|done|tauto].
Qed.

(** X15: on a store reached by calls in which no allocation failed, a
    call whose operands are alive has no undefined behaviour: it
    dereferences no null or dangling pointer, takes no remainder by an
    empty table, and its walks over the order list end. *)
Theorem calls_are_defined st c :
  reachable st → modest st → call_ok st c → exec c st ≠ Undef.
Proof.
  intros Hreach Hmod Hok.
  destruct (reachable_Inv _ Hreach Hmod) as [Hal [own Hown]].
  pose proof (null_dead _ Hal) as Hnull.
  destruct c as [|other|this other|this kv|this pos|this|this k|r v];
    cbn [exec call_ok] in *.
  - by rewrite bind_run, construct_run.
  - destruct Hok as [mo Emo].
    destruct (owns_lookup _ _ _ _ Hown Emo) as (lo & ko & Eoo & _).
    destruct (construct_copy_run _ _ _ _ _ _ Hal Hown Emo Eoo Hmod)
      as (st1 & m1 & l1 & Hrun & _).
    by rewrite bind_run, (load_map_run _ _ _ Emo), bind_run, Hrun.
  - destruct Hok as [[m Em] [mo Emo]].
    rewrite bind_run, (load_map_run _ _ _ Emo), bind_run.
    destruct (decide (this = other)) as [->|Hne].
    { unfold assign. by rewrite decide_True. }
    destruct (owns_lookup _ _ _ _ Hown Emo) as (lo & ko & Eoo & _).
    destruct (assign_run _ _ _ _ _ _ _ _ Hal Hown Hne Em Emo Eoo Hmod)
      as (st1 & m1 & l1 & Hrun & _).
    by rewrite Hrun.
  - destruct Hok as [m Em]. rewrite bind_run.
    destruct (owns_lookup _ _ _ _ Hown Em) as (l & kvs & Eo & Hrep & Hload & Htight).
    destruct (decide (kv.1 ∈ kvs.*1)) as [Hin|Hout].
    + apply list_elem_of_fmap in Hin as ([k v] & Hk & Hin). cbn in Hk. subst k.
      apply list_elem_of_lookup in Hin as [i Hi].
      by destruct (insert_existing _ _ _ _ _ kv i v Hnull Em Hrep Hi) as (r & _ & ->).
    + by destruct (insert_new _ _ _ _ _ kv Hal Em Hrep Hload Htight
                     (modest_48 _ Hmod) Hout) as (st1 & m1 & -> & _).
  - destruct Hok as [[m Em] Hpos]. rewrite bind_run.
    pose proof (locate_defined st own pos Hal Hown Hpos) as Hd.
    pose proof (locate_run st own pos Hal Hown) as Hl.
    destruct (locate pos st) as [it st1|e st1|]; [|done..].
    destruct Hl as [-> Hob]. by eapply erase_defined.
  - destruct Hok as [m Em].
    destruct (owns_lookup _ _ _ _ Hown Em) as (l & kvs & Eo & Hrep & Hload & Htight).
    by destruct (clear_run _ _ _ _ _ Hal Em Hrep Hload Htight) as (st1 & -> & _).
  - destruct Hok as [m Em]. rewrite bind_run.
    destruct (owns_lookup _ _ _ _ Hown Em) as (l & kvs & Eo & Hrep & Hload & Htight).
    destruct (decide (k ∈ kvs.*1)) as [Hin|Hout].
    + apply elem_lookup_pair in Hin as (i & v & Hi).
      by destruct (index_mut_present _ _ _ _ _ _ _ _ Hnull Em Hrep Hi) as (r & _ & ->).
    + destruct (insert_new _ _ _ _ _ (k, T_default) Hal Em Hrep Hload Htight
                  (modest_48 _ Hmod) Hout) as (st1 & m1 & Hins & _).
      by rewrite (index_mut_absent _ _ _ _ _ _ _ _ Hnull Em Hrep Hout Hins).
  - destruct Hok as (this & k & Hat).
    destruct (maps st !! this) as [m|] eqn:Em.
    2:{ unfold at_ in Hat. by rewrite bind_run, find_node_dead in Hat. }
    destruct (owns_lookup _ _ _ _ Hown Em) as (l & kvs & Eo & Hrep & _).
    pose proof (at_inside _ _ _ _ _ _ _ Hnull Em Hrep Hat) as Hin.
    apply list_elem_of_lookup in Hin as [i Hi].
    destruct (dll_entry _ _ _ _ _ _ _ (rep_dll _ _ _ _ Hrep) Hi) as ([k' v0] & Hkv & _).
    by destruct (write_ref_at _ _ _ _ _ _ _ _ _ _ v Hal Hown Em Eo Hi Hkv)
      as (st2 & -> & _).
Qed.

(** X16: on a reachable store, every query of a live container is
    defined: the traversal ends, the lookups return or throw, and every
    position built from the accessors and the two movements is defined. *)
Theorem queries_are_defined st this :
  reachable st → modest st → is_Some (maps st !! this) →
  (∃ kvs, iterate this st = Ret kvs st) ∧
  (∃ n, size_ this st = Ret n st) ∧
  (∃ e, empty_ this st = Ret e st) ∧
  (∀ k, (∃ it, find this k st = Ret it st) ∧
        (∃ it, find_const this k st = Ret it st) ∧
        (∃ n, count this k st = Ret n st) ∧
        at_ this k st ≠ Undef ∧ index_const this k st ≠ Undef) ∧
  (∀ c, cursor_live st c → locate c st ≠ Undef).
Proof.
  intros Hreach Hmod [m Em].
  destruct (reachable_Inv _ Hreach Hmod) as [Hal [own Hown]].
  pose proof (null_dead _ Hal) as Hnull.
  destruct (owns_lookup _ _ _ _ Hown Em) as (l & kvs & Eo & Hrep & _).
  split_and!.
  - exists kvs. by eapply iterate_run; [..|apply Hrep].
  - unfold size_. rewrite bind_run, (load_map_run _ _ _ Em). by eexists.
  - unfold empty_. rewrite bind_run, (load_map_run _ _ _ Em). by eexists.
  - intros k. destruct (find_node_run _ _ _ _ _ k Hnull Em Hrep) as (r & Hf & _).
    unfold find, find_const, count, at_, index_const, end_, cend.
    rewrite !bind_run, Hf.
    split_and!.
    + destruct (decide (r ≠ null)); [by eexists|].
      rewrite bind_run, (load_map_run _ _ _ Em). by eexists.
    + destruct (decide (r ≠ null)); [by eexists|].
      rewrite bind_run, (load_map_run _ _ _ Em). by eexists.
    + by eexists.
    + by destruct (decide (r = null)).
    + by destruct (decide (r = null)).
  - intros c. by apply (locate_defined st own).
Qed.

(** *** What no operation changes *)

Lemma settled_refl st : settled st st.
Proof.
  split_and!; [lia| |].
  - intros a nd' _ E. by exists nd'.
  - intros o _. destruct (maps st !! o) as [m|]; [by exists m|done].
Qed.

Lemma settled_trans st1 st2 st3 : settled st1 st2 → settled st2 st3 → settled st1 st3.
Proof.
  intros (Hb1 & Hn1 & Hm1) (Hb2 & Hn2 & Hm2). split_and!; [lia| |].
  - intros a nd3 Ha E3. destruct (Hn2 a nd3) as (nd2 & E2 & Hd2); [lia|done|].
    destruct (Hn1 a nd2 Ha E2) as (nd1 & E1 & Hd1). exists nd1. split; [done|tauto].
  - intros o Ho. specialize (Hm1 o Ho). specialize (Hm2 o ltac:(lia)).
    destruct (maps st1 !! o) as [m1|].
    + destruct Hm1 as (m2 & E2 & Hh & Ht). rewrite E2 in Hm2.
      destruct Hm2 as (m3 & E3 & Hh3 & Ht3). exists m3. split_and!; congruence.
    + by rewrite Hm1 in Hm2.
Qed.

Lemma settled_maps st h' (n : N) :
  (brk st ≤ n)%N →
  (∀ a nd', (a < brk st)%N → h' !! a = Some nd' →
            ∃ nd, nodes st !! a = Some nd ∧ (data nd' = None ↔ data nd = None)) →
  settled st (mkStore h' (maps st) n).
Proof.
  intros Hb Hn. split_and!; cbn [nodes maps brk]; [done..|].
  intros o _. destruct (maps st !! o) as [m|]; [by exists m|done].
Qed.

Lemma settled_nodes st this m m' :
  maps st !! this = Some m → head m' = head m → tail m' = tail m →
  settled st (mkStore (nodes st) (<[this := m']> (maps st)) (brk st)).
Proof.
  intros Em Hh Ht. split_and!; cbn [nodes maps brk]; [lia| |].
  - intros a nd' _ E. by exists nd'.
  - intros o _. destruct (decide (o = this)) as [->|Hne].
    + rewrite Em, lookup_insert_eq. by exists m'.
    + rewrite lookup_insert_ne by done.
      destruct (maps st !! o) as [mo|]; [by exists mo|done].
Qed.

Lemma stable_ret {A} (x : A) : stable (mret x).
Proof. intros st. apply settled_refl. Qed.

Lemma stable_throw {A} e : stable (throw e : M A).
Proof. intros st. apply settled_refl. Qed.

Lemma stable_undef {A} : stable (undef : M A).
Proof. by intros st. Qed.

Lemma stable_bind {A B} (c : M A) (k : A → M B) :
  stable c → (∀ x, stable (k x)) → stable (c ≫= k).
Proof.
  intros Hc Hk st. rewrite bind_run. specialize (Hc st).
  destruct (c st) as [x st1|e st1|]; [|done..].
  specialize (Hk x st1). destruct (k x st1); [| |done]; by eapply settled_trans.
Qed.

Lemma stable_load_node a : stable (load_node a).
Proof. intros st. unfold load_node. destruct (nodes st !! a); [apply settled_refl|done]. Qed.

Lemma stable_load_map a : stable (load_map a).
Proof. intros st. unfold load_map. destruct (maps st !! a); [apply settled_refl|done]. Qed.

Lemma stable_live_nodes : stable live_nodes.
Proof. intros st. apply settled_refl. Qed.

Lemma stable_new_node nd : stable (new_node nd).
Proof.
  intros st. unfold new_node. apply settled_maps; [lia|].
  intros a nd' Ha. rewrite lookup_insert_ne by lia. intros E. by exists nd'.
Qed.

Lemma stable_delete_node a : stable (delete_node a).
Proof.
  intros st. unfold delete_node. destruct (decide (a = null)); [apply settled_refl|].
  destruct (nodes st !! a); [|done]. apply settled_maps; [lia|].
  intros x nd' _ E. destruct (decide (x = a)) as [->|Hne].
  - by rewrite lookup_delete_eq in E.
  - rewrite lookup_delete_ne in E by done. by exists nd'.
Qed.

Lemma stable_set_prev a v : stable (set_prev a v).
Proof.
  intros st. unfold set_prev, load_node, store_node. rewrite bind_run.
  destruct (nodes st !! a) as [nd|] eqn:E; [|done]. cbn [nodes]. rewrite E.
  apply settled_maps; [lia|].
  intros x nd' _ E'. destruct (decide (x = a)) as [->|Hne].
  - rewrite lookup_insert_eq in E'. injection E' as <-. by exists nd.
  - rewrite lookup_insert_ne in E' by done. by exists nd'.
Qed.

Lemma stable_set_next a v : stable (set_next a v).
Proof.
  intros st. unfold set_next, load_node, store_node. rewrite bind_run.
  destruct (nodes st !! a) as [nd|] eqn:E; [|done]. cbn [nodes]. rewrite E.
  apply settled_maps; [lia|].
  intros x nd' _ E'. destruct (decide (x = a)) as [->|Hne].
  - rewrite lookup_insert_eq in E'. injection E' as <-. by exists nd.
  - rewrite lookup_insert_ne in E' by done. by exists nd'.
Qed.

Lemma stable_write_ref r (v : T) : stable (write_ref r v).
Proof.
  intros st. unfold write_ref, load_node, store_node. rewrite bind_run.
  destruct (nodes st !! r) as [nd|] eqn:E; [|done].
  destruct (data nd) as [d|] eqn:Ed; [|done]. cbn [nodes]. rewrite E.
  apply settled_maps; [lia|].
  intros x nd' _ E'. destruct (decide (x = r)) as [->|Hne].
  - rewrite lookup_insert_eq in E'. injection E' as <-. exists nd.
    split; [done|]. cbn. by rewrite Ed.
  - rewrite lookup_insert_ne in E' by done. by exists nd'.
Qed.

(** A container object is only ever updated in place, by a function
    that keeps the sentinels. *)
Lemma stable_update this (f : Map → Map) :
  (∀ m, head (f m) = head m ∧ tail (f m) = tail m) →
  stable (m ← load_map this; store_map this (f m)).
Proof.
  intros Hf st. rewrite bind_run. unfold load_map, store_map.
  destruct (maps st !! this) as [m|] eqn:Em; [|done]. cbn [maps]. rewrite Em.
  destruct (Hf m). by apply (settled_nodes st this m).
Qed.

Lemma stable_update_then {B} this (f : Map → Map) (k : Map → M B) :
  (∀ m, head (f m) = head m ∧ tail (f m) = tail m) →
  (∀ m, stable (k m)) →
  stable (m ← load_map this; store_map this (f m);; k m).
Proof.
  intros Hf Hk st. rewrite bind_run. unfold load_map.
  destruct (maps st !! this) as [m|] eqn:Em; [|done].
  rewrite bind_run. unfold store_map. rewrite Em.
  specialize (Hk m (mkStore (nodes st) (<[this := f m]> (maps st)) (brk st))).
  destruct (Hf m).
  destruct (k m _); [| |done];
    (eapply settled_trans; [by apply (settled_nodes st this m)|done]).
Qed.

#[local] Hint Resolve stable_load_node stable_load_map stable_live_nodes stable_new_node
  stable_delete_node stable_set_prev stable_set_next stable_write_ref : stable.

Ltac stable_go :=
  repeat first
    [ apply stable_ret | apply stable_throw | apply stable_undef
    | solve [auto with stable]
    | apply stable_update; solve [by intros []]
    | apply stable_update_then; [solve [by intros []]|intros ?]
    | apply stable_bind; [|intros ?]
    | match goal with |- stable (match ?x with _ => _ end) => destruct x end ].

Lemma stable_load_data a : stable (load_data a).
Proof. unfold load_data. stable_go. Qed.
Lemma stable_bucket_of (k : Key) n : stable (bucket_of k n).
Proof. unfold bucket_of. stable_go. Qed.
#[local] Hint Resolve stable_load_data stable_bucket_of : stable.

Lemma stable_get_bucket_index this (k : Key) : stable (get_bucket_index this k).
Proof. unfold get_bucket_index. stable_go. Qed.
Lemma stable_read_bucket this i : stable (read_bucket this i).
Proof. unfold read_bucket. stable_go. Qed.
Lemma stable_push_bucket tb i a : stable (push_bucket tb i a).
Proof. unfold push_bucket. stable_go. Qed.

Lemma stable_write_bucket this i b : stable (write_bucket this i b).
Proof.
  intros st. unfold write_bucket. rewrite bind_run. unfold load_map.
  destruct (maps st !! this) as [m|] eqn:Em; [|done].
  destruct (table m) as [tb|]; [|done]. case_decide; [|done].
  unfold store_map. rewrite Em. by apply (settled_nodes st this m).
Qed.

Lemma stable_init_table this n : stable (init_table this n).
Proof. unfold init_table. stable_go. Qed.

Lemma stable_clear_table this : stable (clear_table this).
Proof.
  intros st. unfold clear_table. rewrite bind_run. unfold load_map.
  destruct (maps st !! this) as [m|] eqn:Em; [|done].
  destruct (table m) as [tb|]; [|apply settled_refl].
  unfold store_map. rewrite Em. by apply (settled_nodes st this m).
Qed.

#[local] Hint Resolve stable_get_bucket_index stable_read_bucket stable_push_bucket
  stable_write_bucket stable_init_table stable_clear_table : stable.

Lemma stable_clear_list_loop fuel this a : stable (clear_list_loop fuel this a).
Proof. revert a. induction fuel; intros a; cbn [clear_list_loop]; stable_go. Qed.
#[local] Hint Resolve stable_clear_list_loop : stable.

Lemma stable_clear_list this : stable (clear_list this).
Proof. unfold clear_list. stable_go. Qed.
Lemma stable_rehash_loop fuel this n a tb : stable (rehash_loop fuel this n a tb).
Proof. revert a tb. induction fuel; intros a tb; cbn [rehash_loop]; stable_go. Qed.
#[local] Hint Resolve stable_clear_list stable_rehash_loop : stable.

Lemma stable_rehash this : stable (rehash this).
Proof. unfold rehash. stable_go. Qed.
Lemma stable_scan_chain (k : Key) b : stable (scan_chain k b).
Proof. induction b; cbn [scan_chain]; stable_go. Qed.
#[local] Hint Resolve stable_rehash stable_scan_chain : stable.

Lemma stable_find_node this (k : Key) : stable (find_node this k).
Proof. unfold find_node. stable_go. Qed.
Lemma stable_insert_to_list this a : stable (insert_to_list this a).
Proof. unfold insert_to_list. stable_go. Qed.
Lemma stable_remove_from_list a : stable (remove_from_list a).
Proof. unfold remove_from_list. stable_go. Qed.
Lemma stable_insert_to_table this a : stable (insert_to_table this a).
Proof. unfold insert_to_table. stable_go. Qed.
Lemma stable_unlink_chain (k : Key) b : stable (unlink_chain k b).
Proof. induction b; cbn [unlink_chain]; stable_go. Qed.
#[local] Hint Resolve stable_find_node stable_insert_to_list stable_remove_from_list
  stable_insert_to_table stable_unlink_chain : stable.

Lemma stable_remove_from_table this (k : Key) : stable (remove_from_table this k).
Proof. unfold remove_from_table. stable_go. Qed.
#[local] Hint Resolve stable_remove_from_table : stable.

Lemma stable_iterator_preinc it : stable (iterator_preinc it).
Proof. unfold iterator_preinc. stable_go. Qed.
Lemma stable_iterator_predec it : stable (iterator_predec it).
Proof. unfold iterator_predec. stable_go. Qed.
Lemma stable_begin this : stable (begin_ this).
Proof. unfold begin_. stable_go. Qed.
Lemma stable_end this : stable (end_ this).
Proof. unfold end_. stable_go. Qed.
#[local] Hint Resolve stable_iterator_preinc stable_iterator_predec stable_begin stable_end
  : stable.

Lemma stable_find this (k : Key) : stable (find this k).
Proof. unfold find. stable_go. Qed.
Lemma stable_insert this kv : stable (insert this kv).
Proof. unfold insert. stable_go. Qed.
Lemma stable_erase this it : stable (erase this it).
Proof. unfold erase. stable_go. Qed.
Lemma stable_clear_buckets n this i : stable (clear_buckets n this i).
Proof. revert i. induction n; intros i; cbn [clear_buckets]; stable_go. Qed.
#[local] Hint Resolve stable_find stable_insert stable_erase stable_clear_buckets : stable.

Lemma stable_clear this : stable (clear this).
Proof. unfold clear. stable_go. Qed.
#[local] Hint Resolve stable_clear : stable.

Lemma stable_copy_loop fuel this other a : stable (copy_loop fuel this other a).
Proof. revert a. induction fuel; intros a; cbn [copy_loop]; stable_go. Qed.
#[local] Hint Resolve stable_copy_loop : stable.

Lemma stable_assign this other : stable (assign this other).
Proof. unfold assign. stable_go. Qed.
Lemma stable_index_mut this (k : Key) : stable (index_mut this k).
Proof. unfold index_mut. stable_go. Qed.
Lemma stable_insert_all this kvs : stable (insert_all this kvs).
Proof. induction kvs; cbn [insert_all]; stable_go. Qed.
Lemma stable_locate c : stable (locate c).
Proof. induction c; cbn [locate]; stable_go. Qed.
#[local] Hint Resolve stable_assign stable_index_mut stable_insert_all stable_locate : stable.
(** *** The constructors are stable too *)

Lemma settled_sentinels_built st : settled st (sentinels_built st).
Proof.
  unfold sentinels_built. split_and!; cbn [nodes maps brk]; [lia| |].
  - intros a nd' Ha. rewrite !lookup_insert_ne by lia. intros E. by exists nd'.
  - intros o Ho. rewrite lookup_insert_ne by lia.
    destruct (maps st !! o) as [m|]; [by exists m|done].
Qed.

Lemma stable_construct : stable construct.
Proof.
  intros st. rewrite construct_run.
  pose proof (stable_init_table (brk st) INITIAL_CAPACITY (sentinels_built st)) as Hi.
  rewrite built_run in Hi.
  eapply settled_trans; [apply settled_sentinels_built|exact Hi].
Qed.

Lemma stable_construct_copy other : stable (construct_copy other).
Proof.
  intros st. unfold construct_copy. rewrite sentinels_run.
  assert (stable (o ← load_map other;
                  init_table (brk st) (table_size o);;
                  o ← load_map other;
                  h ← load_node (head o);
                  fuel ← live_nodes;
                  copy_loop fuel (brk st) other (next h);;
                  mret (brk st))) as Hs.
  { repeat first [ apply stable_ret | solve [auto with stable]
                 | apply stable_bind; [|intros ?] ]. }
  specialize (Hs (sentinels_built st)).
  match type of Hs with match ?r with _ => _ end => destruct r end; [| |done];
    (eapply settled_trans; [apply settled_sentinels_built|exact Hs]).
Qed.

Lemma stable_exec c : stable (exec c).
Proof.
  pose proof stable_construct. pose proof stable_construct_copy.
  destruct c; cbn [exec];
    repeat first [ apply stable_ret | assumption
                 | match goal with H : ∀ _, stable _ |- _ => apply H end
                 | solve [auto with stable]
                 | apply stable_bind; [|intros ?] ].
Qed.

Lemma step_settled c st st' : step c st = Some st' → settled st st'.
Proof.
  unfold step. pose proof (stable_exec c st) as Hs.
  destruct (exec c st); [| |done]; by intros [= <-].
Qed.

(** X17: no call invalidates [end()]: whatever a client does to any
    container, every container that exists keeps its two sentinels,
    so a past-the-end iterator taken before the call is the
    past-the-end iterator after it. *)
Theorem end_stays_valid st this m c st' :
  reachable st → modest st → maps st !! this = Some m →
  step c st = Some st' →
  ∃ m', maps st' !! this = Some m' ∧ head m' = head m ∧ tail m' = tail m ∧
        end_ this st = Ret (mkIterator (tail m) this) st ∧
        end_ this st' = Ret (mkIterator (tail m) this) st'.
Proof.
  intros Hreach Hmod Em Hs.
  destruct (reachable_Inv _ Hreach Hmod) as [Hal _].
  destruct (step_settled _ _ _ Hs) as (_ & _ & Hm).
  specialize (Hm this). rewrite Em in Hm.
  destruct Hm as (m' & Em' & Hh & Ht); [by destruct (live_map_below _ _ _ Hal Em)|].
  exists m'. split_and!; try done.
  - by apply end_run.
  - rewrite <- Ht. by apply end_run.
Qed.

(** *** No node outside the containers *)

Lemma tidy_update st st' own this F m' l' kvs' :
  tidy st own → updated st st' this F m' l' kvs' →
  (∀ m l kvs a, maps st !! this = Some m → own !! this = Some (l, kvs) →
                a ∈ footprint m l → a ∈ F) →
  (∀ a, a ∈ F ∨ (brk st ≤ a)%N → is_Some (nodes st' !! a) → a ∈ footprint m' l') →
  tidy st' (<[this := (l', kvs')]> own).
Proof.
  intros Htidy Hupd Hcover Hnew a Ha.
  destruct (decide (a ∈ F ∨ (brk st ≤ a)%N)) as [Hin|Hout].
  - exists this, m', l', kvs'. split_and!.
    + by eapply updated_lookup.
    + apply lookup_insert_eq.
    + by apply Hnew.
  - rewrite (upd_frame _ _ _ _ _ _ _ Hupd) in Ha by (try lia; tauto).
    destruct (Htidy a Ha) as (o & mo & lo & ko & Emo & Eo & Hfp).
    assert (o ≠ this) as Hne.
    { intros ->. destruct Hout. left. by eapply Hcover. }
    exists o, mo, lo, ko. split_and!; [|by rewrite lookup_insert_ne|done].
    rewrite (upd_maps _ _ _ _ _ _ _ Hupd). by rewrite lookup_insert_ne.
Qed.

Lemma plain_update st st' own this F m' l' kvs' :
  alloc_ok st → owns st own → plain st → updated st st' this F m' l' kvs' →
  (∀ o mo lo ko, o ≠ this → maps st !! o = Some mo → own !! o = Some (lo, ko) →
                 ∀ x, x ∈ footprint mo lo → x ∉ F) →
  (∀ nd, nodes st' !! head m' = Some nd ∨ nodes st' !! tail m' = Some nd →
         data nd = None) →
  plain st'.
Proof.
  intros Hal Hown Hplain Hupd Hdis Hthis o mo nd Emo Hnd.
  rewrite (upd_maps _ _ _ _ _ _ _ Hupd) in Emo.
  destruct (decide (o = this)) as [->|Hne].
  - rewrite lookup_insert_eq in Emo. injection Emo as <-. by apply Hthis.
  - rewrite lookup_insert_ne in Emo by done.
    destruct (owns_lookup _ _ _ _ Hown Emo) as (lo & ko & Eo & Hrep & _).
    assert (∀ x, x ∈ footprint mo lo → nodes st' !! x = nodes st !! x) as Hfr.
    { intros x Hx. apply (upd_frame _ _ _ _ _ _ _ Hupd).
      - by destruct (rep_live _ _ _ _ _ Hal Hrep Hx).
      - by eapply Hdis. }
    apply (Hplain o mo nd Emo).
    unfold footprint, nodes_of in Hfr.
    rewrite <- !Hfr; [done| |apply list_elem_of_here].
    rewrite elem_of_cons, elem_of_app, list_elem_of_singleton. tauto.
Qed.

Lemma owns_disjoint st own this m l kvs :
  owns st own → maps st !! this = Some m → own !! this = Some (l, kvs) →
  ∀ o mo lo ko, o ≠ this → maps st !! o = Some mo → own !! o = Some (lo, ko) →
                ∀ x, x ∈ footprint mo lo → x ∉ footprint m l.
Proof.
  intros Hown Em Eo o mo lo ko Hne Emo Eoo x Hx Hx'.
  by apply (owns_sep _ _ Hown o this mo m lo l ko kvs Hne Emo Em Eoo Eo x).
Qed.

Lemma settled_sentinels st st' own this m l kvs m' :
  alloc_ok st → plain st → rep (nodes st) m l kvs →
  settled st st' → maps st !! this = Some m → maps st' !! this = Some m' →
  head m' = head m ∧ tail m' = tail m ∧
  ∀ nd, nodes st' !! head m' = Some nd ∨ nodes st' !! tail m' = Some nd →
        data nd = None.
Proof.
  intros Hal Hplain Hrep (_ & Hn & Hm) Em Em'.
  specialize (Hm this). rewrite Em in Hm.
  destruct Hm as (m'' & Em'' & Hh & Ht); [by destruct (live_map_below _ _ _ Hal Em)|].
  rewrite Em' in Em''. injection Em'' as <-. split_and!; [done..|].
  intros nd. rewrite Hh, Ht. intros [E|E].
  - destruct (Hn (head m) nd) as (nd0 & E0 & Hd); [|done|].
    { eapply rep_live; [done..|]. apply list_elem_of_here. }
    apply Hd. eapply Hplain; [exact Em|by left].
  - destruct (Hn (tail m) nd) as (nd0 & E0 & Hd); [|done|].
    { eapply rep_live; [done..|]. unfold footprint, nodes_of.
      rewrite elem_of_cons, elem_of_app, list_elem_of_singleton. tauto. }
    apply Hd. eapply Hplain; [exact Em|by right].
Qed.

(** One mutation of a live container, with the facts that keep the
    store neat. *)
Lemma neat_update st st' own this m l kvs m' l' kvs' :
  neat st own → maps st !! this = Some m → own !! this = Some (l, kvs) →
  updated st st' this (footprint m l) m' l' kvs' → settled st st' →
  (head m' = head m → tail m' = tail m →
   ∀ a, a ∈ footprint m l ∨ (brk st ≤ a)%N → is_Some (nodes st' !! a) →
        a ∈ footprint m' l') →
  neat st' (<[this := (l', kvs')]> own).
Proof.
  intros (Hal & Hown & Htidy & Hplain) Em Eo Hupd Hset Hnew.
  destruct (owns_rep _ _ Hown _ _ _ _ Em Eo) as (Hrep & _).
  destruct (settled_sentinels _ _ own _ _ _ _ _ Hal Hplain Hrep Hset Em
              (updated_lookup _ _ _ _ _ _ _ Hupd)) as (Hh & Ht & Hdata).
  split_and!.
  - apply (upd_alloc _ _ _ _ _ _ _ Hupd).
  - by eapply owns_update_live.
  - eapply tidy_update; [done|done| |by apply Hnew].
    intros m0 l0 kvs0 a Em0 Eo0. rewrite Em in Em0. rewrite Eo in Eo0.
    by simplify_eq.
  - eapply plain_update; [done..| |done]. by eapply owns_disjoint.
Qed.

Lemma in_footprint a m l :
  a ∈ footprint m l ↔ a = head m ∨ a ∈ l ∨ a = tail m.
Proof.
  unfold footprint, nodes_of.
  by rewrite elem_of_cons, elem_of_app, list_elem_of_singleton.
Qed.

Lemma insert_neat st own this kv :
  neat st own → is_Some (maps st !! this) → (brk st < 2 ^ 48)%N →
  ∃ r st' own',
    insert this kv st = Ret r st' ∧ neat st' own' ∧
    is_Some (maps st' !! this) ∧ (brk st' ≤ brk st + 1)%N.
Proof.
  intros Hneat [m Em] Hb. pose proof Hneat as (Hal & Hown & Htidy & Hplain).
  pose proof (null_dead _ Hal) as Hnull.
  destruct (owns_lookup _ _ _ _ Hown Em) as (l & kvs & Eo & Hrep & Hload & Htight).
  destruct (decide (kv.1 ∈ kvs.*1)) as [Hin|Hout].
  - apply list_elem_of_fmap in Hin as ([k v] & Hk & Hin). cbn in Hk. subst k.
    apply list_elem_of_lookup in Hin as [i Hi].
    destruct (insert_existing _ _ _ _ _ kv i v Hnull Em Hrep Hi) as (r & _ & Hins).
    eexists _, st, own. split_and!; [done..|by eexists|lia].
  - destruct (insert_new _ _ _ _ _ kv Hal Em Hrep Hload Htight Hb Hout)
      as (st' & m' & Hins & Hupd & Hbrk & _).
    pose proof (stable_insert this kv st) as Hset. rewrite Hins in Hset.
    eexists _, st', _. split_and!; [done| |by erewrite updated_lookup|lia].
    eapply neat_update; [done..|].
    intros Hh Ht a Ha Hlive. rewrite in_footprint, Hh, Ht, elem_of_app.
    destruct Ha as [Ha|Ha].
    + apply in_footprint in Ha. tauto.
    + destruct (upd_alloc _ _ _ _ _ _ _ Hupd) as (_ & Hn & _).
      specialize (Hn a Hlive). right. left. right.
      apply list_elem_of_singleton. lia.
Qed.

Lemma insert_all_neat this new : ∀ st own,
  neat st own → is_Some (maps st !! this) →
  (brk st + N.of_nat (length new) < 2 ^ 48)%N →
  ∃ st' own', insert_all this new st = Ret () st' ∧ neat st' own'.
Proof.
  induction new as [|kv new IH]; intros st own Hneat Hlive Hb.
  - by exists st, own.
  - destruct (insert_neat st own this kv Hneat Hlive)
      as (r & st1 & own1 & Hins & Hneat1 & Hlive1 & Hb1); [cbn [length] in Hb; lia|].
    destruct (IH st1 own1 Hneat1 Hlive1) as (st' & own' & Hrun & Hneat').
    { cbn [length] in Hb. lia. }
    exists st', own'. split; [|done]. cbn [insert_all]. by rewrite bind_run, Hins.
Qed.

(** The store after the sentinels and the table of a new container. *)
Lemma built_neat st own size :
  neat st own → (0 < size < 2 ^ 64)%N → (4 | size)%N →
  (3 * size ≤ N.max 48 (8 * (brk st + 3)))%N →
  neat (built st size) (<[brk st := ([], [])]> own).
Proof.
  intros (Hal & Hown & Htidy & Hplain) Hsize Hdiv Ht.
  pose proof (built_updated st size Hal Hsize Hdiv Ht) as Hupd.
  assert (∀ o mo lo ko, o ≠ brk st → maps st !! o = Some mo →
            own !! o = Some (lo, ko) → ∀ x, x ∈ footprint mo lo → x ∉ [])
    as Hdis.
  { intros ???? _ _ _ x _. apply not_elem_of_nil. }
  assert (maps st !! brk st = None) as Efresh.
  { destruct (maps st !! brk st) eqn:E; [|done].
    destruct (live_map_below _ _ _ Hal E). lia. }
  split_and!.
  - apply (upd_alloc _ _ _ _ _ _ _ Hupd).
  - eapply owns_update; [exact Hal|exact Hown|exact Hdis|exact Hupd].
  - eapply tidy_update; [done|exact Hupd| |].
    + intros m l kvs a Em. by rewrite Efresh in Em.
    + intros a [Ha|Ha] [nd Hlive]; [by apply elem_of_nil in Ha|].
      unfold built in Hlive. cbn [nodes] in Hlive.
      rewrite in_footprint. cbn [head tail].
      rewrite !lookup_insert in Hlive. repeat case_decide; subst; try tauto.
      destruct Hal as (_ & Hn & _). destruct (Hn a); [by eexists|]. lia.
  - eapply plain_update; [done..|].
    intros nd. unfold built. cbn [nodes head tail].
    rewrite lookup_insert_ne, !lookup_insert_eq by lia.
    by intros [[= <-]|[= <-]].
Qed.

Lemma erase_neat st own this it :
  neat st own → obtainable st own it →
  match erase this it st with
  | Ret _ st' => ∃ own', neat st' own'
  | Throw _ st' => st' = st
  | Undef => True
  end.
Proof.
  intros Hneat Hit. pose proof Hneat as (Hal & Hown & Htidy & Hplain).
  destruct (decide (it_map it = this)) as [Hthis|Hne].
  2:{ unfold erase. by destruct (decide (it_map it ≠ this)). }
  destruct (maps st !! this) as [m|] eqn:Em.
  2:{ unfold erase. destruct (decide (it_map it ≠ this)); [done|].
      rewrite bind_run. unfold load_map. by rewrite Em. }
  destruct Hit as [->|(mo & lo & ko & Emo & Eo & Hin)].
  { rewrite (erase_invalid _ _ m); [done..|]. cbn. tauto. }
  rewrite Hthis in Emo, Eo. rewrite Em in Emo. injection Emo as <-.
  rewrite elem_of_app, list_elem_of_singleton in Hin. destruct Hin as [Hin|Htl].
  - apply list_elem_of_split in Hin as (l1 & l2 & ->).
    destruct (owns_rep _ _ Hown _ _ _ _ Em Eo) as (Hrep & Hload & Htight).
    destruct (erase_valid _ _ _ _ _ _ _ Hal Em Hrep Hload Htight)
      as (st' & m' & k1 & kv & k2 & -> & _ & Hrun & Hupd & Hdead & _ & _ & Hbrk).
    destruct it as [a o]. cbn [it_node it_map] in *. subst o.
    pose proof (stable_erase this (mkIterator a this) st) as Hset.
    rewrite Hrun in *. eexists.
    eapply neat_update; [done..|].
    intros Hh Ht x Hx [nd Hlive]. rewrite in_footprint, Hh, Ht.
    destruct Hx as [Hx|Hx].
    + apply in_footprint in Hx. rewrite !elem_of_app, elem_of_cons in *.
      destruct (decide (x = a)) as [->|Hxa]; [by rewrite Hdead in Hlive|]. tauto.
    + destruct (upd_alloc _ _ _ _ _ _ _ Hupd) as (_ & Hn & _).
      destruct (Hn x); [by eexists|]. lia.
  - rewrite (erase_invalid _ _ m); [done|done|tauto].
Qed.

Lemma clear_neat st own this m :
  neat st own → maps st !! this = Some m →
  ∃ st', clear this st = Ret () st' ∧ neat st' (<[this := ([], [])]> own) ∧
         brk st' = brk st ∧ maps st' = <[this := cleared m]> (maps st).
Proof.
  intros Hneat Em. pose proof Hneat as (Hal & Hown & Htidy & Hplain).
  destruct (owns_lookup _ _ _ _ Hown Em) as (l & kvs & Eo & Hrep & Hload & Htight).
  destruct (clear_run _ _ _ _ _ Hal Em Hrep Hload Htight) as (st' & Hrun & Hupd & Hbrk).
  pose proof (stable_clear this st) as Hset. rewrite Hrun in Hset.
  exists st'. split_and!; [done| |done|apply (upd_maps _ _ _ _ _ _ _ Hupd)].
  eapply neat_update; [done..|].
  intros Hh Ht x Hx [nd Hlive]. rewrite in_footprint, Hh, Ht.
  destruct Hx as [Hx|Hx].
  - apply in_footprint in Hx. destruct Hx as [?|[Hx|?]]; [tauto| |tauto].
    by rewrite (clear_frees _ _ _ _ _ _ Hal Em Hrep Hrun x Hx) in Hlive.
  - destruct (upd_alloc _ _ _ _ _ _ _ Hupd) as (_ & Hn & _).
    destruct (Hn x); [by eexists|]. lia.
Qed.

Lemma write_ref_neat st own r v :
  neat st own →
  match write_ref r v st with
  | Ret _ st' => neat st' (written r v <$> own)
  | Throw _ _ => False
  | Undef => True
  end.
Proof.
  intros (Hal & Hown & Htidy & Hplain).
  pose proof (write_ref_run st own r v Hal Hown) as Hw.
  unfold write_ref in *. rewrite bind_run in *. unfold load_node in *.
  destruct (nodes st !! r) as [nd|] eqn:End; [|done].
  destruct (data nd) as [d|] eqn:Ed; [|done].
  rewrite (store_node_run _ _ _ _ End) in *.
  destruct Hw as (Hal' & Hown' & _). split_and!; [done..| |].
  - intros a [x Ha]. cbn [nodes] in Ha.
    assert (is_Some (nodes st !! a)) as Hlive.
    { destruct (decide (a = r)) as [->|Hne]; [by eexists|].
      rewrite lookup_insert_ne in Ha by done. by eexists. }
    destruct (Htidy a Hlive) as (o & mo & lo & ko & Emo & Eo & Hfp).
    exists o, mo, lo, (rewritten r v lo ko). split_and!; [done| |done].
    by rewrite lookup_fmap, Eo.
  - intros o mo x Emo. cbn [nodes maps] in *. intros Hx.
    assert (∀ a, nodes st !! a = Some nd → a = r →
                 (∀ y, nodes st !! a = Some y → data y = None) → False) as Hno.
    { intros a Ea -> Hy. specialize (Hy nd Ea). by rewrite Ed in Hy. }
    destruct (decide (head mo = r)) as [Ehr|Ehr].
    { exfalso. eapply (Hno r End eq_refl). intros y Ey. eapply Hplain; [exact Emo|].
      left. by rewrite Ehr. }
    destruct (decide (tail mo = r)) as [Etr|Etr].
    { exfalso. eapply (Hno r End eq_refl). intros y Ey. eapply Hplain; [exact Emo|].
      right. by rewrite Etr. }
    rewrite !lookup_insert_ne in Hx by done. by eapply Hplain.
Qed.

Lemma construct_copy_neat st own other mo :
  neat st own → maps st !! other = Some mo → modest st →
  ∃ st' own', construct_copy other st = Ret (brk st) st' ∧ neat st' own'.
Proof.
  intros Hneat Emo Hmod. pose proof Hneat as (Hal & Hown & Htidy & Hplain).
  destruct (owns_lookup _ _ _ _ Hown Emo) as (lo & ko & Eoo & Hrepo & [_ Hdiv] & Htight).
  destruct (construct_copy_run _ _ _ _ _ _ Hal Hown Emo Eoo Hmod)
    as (st' & m' & l' & Hrun & Hall & _).
  pose proof (modest_copy_bound _ _ _ _ Hal Hrepo Hmod) as Hbound.
  assert (neat (built st (table_size mo)) (<[brk st := ([], [])]> own)) as Hneat1.
  { apply built_neat; [done|by destruct Hrepo|done|]. unfold tight in Htight. lia. }
  destruct (insert_all_neat (brk st) ko _ _ Hneat1) as (st'' & own'' & Hall' & Hneat').
  { cbn. rewrite lookup_insert_eq. by eexists. }
  { unfold built. cbn [brk]. rewrite (rep_length _ _ _ _ Hrepo). lia. }
  rewrite Hall in Hall'. injection Hall' as <-. by exists st', own''.
Qed.

Lemma assign_neat st own this other m mo :
  neat st own → this ≠ other →
  maps st !! this = Some m → maps st !! other = Some mo → modest st →
  ∃ st' own', assign this other st = Ret this st' ∧ neat st' own'.
Proof.
  intros Hneat Hne Em Emo Hmod. pose proof Hneat as (Hal & Hown & Htidy & Hplain).
  destruct (owns_lookup _ _ _ _ Hown Em) as (l & kvs & Eo & Hrep & Hload & Htight).
  destruct (owns_lookup _ _ _ _ Hown Emo)
    as (lo & ko & Eoo & Hrepo & [Hloado Hdivo] & Htighto).
  pose proof (modest_copy_bound _ _ _ _ Hal Hrepo Hmod) as Hbound.
  destruct (assign_run _ _ _ _ _ _ _ _ Hal Hown Hne Em Emo Eoo Hmod)
    as (st' & m' & l' & Hrun & (st2 & Hprefix & Hall) & _).
  destruct (clear_run _ _ _ _ _ Hal Em Hrep Hload Htight)
    as (st1 & Hclear & Hupd1 & Hbrk1).
  pose proof (upd_maps _ _ _ _ _ _ _ Hupd1) as Hmaps1.
  set (m2 := with_table (Some (replicate (N.to_nat (table_size mo)) []))
               (with_table_size (table_size mo) (with_table None (cleared m)))).
  assert (st2 = mkStore (nodes st1) (<[this := m2]> (maps st)) (brk st1)) as Est2.
  { rewrite bind_run, Hclear in Hprefix.
    rewrite bind_run in Hprefix. unfold clear_table in Hprefix.
    rewrite bind_run in Hprefix.
    erewrite load_map_run in Hprefix by (rewrite Hmaps1; apply lookup_insert_eq).
    cbn [cleared table with_table with_element_count] in Hprefix.
    erewrite store_map_run in Hprefix by (rewrite Hmaps1; apply lookup_insert_eq).
    rewrite Hmaps1, insert_insert_eq in Hprefix.
    erewrite init_table_run in Hprefix by (cbn; apply lookup_insert_eq).
    cbn [nodes maps brk] in Hprefix. rewrite insert_insert_eq in Hprefix.
    by injection Hprefix as <-. }
  assert (updated st st2 this (footprint m l) m2 [] []) as Hupd2.
  { destruct Hupd1 as [_ Hb1 Hal1 Hfr1 Hfp1 Hrep1 Hl1 Ht1]. rewrite Est2.
    split; cbn [nodes maps brk]; try done.
    - destruct Hal1 as (? & ? & Hm1). split_and!; cbn [nodes maps brk]; [done..|].
      intros a Ha. apply Hm1. rewrite Hmaps1.
      destruct (decide (this = a)) as [<-|]; [by rewrite lookup_insert_eq|].
      by rewrite lookup_insert_ne in Ha |- * by done.
    - destruct Hrep1 as [Hd1 Hk1 Hc1 Hs1 _]. split; try done.
      + cbn. by destruct Hrepo.
      + eexists. split; [done|]. apply table_for_empty.
    - split; cbn; [lia|done].
    - unfold tight in *. cbn in *. lia. }
  assert (settled st st2) as Hset.
  { pose proof (stable_bind (clear this)
                  (λ _, clear_table this;; init_table this (table_size mo))
                  (stable_clear this)
                  (λ _, stable_bind _ _ (stable_clear_table this)
                          (λ _, stable_init_table this (table_size mo))) st) as Hs.
    by rewrite Hprefix in Hs. }
  assert (clear this st = Ret () st1) as Hclear' by done.
  assert (neat st2 (<[this := ([], [])]> own)) as Hneat2.
  { eapply neat_update; [done..|].
    intros Hh Ht x Hx [nd Hlive]. rewrite in_footprint, Hh, Ht.
    rewrite Est2 in Hlive. cbn [nodes] in Hlive.
    destruct Hx as [Hx|Hx].
    - apply in_footprint in Hx. destruct Hx as [?|[Hx|?]]; [tauto| |tauto].
      by rewrite (clear_frees _ _ _ _ _ _ Hal Em Hrep Hclear' x Hx) in Hlive.
    - destruct (upd_alloc _ _ _ _ _ _ _ Hupd1) as (_ & Hn & _).
      destruct (Hn x); [by eexists|]. lia. }
  destruct (insert_all_neat this ko _ _ Hneat2) as (st'' & own'' & Hall' & Hneat').
  { erewrite updated_lookup by exact Hupd2. by eexists. }
  { rewrite Est2. cbn [brk]. rewrite Hbrk1, (rep_length _ _ _ _ Hrepo). lia. }
  rewrite Hall in Hall'. injection Hall' as <-. by exists st', own''.
Qed.

Lemma step_neat c st st' own :
  neat st own → modest st → step c st = Some st' → ∃ own', neat st' own'.
Proof.
  intros Hneat Hmod. pose proof Hneat as (Hal & Hown & Htidy & Hplain).
  pose proof (null_dead _ Hal) as Hnull.
  unfold step. destruct c as [|other|this other|this kv|this pos|this|this k|r v];
    cbn [exec].
  - rewrite bind_run, construct_run. intros [= <-]. eexists.
    apply built_neat; [done|done|by exists 4%N|]. unfold INITIAL_CAPACITY. lia.
  - rewrite bind_run. unfold load_map at 1.
    destruct (maps st !! other) as [mo|] eqn:Emo; [|done].
    destruct (construct_copy_neat _ _ _ _ Hneat Emo Hmod) as (st1 & own1 & Hrun & Hn1).
    rewrite bind_run, Hrun. intros [= <-]. by exists own1.
  - rewrite bind_run. unfold load_map at 1.
    destruct (maps st !! other) as [mo|] eqn:Emo; [|done].
    destruct (decide (this = other)) as [->|Hne].
    { unfold assign. destruct (decide (other = other)); [|done].
      rewrite bind_run. intros [= <-]. by exists own. }
    destruct (maps st !! this) as [m|] eqn:Em.
    + destruct (assign_neat _ _ _ _ _ _ Hneat Hne Em Emo Hmod)
        as (st1 & own1 & Hrun & Hn1).
      rewrite bind_run, Hrun. intros [= <-]. by exists own1.
    + unfold assign. destruct (decide (this = other)); [done|].
      by rewrite !bind_run, clear_dead.
  - rewrite bind_run. destruct (maps st !! this) as [m|] eqn:Em.
    + destruct (insert_neat st own this kv Hneat) as (r & st1 & own1 & Hins & Hn1 & _);
        [by eexists|by apply modest_48|].
      rewrite Hins. intros [= <-]. by exists own1.
    + unfold insert. by rewrite bind_run, find_node_dead.
  - rewrite bind_run. pose proof (locate_run st own pos Hal Hown) as Hl.
    destruct (locate pos st) as [it st1|e st1|]; [| |done].
    + destruct Hl as [-> Hob]. pose proof (erase_neat st own this it Hneat Hob) as He.
      destruct (erase this it st); [| |done]; intros [= <-]; [done|].
      subst. by exists own.
    + subst st1. intros [= <-]. by exists own.
  - destruct (maps st !! this) as [m|] eqn:Em; [|by rewrite clear_dead].
    destruct (clear_neat _ _ _ _ Hneat Em) as (st1 & -> & Hn1 & _).
    intros [= <-]. by eexists.
  - rewrite bind_run. destruct (maps st !! this) as [m|] eqn:Em.
    2:{ unfold index_mut. by rewrite bind_run, find_node_dead. }
    destruct (owns_lookup _ _ _ _ Hown Em) as (l & kvs & Eo & Hrep & Hload & Htight).
    destruct (decide (k ∈ kvs.*1)) as [Hin|Hout].
    + apply elem_lookup_pair in Hin as (i & v & Hi).
      destruct (index_mut_present _ _ _ _ _ _ _ _ Hnull Em Hrep Hi) as (r & _ & ->).
      intros [= <-]. by exists own.
    + destruct (insert_neat st own this (k, T_default) Hneat)
        as (r & st1 & own1 & Hins & Hn1 & _); [by eexists|by apply modest_48|].
      destruct (insert_new _ _ _ _ _ (k, T_default) Hal Em Hrep Hload Htight
                  (modest_48 _ Hmod) Hout) as (st1' & m1 & Hins' & _).
      rewrite (index_mut_absent _ _ _ _ _ _ _ _ Hnull Em Hrep Hout Hins').
      rewrite Hins in Hins'. injection Hins' as _ <-.
      intros [= <-]. by exists own1.
  - pose proof (write_ref_neat st own r v Hneat) as Hw.
    destruct (write_ref r v st); [|done..]. intros [= <-]. by eexists.
Qed.

Lemma empty_neat : neat (empty_store (Key:=Key) (T:=T)) ∅.
Proof.
  assert (Inv (empty_store (Key:=Key) (T:=T))) as [Hal _] by apply empty_Inv.
  split_and!; [done| | |].
  - split; cbn.
    + intros a. rewrite !lookup_empty. split; intros [? ?]; done.
    + intros ????. by rewrite lookup_empty.
    + intros ????????? E. by rewrite lookup_empty in E.
  - intros a [nd Ha]. cbn in Ha. by rewrite lookup_empty in Ha.
  - intros o m nd Em. cbn in Em. by rewrite lookup_empty in Em.
Qed.

Lemma steps_neat cs : ∀ st st' own,
  neat st own → steps cs st = Some st' → modest st' → ∃ own', neat st' own'.
Proof.
  induction cs as [|c cs IH]; intros st st' own Hneat; cbn [steps].
  - intros [= <-] _. by exists own.
  - destruct (step c st) as [st1|] eqn:E; [|done]. cbn. intros Hs Hmod.
    pose proof (step_mono _ _ _ E) as H1. pose proof (steps_mono _ _ _ Hs) as H2.
    assert (modest st) as Hmod0 by (unfold modest in *; lia).
    destruct (step_neat c st st1 own Hneat Hmod0 E) as [own1 Hneat1].
    by eapply IH.
Qed.

Lemma reachable_neat st : reachable st → modest st → ∃ own, neat st own.
Proof. intros [cs Hcs] Hmod. eapply steps_neat; [apply empty_neat|done..]. Qed.

(** X18: no node leaks: on a reachable store every live node is a
    sentinel of a live container or the node of one of its entries, so
    a position reached from [begin()]; and when the only container of
    the store is destroyed, no node and no object is left. *)
Theorem no_node_leaks st :
  reachable st → modest st →
  (∀ a, is_Some (nodes st !! a) →
        ∃ this m kvs,
          maps st !! this = Some m ∧ iterate this st = Ret kvs st ∧
          (a = head m ∨
           ∃ i it, i ≤ length kvs ∧
                   locate (nth_position this i) st = Ret it st ∧
                   it_node it = a)) ∧
  (∀ this, is_Some (maps st !! this) →
           (∀ o, is_Some (maps st !! o) → o = this) →
           ∃ st', destructor this st = Ret () st' ∧
                  nodes st' = ∅ ∧ maps st' = ∅).
Proof.
  intros Hreach Hmod.
  destruct (reachable_neat _ Hreach Hmod) as (own & Hal & Hown & Htidy & Hplain).
  pose proof (null_dead _ Hal) as Hnull. split.
  - intros a Ha. destruct (Htidy a Ha) as (o & m & l & kvs & Em & Eo & Hfp).
    destruct (owns_rep _ _ Hown _ _ _ _ Em Eo) as (Hrep & _).
    pose proof (rep_dll _ _ _ _ Hrep) as Hd.
    exists o, m, kvs. split_and!; [done|by eapply iterate_run|].
    unfold footprint, nodes_of in Hfp. apply elem_of_cons in Hfp as [->|Hin]; [by left|].
    right. apply list_elem_of_lookup in Hin as [i Hi].
    destruct (locate_nth _ _ _ _ _ i Em Hd Hnull) as (x & Hx & Hloc).
    { apply lookup_lt_Some in Hi. rewrite length_app in Hi. cbn in Hi. lia. }
    rewrite footprint_lookup_S, Hi in Hx. injection Hx as <-.
    exists i, (mkIterator a o). split_and!; [|done..].
    apply lookup_lt_Some in Hi. rewrite length_app in Hi. cbn in Hi.
    rewrite (rep_length _ _ _ _ Hrep). lia.
  - intros this [m Em] Honly.
    destruct (owns_lookup _ _ _ _ Hown Em) as (l & kvs & Eo & Hrep & _).
    eexists. split; [by eapply destructor_run|]. cbn [nodes maps]. split.
    + apply map_eq. intros a. rewrite lookup_empty, lookup_delete_all.
      case_decide as Hin; [done|].
      destruct (nodes st !! a) as [nd|] eqn:Ea; [|done].
      destruct (Htidy a) as (o & mo & lo & ko & Emo & Eoo & Hfp); [by eexists|].
      assert (o = this) as -> by (apply Honly; by eexists).
      rewrite Em in Emo. rewrite Eo in Eoo. by simplify_eq.
    + apply map_eq. intros o. rewrite lookup_empty.
      destruct (decide (o = this)) as [->|Hne]; [apply lookup_delete_eq|].
      rewrite lookup_delete_ne by done.
      destruct (maps st !! o) eqn:E; [|done]. destruct Hne. apply Honly. by eexists.
Qed.

(** X19: the sentinels never hold a pair: on a reachable store
    [*end()] through either kind of iterator is a null dereference,
    not an exception. *)
Theorem deref_end_undefined st this e :
  reachable st → modest st → end_ this st = Ret e st →
  iterator_deref e st = Undef ∧
  const_iterator_deref (const_iterator_of e) st = Undef ∧
  cend this st = Ret (const_iterator_of e) st.
Proof.
  intros Hreach Hmod He.
  destruct (reachable_neat _ Hreach Hmod) as (own & Hal & Hown & Htidy & Hplain).
  destruct (maps st !! this) as [m|] eqn:Em.
  2:{ unfold end_ in He. rewrite bind_run in He. unfold load_map in He.
      by rewrite Em in He. }
  rewrite (end_run _ _ _ Em) in He. injection He as <-.
  destruct (owns_lookup _ _ _ _ Hown Em) as (l & kvs & Eo & Hrep & _).
  destruct (dll_tail _ _ _ _ _ (rep_dll _ _ _ _ Hrep)) as (tn & Et & _).
  assert (data tn = None) as Hd by (eapply Hplain; [exact Em|by right]).
  unfold iterator_deref, const_iterator_deref, const_iterator_of, load_data, cend.
  cbn [it_node it_map cit_node].
  rewrite !bind_run, (load_node_run _ _ _ Et), Hd, (load_map_run _ _ _ Em). done.
Qed.

(** *** The guarded decrement *)

(** X20: guarding [--end()] by [end() != begin()] makes it safe: the
    guarded decrement never throws, and yields the key of the last
    entry, or nothing on an empty container. *)
Theorem guarded_decrement st this kvs :
  reachable st → modest st → iterate this st = Ret kvs st →
  decrement_if_not_begin this st = Ret (fst <$> last kvs) st.
Proof.
  intros Hreach Hmod Hit.
  destruct (Inv_holds _ _ _ (reachable_Inv _ Hreach Hmod) Hit)
    as (own & m & l & Hal & Hown & Em & Eo & Hrep & _).
  pose proof (null_dead _ Hal) as Hnull.
  pose proof (rep_dll _ _ _ _ Hrep) as Hd.
  pose proof (rep_length _ _ _ _ Hrep) as Hlen.
  unfold decrement_if_not_begin. rewrite bind_run, (end_run _ _ _ Em).
  rewrite bind_run, (begin_run _ _ _ _ _ Em Hd).
  unfold iterator_eq. cbn [it_node it_map].
  rewrite (bool_decide_eq_true_2 (this = this)) by done. rewrite andb_true_r.
  destruct (decide (l = [])) as [->|Hne].
  - destruct kvs; [|done]. cbn [List.hd]. by rewrite bool_decide_eq_true_2.
  - rewrite bool_decide_eq_false_2.
    2:{ intros E. symmetry in E. by apply (hd_is_tail _ _ _ _ Hd) in E. }
    cbn [negb].
    rewrite bind_run,
      (predec_run _ _ _ _ _ (S (length l)) _ Em Hd Hnull (footprint_lookup_tail _ _)).
    destruct (length l) as [|j] eqn:El; [by destruct l|].
    destruct (lookup_lt_is_Some_2 l j) as [a Ha]; [lia|].
    rewrite (footprint_lookup_data _ _ _ _ Ha). cbn [default]. cbv beta iota.
    destruct (dll_entry _ _ _ _ _ _ _ Hd Ha) as (kv & Hkv & Ekv).
    unfold iterator_deref, id. cbn [it_node].
    rewrite bind_run, (load_data_run _ _ _ Ekv), ret_run.
    rewrite last_lookup. replace (pred (length kvs)) with j by lia. by rewrite Hkv.
Qed.

(** *** The shape of capacities *)

Lemma shaped_insert st st' this m' :
  shaped st → maps st' = <[this := m']> (maps st) →
  (∃ k : nat, table_size m' = (16 * 2 ^ N.of_nat k)%N) →
  shaped st'.
Proof.
  intros Hsh Hmaps Hm' o m. rewrite Hmaps. destruct (decide (o = this)) as [->|Hne].
  - rewrite lookup_insert_eq. by intros [= <-].
  - rewrite lookup_insert_ne by done. apply Hsh.
Qed.

Lemma double_shape (n : N) :
  (∃ k : nat, n = (16 * 2 ^ N.of_nat k)%N) →
  ∃ k : nat, (n * 2)%N = (16 * 2 ^ N.of_nat k)%N.
Proof.
  intros [k ->]. exists (S k).
  rewrite Nat2N.inj_succ, N.pow_succ_r by lia. lia.
Qed.

Lemma step_shaped c st st' :
  Inv st → modest st → shaped st → step c st = Some st' → shaped st'.
Proof.
  intros [Hal [own Hown]] Hmod Hsh. pose proof (null_dead _ Hal) as Hnull.
  assert (∀ this m kv r st1,
            maps st !! this = Some m → insert this kv st = Ret r st1 →
            shaped st1) as Hins.
  { intros this m kv r st1 Em Hrun.
    destruct (owns_lookup _ _ _ _ Hown Em) as (l & kvs & Eo & Hrep & Hload & Htight).
    destruct (decide (kv.1 ∈ kvs.*1)) as [Hin|Hout].
    - apply list_elem_of_fmap in Hin as ([k v] & Hk & Hin). cbn in Hk. subst k.
      apply list_elem_of_lookup in Hin as [i Hi].
      destruct (insert_existing _ _ _ _ _ kv i v Hnull Em Hrep Hi) as (r' & _ & Hrun').
      rewrite Hrun in Hrun'. by injection Hrun' as _ ->.
    - destruct (insert_new _ _ _ _ _ kv Hal Em Hrep Hload Htight
                  (modest_48 _ Hmod) Hout)
        as (st2 & m2 & Hrun' & Hupd & _ & _ & _ & Hts).
      rewrite Hrun in Hrun'. injection Hrun' as _ ->.
      eapply shaped_insert; [done|apply (upd_maps _ _ _ _ _ _ _ Hupd)|]. rewrite Hts.
      destruct (load_reached _ _); [apply double_shape|]; by eapply Hsh. }
  unfold step. destruct c as [|other|this other|this kv|this pos|this|this k|r v];
    cbn [exec].
  - rewrite bind_run, construct_run. intros [= <-].
    eapply (shaped_insert st); [done|reflexivity|]. by exists 0.
  - rewrite bind_run. unfold load_map at 1.
    destruct (maps st !! other) as [mo|] eqn:Emo; [|done].
    destruct (owns_lookup _ _ _ _ Hown Emo) as (lo & ko & Eoo & _).
    destruct (construct_copy_run _ _ _ _ _ _ Hal Hown Emo Eoo Hmod)
      as (st1 & m1 & l1 & Hrun & _ & _ & _ & Hmaps & Hts).
    rewrite bind_run, Hrun. intros [= <-].
    eapply shaped_insert; [done|exact Hmaps|]. rewrite Hts. by eapply Hsh.
  - rewrite bind_run. unfold load_map at 1.
    destruct (maps st !! other) as [mo|] eqn:Emo; [|done].
    destruct (decide (this = other)) as [->|Hne].
    { unfold assign. destruct (decide (other = other)); [|done].
      rewrite bind_run. by intros [= <-]. }
    destruct (maps st !! this) as [m|] eqn:Em.
    + destruct (owns_lookup _ _ _ _ Hown Emo) as (lo & ko & Eoo & _).
      destruct (assign_run _ _ _ _ _ _ _ _ Hal Hown Hne Em Emo Eoo Hmod)
        as (st1 & m1 & l1 & Hrun & _ & _ & _ & Hmaps & Hts).
      rewrite bind_run, Hrun. intros [= <-].
      eapply shaped_insert; [done|exact Hmaps|]. rewrite Hts. by eapply Hsh.
    + unfold assign. destruct (decide (this = other)); [done|].
      by rewrite !bind_run, clear_dead.
  - rewrite bind_run. destruct (maps st !! this) as [m|] eqn:Em.
    + destruct (insert this kv st) as [r st1|e st1|] eqn:E; [| |done].
      * intros [= <-]. by apply (Hins this m kv r st1 Em).
      * pose proof (insert_kept st own this kv Hal Hown Hmod) as Hk.
        by rewrite E in Hk.
    + unfold insert. by rewrite bind_run, find_node_dead.
  - rewrite bind_run. pose proof (locate_run st own pos Hal Hown) as Hl.
    destruct (locate pos st) as [it st1|e st1|]; [| |done].
    2:{ subst st1. by intros [= <-]. }
    destruct Hl as [-> Hob].
    destruct (decide (it_map it = this)) as [Hthis|Hne].
    2:{ unfold erase. destruct (decide (it_map it ≠ this)); [|done]. by intros [= <-]. }
    destruct (maps st !! this) as [m|] eqn:Em.
    2:{ unfold erase. destruct (decide (it_map it ≠ this)); [done|].
        rewrite bind_run. unfold load_map. by rewrite Em. }
    destruct Hob as [->|(mo & lo & ko & Emo & Eo & Hin)].
    { rewrite (erase_invalid _ _ m); [by intros [= <-]|done|]. cbn. tauto. }
    rewrite Hthis in Emo, Eo. rewrite Em in Emo. injection Emo as <-.
    rewrite elem_of_app, list_elem_of_singleton in Hin. destruct Hin as [Hin|Htl].
    + apply list_elem_of_split in Hin as (l1 & l2 & ->).
      destruct (owns_rep _ _ Hown _ _ _ _ Em Eo) as (Hrep & Hload & Htight).
      destruct (erase_valid _ _ _ _ _ _ _ Hal Em Hrep Hload Htight)
        as (st1 & m' & k1 & kv & k2 & -> & _ & Hrun & Hupd & _ & _ & Hts & _).
      destruct it as [a o]. cbn [it_node it_map] in *. subst o.
      rewrite Hrun. intros [= <-].
      eapply shaped_insert; [done|apply (upd_maps _ _ _ _ _ _ _ Hupd)|].
      rewrite Hts. by eapply Hsh.
    + rewrite (erase_invalid _ _ m); [by intros [= <-]|done|tauto].
  - destruct (maps st !! this) as [m|] eqn:Em; [|by rewrite clear_dead].
    destruct (owns_lookup _ _ _ _ Hown Em) as (l & kvs & Eo & Hrep & Hload & Htight).
    destruct (clear_run _ _ _ _ _ Hal Em Hrep Hload Htight) as (st1 & -> & Hupd & _).
    intros [= <-].
    eapply shaped_insert; [done|apply (upd_maps _ _ _ _ _ _ _ Hupd)|].
    cbn. by eapply Hsh.
  - rewrite bind_run. destruct (maps st !! this) as [m|] eqn:Em.
    2:{ unfold index_mut. by rewrite bind_run, find_node_dead. }
    destruct (owns_lookup _ _ _ _ Hown Em) as (l & kvs & Eo & Hrep & Hload & Htight).
    destruct (decide (k ∈ kvs.*1)) as [Hin|Hout].
    + apply elem_lookup_pair in Hin as (i & v & Hi).
      destruct (index_mut_present _ _ _ _ _ _ _ _ Hnull Em Hrep Hi) as (r & _ & ->).
      by intros [= <-].
    + destruct (insert_new _ _ _ _ _ (k, T_default) Hal Em Hrep Hload Htight
                  (modest_48 _ Hmod) Hout) as (st1 & m1 & Hrun & _).
      rewrite (index_mut_absent _ _ _ _ _ _ _ _ Hnull Em Hrep Hout Hrun).
      intros [= <-]. exact (Hins this m (k, T_default) _ st1 Em Hrun).
  - unfold write_ref. rewrite bind_run. unfold load_node.
    destruct (nodes st !! r) as [nd|] eqn:End; [|done].
    destruct (data nd); [|done]. rewrite (store_node_run _ _ _ _ End).
    by intros [= <-].
Qed.

Lemma steps_shaped cs : ∀ st st',
  Inv st → shaped st → steps cs st = Some st' → modest st' → shaped st'.
Proof.
  induction cs as [|c cs IH]; intros st st' HInv Hsh; cbn [steps].
  - by intros [= <-].
  - destruct (step c st) as [st1|] eqn:E; [|done]. cbn. intros Hs Hmod.
    pose proof (step_mono _ _ _ E) as H1. pose proof (steps_mono _ _ _ Hs) as H2.
    assert (modest st) as Hmod0 by (unfold modest in *; lia).
    eapply IH; [| |exact Hs|done].
    + by eapply step_Inv.
    + by eapply step_shaped.
Qed.

(** X21: the capacity of every container is sixteen times a power of
    two, and with the load-factor bound this limits the number of
    entries by three quarters of it. *)
Theorem capacity_shape st this m kvs :
  reachable st → modest st →
  maps st !! this = Some m → iterate this st = Ret kvs st →
  ∃ k : nat, table_size m = (16 * 2 ^ N.of_nat k)%N ∧
             (N.of_nat (length kvs) ≤ 12 * 2 ^ N.of_nat k)%N.
Proof.
  intros Hreach Hmod Em Hit.
  destruct (Inv_holds _ _ _ (reachable_Inv _ Hreach Hmod) Hit)
    as (own & m0 & l & Hal & Hown & Em0 & Eo & Hrep & [Hload _] & _).
  rewrite Em in Em0. injection Em0 as <-.
  destruct Hreach as [cs Hcs].
  assert (shaped st) as Hsh.
  { eapply steps_shaped; [apply empty_Inv| |exact Hcs|done].
    intros o mo E. cbn in E. by rewrite lookup_empty in E. }
  destruct (Hsh _ _ Em) as [k Hk]. exists k. split; [done|].
  rewrite (rep_count _ _ _ _ Hrep), <- (rep_length _ _ _ _ Hrep), Hk in Hload. lia.
Qed.

(** *** Code that only reads *)

Lemma observes_ret {A} P (x : A) : observes P (mret x).
Proof. by intros st. Qed.

Lemma observes_throw {A} (P : exn → Prop) e : P e → observes P (throw e : M A).
Proof. by intros He st. Qed.

Lemma observes_undef {A} P : observes P (undef : M A).
Proof. by intros st. Qed.

Lemma observes_bind {A B} P (c : M A) (k : A → M B) :
  observes P c → (∀ x, observes P (k x)) → observes P (c ≫= k).
Proof.
  intros Hc Hk st. rewrite bind_run. specialize (Hc st).
  destruct (c st) as [x st1|e st1|]; [|done..]. subst st1. apply Hk.
Qed.

Lemma observes_load_node P a : observes P (load_node a).
Proof. intros st. unfold load_node. by destruct (nodes st !! a). Qed.
Lemma observes_load_map P a : observes P (load_map a).
Proof. intros st. unfold load_map. by destruct (maps st !! a). Qed.
Lemma observes_live_nodes P : observes P live_nodes.
Proof. by intros st. Qed.

#[local] Hint Resolve observes_load_node observes_load_map observes_live_nodes : observes.

Ltac observes_go :=
  repeat first
    [ apply observes_ret | apply observes_undef
    | apply observes_throw; solve [done]
    | solve [auto with observes]
    | apply observes_bind; [|intros ?]
    | match goal with |- observes _ (match ?x with _ => _ end) => destruct x end ].

Lemma observes_load_data P a : observes P (load_data a).
Proof. unfold load_data. observes_go. Qed.
Lemma observes_bucket_of P (k : Key) n : observes P (bucket_of k n).
Proof. unfold bucket_of. observes_go. Qed.
#[local] Hint Resolve observes_load_data observes_bucket_of : observes.

Lemma observes_get_bucket_index P this (k : Key) :
  observes P (get_bucket_index this k).
Proof. unfold get_bucket_index. observes_go. Qed.
Lemma observes_read_bucket P this i : observes P (read_bucket this i).
Proof. unfold read_bucket. observes_go. Qed.
Lemma observes_scan_chain P (k : Key) b : observes P (scan_chain k b).
Proof. induction b; cbn [scan_chain]; observes_go. Qed.
#[local] Hint Resolve observes_get_bucket_index observes_read_bucket observes_scan_chain
  : observes.

Lemma observes_find_node P this (k : Key) : observes P (find_node this k).
Proof. unfold find_node. observes_go. Qed.
Lemma observes_begin P this : observes P (begin_ this).
Proof. unfold begin_. observes_go. Qed.
Lemma observes_end P this : observes P (end_ this).
Proof. unfold end_. observes_go. Qed.
Lemma observes_cbegin P this : observes P (cbegin this).
Proof. unfold cbegin. observes_go. Qed.
Lemma observes_cend P this : observes P (cend this).
Proof. unfold cend. observes_go. Qed.
Lemma observes_deref P it : observes P (iterator_deref it).
Proof. unfold iterator_deref. observes_go. Qed.
#[local] Hint Resolve observes_find_node observes_begin observes_end observes_cbegin
  observes_cend observes_deref : observes.

Lemma observes_find P this (k : Key) : observes P (find this k).
Proof. unfold find. observes_go. Qed.
Lemma observes_preinc it : observes (eq invalid_iterator) (iterator_preinc it).
Proof. unfold iterator_preinc. observes_go. Qed.
Lemma observes_predec it : observes (eq invalid_iterator) (iterator_predec it).
Proof. unfold iterator_predec. observes_go. Qed.
#[local] Hint Resolve observes_find observes_preinc observes_predec : observes.

Lemma observes_locate c : observes (eq invalid_iterator) (locate c).
Proof. induction c; cbn [locate]; observes_go. Qed.

Lemma observes_iterate_loop fuel this it :
  observes (eq invalid_iterator) (iterate_loop fuel this it).
Proof. revert it. induction fuel; intros it; cbn [iterate_loop]; observes_go. Qed.

Lemma observes_iterate_backward_loop fuel this it :
  observes (eq invalid_iterator) (iterate_backward_loop fuel this it).
Proof.
  revert it. induction fuel; intros it; cbn [iterate_backward_loop]; observes_go.
Qed.
#[local] Hint Resolve observes_iterate_loop observes_iterate_backward_loop : observes.

(** X22: the queries never change the store, whatever it is: the
    lookups, the accessors and [*] never throw either, [at] and the
    read-only [operator[]] throw nothing but [index_out_of_bound], and
    the iterator movements and the traversals built from them throw
    nothing but [invalid_iterator]. *)
Theorem queries_change_nothing this (k : Key) :
  (observes (λ _, False) (find this k) ∧ observes (λ _, False) (find_const this k) ∧
   observes (λ _, False) (count this k) ∧
   observes (λ _, False) (begin_ this) ∧ observes (λ _, False) (end_ this) ∧
   observes (λ _, False) (cbegin this) ∧ observes (λ _, False) (cend this) ∧
   observes (λ _, False) (size_ this) ∧ observes (λ _, False) (empty_ this)) ∧
  (∀ it, observes (λ _, False) (iterator_deref it)) ∧
  (∀ it, observes (λ _, False) (const_iterator_deref it)) ∧
  (∀ r, observes (λ _, False) (read_ref r)) ∧
  (observes (eq index_out_of_bound) (at_ this k) ∧
   observes (eq index_out_of_bound) (index_const this k)) ∧
  (∀ it, observes (eq invalid_iterator) (iterator_preinc it) ∧
         observes (eq invalid_iterator) (iterator_predec it) ∧
         observes (eq invalid_iterator) (iterator_postinc it) ∧
         observes (eq invalid_iterator) (iterator_postdec it)) ∧
  (∀ it, observes (eq invalid_iterator) (const_iterator_preinc it) ∧
         observes (eq invalid_iterator) (const_iterator_predec it) ∧
         observes (eq invalid_iterator) (const_iterator_postinc it) ∧
         observes (eq invalid_iterator) (const_iterator_postdec it)) ∧
  (∀ c, observes (eq invalid_iterator) (locate c)) ∧
  observes (eq invalid_iterator) (iterate this) ∧
  observes (eq invalid_iterator) (iterate_backward this) ∧
  observes (eq invalid_iterator) (decrement_if_not_begin this).
Proof.
  split_and!; try intros it; try split_and!;
    try apply observes_locate;
    unfold find_const, count, size_, empty_, const_iterator_deref, read_ref, at_,
      index_const, iterator_postinc, iterator_postdec, const_iterator_preinc,
      const_iterator_predec, const_iterator_postinc, const_iterator_postdec,
      iterate, iterate_backward, decrement_if_not_begin;
    observes_go.
Qed.

(** *** Lookups after a mutation *)

Lemma lookups_at st this m l kvs i k v r :
  nodes st !! null = None → maps st !! this = Some m → rep (nodes st) m l kvs →
  kvs !! i = Some (k, v) → l !! i = Some r →
  find this k st = Ret (mkIterator r this) st ∧
  count this k st = Ret 1%N st ∧
  at_ this k st = Ret r st ∧ read_ref r st = Ret v st.
Proof.
  intros Hnull Em Hrep Hi Hr.
  destruct (find_node_present _ _ _ _ _ _ _ _ Hnull Em Hrep Hi)
    as (r' & Hr' & Hr0 & _ & Hf & Hd).
  rewrite Hr in Hr'. injection Hr' as <-.
  unfold find, count, at_, read_ref. rewrite !bind_run, Hf, Hd.
  destruct (decide (r = null)); [done|]. by destruct (decide (r ≠ null)).
Qed.

(** X24: after [insert] of a pair with key [k], whether it was
    inserted or not, [find(k)] is the iterator that [insert] returned,
    [count(k)] is 1 and [at(k)] refers to the value of that entry: the
    given value if the key was new, the old value otherwise. *)
Theorem insert_then_lookup st this kvs k v :
  reachable st → modest st → iterate this st = Ret kvs st →
  ∃ it inserted st' v0,
    insert this (k, v) st = Ret (it, inserted) st' ∧
    (inserted = true ↔ k ∉ kvs.*1) ∧
    find this k st' = Ret it st' ∧
    count this k st' = Ret 1%N st' ∧
    at_ this k st' = Ret (it_node it) st' ∧
    read_ref (it_node it) st' = Ret v0 st' ∧
    (k ∉ kvs.*1 → v0 = v) ∧ (∀ v1, (k, v1) ∈ kvs → v0 = v1).
Proof.
  intros Hreach Hmod Hit.
  destruct (Inv_holds _ _ _ (reachable_Inv _ Hreach Hmod) Hit)
    as (own & m & l & Hal & Hown & Em & Eo & Hrep & Hload & Htight).
  pose proof (null_dead _ Hal) as Hnull.
  destruct (decide (k ∈ kvs.*1)) as [Hin|Hout].
  - pose proof Hin as (i & v0 & Hi)%elem_lookup_pair.
    destruct (insert_existing _ _ _ _ _ (k, v) i v0 Hnull Em Hrep Hi)
      as (r & Hr & Hins).
    destruct (lookups_at _ _ _ _ _ _ _ _ _ Hnull Em Hrep Hi Hr)
      as (Hf & Hc & Hat & Hrd).
    exists (mkIterator r this), false, st, v0. split_and!; try done.
    intros v1 (j & Hj)%list_elem_of_lookup.
    assert (i = j) as <-
        by (by eapply (keys_unique kvs i j (k, v0) (k, v1)); [apply Hrep|..]).
    congruence.
  - destruct (insert_new _ _ _ _ _ (k, v) Hal Em Hrep Hload Htight
                (modest_48 _ Hmod) Hout) as (st' & m' & Hins & Hupd & _).
    assert ((kvs ++ [(k, v)]) !! length l = Some (k, v)) as Hi.
    { rewrite <- (rep_length _ _ _ _ Hrep). by rewrite list_lookup_middle. }
    assert ((l ++ [brk st]) !! length l = Some (brk st)) as Hr
        by (by rewrite list_lookup_middle).
    destruct (lookups_at _ _ _ _ _ _ _ _ _
                (null_dead _ (upd_alloc _ _ _ _ _ _ _ Hupd))
                (updated_lookup _ _ _ _ _ _ _ Hupd)
                (upd_rep _ _ _ _ _ _ _ Hupd) Hi Hr) as (Hf & Hc & Hat & Hrd).
    exists (mkIterator (brk st) this), true, st', v. split_and!; try done.
    intros v1 Hv1. destruct Hout. apply list_elem_of_fmap. by exists (k, v1).
Qed.

(** X25: after [erase] at the position of the key [k], [find(k)] is
    [end()], [count(k)] is 0 and [at(k)] throws; every other key is
    found through the same reference as before, with its value. *)
Theorem erase_then_lookup st this kvs i k v pos :
  reachable st → modest st → iterate this st = Ret kvs st →
  kvs !! i = Some (k, v) → locate (nth_position this i) st = Ret pos st →
  ∃ st',
    erase this pos st = Ret () st' ∧
    find this k st' = end_ this st' ∧
    count this k st' = Ret 0%N st' ∧
    at_ this k st' = Throw index_out_of_bound st' ∧
    ∀ k' v', k' ≠ k → (k', v') ∈ kvs →
      ∃ r, at_ this k' st = Ret r st ∧ at_ this k' st' = Ret r st' ∧
           read_ref r st' = Ret v' st'.
Proof.
  intros Hreach Hmod Hit Hi Hloc.
  destruct (Inv_holds _ _ _ (reachable_Inv _ Hreach Hmod) Hit)
    as (own & m & l & Hal & Hown & Em & Eo & Hrep & Hload & Htight).
  pose proof (null_dead _ Hal) as Hnull.
  pose proof (rep_dll _ _ _ _ Hrep) as Hd.
  destruct (dll_entry_r _ _ _ _ _ _ _ Hd Hi) as (a & Ha & Ea).
  rewrite (locate_nth_data _ _ _ _ _ _ _ Em Hd Hnull Ha) in Hloc.
  injection Hloc as <-.
  destruct (erase_at _ _ _ _ _ _ _ Hal Em Hrep Hload Htight Ha)
    as (st' & m' & Her & Hupd & _).
  pose proof (updated_lookup _ _ _ _ _ _ _ Hupd) as Em'.
  pose proof (upd_rep _ _ _ _ _ _ _ Hupd) as Hrep'.
  pose proof (null_dead _ (upd_alloc _ _ _ _ _ _ _ Hupd)) as Hnull'.
  assert (find_node this k st' = Ret null st') as Hf.
  { eapply find_node_absent; [done..|].
    eapply keys_delete; [apply Hrep|done]. }
  exists st'. split_and!; [done| | | |].
  - unfold find. rewrite bind_run, Hf. by destruct (decide (null ≠ null)).
  - unfold count. rewrite bind_run, Hf. by destruct (decide (null ≠ null)).
  - unfold at_. rewrite bind_run, Hf. by destruct (decide (null = null)).
  - intros k' v' Hne (j & Hj)%list_elem_of_lookup.
    destruct (dll_entry_r _ _ _ _ _ _ _ Hd Hj) as (x & Hx & _).
    assert (j ≠ i) as Hji by (intros ->; congruence).
    set (j' := if decide (j < i) then j else pred j).
    assert (delete i l !! j' = Some x ∧ delete i kvs !! j' = Some (k', v'))
      as [Hx' Hkv'].
    { unfold j'. destruct (decide (j < i)).
      - by rewrite !list_lookup_delete_lt by done.
      - rewrite !list_lookup_delete_ge by lia.
        by replace (S (pred j)) with j by lia. }
    destruct (lookups_at _ _ _ _ _ _ _ _ _ Hnull Em Hrep Hj Hx) as (_ & _ & Hat & _).
    destruct (lookups_at _ _ _ _ _ _ _ _ _ Hnull' Em' Hrep' Hkv' Hx')
      as (_ & _ & Hat' & Hrd').
    by exists x.
Qed.

(** *** An allocation that fails inside [insert] *)

(** The store in which [new Bucket] is reached by an [insert] of a new
    key: the node is in the order list already, the table does not
    know it, and the count is the old one. *)
Lemma insert_bad_alloc_new st this m l kvs kv :
  alloc_ok st → maps st !! this = Some m → rep (nodes st) m l kvs →
  tight st m → (brk st < 2 ^ 48)%N →
  kv.1 ∉ kvs.*1 →
  ∃ st' m',
    insert_bad_alloc this kv st = Throw bad_alloc st' ∧
    maps st' !! this = Some m' ∧ nodes st' !! null = None ∧
    dll (nodes st') (head m') (tail m') (l ++ [brk st]) (kvs ++ [kv]) ∧
    element_count m' = element_count m ∧
    find_node this kv.1 st' = Ret null st'.
Proof.
  intros Hal Em Hrep Htight Hmod Hfresh.
  pose proof (null_dead _ Hal) as Hnull.
  pose proof (tight_bound _ _ Htight Hmod) as Hsz.
  destruct (find_node_run _ _ _ _ _ kv.1 Hnull Em Hrep) as (r & Hfind & Hloc).
  apply located_absent in Hloc as ->; [|done].
  destruct (grow_run _ _ _ _ _ Em Hrep Hsz)
    as (m1 & tb1 & Hgrow & Et1 & Htb1 & Hh1 & Ht1 & Hc1 & Hs1).
  set (n := brk st).
  set (nd0 := mkNode (Some kv) null null).
  set (st2 := mkStore (<[n := nd0]> (nodes st)) (<[this := m1]> (maps st)) (n + 1)).
  assert (n ∉ footprint m l) as Hnfp.
  { intros Hn. pose proof (rep_live _ _ _ _ _ Hal Hrep Hn). lia. }
  assert (null ∉ footprint m l) as Hnullfp.
  { intros Hn. pose proof (rep_live _ _ _ _ _ Hal Hrep Hn). unfold null in *. lia. }
  assert (null ≠ n) as Hnulln.
  { destruct Hal as (Hb & _). unfold null, n. lia. }
  assert (dll (nodes st2) (head m1) (tail m1) l kvs) as Hd2.
  { rewrite Hh1, Ht1. eapply dll_frame; [|apply Hrep].
    intros a Ha. cbn. rewrite lookup_insert_ne; [done|]. by intros <-. }
  destruct (insert_to_list_run st2 this m1 l kvs n nd0 kv)
    as (h3 & Hitl & Hd3 & Hsd3 & Hfr3);
    [apply lookup_insert_eq|done|apply lookup_insert_eq|done
    |by unfold footprint; rewrite Hh1, Ht1|].
  set (st3 := mkStore h3 (<[this := m1]> (maps st)) (n + 1)).
  assert (maps st3 !! this = Some m1) as Em3 by (cbn; apply lookup_insert_eq).
  assert (∀ a, a ∈ l → entry_of h3 a = entry_of (nodes st) a) as Hent.
  { intros a Ha. rewrite (same_data_entry _ _ a Hsd3). apply entry_of_agree.
    cbn. rewrite lookup_insert_ne; [done|]. intros <-. apply Hnfp.
    unfold footprint, nodes_of. rewrite elem_of_cons, elem_of_app. tauto. }
  assert (entry_of h3 n = Some kv) as Hent_n.
  { rewrite (same_data_entry _ _ n Hsd3). unfold entry_of. cbn.
    by rewrite lookup_insert_eq. }
  assert (0 < table_size m1)%N as Hpos1.
  { rewrite Hs1. destruct Hrep as [_ _ _ Hs _]. destruct (load_reached _ _); lia. }
  assert (h3 !! null = None) as Hnull3.
  { rewrite Hfr3; [|done|by unfold footprint; rewrite Hh1, Ht1].
    cbn. by rewrite lookup_insert_ne. }
  assert (find_node this kv.1 st3 = Ret null st3) as Hfind3.
  { destruct Htb1 as [Hlen Hbk].
    destruct (lookup_lt_is_Some_2 tb1 (N.to_nat (hasher kv.1 mod table_size m1)))
      as [b Hb].
    { rewrite Hlen. by apply bucket_index_lt. }
    destruct (Hbk _ _ Hb) as [Hndb Hiff].
    unfold find_node.
    rewrite bind_run, (get_bucket_index_run _ _ _ _ Em3 Hpos1).
    rewrite bind_run, (read_bucket_run _ _ _ _ _ _ Em3 Et1 Hb).
    destruct (scan_chain_run st3 kv.1 b) as (r & Hscan & Hr).
    { intros a (Hal' & kv' & Ekv' & _)%Hiff. cbn [nodes st3].
      rewrite (Hent _ Hal'). by eexists. }
    rewrite Hscan. destruct Hr as [[-> _]|(Hrb & kv' & Ekv' & Hk')]; [done|].
    apply Hiff in Hrb as (Hrl & _). cbn [nodes st3] in Ekv'.
    rewrite (Hent _ Hrl) in Ekv'. exfalso. apply Hfresh.
    apply list_elem_of_lookup in Hrl as [i Hi].
    destruct (dll_entry _ _ _ _ _ _ _ (rep_dll _ _ _ _ Hrep) Hi) as (kv'' & Hkv'' & E'').
    rewrite Ekv' in E''. injection E'' as <-.
    apply list_elem_of_fmap. exists kv'. split; [done|].
    by eapply list_elem_of_lookup_2. }
  exists st3, m1. split_and!; try done.
  unfold insert_bad_alloc. rewrite bind_run, Hfind.
  destruct (decide (null ≠ null)); [done|].
  rewrite bind_run, (load_map_run _ _ _ Em).
  rewrite bind_run, Hgrow.
  rewrite bind_run. unfold new_node at 1. cbn [nodes maps brk].
  fold n nd0 st2. rewrite bind_run, Hitl. unfold st2. cbn [nodes maps brk].
  fold st3. rewrite bind_run. unfold insert_to_table_bad_alloc.
  rewrite bind_run, (load_data_run st3 n kv Hent_n).
  by rewrite bind_run, (get_bucket_index_run _ _ _ _ Em3 Hpos1).
Qed.

(** X23: [insert] does not give the strong exception guarantee.  When
    the key is new and the allocation of the bucket cell fails, the
    exception leaves [insert] with the node already linked into the
    order list: the traversal shows the new pair, while [size()] still
    is the old count and no lookup finds the key.  When the key is
    present, that allocation is never reached. *)
Theorem insert_not_exception_safe st this kvs k v :
  reachable st → modest st → iterate this st = Ret kvs st →
  (k ∉ kvs.*1 →
     ∃ st', insert_bad_alloc this (k, v) st = Throw bad_alloc st' ∧
            iterate this st' = Ret (kvs ++ [(k, v)]) st' ∧
            size_ this st' = Ret (N.of_nat (length kvs)) st' ∧
            find this k st' = end_ this st' ∧
            count this k st' = Ret 0%N st' ∧
            at_ this k st' = Throw index_out_of_bound st') ∧
  (k ∈ kvs.*1 → insert_bad_alloc this (k, v) st = insert this (k, v) st).
Proof.
  intros Hreach Hmod Hit.
  destruct (Inv_holds _ _ _ (reachable_Inv _ Hreach Hmod) Hit)
    as (own & m & l & Hal & Hown & Em & Eo & Hrep & Hload & Htight).
  pose proof (null_dead _ Hal) as Hnull. split.
  - intros Hout.
    destruct (insert_bad_alloc_new _ _ _ _ _ (k, v) Hal Em Hrep Htight
                (modest_48 _ Hmod) Hout)
      as (st' & m' & Hrun & Em' & Hnull' & Hd' & Hc' & Hf').
    cbn [fst] in Hf'.
    exists st'. split_and!; [done| | | | |].
    + by eapply iterate_run.
    + unfold size_. rewrite bind_run, (load_map_run _ _ _ Em'), ret_run.
      by rewrite Hc', (rep_count _ _ _ _ Hrep), (rep_length _ _ _ _ Hrep).
    + unfold find. rewrite bind_run, Hf'. by destruct (decide (null ≠ null)).
    + unfold count. rewrite bind_run, Hf'. by destruct (decide (null ≠ null)).
    + unfold at_. rewrite bind_run, Hf'. by destruct (decide (null = null)).
  - intros (i & v0 & Hi)%elem_lookup_pair.
    destruct (find_node_present _ _ _ _ _ _ _ _ Hnull Em Hrep Hi)
      as (r & _ & Hr0 & _ & Hf & _).
    unfold insert_bad_alloc, insert. rewrite !bind_run. cbn [fst]. rewrite Hf.
    by destruct (decide (r ≠ null)).
Qed.

End Proofs.

(** ** The properties at concrete stores *)

Section Witnesses.
Import Example.
Open Scope N_scope.

Ltac by_computation := vm_compute; reflexivity.
Ltac by_decision := apply (bool_decide_unpack _); vm_compute; exact I.
Ltac is_reachable p := exists p; by_computation.

Example scenario_1_runs : result scenario_1 = Some [(1, 10); (3, 30)].
Proof. by_computation. Qed.

Lemma insertion_order_witness :
  reachable store_3 ∧
  iterate 1 store_3 = Ret (entries 1 3) store_3 ∧
  NoDup (entries 1 3 ++ entries 4 11).*1 ∧
  brk store_3 + N.of_nat (length (entries 4 11)) < 2 ^ 47 ∧
  (∃ st', insert_all 1 (entries 4 11) store_3 = Ret () st' ∧
          iterate 1 st' = Ret (entries 1 3 ++ entries 4 11) st') ∧
  (∃ st1, rehash 1 store_3 = Ret () st1 ∧
          iterate 1 st1 = Ret (entries 1 3) st1).
Proof.
  assert (reachable store_3) as Hr by is_reachable program_3.
  assert (iterate 1 store_3 = Ret (entries 1 3) store_3) as Hi by by_computation.
  assert (NoDup (entries 1 3 ++ entries 4 11).*1) as Hn by by_decision.
  assert (brk store_3 + N.of_nat (length (entries 4 11)) < 2 ^ 47) as Hb
      by by_computation.
  destruct (insertion_order store_3 1 _ _ Hr Hi Hn Hb)
    as [(st' & Hall & Hit & _) (st1 & Hre & _ & Hit1 & _)].
  refine (conj Hr (conj Hi (conj Hn (conj Hb (conj _ _))))).
  - exists st'. exact (conj Hall Hit).
  - exists st1. exact (conj Hre Hit1).
Defined.

Lemma insert_semantics_witness :
  reachable store_3 ∧ modest store_3 ∧
  iterate 1 store_3 = Ret (entries 1 3) store_3 ∧
  entries 1 3 !! 0%nat = Some (1, 10) ∧ (7 ∉ (entries 1 3).*1) ∧
  (∃ it, insert 1 (1, 99) store_3 = Ret (it, false) store_3 ∧
         iterator_deref it store_3 = Ret (1, 10) store_3) ∧
  (∃ it st', insert 1 (7, 70) store_3 = Ret (it, true) st' ∧
             iterate 1 st' = Ret (entries 1 3 ++ [(7, 70)]) st').
Proof.
  assert (reachable store_3) as Hr by is_reachable program_3.
  assert (modest store_3) as Hm by by_computation.
  assert (iterate 1 store_3 = Ret (entries 1 3) store_3) as Hi by by_computation.
  assert (entries 1 3 !! 0%nat = Some (1, 10)) as H0 by by_computation.
  assert (7 ∉ (entries 1 3).*1) as H7 by by_decision.
  destruct (insert_semantics store_3 1 _ 1 99 Hr Hm Hi) as [Hpres _].
  destruct (insert_semantics store_3 1 _ 7 70 Hr Hm Hi) as [_ Habs].
  destruct (Hpres _ _ H0) as (it & Hins & _ & Hd).
  destruct (Habs H7) as (it' & st' & Hins' & _ & Hit' & _).
  refine (conj Hr (conj Hm (conj Hi (conj H0 (conj H7 (conj _ _)))))).
  - exists it. exact (conj Hins Hd).
  - exists it', st'. exact (conj Hins' Hit').
Defined.

Lemma load_factor_invariant_witness :
  reachable store_12 ∧ modest store_12 ∧
  maps store_12 !! 1 = Some (map_of store_12 1) ∧
  iterate 1 store_12 = Ret (entries 1 12) store_12 ∧
  (100 ∉ (entries 1 12).*1) ∧
  load_reached (element_count (map_of store_12 1)) (table_size (map_of store_12 1))
    = true ∧
  4 * element_count (map_of store_12 1) ≤ 3 * table_size (map_of store_12 1) ∧
  ∃ it st' m',
    insert 1 (100, 0) store_12 = Ret (it, true) st' ∧
    maps st' !! 1 = Some m' ∧
    4 * element_count m' ≤ 3 * table_size m' ∧
    table_size m' = 2 * table_size (map_of store_12 1).
Proof.
  assert (reachable store_12) as Hr by is_reachable program_12.
  assert (modest store_12) as Hm by by_computation.
  assert (maps store_12 !! 1 = Some (map_of store_12 1)) as Em by by_computation.
  assert (iterate 1 store_12 = Ret (entries 1 12) store_12) as Hi by by_computation.
  assert (100 ∉ (entries 1 12).*1) as Hk by by_decision.
  assert (load_reached (element_count (map_of store_12 1))
                       (table_size (map_of store_12 1)) = true) as Hlr
      by by_computation.
  destruct (load_factor_invariant store_12 1 _ _ Hr Hm Em Hi)
    as (Hload & _ & _ & Hins).
  destruct (Hins (100, 0) Hk) as (it & st' & m' & Hrun & Em' & Hload' & Hif).
  rewrite Hlr in Hif.
  destruct Hif as (st1 & m1 & _ & _ & _ & Hts1 & _ & _ & _ & _ & Hts').
  refine (conj Hr (conj Hm (conj Em (conj Hi (conj Hk (conj Hlr (conj Hload _))))))).
  exists it, st', m'.
  exact (conj Hrun (conj Em' (conj Hload' (eq_trans Hts' Hts1)))).
Defined.

Lemma erase_semantics_witness :
  reachable store_3 ∧ modest store_3 ∧
  maps store_3 !! 1 = Some (map_of store_3 1) ∧
  iterate 1 store_3 = Ret (entries 1 3) store_3 ∧
  entries 1 3 !! 1%nat = Some (2, 20) ∧
  locate (nth_position 1 1) store_3 = Ret (mkIterator 5 1) store_3 ∧
  erase 1 iterator_default store_3 = Throw invalid_iterator store_3 ∧
  ∃ st', erase 1 (mkIterator 5 1) store_3 = Ret () st' ∧
         iterate 1 st' = Ret (delete 1%nat (entries 1 3)) st'.
Proof.
  assert (reachable store_3) as Hr by is_reachable program_3.
  assert (modest store_3) as Hm by by_computation.
  assert (maps store_3 !! 1 = Some (map_of store_3 1)) as Em by by_computation.
  assert (iterate 1 store_3 = Ret (entries 1 3) store_3) as Hi by by_computation.
  assert (entries 1 3 !! 1%nat = Some (2, 20)) as H1 by by_computation.
  assert (locate (nth_position 1 1) store_3 = Ret (mkIterator 5 1) store_3) as Hl
      by by_computation.
  destruct (erase_semantics store_3 1 _ _ Hr Hm Em Hi) as (Hbad & _ & _ & Hgood).
  destruct (Hgood _ _ _ H1 Hl) as (_ & _ & _ & _ & st' & m' & Hrun & _ & _ & _ & _ & Hit).
  refine (conj Hr (conj Hm (conj Em (conj Hi (conj H1 (conj Hl (conj _ _))))))).
  - exact (Hbad iterator_default (or_intror (or_intror (or_intror eq_refl)))).
  - exists st'. exact (conj Hrun Hit).
Defined.

Lemma iterator_moves_witness :
  reachable store_0 ∧ modest store_0 ∧
  maps store_0 !! 1 = Some (map_of store_0 1) ∧
  iterate 1 store_0 = Ret [] store_0 ∧
  end_ 1 store_0 = Ret (mkIterator 3 1) store_0 ∧
  iterator_predec (mkIterator 3 1) store_0 = Throw invalid_iterator store_0 ∧
  iterator_preinc (mkIterator 3 1) store_0 = Throw invalid_iterator store_0.
Proof.
  assert (reachable store_0) as Hr by is_reachable program_0.
  assert (modest store_0) as Hm by by_computation.
  assert (maps store_0 !! 1 = Some (map_of store_0 1)) as Em by by_computation.
  assert (iterate 1 store_0 = Ret [] store_0) as Hi by by_computation.
  assert (end_ 1 store_0 = Ret (mkIterator 3 1) store_0) as He by by_computation.
  assert (locate (nth_position 1 0) store_0 = Ret (mkIterator 3 1) store_0) as Hl
      by by_computation.
  destruct (iterator_moves store_0 1 _ _ Hr Hm Em Hi) as (_ & _ & Hpos & _ & Hempty & _).
  destruct (Hpos 0%nat _ (le_n 0) Hl) as [Hinc _].
  exact (conj Hr (conj Hm (conj Em (conj Hi (conj He
           (conj (Hempty eq_refl _ He) Hinc)))))).
Defined.

Lemma index_access_witness :
  reachable store_3 ∧ modest store_3 ∧
  iterate 1 store_3 = Ret (entries 1 3) store_3 ∧
  (7 ∉ (entries 1 3).*1) ∧ (2, 20) ∈ entries 1 3 ∧
  (∃ r st', index_mut 1 7 store_3 = Ret r st' ∧ read_ref r st' = Ret 0 st' ∧
            iterate 1 st' = Ret (entries 1 3 ++ [(7, 0)]) st') ∧
  index_const 1 7 store_3 = Throw index_out_of_bound store_3 ∧
  (∃ r, index_mut 1 2 store_3 = Ret r store_3 ∧
        index_const 1 2 store_3 = Ret r store_3 ∧
        read_ref r store_3 = Ret 20 store_3).
Proof.
  assert (reachable store_3) as Hr by is_reachable program_3.
  assert (modest store_3) as Hm by by_computation.
  assert (iterate 1 store_3 = Ret (entries 1 3) store_3) as Hi by by_computation.
  assert (7 ∉ (entries 1 3).*1) as H7 by by_decision.
  assert ((2, 20) ∈ entries 1 3) as H2 by by_decision.
  destruct (index_access store_3 1 _ 7 Hr Hm Hi) as [Habs _].
  destruct (index_access store_3 1 _ 2 Hr Hm Hi) as [_ Hpres].
  destruct (Habs H7) as [(r & st' & Hrun & _ & Hrd & Hit) Hc].
  destruct (Hpres _ H2) as (r2 & Hm2 & Hc2 & Hr2).
  refine (conj Hr (conj Hm (conj Hi (conj H7 (conj H2 (conj _ (conj Hc _))))))).
  - exists r, st'. exact (conj Hrun (conj Hrd Hit)).
  - exists r2. exact (conj Hm2 (conj Hc2 Hr2)).
Defined.

Lemma copy_semantics_witness :
  reachable store_two ∧ modest store_two ∧
  maps store_two !! 1 = Some (map_of store_two 1) ∧
  iterate 1 store_two = Ret (entries 1 13) store_two ∧
  17 ≠ 1 ∧ is_Some (maps store_two !! 17) ∧
  (∃ this st', construct_copy 1 store_two = Ret this st' ∧
               copied st' 1 this (entries 1 13)) ∧
  (∃ st', assign 17 1 store_two = Ret 17 st' ∧ copied st' 1 17 (entries 1 13)) ∧
  assign 1 1 store_two = Ret 1 store_two.
Proof.
  assert (reachable store_two) as Hr by is_reachable program_two.
  assert (modest store_two) as Hm by by_computation.
  assert (maps store_two !! 1 = Some (map_of store_two 1)) as Em by by_computation.
  assert (iterate 1 store_two = Ret (entries 1 13) store_two) as Hi by by_computation.
  assert (17 ≠ 1) as Hne by (intros E; discriminate E).
  assert (is_Some (maps store_two !! 17)) as Hs
      by (exists (map_of store_two 17); by_computation).
  destruct (copy_semantics store_two 1 _ _ Hr Hm Em Hi)
    as ((this & st' & Hrun & _ & _ & Hcopied) & Hassign & Hself).
  destruct (Hassign 17 Hne Hs) as (st2 & st3 & Hrun2 & _ & _ & _ & Hcopied2).
  refine (conj Hr (conj Hm (conj Em (conj Hi (conj Hne (conj Hs
            (conj _ (conj _ Hself)))))))).
  - exists this, st'. exact (conj Hrun Hcopied).
  - exists st2. exact (conj Hrun2 Hcopied2).
Defined.

Lemma lookups_consistent_witness :
  reachable store_3 ∧ modest store_3 ∧
  iterate 1 store_3 = Ret (entries 1 3) store_3 ∧
  (7 ∉ (entries 1 3).*1) ∧ 2 ∈ (entries 1 3).*1 ∧
  (at_ 1 7 store_3 = Throw index_out_of_bound store_3 ∧
   count 1 7 store_3 = Ret 0 store_3 ∧
   find 1 7 store_3 = end_ 1 store_3 ∧
   find_const 1 7 store_3 = cend 1 store_3) ∧
  (∃ v r, at_ 1 2 store_3 = Ret r store_3 ∧ read_ref r store_3 = Ret v store_3 ∧
          count 1 2 store_3 = Ret 1 store_3 ∧
          find 1 2 store_3 = Ret (mkIterator r 1) store_3 ∧
          find_const 1 2 store_3 = Ret (mkConstIterator r 1) store_3 ∧
          cend 1 store_3 ≠ Ret (mkConstIterator r 1) store_3 ∧
          const_iterator_deref (mkConstIterator r 1) store_3 = Ret (2, v) store_3).
Proof.
  assert (reachable store_3) as Hr by is_reachable program_3.
  assert (modest store_3) as Hm by by_computation.
  assert (iterate 1 store_3 = Ret (entries 1 3) store_3) as Hi by by_computation.
  assert (7 ∉ (entries 1 3).*1) as H7 by by_decision.
  assert (2 ∈ (entries 1 3).*1) as H2 by by_decision.
  destruct (lookups_consistent store_3 1 _ 7 Hr Hm Hi) as [Habs _].
  destruct (lookups_consistent store_3 1 _ 2 Hr Hm Hi) as [_ Hpres].
  destruct (Habs H7) as (Ha & Hc & Hf & _ & Hfc & _).
  destruct (Hpres H2)
    as (v & r & _ & Hat & Hrd & Hcn & Hfd & _ & _ & Hfdc & Hne & Hdc).
  refine (conj Hr (conj Hm (conj Hi (conj H7 (conj H2
            (conj (conj Ha (conj Hc (conj Hf Hfc))) _)))))).
  exists v, r.
  exact (conj Hat (conj Hrd (conj Hcn (conj Hfd (conj Hfdc (conj Hne Hdc)))))).
Defined.

Lemma duplicate_insert_noop_witness :
  reachable store_12 ∧ modest store_12 ∧
  iterate 1 store_12 = Ret (entries 1 12) store_12 ∧
  (1, 10) ∈ entries 1 12 ∧
  load_reached (element_count (map_of store_12 1)) (table_size (map_of store_12 1))
    = true ∧
  ∃ it, insert 1 (1, 99) store_12 = Ret (it, false) store_12.
Proof.
  assert (reachable store_12) as Hr by is_reachable program_12.
  assert (modest store_12) as Hm by by_computation.
  assert (iterate 1 store_12 = Ret (entries 1 12) store_12) as Hi by by_computation.
  assert ((1, 10) ∈ entries 1 12) as H1 by by_decision.
  assert (load_reached (element_count (map_of store_12 1))
                       (table_size (map_of store_12 1)) = true) as Hlr
      by by_computation.
  destruct (duplicate_insert_noop store_12 1 _ 1 10 99 Hr Hm Hi H1) as (it & Hins & _).
  refine (conj Hr (conj Hm (conj Hi (conj H1 (conj Hlr _))))).
  exists it. exact Hins.
Defined.

Lemma copy_capacity_witness :
  reachable store_two ∧ modest store_two ∧
  maps store_two !! 1 = Some (map_of store_two 1) ∧
  table_size (map_of store_two 1) = 32 ∧
  17 ≠ 1 ∧ is_Some (maps store_two !! 17) ∧
  (∃ this st' m', construct_copy 1 store_two = Ret this st' ∧
                  maps st' !! this = Some m' ∧
                  table_size m' = table_size (map_of store_two 1)) ∧
  (∃ st' m', assign 17 1 store_two = Ret 17 st' ∧
             maps st' !! 17 = Some m' ∧
             table_size m' = table_size (map_of store_two 1)).
Proof.
  assert (reachable store_two) as Hr by is_reachable program_two.
  assert (modest store_two) as Hm by by_computation.
  assert (maps store_two !! 1 = Some (map_of store_two 1)) as Em by by_computation.
  assert (table_size (map_of store_two 1) = 32) as Hts by by_computation.
  assert (17 ≠ 1) as Hne by (intros E; discriminate E).
  assert (is_Some (maps store_two !! 17)) as Hs
      by (exists (map_of store_two 17); by_computation).
  destruct (copy_capacity store_two 1 _ Hr Hm Em)
    as (_ & _ & (this & st' & m0 & m' & Hrun & _ & _ & Em' & Hts') & Hassign).
  destruct (Hassign 17 Hne Hs) as (st2 & m2 & Hrun2 & Em2 & Hts2).
  refine (conj Hr (conj Hm (conj Em (conj Hts (conj Hne (conj Hs (conj _ _))))))).
  - exists this, st', m'. exact (conj Hrun (conj Em' Hts')).
  - exists st2, m2. exact (conj Hrun2 (conj Em2 Hts2)).
Defined.

Lemma size_and_empty_witness :
  reachable store_3 ∧ modest store_3 ∧
  iterate 1 store_3 = Ret (entries 1 3) store_3 ∧
  size_ 1 store_3 = Ret (N.of_nat (length (entries 1 3))) store_3 ∧
  empty_ 1 store_3 = Ret (bool_decide (entries 1 3 = [])) store_3.
Proof.
  assert (reachable store_3) as Hr by is_reachable program_3.
  assert (modest store_3) as Hm by by_computation.
  assert (iterate 1 store_3 = Ret (entries 1 3) store_3) as Hi by by_computation.
  destruct (size_and_empty store_3 1 _ Hr Hm Hi) as (Hs & He & _).
  exact (conj Hr (conj Hm (conj Hi (conj Hs He)))).
Defined.

Lemma deref_positions_witness :
  reachable store_3 ∧ modest store_3 ∧
  iterate 1 store_3 = Ret (entries 1 3) store_3 ∧
  entries 1 3 !! 1%nat = Some (2, 20) ∧
  locate (nth_position 1 1) store_3 = Ret (mkIterator 5 1) store_3 ∧
  iterator_deref (mkIterator 5 1) store_3 = Ret (2, 20) store_3 ∧
  iterator_deref iterator_default store_3 = Undef.
Proof.
  assert (reachable store_3) as Hr by is_reachable program_3.
  assert (modest store_3) as Hm by by_computation.
  assert (iterate 1 store_3 = Ret (entries 1 3) store_3) as Hi by by_computation.
  assert (entries 1 3 !! 1%nat = Some (2, 20)) as H1 by by_computation.
  assert (locate (nth_position 1 1) store_3 = Ret (mkIterator 5 1) store_3) as Hl
      by by_computation.
  destruct (deref_positions store_3 1 _ Hr Hm Hi) as (Hpos & Hdef & _).
  destruct (Hpos _ _ _ H1 Hl) as [Hd _].
  exact (conj Hr (conj Hm (conj Hi (conj H1 (conj Hl (conj Hd Hdef)))))).
Defined.

Lemma backward_traversal_witness :
  reachable store_3 ∧ modest store_3 ∧
  iterate 1 store_3 = Ret (entries 1 3) store_3 ∧
  iterate_backward 1 store_3 =
    (if decide (entries 1 3 = []) then Throw invalid_iterator store_3
     else Ret (reverse (entries 1 3)) store_3).
Proof.
  assert (reachable store_3) as Hr by is_reachable program_3.
  assert (modest store_3) as Hm by by_computation.
  assert (iterate 1 store_3 = Ret (entries 1 3) store_3) as Hi by by_computation.
  exact (conj Hr (conj Hm (conj Hi (backward_traversal store_3 1 _ Hr Hm Hi)))).
Defined.

Lemma step_round_trip_witness :
  reachable store_3 ∧ modest store_3 ∧
  iterate 1 store_3 = Ret (entries 1 3) store_3 ∧
  locate (nth_position 1 2) store_3 = Ret (mkIterator 6 1) store_3 ∧
  (2 < length (entries 1 3))%nat ∧
  ∃ it', iterator_preinc (mkIterator 6 1) store_3 = Ret it' store_3 ∧
         iterator_predec it' store_3 = Ret (mkIterator 6 1) store_3.
Proof.
  assert (reachable store_3) as Hr by is_reachable program_3.
  assert (modest store_3) as Hm by by_computation.
  assert (iterate 1 store_3 = Ret (entries 1 3) store_3) as Hi by by_computation.
  assert (locate (nth_position 1 2) store_3 = Ret (mkIterator 6 1) store_3) as Hl
      by by_computation.
  assert (2 < length (entries 1 3))%nat as H2 by (vm_compute; lia).
  destruct (step_round_trip store_3 1 _ Hr Hm Hi _ _ Hl) as [Hforth _].
  exact (conj Hr (conj Hm (conj Hi (conj Hl (conj H2 (Hforth H2)))))).
Defined.

Lemma clear_empties_witness :
  reachable store_3 ∧ modest store_3 ∧
  maps store_3 !! 1 = Some (map_of store_3 1) ∧
  iterate 1 store_3 = Ret (entries 1 3) store_3 ∧
  ∃ st' m', clear 1 store_3 = Ret () st' ∧ maps st' !! 1 = Some m' ∧
            iterate 1 st' = Ret [] st' ∧
            table_size m' = table_size (map_of store_3 1).
Proof.
  assert (reachable store_3) as Hr by is_reachable program_3.
  assert (modest store_3) as Hm by by_computation.
  assert (maps store_3 !! 1 = Some (map_of store_3 1)) as Em by by_computation.
  assert (iterate 1 store_3 = Ret (entries 1 3) store_3) as Hi by by_computation.
  destruct (clear_empties store_3 1 _ _ Hr Hm Em Hi)
    as (st' & m' & Hrun & Em' & Hit & _ & _ & Hts & _).
  refine (conj Hr (conj Hm (conj Em (conj Hi _)))).
  exists st', m'. exact (conj Hrun (conj Em' (conj Hit Hts))).
Defined.

Lemma subscript_assign_witness :
  reachable store_3 ∧ modest store_3 ∧
  iterate 1 store_3 = Ret (entries 1 3) store_3 ∧
  (7 ∉ (entries 1 3).*1) ∧
  ∃ r st1 st2,
    index_mut 1 7 store_3 = Ret r st1 ∧ write_ref r 70 st1 = Ret () st2 ∧
    at_ 1 7 st2 = Ret r st2 ∧ read_ref r st2 = Ret 70 st2 ∧
    iterate 1 st2 = Ret (entries 1 3 ++ [(7, 70)]) st2.
Proof.
  assert (reachable store_3) as Hr by is_reachable program_3.
  assert (modest store_3) as Hm by by_computation.
  assert (iterate 1 store_3 = Ret (entries 1 3) store_3) as Hi by by_computation.
  assert (7 ∉ (entries 1 3).*1) as H7 by by_decision.
  destruct (subscript_assign store_3 1 _ 7 70 Hr Hm Hi)
    as (r & st1 & st2 & Hidx & Hw & Hat & Hrd & Habs & _).
  refine (conj Hr (conj Hm (conj Hi (conj H7 _)))).
  exists r, st1, st2. exact (conj Hidx (conj Hw (conj Hat (conj Hrd (Habs H7))))).
Defined.

Lemma insert_erase_round_trip_witness :
  reachable store_12 ∧ modest store_12 ∧
  iterate 1 store_12 = Ret (entries 1 12) store_12 ∧
  (13 ∉ (entries 1 12).*1) ∧
  ∃ it st1 st2,
    insert 1 (13, 130) store_12 = Ret (it, true) st1 ∧
    erase 1 it st1 = Ret () st2 ∧
    iterate 1 st2 = Ret (entries 1 12) st2.
Proof.
  assert (reachable store_12) as Hr by is_reachable program_12.
  assert (modest store_12) as Hm by by_computation.
  assert (iterate 1 store_12 = Ret (entries 1 12) store_12) as Hi by by_computation.
  assert (13 ∉ (entries 1 12).*1) as H13 by by_decision.
  destruct (insert_erase_round_trip store_12 1 _ (13, 130) Hr Hm Hi H13)
    as (it & st1 & st2 & Hins & Her & Hit & _).
  refine (conj Hr (conj Hm (conj Hi (conj H13 _)))).
  exists it, st1, st2. exact (conj Hins (conj Her Hit)).
Defined.

Lemma erase_insert_moves_last_witness :
  reachable store_3 ∧ modest store_3 ∧
  iterate 1 store_3 = Ret (entries 1 3) store_3 ∧
  entries 1 3 !! 1%nat = Some (2, 20) ∧
  ∃ pos st1 it st2,
    locate (nth_position 1 1) store_3 = Ret pos store_3 ∧
    erase 1 pos store_3 = Ret () st1 ∧
    insert 1 (2, 99) st1 = Ret (it, true) st2 ∧
    iterate 1 st2 = Ret (delete 1%nat (entries 1 3) ++ [(2, 99)]) st2.
Proof.
  assert (reachable store_3) as Hr by is_reachable program_3.
  assert (modest store_3) as Hm by by_computation.
  assert (iterate 1 store_3 = Ret (entries 1 3) store_3) as Hi by by_computation.
  assert (entries 1 3 !! 1%nat = Some (2, 20)) as H1 by by_computation.
  exact (conj Hr (conj Hm (conj Hi (conj H1
           (erase_insert_moves_last store_3 1 _ 1 2 20 99 Hr Hm Hi H1))))).
Defined.

Lemma insert_keeps_iterators_witness :
  reachable store_12 ∧ modest store_12 ∧
  maps store_12 !! 1 = Some (map_of store_12 1) ∧
  iterate 1 store_12 = Ret (entries 1 12) store_12 ∧
  (13 ∉ (entries 1 12).*1) ∧
  entries 1 12 !! 0%nat = Some (1, 10) ∧
  locate (nth_position 1 0) store_12 = Ret (mkIterator 4 1) store_12 ∧
  ∃ it st', insert 1 (13, 130) store_12 = Ret (it, true) st' ∧
            locate (nth_position 1 0) st' = Ret (mkIterator 4 1) st' ∧
            iterator_deref (mkIterator 4 1) st' = Ret (1, 10) st'.
Proof.
  assert (reachable store_12) as Hr by is_reachable program_12.
  assert (modest store_12) as Hm by by_computation.
  assert (maps store_12 !! 1 = Some (map_of store_12 1)) as Em by by_computation.
  assert (iterate 1 store_12 = Ret (entries 1 12) store_12) as Hi by by_computation.
  assert (13 ∉ (entries 1 12).*1) as H13 by by_decision.
  assert (entries 1 12 !! 0%nat = Some (1, 10)) as H0 by by_computation.
  assert (locate (nth_position 1 0) store_12 = Ret (mkIterator 4 1) store_12) as Hl
      by by_computation.
  destruct (insert_keeps_iterators store_12 1 _ _ (13, 130) Hr Hm Em Hi H13)
    as (it & st' & Hins & Hkeep & _).
  destruct (Hkeep _ _ _ H0 Hl) as [Hl' Hd'].
  refine (conj Hr (conj Hm (conj Em (conj Hi (conj H13 (conj H0 (conj Hl _))))))).
  exists it, st'. exact (conj Hins (conj Hl' Hd')).
Defined.

Lemma erase_keeps_iterators_witness :
  reachable store_3 ∧ modest store_3 ∧
  maps store_3 !! 1 = Some (map_of store_3 1) ∧
  iterate 1 store_3 = Ret (entries 1 3) store_3 ∧
  (1 < length (entries 1 3))%nat ∧
  locate (nth_position 1 1) store_3 = Ret (mkIterator 5 1) store_3 ∧
  ∃ st' m', erase 1 (mkIterator 5 1) store_3 = Ret () st' ∧
            maps st' !! 1 = Some m' ∧
            table_size m' = table_size (map_of store_3 1) ∧
            brk st' = brk store_3 ∧
            iterate 1 st' = Ret (delete 1%nat (entries 1 3)) st'.
Proof.
  assert (reachable store_3) as Hr by is_reachable program_3.
  assert (modest store_3) as Hm by by_computation.
  assert (maps store_3 !! 1 = Some (map_of store_3 1)) as Em by by_computation.
  assert (iterate 1 store_3 = Ret (entries 1 3) store_3) as Hi by by_computation.
  assert (1 < length (entries 1 3))%nat as H1 by (vm_compute; lia).
  assert (locate (nth_position 1 1) store_3 = Ret (mkIterator 5 1) store_3) as Hl
      by by_computation.
  destruct (erase_keeps_iterators store_3 1 _ _ 1 _ Hr Hm Em Hi H1 Hl)
    as (st' & m' & Hrun & Em' & Hts & Hbrk & Hit & _).
  refine (conj Hr (conj Hm (conj Em (conj Hi (conj H1 (conj Hl _)))))).
  exists st', m'. exact (conj Hrun (conj Em' (conj Hts (conj Hbrk Hit)))).
Defined.

Lemma containers_independent_witness :
  reachable store_two ∧ modest store_two ∧
  iterate 17 store_two = Ret [(9, 90)] store_two ∧
  step (Insert 1 (99, 990)) store_two = Some store_two_more ∧
  iterate 17 store_two_more = Ret [(9, 90)] store_two_more.
Proof.
  assert (reachable store_two) as Hr by is_reachable program_two.
  assert (modest store_two) as Hm by by_computation.
  assert (iterate 17 store_two = Ret [(9, 90)] store_two) as Hi by by_computation.
  assert (step (Insert 1 (99, 990)) store_two = Some store_two_more) as Hs
      by by_computation.
  assert (1 ≠ 17) as Hne by (intros E; discriminate E).
  destruct (containers_independent store_two 17 _ (Insert 1 (99, 990)) _ Hr Hm Hi
              (or_intror (or_intror (ex_intro _ 1 (conj Hne (or_introl eq_refl)))))
              Hs) as [Hi' _].
  exact (conj Hr (conj Hm (conj Hi (conj Hs Hi')))).
Defined.

Lemma first_insertion_wins_witness :
  reachable store_3 ∧
  iterate 1 store_3 = Ret (entries 1 3) store_3 ∧
  brk store_3 + N.of_nat (length [(2, 99); (7, 70); (7, 71)]) < 2 ^ 47 ∧
  ∃ st', insert_all 1 [(2, 99); (7, 70); (7, 71)] store_3 = Ret () st' ∧
         iterate 1 st' =
           Ret (foldl absorb (entries 1 3) [(2, 99); (7, 70); (7, 71)]) st'.
Proof.
  assert (reachable store_3) as Hr by is_reachable program_3.
  assert (iterate 1 store_3 = Ret (entries 1 3) store_3) as Hi by by_computation.
  assert (brk store_3 + N.of_nat (length [(2, 99); (7, 70); (7, 71)]) < 2 ^ 47) as Hb
      by by_computation.
  destruct (first_insertion_wins store_3 1 _ [(2, 99); (7, 70); (7, 71)] Hr Hi Hb)
    as (st' & Hrun & Hit & _).
  refine (conj Hr (conj Hi (conj Hb _))).
  exists st'. exact (conj Hrun Hit).
Defined.

Lemma bucket_placement_witness :
  reachable store_3 ∧ modest store_3 ∧
  maps store_3 !! 1 = Some (map_of store_3 1) ∧
  iterate 1 store_3 = Ret (entries 1 3) store_3 ∧
  NoDup (entries 1 3).*1 ∧ 0 < table_size (map_of store_3 1).
Proof.
  assert (reachable store_3) as Hr by is_reachable program_3.
  assert (modest store_3) as Hm by by_computation.
  assert (maps store_3 !! 1 = Some (map_of store_3 1)) as Em by by_computation.
  assert (iterate 1 store_3 = Ret (entries 1 3) store_3) as Hi by by_computation.
  destruct (bucket_placement store_3 1 _ _ Hr Hm Em Hi) as (Hnd & Hpos & _).
  exact (conj Hr (conj Hm (conj Em (conj Hi (conj Hnd Hpos))))).
Defined.

Lemma destructor_releases_witness :
  reachable store_two ∧ modest store_two ∧
  maps store_two !! 1 = Some (map_of store_two 1) ∧
  iterate 1 store_two = Ret (entries 1 13) store_two ∧
  ∃ st', destructor 1 store_two = Ret () st' ∧
         maps st' = delete 1 (maps store_two) ∧
         (size (nodes st') + length (entries 1 13) + 2 = size (nodes store_two))%nat.
Proof.
  assert (reachable store_two) as Hr by is_reachable program_two.
  assert (modest store_two) as Hm by by_computation.
  assert (maps store_two !! 1 = Some (map_of store_two 1)) as Em by by_computation.
  assert (iterate 1 store_two = Ret (entries 1 13) store_two) as Hi by by_computation.
  destruct (destructor_releases store_two 1 _ _ Hr Hm Em Hi)
    as (st' & Hrun & Hmaps & _ & Hsz & _).
  refine (conj Hr (conj Hm (conj Em (conj Hi _)))).
  exists st'. exact (conj Hrun (conj Hmaps Hsz)).
Defined.

Lemma calls_are_defined_witness :
  reachable store_3 ∧ modest store_3 ∧
  call_ok store_3 (Erase 1 (Succ (AtEnd 1))) ∧
  exec (Erase 1 (Succ (AtEnd 1))) store_3 ≠ Undef.
Proof.
  assert (reachable store_3) as Hr by is_reachable program_3.
  assert (modest store_3) as Hm by by_computation.
  assert (is_Some (maps store_3 !! 1)) as Hs
      by (exists (map_of store_3 1); by_computation).
  assert (call_ok store_3 (Erase 1 (Succ (AtEnd 1)))) as Hok by exact (conj Hs Hs).
  exact (conj Hr (conj Hm (conj Hok (calls_are_defined store_3 _ Hr Hm Hok)))).
Defined.

Lemma queries_are_defined_witness :
  reachable store_3 ∧ modest store_3 ∧ is_Some (maps store_3 !! 1) ∧
  (∃ kvs, iterate 1 store_3 = Ret kvs store_3) ∧
  (∃ n, size_ 1 store_3 = Ret n store_3).
Proof.
  assert (reachable store_3) as Hr by is_reachable program_3.
  assert (modest store_3) as Hm by by_computation.
  assert (is_Some (maps store_3 !! 1)) as Hs
      by (exists (map_of store_3 1); by_computation).
  destruct (queries_are_defined store_3 1 Hr Hm Hs) as (Hit & Hsz & _).
  exact (conj Hr (conj Hm (conj Hs (conj Hit Hsz)))).
Defined.

Lemma end_stays_valid_witness :
  reachable store_3 ∧ modest store_3 ∧
  maps store_3 !! 1 = Some (map_of store_3 1) ∧
  step (Clear 1) store_3 = Some store_3_cleared ∧
  end_ 1 store_3 = Ret (mkIterator (tail (map_of store_3 1)) 1) store_3 ∧
  end_ 1 store_3_cleared =
    Ret (mkIterator (tail (map_of store_3 1)) 1) store_3_cleared.
Proof.
  assert (reachable store_3) as Hr by is_reachable program_3.
  assert (modest store_3) as Hm by by_computation.
  assert (maps store_3 !! 1 = Some (map_of store_3 1)) as Em by by_computation.
  assert (step (Clear 1) store_3 = Some store_3_cleared) as Hs by by_computation.
  destruct (end_stays_valid store_3 1 _ _ _ Hr Hm Em Hs)
    as (m' & _ & _ & _ & He & He').
  exact (conj Hr (conj Hm (conj Em (conj Hs (conj He He'))))).
Defined.

Lemma no_node_leaks_witness :
  reachable store_3 ∧ modest store_3 ∧
  is_Some (maps store_3 !! 1) ∧
  (∀ o, is_Some (maps store_3 !! o) → o = 1) ∧
  ∃ st', destructor 1 store_3 = Ret () st' ∧ nodes st' = ∅ ∧ maps st' = ∅.
Proof.
  assert (reachable store_3) as Hr by is_reachable program_3.
  assert (modest store_3) as Hm by by_computation.
  assert (is_Some (maps store_3 !! 1)) as Hs
      by (exists (map_of store_3 1); by_computation).
  assert (maps store_3 = {[1 := map_of store_3 1]}) as Emaps by by_computation.
  assert (∀ o, is_Some (maps store_3 !! o) → o = 1) as Honly.
  { intros o. rewrite Emaps. intros [x Hx].
    apply lookup_singleton_Some in Hx. exact (eq_sym (proj1 Hx)). }
  destruct (no_node_leaks store_3 Hr Hm) as [_ Hdes].
  exact (conj Hr (conj Hm (conj Hs (conj Honly (Hdes 1 Hs Honly))))).
Defined.

Lemma deref_end_undefined_witness :
  reachable store_3 ∧ modest store_3 ∧
  end_ 1 store_3 = Ret (mkIterator 3 1) store_3 ∧
  iterator_deref (mkIterator 3 1) store_3 = Undef.
Proof.
  assert (reachable store_3) as Hr by is_reachable program_3.
  assert (modest store_3) as Hm by by_computation.
  assert (end_ 1 store_3 = Ret (mkIterator 3 1) store_3) as He by by_computation.
  destruct (deref_end_undefined store_3 1 _ Hr Hm He) as [Hd _].
  exact (conj Hr (conj Hm (conj He Hd))).
Defined.

Lemma guarded_decrement_witness :
  reachable store_3 ∧ modest store_3 ∧
  iterate 1 store_3 = Ret (entries 1 3) store_3 ∧
  decrement_if_not_begin 1 store_3 = Ret (fst <$> last (entries 1 3)) store_3.
Proof.
  assert (reachable store_3) as Hr by is_reachable program_3.
  assert (modest store_3) as Hm by by_computation.
  assert (iterate 1 store_3 = Ret (entries 1 3) store_3) as Hi by by_computation.
  exact (conj Hr (conj Hm (conj Hi (guarded_decrement store_3 1 _ Hr Hm Hi)))).
Defined.

Lemma capacity_shape_witness :
  reachable store_two ∧ modest store_two ∧
  maps store_two !! 1 = Some (map_of store_two 1) ∧
  iterate 1 store_two = Ret (entries 1 13) store_two ∧
  ∃ k : nat, table_size (map_of store_two 1) = 16 * 2 ^ N.of_nat k ∧
             N.of_nat (length (entries 1 13)) ≤ 12 * 2 ^ N.of_nat k.
Proof.
  assert (reachable store_two) as Hr by is_reachable program_two.
  assert (modest store_two) as Hm by by_computation.
  assert (maps store_two !! 1 = Some (map_of store_two 1)) as Em by by_computation.
  assert (iterate 1 store_two = Ret (entries 1 13) store_two) as Hi by by_computation.
  exact (conj Hr (conj Hm (conj Em (conj Hi
           (capacity_shape store_two 1 _ _ Hr Hm Em Hi))))).
Defined.

Lemma insert_not_exception_safe_witness :
  reachable store_3 ∧ modest store_3 ∧
  iterate 1 store_3 = Ret (entries 1 3) store_3 ∧
  (7 ∉ (entries 1 3).*1) ∧ 2 ∈ (entries 1 3).*1 ∧
  (∃ st', insert_bad_alloc 1 (7, 70) store_3 = Throw bad_alloc st' ∧
          iterate 1 st' = Ret (entries 1 3 ++ [(7, 70)]) st' ∧
          size_ 1 st' = Ret 3 st' ∧
          find 1 7 st' = end_ 1 st' ∧
          count 1 7 st' = Ret 0 st' ∧
          at_ 1 7 st' = Throw index_out_of_bound st') ∧
  insert_bad_alloc 1 (2, 99) store_3 = insert 1 (2, 99) store_3.
Proof.
  assert (reachable store_3) as Hr by is_reachable program_3.
  assert (modest store_3) as Hm by by_computation.
  assert (iterate 1 store_3 = Ret (entries 1 3) store_3) as Hi by by_computation.
  assert (7 ∉ (entries 1 3).*1) as H7 by by_decision.
  assert (2 ∈ (entries 1 3).*1) as H2 by by_decision.
  destruct (insert_not_exception_safe store_3 1 _ 7 70 Hr Hm Hi) as [Hnew _].
  destruct (insert_not_exception_safe store_3 1 _ 2 99 Hr Hm Hi) as [_ Hold].
  exact (conj Hr (conj Hm (conj Hi (conj H7 (conj H2
           (conj (Hnew H7) (Hold H2))))))).
Defined.

Lemma insert_then_lookup_witness :
  reachable store_3 ∧ modest store_3 ∧
  iterate 1 store_3 = Ret (entries 1 3) store_3 ∧
  ∃ it inserted st' v0,
    insert 1 (2, 99) store_3 = Ret (it, inserted) st' ∧
    find 1 2 st' = Ret it st' ∧ count 1 2 st' = Ret 1 st' ∧
    at_ 1 2 st' = Ret (it_node it) st' ∧
    read_ref (it_node it) st' = Ret v0 st'.
Proof.
  assert (reachable store_3) as Hr by is_reachable program_3.
  assert (modest store_3) as Hm by by_computation.
  assert (iterate 1 store_3 = Ret (entries 1 3) store_3) as Hi by by_computation.
  destruct (insert_then_lookup store_3 1 _ 2 99 Hr Hm Hi)
    as (it & b & st' & v0 & Hins & _ & Hf & Hc & Hat & Hrd & _).
  refine (conj Hr (conj Hm (conj Hi _))).
  exists it, b, st', v0. exact (conj Hins (conj Hf (conj Hc (conj Hat Hrd)))).
Defined.

Lemma erase_then_lookup_witness :
  reachable store_3 ∧ modest store_3 ∧
  iterate 1 store_3 = Ret (entries 1 3) store_3 ∧
  entries 1 3 !! 1%nat = Some (2, 20) ∧
  locate (nth_position 1 1) store_3 = Ret (mkIterator 5 1) store_3 ∧
  ∃ st', erase 1 (mkIterator 5 1) store_3 = Ret () st' ∧
         find 1 2 st' = end_ 1 st' ∧ count 1 2 st' = Ret 0 st' ∧
         at_ 1 2 st' = Throw index_out_of_bound st'.
Proof.
  assert (reachable store_3) as Hr by is_reachable program_3.
  assert (modest store_3) as Hm by by_computation.
  assert (iterate 1 store_3 = Ret (entries 1 3) store_3) as Hi by by_computation.
  assert (entries 1 3 !! 1%nat = Some (2, 20)) as H1 by by_computation.
  assert (locate (nth_position 1 1) store_3 = Ret (mkIterator 5 1) store_3) as Hl
      by by_computation.
  destruct (erase_then_lookup store_3 1 _ _ _ _ _ Hr Hm Hi H1 Hl)
    as (st' & Her & Hf & Hc & Hat & _).
  refine (conj Hr (conj Hm (conj Hi (conj H1 (conj Hl _))))).
  exists st'. exact (conj Her (conj Hf (conj Hc Hat))).
Defined.

End Witnesses.
